(** * Splitting vector transfers into a full and a partial part

    A shallow embedding of
    [mlir/lib/Dialect/Vector/Transforms/VectorTransferSplitRewritePatterns.cpp].
    The rewriting functions become functions of a rewriter monad (builder
    state plus C++ assertions); the IR they emit is a small inductive type of
    operations, so that what was created, where, and in which order can be
    stated and proved. *)

From Stdlib Require Import ZArith List Bool Lia Arith.
Import ListNotations.
Local Open Scope Z_scope.

(** ** Types of the IR *)

(** Modelled from the spec: the placeholder of a "dynamic" extent, stride or
    offset ([ShapedType::kDynamic], declared in the builtin type headers). *)
Definition kDynamic : Z := - 2 ^ 63.
Arguments kDynamic : simpl never.

(** Element type of a memory region: a scalar, or a whole vector (the scratch
    buffer viewed "as a single vector-shaped cell"). *)
Inductive ElementType :=
| ScalarType (code : nat)
| VectorElement (shape : list Z) (code : nat).

Record VectorType := {
  vectorShape : list Z;
  vectorElementType : nat
}.

Inductive Layout :=
| IdentityLayout
| StridedLayoutAttr (offset : Z) (strides : list Z)
| AffineMapLayout (code : nat).

Record MemRefType := {
  getShape : list Z;
  getElementType : ElementType;
  getLayout : Layout;
  getMemorySpace : nat
}.

Definition getRank (t : MemRefType) : nat := length (getShape t).

(** [MemRefType::get(shape, elementType)] and
    [MemRefType::get(shape, elementType, layout)]: default memory space. *)
Definition MemRefType_get (shape : list Z) (e : ElementType) : MemRefType :=
  {| getShape := shape; getElementType := e;
     getLayout := IdentityLayout; getMemorySpace := 0%nat |}.

Definition MemRefType_get_layout (shape : list Z) (e : ElementType)
  (l : Layout) : MemRefType :=
  {| getShape := shape; getElementType := e;
     getLayout := l; getMemorySpace := 0%nat |}.

Inductive Type_ :=
| IndexType
| MemRef (t : MemRefType).

(** ** Values, attributes, affine expressions *)

(** An SSA value: defined outside the rewritten fragment (opaque, or an index
    constant that folding can see through), or the [k]-th result of an
    operation the rewriter created. *)
Inductive Value :=
| Arg (n : nat)
| ConstantIndex (c : Z)
| OpResult (op : nat) (k : nat).

Inductive OpFoldResult :=
| Attr (c : Z)
| Val (v : Value).

Inductive AffineExpr :=
| DimExpr (pos : nat)
| ConstExpr (c : Z)
| AddExpr (a b : AffineExpr)
| SubExpr (a b : AffineExpr).

Record AffineMap := {
  getNumDims : nat;
  getResults : list AffineExpr
}.

Inductive CmpIPredicate := sle | slt | eq_.

Inductive LogicalResult := success | failure.

Definition succeeded (r : LogicalResult) : bool :=
  match r with success => true | failure => false end.
Definition failed (r : LogicalResult) : bool := negb (succeeded r).

Inductive VectorTransferSplit :=
| None_
| VectorTransfer
| LinalgCopy
| ForceInBounds.

Record VectorTransformsOptions := {
  vectorTransferSplit : VectorTransferSplit
}.

(** ** The transfer operation *)

Inductive ParentKind := ScfFor | AffineFor | ScfIf | OtherOp (name : nat).

(** An enclosing operation, as far as the transform looks at it. *)
Record ParentOp := {
  parentId : nat;
  parentKind : ParentKind;
  hasAutomaticAllocationScope : bool;
  getNumRegions : nat
}.

Inductive TransferKind := TransferRead | TransferWrite | OtherTransfer.

(** A [VectorTransferOpInterface] operation over a memref. [vector] is the
    result of a read and the stored operand of a write; [getParentOp] is the
    directly enclosing operation and [ancestors] the chain above it, nearest
    first. *)
Record XferOp := {
  kind : TransferKind;
  source : Value;
  getShapedType : MemRefType;
  vector : Value;
  getVectorType : VectorType;
  indices : list Value;
  permutation_map : AffineMap;
  getPadding : Value;
  getMask : option Value;
  in_bounds : option (list bool);
  getParentOp : ParentOp;
  ancestors : list ParentOp
}.

(** ** Operations the transform creates *)

#[warnings="-register-all"] Inductive Op :=
| AffineApplyOp (id : nat) (e : AffineExpr) (operands : list Value)
| AffineMinOp (id : nat) (es : list AffineExpr) (operands : list Value)
| DimOp (id : nat) (src : Value) (index : Z)
| ConstantIndexOp (id : nat) (c : Z)
| ConstantIntOp (id : nat) (c : Z) (width : nat)
| CmpIOp (id : nat) (p : CmpIPredicate) (lhs rhs : Value)
| AndIOp (id : nat) (lhs rhs : Value)
| XOrIOp (id : nat) (lhs rhs : Value)
| AllocaOp (id : nat) (ty : MemRefType) (alignment : Z)
| CastOp (id : nat) (ty : MemRefType) (src : Value)
| SubViewOp (id : nat) (src : Value) (offsets sizes strides : list OpFoldResult)
| FillOp (id : nat) (inputs outputs : list Value)
| CopyOp (id : nat) (src target : Value)
| TypeCastOp (id : nat) (ty : MemRefType) (src : Value)
| StoreOp (id : nat) (value memref : Value) (idxs : list Value)
| LoadOp (id : nat) (memref : Value) (idxs : list Value)
| YieldOp (id : nat) (results : list Value)
| IfOp (id : nat) (cond : Value) (numResults : nat)
       (thenRegion : list Op) (elseRegion : option (list Op))
| TransferOp (id : nat) (x : XferOp).

(** ** The rewriter *)

(** The part of the IR the transform can touch: the transfer operation under
    rewrite, the operations created at the insertion point in front of it, the
    operations created at the start of an allocation scope's entry block, and
    the cell behind the [ifOp] out-parameter. *)
Record IR := {
  nextOp : nat;
  root : XferOp;
  erased : bool;
  block : list Op;
  scopeEntry : list (nat * Op);
  ifOpCell : option Op
}.

Inductive Outcome (A : Type) :=
| Done (a : A)
| AssertionFailure.
Arguments Done {A} a.
Arguments AssertionFailure {A}.

(** A computation over the IR that may trip a C++ [assert]. *)
Definition Rewriter (A : Type) : Type := IR -> Outcome (A * IR).

Definition ret {A} (a : A) : Rewriter A := fun s => Done (a, s).

Definition bind {A B} (m : Rewriter A) (k : A -> Rewriter B) : Rewriter B :=
  fun s => match m s with
           | Done (a, s') => k a s'
           | AssertionFailure => AssertionFailure
           end.

Declare Scope rewriter_scope.
Delimit Scope rewriter_scope with rw.
Notation "x <- m ;; k" := (bind m (fun x => k))
  (at level 100, m at next level, right associativity) : rewriter_scope.
Notation "m ;;; k" := (bind m (fun _ => k))
  (at level 100, right associativity) : rewriter_scope.
Local Open Scope rewriter_scope.

Definition assert_ (b : bool) : Rewriter unit :=
  fun s => if b then Done (tt, s) else AssertionFailure.

Definition abort {A} : Rewriter A := fun _ => AssertionFailure.

(** [b.create<OpTy>(...)]: a new operation at the insertion point. *)
Definition create (mk : nat -> Op) : Rewriter nat :=
  fun s => Done (nextOp s,
                 {| nextOp := S (nextOp s); root := root s; erased := erased s;
                    block := block s ++ [mk (nextOp s)];
                    scopeEntry := scopeEntry s; ifOpCell := ifOpCell s |}).

(** A new operation at the start of the entry block of scope [scope]
    (insertion guard, [setInsertionPointToStart], create, guard restored). *)
Definition createAtStartOf (scope : nat) (mk : nat -> Op) : Rewriter nat :=
  fun s => Done (nextOp s,
                 {| nextOp := S (nextOp s); root := root s; erased := erased s;
                    block := block s;
                    scopeEntry := (scope, mk (nextOp s)) :: scopeEntry s;
                    ifOpCell := ifOpCell s |}).

(** Building a region: the body runs with the insertion point inside a fresh
    block; the operations it created are returned and the insertion point is
    put back. *)
Definition buildRegion (body : Rewriter unit) : Rewriter (list Op) :=
  fun s =>
    match body {| nextOp := nextOp s; root := root s; erased := erased s;
                  block := []; scopeEntry := scopeEntry s;
                  ifOpCell := ifOpCell s |} with
    | Done (_, s') =>
        Done (block s',
              {| nextOp := nextOp s'; root := root s'; erased := erased s';
                 block := block s; scopeEntry := scopeEntry s';
                 ifOpCell := ifOpCell s' |})
    | AssertionFailure => AssertionFailure
    end.

(** A fresh operation identity, for an operation whose regions are built
    before it is inserted. *)
Definition freshOp : Rewriter nat :=
  fun s => Done (nextOp s,
                 {| nextOp := S (nextOp s); root := root s; erased := erased s;
                    block := block s; scopeEntry := scopeEntry s;
                    ifOpCell := ifOpCell s |}).

Definition insert (op : Op) : Rewriter unit :=
  fun s => Done (tt,
                 {| nextOp := nextOp s; root := root s; erased := erased s;
                    block := block s ++ [op]; scopeEntry := scopeEntry s;
                    ifOpCell := ifOpCell s |}).

(** [b.updateRootInPlace(xferOp, f)] and direct mutation of the root. *)
Definition updateRootInPlace (f : XferOp -> XferOp) : Rewriter unit :=
  fun s => Done (tt,
                 {| nextOp := nextOp s; root := f (root s); erased := erased s;
                    block := block s; scopeEntry := scopeEntry s;
                    ifOpCell := ifOpCell s |}).

Definition eraseOp : Rewriter unit :=
  fun s => Done (tt,
                 {| nextOp := nextOp s; root := root s; erased := true;
                    block := block s; scopeEntry := scopeEntry s;
                    ifOpCell := ifOpCell s |}).

(** [if (ifOp) *ifOp = op]. *)
Definition storeIfOp (ifOp : bool) (op : Op) : Rewriter unit :=
  fun s => Done (tt,
                 if ifOp then
                   {| nextOp := nextOp s; root := root s; erased := erased s;
                      block := block s; scopeEntry := scopeEntry s;
                      ifOpCell := Some op |}
                 else s).

Fixpoint foldM {A B} (f : A -> B -> Rewriter A) (l : list B) (a : A)
  : Rewriter A :=
  match l with
  | [] => ret a
  | b :: l' => a' <- f a b ;; foldM f l' a'
  end.

(** [operator[]] on an [ArrayRef] or operand range with a signed index: the
    access is asserted to be in range. *)
Definition lookupZ {A} (l : list A) (i : Z) : option A :=
  if i <? 0 then None else nth_error l (Z.to_nat i).

Definition at_ {A} (l : list A) (i : Z) : Rewriter A :=
  match lookupZ l i with
  | Some a => ret a
  | None => abort
  end.

(** ** Decidable equalities *)

Definition Value_eq_dec (a b : Value) : {a = b} + {a <> b}.
Proof. decide equality; try apply Nat.eq_dec; apply Z.eq_dec. Defined.

Definition ElementType_eq_dec (a b : ElementType) : {a = b} + {a <> b}.
Proof.
  decide equality; try apply Nat.eq_dec; apply (list_eq_dec Z.eq_dec).
Defined.

Definition Layout_eq_dec (a b : Layout) : {a = b} + {a <> b}.
Proof.
  decide equality; try apply Nat.eq_dec; try apply Z.eq_dec;
    apply (list_eq_dec Z.eq_dec).
Defined.

Definition MemRefType_eq_dec (a b : MemRefType) : {a = b} + {a <> b}.
Proof.
  decide equality; try apply Nat.eq_dec; try apply Layout_eq_dec;
    try apply ElementType_eq_dec; apply (list_eq_dec Z.eq_dec).
Defined.

Definition AffineExpr_eq_dec (a b : AffineExpr) : {a = b} + {a <> b}.
Proof. decide equality; try apply Nat.eq_dec; apply Z.eq_dec. Defined.

(** ** The transfer interface

    The interface methods are generated from the interface declaration, which
    is not among the sources; they follow the data model of the spec. *)

(** Modelled from the spec: the transfer rank is the number of results of the
    dimension mapping. *)
Definition getTransferRank (x : XferOp) : nat :=
  length (getResults (permutation_map x)).

(** Modelled from the spec: the "leading" prefix has
    [rank(region) - rank(vector)] dimensions (a signed subtraction). *)
Definition getLeadingShapedRank (x : XferOp) : Z :=
  Z.of_nat (getRank (getShapedType x)) - Z.of_nat (getTransferRank x).

(** Modelled from the spec: the trailing-identity mapping of [results]
    dimensions out of [dims]: vector dimension [i] maps to region dimension
    [dims - results + i]. *)
Definition getMinorIdentityMap (dims results : nat) : AffineMap :=
  {| getNumDims := dims;
     getResults := map DimExpr (seq (dims - results) results) |}.

(** Modelled from the spec: "only the trailing-identity mapping is
    supported"; the map is the minor identity of its own dimensions and
    results ([AffineMap::isMinorIdentity]). *)
Definition isMinorIdentity (m : AffineMap) : bool :=
  (length (getResults m) <=? getNumDims m)%nat &&
  if list_eq_dec AffineExpr_eq_dec (getResults m)
       (getResults (getMinorIdentityMap (getNumDims m) (length (getResults m))))
  then true else false.

(** Modelled from the spec: a broadcast dimension is a constant-zero result
    of the dimension mapping. *)
Definition isBroadcastDim (x : XferOp) (dim : nat) : bool :=
  match nth_error (getResults (permutation_map x)) dim with
  | Some (ConstExpr 0) => true
  | _ => false
  end.

(** Modelled from the spec: the per-dimension in-bounds flag; without a flag
    array no dimension is known to be in bounds. *)
Definition isDimInBounds (x : XferOp) (dim : nat) : bool :=
  isBroadcastDim x dim ||
  match in_bounds x with
  | None => false
  | Some flags => nth dim flags false
  end.

(** Modelled from the spec: "at least one in-bounds flag is false". *)
Definition hasOutOfBoundsDim (x : XferOp) : bool :=
  existsb (fun dim => negb (isDimInBounds x dim)) (seq 0 (getTransferRank x)).

(** Modelled from the spec: the pairs (result dimension, region dimension)
    of the trailing window, [indicesIdx = leading rank + resultIdx]. *)
Definition zipResultAndIndexing (x : XferOp) : list (nat * Z) :=
  map (fun resultIdx => (resultIdx, getLeadingShapedRank x + Z.of_nat resultIdx))
      (seq 0 (getTransferRank x)).

Definition setInBounds (flags : list bool) (x : XferOp) : XferOp :=
  {| kind := kind x; source := source x; getShapedType := getShapedType x;
     vector := vector x; getVectorType := getVectorType x;
     indices := indices x; permutation_map := permutation_map x;
     getPadding := getPadding x; getMask := getMask x;
     in_bounds := Some flags;
     getParentOp := getParentOp x; ancestors := ancestors x |}.

Fixpoint replaceAt {A} (l : list A) (i : nat) (a : A) : list A :=
  match l, i with
  | [], _ => []
  | _ :: l', O => a :: l'
  | b :: l', S i' => b :: replaceAt l' i' a
  end.

(** Modelled from the spec: "rewrite the original read operation's
    region/index operands to consume the conditional's results".
    [xferReadOp.setOperand(i, v)]: the operands of a read are the source,
    the indices, the padding and the optional mask, in this order. The
    shaped type is the type of the source operand. *)
Definition setOperand (i : nat) (v : Value) (ty : Type_) (x : XferOp)
  : XferOp :=
  let n := length (indices x) in
  {| kind := kind x;
     source := if (i =? 0)%nat then v else source x;
     getShapedType := match i, ty with
                      | O, MemRef t => t
                      | _, _ => getShapedType x
                      end;
     vector := vector x; getVectorType := getVectorType x;
     indices := if (i =? 0)%nat then indices x
                else replaceAt (indices x) (i - 1) v;
     permutation_map := permutation_map x;
     getPadding := if (i =? S n)%nat then v else getPadding x;
     getMask := match getMask x with
                | Some m => Some (if (i =? S (S n))%nat then v else m)
                | None => None
                end;
     in_bounds := in_bounds x;
     getParentOp := getParentOp x; ancestors := ancestors x |}.

Definition setShapedType (t : MemRefType) (x : XferOp) : XferOp :=
  {| kind := kind x; source := source x; getShapedType := t;
     vector := vector x; getVectorType := getVectorType x;
     indices := indices x; permutation_map := permutation_map x;
     getPadding := getPadding x; getMask := getMask x;
     in_bounds := in_bounds x;
     getParentOp := getParentOp x; ancestors := ancestors x |}.

(** ** Cloning with a value mapping *)

(** Modelled from the spec: cloning is "expressed ... with explicit handle
    remapping (a mapping table)". An [IRMapping]: the latest binding of a key
    wins. *)
Definition IRMapping := list (Value * Value).

Definition mapValue (m : IRMapping) (from to : Value) : IRMapping :=
  (from, to) :: m.

Fixpoint mapValues (m : IRMapping) (from to : list Value) : IRMapping :=
  match from, to with
  | f :: from', t :: to' => mapValues (mapValue m f t) from' to'
  | _, _ => m
  end.

Fixpoint lookupOrDefault (m : IRMapping) (v : Value) : Value :=
  match m with
  | [] => v
  | (k, w) :: m' => if Value_eq_dec k v then w else lookupOrDefault m' v
  end.

Definition ifParent (id : nat) : ParentOp :=
  {| parentId := id; parentKind := ScfIf;
     hasAutomaticAllocationScope := false; getNumRegions := 2%nat |}.

(** Modelled from the spec: the clone [id] of [x] under the mapping table
    [m]: operands are remapped; the result of a
    cloned read is the clone's own result. [inside] is the conditional whose
    region receives the clone, if any. *)
Definition cloneXfer (m : IRMapping) (inside : option nat) (id : nat)
  (x : XferOp) : XferOp :=
  {| kind := kind x;
     source := lookupOrDefault m (source x);
     getShapedType := getShapedType x;
     vector := match kind x with
               | TransferRead => OpResult id 0
               | _ => lookupOrDefault m (vector x)
               end;
     getVectorType := getVectorType x;
     indices := map (lookupOrDefault m) (indices x);
     permutation_map := permutation_map x;
     getPadding := lookupOrDefault m (getPadding x);
     getMask := option_map (lookupOrDefault m) (getMask x);
     in_bounds := in_bounds x;
     getParentOp := match inside with
                    | Some i => ifParent i
                    | None => getParentOp x
                    end;
     ancestors := match inside with
                  | Some _ => getParentOp x :: ancestors x
                  | None => ancestors x
                  end |}.

Definition clone (m : IRMapping) (inside : option nat) (x : XferOp)
  : Rewriter XferOp :=
  id <- freshOp ;;
  let c := cloneXfer m inside id x in
  insert (TransferOp id c) ;;; ret c.

(** ** Folding helpers of the builder

    These builder utilities are declared outside the sources. *)

(** Value of an affine expression over constant operands. *)
Fixpoint evalAffineExpr (e : AffineExpr) (dims : list Z) : option Z :=
  match e with
  | DimExpr p => nth_error dims p
  | ConstExpr c => Some c
  | AddExpr a b =>
      match evalAffineExpr a dims, evalAffineExpr b dims with
      | Some x, Some y => Some (x + y)
      | _, _ => None
      end
  | SubExpr a b =>
      match evalAffineExpr a dims, evalAffineExpr b dims with
      | Some x, Some y => Some (x - y)
      | _, _ => None
      end
  end.

Definition constantOf (v : Value) : option Z :=
  match v with
  | ConstantIndex c => Some c
  | _ => None
  end.

Fixpoint allConstants (vs : list Value) : option (list Z) :=
  match vs with
  | [] => Some []
  | v :: vs' =>
      match constantOf v, allConstants vs' with
      | Some c, Some cs => Some (c :: cs)
      | _, _ => None
      end
  end.

(** Modelled from the spec: "index arithmetic that folds to a constant when
    both operands are constant"; otherwise one [affine.apply] is created. *)
Definition makeComposedFoldedAffineApply (e : AffineExpr)
  (operands : list Value) : Rewriter OpFoldResult :=
  match allConstants operands with
  | Some cs =>
      match evalAffineExpr e cs with
      | Some c => ret (Attr c)
      | None => abort
      end
  | None =>
      id <- create (fun id => AffineApplyOp id e operands) ;;
      ret (Val (OpResult id 0))
  end.

(** Modelled from the spec: "fetch the region's extent at that dimension
    (constant if statically known)"; a dynamic extent is read by a
    [memref.dim]. *)
Definition getMixedSize (value : Value) (ty : MemRefType) (dim : Z)
  : Rewriter OpFoldResult :=
  sz <- at_ (getShape ty) dim ;;
  if sz =? kDynamic then
    id <- create (fun id => DimOp id value dim) ;;
    ret (Val (OpResult id 0))
  else ret (Attr sz).

(** Modelled from the spec: the constant an extent or a sum "folds to",
    when it is one. *)
Definition getConstantIntValue (ofr : OpFoldResult) : option Z :=
  match ofr with
  | Attr c => Some c
  | Val v => constantOf v
  end.

(** Modelled from the spec: the comparison is emitted over values; a
    folded constant is materialised as an index constant. *)
Definition getValueOrCreateConstantIndexOp (ofr : OpFoldResult)
  : Rewriter Value :=
  match ofr with
  | Val v => ret v
  | Attr c =>
      id <- create (fun id => ConstantIndexOp id c) ;;
      ret (OpResult id 0)
  end.

(** Number of values a region yields. *)
Definition yieldArity (region : list Op) : nat :=
  match last region (YieldOp 0 []) with
  | YieldOp _ vs => length vs
  | _ => 0%nat
  end.

(** Modelled from the spec: "a two-armed conditional guarded by the bounds
    condition, yielding (region-descriptor, index...)".
    [b.create<scf::IfOp>(loc, cond, thenBuilder, elseBuilder)]: the result
    count is that of the values the then-region yields. The builders receive
    the identity of the conditional they populate. *)
Definition createIfOp (cond : Value) (thenBuilder : nat -> Rewriter unit)
  (elseBuilder : option (nat -> Rewriter unit)) : Rewriter Op :=
  id <- freshOp ;;
  thenOps <- buildRegion (thenBuilder id) ;;
  elseOps <- match elseBuilder with
             | Some e => r <- buildRegion (e id) ;; ret (Some r)
             | None => ret None
             end ;;
  let op := IfOp id cond (yieldArity thenOps) thenOps elseOps in
  insert op ;;; ret op.

Definition getResult (op : Op) (k : nat) : Value :=
  match op with
  | AffineApplyOp id _ _ | AffineMinOp id _ _ | DimOp id _ _
  | ConstantIndexOp id _ | ConstantIntOp id _ _ | CmpIOp id _ _ _
  | AndIOp id _ _ | XOrIOp id _ _ | AllocaOp id _ _ | CastOp id _ _
  | SubViewOp id _ _ _ _ | FillOp id _ _ | CopyOp id _ _ | TypeCastOp id _ _
  | StoreOp id _ _ _ | LoadOp id _ _ | YieldOp id _ | IfOp id _ _ _ _
  | TransferOp id _ => OpResult id k
  end.

Definition getResults_ (op : Op) : list Value :=
  match op with
  | IfOp id _ n _ _ => map (OpResult id) (seq 0 n)
  | _ => []
  end.

(** ** The transform *)

(** [maybeCstSum && maybeCstDimSz && *maybeCstSum <= *maybeCstDimSz]
    (source line 64). *)
Definition staticallyInBounds (maybeCstSum maybeCstDimSz : option Z) : bool :=
  match maybeCstSum, maybeCstDimSz with
  | Some cstSum, Some cstDimSz => cstSum <=? cstDimSz
  | _, _ => false
  end.

(** Build the condition that a transfer is in bounds (source lines 43-77).
    The body of the [zipResultAndIndexing] callback, with the condition so
    far as accumulator. The operands of the comparison are materialised left
    to right. *)
Definition inBoundsCondStep (xferOp : XferOp) (inBoundsCond : option Value)
  (dim : nat * Z) : Rewriter (option Value) :=
  let '(resultIdx, indicesIdx) := dim in
  if isDimInBounds xferOp resultIdx then ret inBoundsCond
  else
    vectorSize <- at_ (vectorShape (getVectorType xferOp)) (Z.of_nat resultIdx) ;;
    index <- at_ (indices xferOp) indicesIdx ;;
    sum <- makeComposedFoldedAffineApply
             (AddExpr (DimExpr 0) (ConstExpr vectorSize)) [index] ;;
    dimSz <- getMixedSize (source xferOp) (getShapedType xferOp) indicesIdx ;;
    if staticallyInBounds (getConstantIntValue sum) (getConstantIntValue dimSz)
    then ret inBoundsCond
    else
      lhs <- getValueOrCreateConstantIndexOp sum ;;
      rhs <- getValueOrCreateConstantIndexOp dimSz ;;
      cond <- create (fun id => CmpIOp id sle lhs rhs) ;;
      match inBoundsCond with
      | Some c =>
          a <- create (fun id => AndIOp id c (OpResult cond 0)) ;;
          ret (Some (OpResult a 0))
      | None => ret (Some (OpResult cond 0))
      end.

Definition createInBoundsCond (xferOp : XferOp) : Rewriter (option Value) :=
  assert_ (isMinorIdentity (permutation_map xferOp)) ;;;
  foldM (inBoundsCondStep xferOp) (zipResultAndIndexing xferOp) None.

Definition isScfIf (p : ParentOp) : bool :=
  match parentKind p with ScfIf => true | _ => false end.

(** Source lines 112-130. *)
Definition splitFullAndPartialTransferPrecondition (xferOp : XferOp)
  : LogicalResult :=
  if (getTransferRank xferOp =? 0)%nat then failure
  else if negb (isMinorIdentity (permutation_map xferOp)) then failure
  else if negb (hasOutOfBoundsDim xferOp) then failure
  else if isScfIf (getParentOp xferOp) then failure
  else success.

(** The body of the callback of source lines 185-199: the size of the
    overlap at one trailing dimension. *)
Definition subViewSizeStep (xferOp : XferOp) (alloc : Value)
  (sizes : list OpFoldResult) (dim : nat * Z) : Rewriter (list OpFoldResult) :=
  let '(resultIdx, indicesIdx) := dim in
  dimMemRef <- create (fun id => DimOp id (source xferOp) indicesIdx) ;;
  dimAlloc <- create (fun id => DimOp id alloc (Z.of_nat resultIdx)) ;;
  index <- at_ (indices xferOp) indicesIdx ;;
  affineMin <- create (fun id =>
                 AffineMinOp id
                   [SubExpr (DimExpr 0) (DimExpr 1); DimExpr 2]
                   [OpResult dimMemRef 0; index; OpResult dimAlloc 0]) ;;
  ret (sizes ++ [Val (OpResult affineMin 0)]).

Definition hasMask (xferOp : XferOp) : bool :=
  match getMask xferOp with Some _ => true | None => false end.

Definition strategyIs (a b : VectorTransferSplit) : bool :=
  match a, b with
  | None_, None_ | VectorTransfer, VectorTransfer
  | LinalgCopy, LinalgCopy | ForceInBounds, ForceInBounds => true
  | _, _ => false
  end.

Definition isaWrite (xferOp : XferOp) : bool :=
  match kind xferOp with TransferWrite => true | _ => false end.

Definition isaRead (xferOp : XferOp) : bool :=
  match kind xferOp with TransferRead => true | _ => false end.

(** Operates at the insertion point to build the intersection between the
    view of the source at the transfer indices and the view [alloc] (source
    lines 172-210). [allocTy] is [alloc.getType()]. *)
Definition createSubViewIntersection (xferOp : XferOp) (alloc : Value)
  (allocTy : MemRefType) : Rewriter (Value * Value) :=
  let memrefRank := getRank (getShapedType xferOp) in
  assert_ (memrefRank =? getRank allocTy)%nat ;;;
  let leadingIndices :=
    firstn (Z.to_nat (getLeadingShapedRank xferOp)) (indices xferOp) in
  let sizes0 := map Val leadingIndices in
  sizes <- foldM (subViewSizeStep xferOp alloc)
             (zipResultAndIndexing xferOp) sizes0 ;;
  let srcIndices := map Val (indices xferOp) in
  let destIndices := repeat (Attr 0) memrefRank in
  let strides := repeat (Attr 1) memrefRank in
  copySrc <- create (fun id =>
               SubViewOp id (if isaWrite xferOp then alloc else source xferOp)
                 srcIndices sizes strides) ;;
  copyDest <- create (fun id =>
                SubViewOp id (if isaWrite xferOp then source xferOp else alloc)
                  destIndices sizes strides) ;;
  ret (OpResult copySrc 0, OpResult copyDest 0).

(** The then-region shared by the three two-armed conditionals: cast the
    source if needed and yield it with the original indices. *)
Definition yieldSourceView (xferOp : XferOp)
  (compatibleMemRefType : MemRefType) : Rewriter unit :=
  let memref := source xferOp in
  res <- (if MemRefType_eq_dec compatibleMemRefType (getShapedType xferOp)
          then ret memref
          else id <- create (fun id => CastOp id compatibleMemRefType memref) ;;
               ret (OpResult id 0)) ;;
  _ <- create (fun id => YieldOp id (res :: indices xferOp)) ;;
  ret tt.

(** The tail shared by the else-regions: cast the buffer and yield it with
    all-zero indices. *)
Definition yieldAllocView (xferOp : XferOp)
  (compatibleMemRefType : MemRefType) (alloc zero : Value) : Rewriter unit :=
  casted <- create (fun id => CastOp id compatibleMemRefType alloc) ;;
  _ <- create (fun id =>
         YieldOp id (OpResult casted 0 :: repeat zero (getTransferRank xferOp))) ;;
  ret tt.

(** Source lines 230-265 (read overload). *)
Definition createFullPartialLinalgCopy (xferOp : XferOp)
  (returnTypes : list Type_) (inBoundsCond : Value)
  (compatibleMemRefType : MemRefType) (alloc : Value) (allocTy : MemRefType)
  : Rewriter Op :=
  zeroId <- create (fun id => ConstantIndexOp id 0) ;;
  let zero := OpResult zeroId 0 in
  createIfOp inBoundsCond
    (fun _ => yieldSourceView xferOp compatibleMemRefType)
    (Some (fun _ =>
       _ <- create (fun id => FillOp id [getPadding xferOp] [alloc]) ;;
       copyArgs <- createSubViewIntersection xferOp alloc allocTy ;;
       _ <- create (fun id => CopyOp id (fst copyArgs) (snd copyArgs)) ;;
       yieldAllocView xferOp compatibleMemRefType alloc zero)).

(** Source lines 285-318. *)
Definition createFullPartialVectorTransferRead (xferOp : XferOp)
  (returnTypes : list Type_) (inBoundsCond : Value)
  (compatibleMemRefType : MemRefType) (alloc : Value) : Rewriter Op :=
  zeroId <- create (fun id => ConstantIndexOp id 0) ;;
  let zero := OpResult zeroId 0 in
  createIfOp inBoundsCond
    (fun _ => yieldSourceView xferOp compatibleMemRefType)
    (Some (fun ifId =>
       newXfer <- clone [] (Some ifId) xferOp ;;
       let vec := vector newXfer in
       let vecTy := getVectorType xferOp in
       cast <- create (fun id =>
                 TypeCastOp id
                   (MemRefType_get []
                      (VectorElement (vectorShape vecTy) (vectorElementType vecTy)))
                   alloc) ;;
       _ <- create (fun id => StoreOp id vec (OpResult cast 0) []) ;;
       yieldAllocView xferOp compatibleMemRefType alloc zero)).

(** Source lines 335-364: the results of the conditional. *)
Definition getLocationToWriteFullVec (xferOp : XferOp)
  (returnTypes : list Type_) (inBoundsCond : Value)
  (compatibleMemRefType : MemRefType) (alloc : Value) : Rewriter (list Value) :=
  zeroId <- create (fun id => ConstantIndexOp id 0) ;;
  let zero := OpResult zeroId 0 in
  ifOp <- createIfOp inBoundsCond
            (fun _ => yieldSourceView xferOp compatibleMemRefType)
            (Some (fun _ =>
               yieldAllocView xferOp compatibleMemRefType alloc zero)) ;;
  ret (getResults_ ifOp).

(** Source lines 379-393 (write overload). *)
Definition createFullPartialLinalgCopyWrite (xferOp : XferOp)
  (inBoundsCond alloc : Value) (allocTy : MemRefType) : Rewriter unit :=
  true_ <- create (fun id => ConstantIntOp id 1 1) ;;
  notInBounds <- create (fun id => XOrIOp id inBoundsCond (OpResult true_ 0)) ;;
  _ <- createIfOp (OpResult notInBounds 0)
         (fun _ =>
            copyArgs <- createSubViewIntersection xferOp alloc allocTy ;;
            _ <- create (fun id => CopyOp id (fst copyArgs) (snd copyArgs)) ;;
            _ <- create (fun id => YieldOp id []) ;;
            ret tt)
         None ;;
  ret tt.

(** Source lines 407-425. *)
Definition createFullPartialVectorTransferWrite (xferOp : XferOp)
  (inBoundsCond alloc : Value) : Rewriter unit :=
  true_ <- create (fun id => ConstantIntOp id 1 1) ;;
  notInBounds <- create (fun id => XOrIOp id inBoundsCond (OpResult true_ 0)) ;;
  _ <- createIfOp (OpResult notInBounds 0)
         (fun ifId =>
            let vecTy := getVectorType xferOp in
            cast <- create (fun id =>
                      TypeCastOp id
                        (MemRefType_get []
                           (VectorElement (vectorShape vecTy)
                              (vectorElementType vecTy)))
                        alloc) ;;
            load <- create (fun id => LoadOp id (OpResult cast 0) []) ;;
            let mapping := mapValue [] (vector xferOp) (OpResult load 0) in
            _ <- clone mapping (Some ifId) xferOp ;;
            _ <- create (fun id => YieldOp id []) ;;
            ret tt)
         None ;;
  ret tt.

Definition isLoop (p : ParentOp) : bool :=
  match parentKind p with
  | ScfFor | AffineFor => true
  | _ => false
  end.

(** The loop of source lines 432-439 over the chain of enclosing
    operations, nearest first. *)
Fixpoint walkAllocationScope (scope : option ParentOp) (chain : list ParentOp)
  : option ParentOp :=
  match chain with
  | [] => scope
  | parent :: rest =>
      let scope' := if hasAutomaticAllocationScope parent then Some parent
                    else scope in
      if negb (isLoop parent) then scope'
      else walkAllocationScope scope' rest
  end.

(** Source lines 428-442. *)
Definition getAutomaticAllocationScope (op : XferOp) : Rewriter ParentOp :=
  match walkAllocationScope None (getParentOp op :: ancestors op) with
  | Some scope => ret scope
  | None => abort
  end.

(** ** Execution of the emitted operations

    The run-time meaning of the operations is fixed by the dialects, outside
    the sources; the definitions of this part follow the spec. Index
    arithmetic is over unbounded integers. *)

(** A view of a buffer: the window of [viewSizes] cells that starts at
    [viewOffsets] (unit strides). *)
Record View := {
  buffer : nat;
  viewOffsets : list Z;
  viewSizes : list Z
}.

Inductive RValue :=
| RIndex (z : Z)
| RBool (b : bool)
| RScalar (z : Z)
| RMemRef (v : View)
| RVector (elems : list Z).

(** A buffer of row-major cells. *)
Record Buffer := {
  bufShape : list Z;
  cells : list Z
}.

Record Machine := {
  args : nat -> option RValue;
  results : nat -> nat -> option RValue;
  memory : list Buffer;
  yielded : list RValue
}.

Definition lookupValue (m : Machine) (v : Value) : option RValue :=
  match v with
  | Arg n => args m n
  | ConstantIndex c => Some (RIndex c)
  | OpResult id k => results m id k
  end.

Definition bindResult (id k : nat) (r : RValue) (m : Machine) : Machine :=
  {| args := args m;
     results := fun id' k' =>
                  if ((id' =? id) && (k' =? k))%nat then Some r
                  else results m id' k';
     memory := memory m; yielded := yielded m |}.

Definition setMemory (mem : list Buffer) (m : Machine) : Machine :=
  {| args := args m; results := results m; memory := mem;
     yielded := yielded m |}.

Definition setYielded (ys : list RValue) (m : Machine) : Machine :=
  {| args := args m; results := results m; memory := memory m;
     yielded := ys |}.

Definition indexOf (m : Machine) (v : Value) : option Z :=
  match lookupValue m v with Some (RIndex z) => Some z | _ => None end.

Definition boolOf (m : Machine) (v : Value) : option bool :=
  match lookupValue m v with Some (RBool b) => Some b | _ => None end.

Definition scalarOf (m : Machine) (v : Value) : option Z :=
  match lookupValue m v with Some (RScalar z) => Some z | _ => None end.

Definition viewOf (m : Machine) (v : Value) : option View :=
  match lookupValue m v with Some (RMemRef w) => Some w | _ => None end.

Definition vectorOf (m : Machine) (v : Value) : option (list Z) :=
  match lookupValue m v with Some (RVector e) => Some e | _ => None end.

Fixpoint mapOpt {A B} (f : A -> option B) (l : list A) : option (list B) :=
  match l with
  | [] => Some []
  | a :: l' =>
      match f a, mapOpt f l' with
      | Some b, Some bs => Some (b :: bs)
      | _, _ => None
      end
  end.

Definition foldResultOf (m : Machine) (o : OpFoldResult) : option Z :=
  match o with
  | Attr c => Some c
  | Val v => indexOf m v
  end.

(** Row-major offset of a position in a buffer of the given shape; [None]
    outside the buffer. *)
Fixpoint linearize (shape pos : list Z) : option Z :=
  match shape, pos with
  | [], [] => Some 0
  | d :: shape', p :: pos' =>
      if (0 <=? p) && (p <? d) then
        match linearize shape' pos' with
        | Some r => Some (p * fold_right Z.mul 1 shape' + r)
        | None => None
        end
      else None
  | _, _ => None
  end.

Fixpoint addPos (a b : list Z) : option (list Z) :=
  match a, b with
  | [], [] => Some []
  | x :: a', y :: b' =>
      match addPos a' b' with
      | Some r => Some (x + y :: r)
      | None => None
      end
  | _, _ => None
  end.

Fixpoint inWindow (sizes pos : list Z) : bool :=
  match sizes, pos with
  | [], [] => true
  | d :: sizes', p :: pos' => (0 <=? p) && (p <? d) && inWindow sizes' pos'
  | _, _ => false
  end.

(** Address of position [pos] of a view: inside the window and inside the
    underlying buffer. *)
Definition address (mem : list Buffer) (w : View) (pos : list Z)
  : option (Buffer * nat) :=
  if inWindow (viewSizes w) pos then
    match nth_error mem (buffer w), addPos (viewOffsets w) pos with
    | Some b, Some abs =>
        match linearize (bufShape b) abs with
        | Some k => Some (b, Z.to_nat k)
        | None => None
        end
    | _, _ => None
    end
  else None.

Definition readCell (mem : list Buffer) (w : View) (pos : list Z) : option Z :=
  match address mem w pos with
  | Some (b, k) => nth_error (cells b) k
  | None => None
  end.

Definition writeCell (mem : list Buffer) (w : View) (pos : list Z) (z : Z)
  : option (list Buffer) :=
  match address mem w pos with
  | Some (b, k) =>
      if (k <? length (cells b))%nat then
        Some (replaceAt mem (buffer w)
                {| bufShape := bufShape b; cells := replaceAt (cells b) k z |})
      else None
  | None => None
  end.

(** All positions of a window, in row-major order; none when an extent is
    not positive. *)
Fixpoint positions (sizes : list Z) : list (list Z) :=
  match sizes with
  | [] => [[]]
  | d :: sizes' =>
      flat_map (fun i => map (cons (Z.of_nat i)) (positions sizes'))
               (seq 0 (Z.to_nat d))
  end.

Fixpoint writeCells (mem : list Buffer) (w : View)
  (items : list (list Z * Z)) : option (list Buffer) :=
  match items with
  | [] => Some mem
  | (pos, z) :: items' =>
      match writeCell mem w pos z with
      | Some mem' => writeCells mem' w items'
      | None => None
      end
  end.

(** Modelled from the spec: "bulk-fills the buffer with the pad value"
    ([linalg.fill]): every cell of the window receives the value. *)
Definition fillView (mem : list Buffer) (w : View) (z : Z)
  : option (list Buffer) :=
  writeCells mem w (map (fun pos => (pos, z)) (positions (viewSizes w))).

(** Modelled from the spec: "copy the overlap" ([memref.copy]): the
    windows have the same sizes; cell by cell. *)
Definition copyView (mem : list Buffer) (src tgt : View)
  : option (list Buffer) :=
  if list_eq_dec Z.eq_dec (viewSizes src) (viewSizes tgt) then
    match mapOpt (fun pos => match readCell mem src pos with
                             | Some z => Some (pos, z)
                             | None => None
                             end) (positions (viewSizes src)) with
    | Some items => writeCells mem tgt items
    | None => None
    end
  else None.

(** Modelled from the spec: one lane of a "fully-masked" transfer.
    [Some (Some pos)]: the lane is active and
    touches [pos]; [Some None]: the lane is masked off (beyond the extent of a
    dimension that is not flagged in bounds); [None]: undefined (beyond the
    extent of a dimension flagged in bounds, or a negative position). *)
Fixpoint lanePosition (flags : list bool) (sizes idxs lane : list Z)
  : option (option (list Z)) :=
  match sizes, idxs, lane, flags with
  | [], [], [], [] => Some (Some [])
  | d :: sizes', i :: idxs', l :: lane', f :: flags' =>
      let p := i + l in
      if p <? 0 then None
      else if p <? d then
        match lanePosition flags' sizes' idxs' lane' with
        | Some (Some r) => Some (Some (p :: r))
        | other => other
        end
      else if f then None
      else
        match lanePosition flags' sizes' idxs' lane' with
        | Some _ => Some None
        | None => None
        end
  | _, _, _, _ => None
  end.

Definition laneFlags (x : XferOp) : list bool :=
  map (isDimInBounds x) (seq 0 (getTransferRank x)).

(** The lanes of a transfer over a view, row-major; leading dimensions are
    addressed by their index alone and count as flagged in bounds. *)
Definition lanes (x : XferOp) (w : View) (idxs : list Z)
  : option (list (option (list Z))) :=
  let lead := (length (viewSizes w) - getTransferRank x)%nat in
  mapOpt (fun lane =>
            lanePosition (repeat true lead ++ laneFlags x) (viewSizes w) idxs
              (repeat 0 lead ++ lane))
         (positions (vectorShape (getVectorType x))).

(** Modelled from the spec: a read observes the cell of every active lane
    and the pad value in every masked lane. *)
Definition transferRead (mem : list Buffer) (x : XferOp) (w : View)
  (idxs : list Z) (pad : Z) : option (list Z) :=
  match lanes x w idxs with
  | Some ls =>
      mapOpt (fun l => match l with
                       | Some pos => readCell mem w pos
                       | None => Some pad
                       end) ls
  | None => None
  end.

Fixpoint writeLanes (mem : list Buffer) (w : View)
  (ls : list (option (list Z))) (vec : list Z) : option (list Buffer) :=
  match ls, vec with
  | [], [] => Some mem
  | Some pos :: ls', z :: vec' =>
      match writeCell mem w pos z with
      | Some mem' => writeLanes mem' w ls' vec'
      | None => None
      end
  | None :: ls', _ :: vec' => writeLanes mem w ls' vec'
  | _, _ => None
  end.

(** Modelled from the spec: a write stores every active lane; "out-of-bounds
    lanes are never written". *)
Definition transferWrite (mem : list Buffer) (x : XferOp) (w : View)
  (idxs : list Z) (vec : list Z) : option (list Buffer) :=
  match lanes x w idxs with
  | Some ls => writeLanes mem w ls vec
  | None => None
  end.

(** Modelled from the spec: a transfer operation: the machine after it and,
    for a read, the vector it observed. Masked or permuted transfers are not given a meaning. *)
Definition execTransfer (x : XferOp) (m : Machine)
  : option (Machine * option (list Z)) :=
  if hasMask x || negb (isMinorIdentity (permutation_map x)) then None
  else
    match viewOf m (source x), mapOpt (indexOf m) (indices x) with
    | Some w, Some idxs =>
        match kind x with
        | TransferRead =>
            match scalarOf m (getPadding x) with
            | Some pad =>
                match transferRead (memory m) x w idxs pad with
                | Some vec => Some (m, Some vec)
                | None => None
                end
            | None => None
            end
        | TransferWrite =>
            match vectorOf m (vector x) with
            | Some vec =>
                match transferWrite (memory m) x w idxs vec with
                | Some mem' => Some (setMemory mem' m, None)
                | None => None
                end
            | None => None
            end
        | OtherTransfer => None
        end
    | _, _ => None
    end.

Definition minimum (l : list Z) : option Z :=
  match l with
  | [] => None
  | z :: l' => Some (fold_left Z.min l' z)
  end.

Definition staticShape (shape : list Z) : bool :=
  forallb (fun d => 0 <=? d) shape.

Fixpoint bindResults (id k : nat) (rs : list RValue) (m : Machine) : Machine :=
  match rs with
  | [] => m
  | r :: rs' => bindResults id (S k) rs' (bindResult id k r m)
  end.

(** Modelled from the spec: one step of each created operation. *)
Fixpoint execOp (op : Op) (m : Machine) {struct op} : option Machine :=
  match op with
  | AffineApplyOp id e operands =>
      match mapOpt (indexOf m) operands with
      | Some vs =>
          match evalAffineExpr e vs with
          | Some r => Some (bindResult id 0 (RIndex r) m)
          | None => None
          end
      | None => None
      end
  | AffineMinOp id es operands =>
      match mapOpt (indexOf m) operands with
      | Some vs =>
          match mapOpt (fun e => evalAffineExpr e vs) es with
          | Some rs =>
              match minimum rs with
              | Some r => Some (bindResult id 0 (RIndex r) m)
              | None => None
              end
          | None => None
          end
      | None => None
      end
  | DimOp id src index =>
      match viewOf m src with
      | Some w =>
          match lookupZ (viewSizes w) index with
          | Some d => Some (bindResult id 0 (RIndex d) m)
          | None => None
          end
      | None => None
      end
  | ConstantIndexOp id c => Some (bindResult id 0 (RIndex c) m)
  | ConstantIntOp id c width =>
      if (width =? 1)%nat then Some (bindResult id 0 (RBool (negb (c =? 0))) m)
      else Some (bindResult id 0 (RIndex c) m)
  | CmpIOp id p lhs rhs =>
      match indexOf m lhs, indexOf m rhs with
      | Some a, Some b =>
          Some (bindResult id 0
                  (RBool match p with
                         | sle => a <=? b
                         | slt => a <? b
                         | eq_ => a =? b
                         end) m)
      | _, _ => None
      end
  | AndIOp id lhs rhs =>
      match boolOf m lhs, boolOf m rhs with
      | Some a, Some b => Some (bindResult id 0 (RBool (a && b)) m)
      | _, _ => None
      end
  | XOrIOp id lhs rhs =>
      match boolOf m lhs, boolOf m rhs with
      | Some a, Some b => Some (bindResult id 0 (RBool (xorb a b)) m)
      | _, _ => None
      end
  | AllocaOp id ty _ =>
      if staticShape (getShape ty) then
        let w := {| buffer := length (memory m);
                    viewOffsets := repeat 0 (length (getShape ty));
                    viewSizes := getShape ty |} in
        Some (bindResult id 0 (RMemRef w)
                (setMemory
                   (memory m ++
                    [{| bufShape := getShape ty;
                        cells := repeat 0
                                   (Z.to_nat (fold_right Z.mul 1 (getShape ty)))
                     |}]) m))
      else None
  | CastOp id _ src | TypeCastOp id _ src =>
      match viewOf m src with
      | Some w => Some (bindResult id 0 (RMemRef w) m)
      | None => None
      end
  | SubViewOp id src offsets sizes strides =>
      match viewOf m src, mapOpt (foldResultOf m) offsets,
            mapOpt (foldResultOf m) sizes, mapOpt (foldResultOf m) strides with
      | Some w, Some offs, Some szs, Some strs =>
          if forallb (Z.eqb 1) strs then
            match addPos (viewOffsets w) offs with
            | Some abs =>
                if (length szs =? length abs)%nat then
                  Some (bindResult id 0
                          (RMemRef {| buffer := buffer w; viewOffsets := abs;
                                      viewSizes := szs |}) m)
                else None
            | None => None
            end
          else None
      | _, _, _, _ => None
      end
  | FillOp id [input] [output] =>
      match scalarOf m input, viewOf m output with
      | Some z, Some w =>
          match fillView (memory m) w z with
          | Some mem' => Some (setMemory mem' m)
          | None => None
          end
      | _, _ => None
      end
  | FillOp _ _ _ => None
  | CopyOp id src target =>
      match viewOf m src, viewOf m target with
      | Some a, Some b =>
          match copyView (memory m) a b with
          | Some mem' => Some (setMemory mem' m)
          | None => None
          end
      | _, _ => None
      end
  | StoreOp id value memref [] =>
      match vectorOf m value, viewOf m memref with
      | Some vec, Some w =>
          if (length vec =? length (positions (viewSizes w)))%nat then
            match writeCells (memory m) w
                    (combine (positions (viewSizes w)) vec) with
            | Some mem' => Some (setMemory mem' m)
            | None => None
            end
          else None
      | _, _ => None
      end
  | StoreOp _ _ _ _ => None
  | LoadOp id memref [] =>
      match viewOf m memref with
      | Some w =>
          match mapOpt (readCell (memory m) w) (positions (viewSizes w)) with
          | Some vec => Some (bindResult id 0 (RVector vec) m)
          | None => None
          end
      | None => None
      end
  | LoadOp _ _ _ => None
  | YieldOp id vs =>
      match mapOpt (lookupValue m) vs with
      | Some rs => Some (setYielded rs m)
      | None => None
      end
  | IfOp id cond n thenRegion elseRegion =>
      let run := fix run (ops : list Op) (m : Machine) : option Machine :=
        match ops with
        | [] => Some m
        | o :: ops' =>
            match execOp o m with
            | Some m' => run ops' m'
            | None => None
            end
        end in
      match boolOf m cond with
      | Some b =>
          match (if b then run thenRegion (setYielded [] m)
                 else match elseRegion with
                      | Some r => run r (setYielded [] m)
                      | None => Some (setYielded [] m)
                      end) with
          | Some m' =>
              if (length (yielded m') =? n)%nat
              then Some (bindResults id 0 (yielded m') m')
              else None
          | None => None
          end
      | None => None
      end
  | TransferOp id x =>
      match execTransfer x m with
      | Some (m', Some vec) => Some (bindResult id 0 (RVector vec) m')
      | Some (m', None) => Some m'
      | None => None
      end
  end.

Fixpoint execOps (ops : list Op) (m : Machine) : option Machine :=
  match ops with
  | [] => Some m
  | o :: ops' =>
      match execOp o m with
      | Some m' => execOps ops' m'
      | None => None
      end
  end.

(** The original program: the transfer alone. *)
Definition execOriginal (x : XferOp) (m : Machine)
  : option (list Buffer * option (list Z)) :=
  match execTransfer x m with
  | Some (m', obs) => Some (memory m', obs)
  | None => None
  end.

(** The rewritten program: the operations at the scope entry (the latest
    insertion comes first), those in front of the transfer, and the transfer
    itself unless it was erased. The memory is cut back to the buffers that
    existed before (the scratch buffer is private). *)
Definition execRewritten (s : IR) (m : Machine)
  : option (list Buffer * option (list Z)) :=
  match execOps (map snd (scopeEntry s) ++ block s) m with
  | Some m' =>
      if erased s then Some (firstn (length (memory m)) (memory m'), None)
      else
        match execTransfer (root s) m' with
        | Some (m'', obs) =>
            Some (firstn (length (memory m)) (memory m''), obs)
        | None => None
        end
  | None => None
  end.

(** ** Concrete descriptors and operations for the examples *)

(** Modelled from the spec: a strided (shape+stride+offset) view of a
    descriptor; a descriptor without explicit layout is contiguous (row-major
    strides, offset zero), an explicit strided layout gives its own strides
    and offset, any other layout is not strided. [getStridesAndOffset] is
    missing from the sources. *)
Fixpoint rowMajorStrides (shape : list Z) : list Z :=
  match shape with
  | [] => []
  | _ :: shape' =>
      (if forallb (fun d => negb (d =? kDynamic)) shape'
       then fold_right Z.mul 1 shape' else kDynamic)
      :: rowMajorStrides shape'
  end.

Definition getStridesAndOffsetModel (t : MemRefType) : option (list Z * Z) :=
  match getLayout t with
  | IdentityLayout => Some (rowMajorStrides (getShape t), 0)
  | StridedLayoutAttr offset strides =>
      if (length strides =? getRank t)%nat then Some (strides, offset)
      else None
  | AffineMapLayout _ => None
  end.

Definition compatibleField (a b : Z) : bool :=
  (a =? kDynamic) || (b =? kDynamic) || (a =? b).

Fixpoint compatibleFields (a b : list Z) : bool :=
  match a, b with
  | [], [] => true
  | x :: a', y :: b' => compatibleField x y && compatibleFields a' b'
  | _, _ => false
  end.

(** Modelled from the spec: "two descriptors are cast-compatible iff they
    agree on rank and every statically-known field matches or one side is
    dynamic"; [memref::CastOp::areCastCompatible] is missing from the
    sources. The element type and the memory space are always static. *)
Definition areCastCompatibleModel (aT bT : MemRefType) : bool :=
  (if ElementType_eq_dec (getElementType aT) (getElementType bT)
   then true else false) &&
  (getMemorySpace aT =? getMemorySpace bT)%nat &&
  compatibleFields (getShape aT) (getShape bT) &&
  ((if Layout_eq_dec (getLayout aT) (getLayout bT) then true else false) ||
   match getStridesAndOffsetModel aT, getStridesAndOffsetModel bT with
   | Some (aStrides, aOffset), Some (bStrides, bOffset) =>
       compatibleField aOffset bOffset && compatibleFields aStrides bStrides
   | _, _ => false
   end).

Definition funcOp : ParentOp :=
  {| parentId := 100; parentKind := OtherOp 0;
     hasAutomaticAllocationScope := true; getNumRegions := 1 |}.

Definition forOp (id : nat) : ParentOp :=
  {| parentId := id; parentKind := ScfFor;
     hasAutomaticAllocationScope := true; getNumRegions := 1 |}.

Definition affineForOp (id : nat) : ParentOp :=
  {| parentId := id; parentKind := AffineFor;
     hasAutomaticAllocationScope := true; getNumRegions := 1 |}.

(** A one-dimensional transfer of [vector<4xf32>] at the dynamic index
    [%2] of the region [%0 : memref<?xf32>], directly inside a function. *)
Definition transfer1D (k : TransferKind) : XferOp :=
  {| kind := k; source := Arg 0;
     getShapedType := MemRefType_get [kDynamic] (ScalarType 0);
     vector := Arg 1;
     getVectorType := {| vectorShape := [4]; vectorElementType := 0 |};
     indices := [Arg 2];
     permutation_map := getMinorIdentityMap 1 1;
     getPadding := Arg 3; getMask := None; in_bounds := None;
     getParentOp := funcOp; ancestors := [] |}.

(** The same transfer over a region whose layout is not strided. *)
Definition transferNotStrided (k : TransferKind) : XferOp :=
  {| kind := k; source := Arg 0;
     getShapedType := MemRefType_get_layout [kDynamic] (ScalarType 0)
                        (AffineMapLayout 0);
     vector := Arg 1;
     getVectorType := {| vectorShape := [4]; vectorElementType := 0 |};
     indices := [Arg 2];
     permutation_map := getMinorIdentityMap 1 1;
     getPadding := Arg 3; getMask := None; in_bounds := None;
     getParentOp := funcOp; ancestors := [] |}.

(** A transfer of [vector<4xf32>] at the constant index [cst] of a region of
    static extent [extent]. *)
Definition transferStatic (k : TransferKind) (extent cst : Z) : XferOp :=
  {| kind := k; source := Arg 0;
     getShapedType := MemRefType_get [extent] (ScalarType 0);
     vector := Arg 1;
     getVectorType := {| vectorShape := [4]; vectorElementType := 0 |};
     indices := [ConstantIndex cst];
     permutation_map := getMinorIdentityMap 1 1;
     getPadding := Arg 3; getMask := None; in_bounds := None;
     getParentOp := funcOp; ancestors := [] |}.

(** A transfer nested in two loops inside a function. *)
Definition transferInLoops (k : TransferKind) : XferOp :=
  {| kind := k; source := Arg 0;
     getShapedType := MemRefType_get [kDynamic] (ScalarType 0);
     vector := Arg 1;
     getVectorType := {| vectorShape := [4]; vectorElementType := 0 |};
     indices := [Arg 2];
     permutation_map := getMinorIdentityMap 1 1;
     getPadding := Arg 3; getMask := None; in_bounds := None;
     getParentOp := forOp 102; ancestors := [affineForOp 101; funcOp] |}.

(** A two-dimensional transfer of [vector<2x4xf32>] at the dynamic indices
    [%2, %4] of the region [%0 : memref<?x8xf32>], directly inside a
    function. *)
Definition transfer2D (k : TransferKind) : XferOp :=
  {| kind := k; source := Arg 0;
     getShapedType := MemRefType_get [kDynamic; 8] (ScalarType 0);
     vector := Arg 1;
     getVectorType := {| vectorShape := [2; 4]; vectorElementType := 0 |};
     indices := [Arg 2; Arg 4];
     permutation_map := getMinorIdentityMap 2 2;
     getPadding := Arg 3; getMask := None; in_bounds := None;
     getParentOp := funcOp; ancestors := [] |}.

(** An enclosing operation that is neither a recognised loop nor an
    allocation scope (such as [scf.while]). *)
Definition whileOp (id : nat) : ParentOp :=
  {| parentId := id; parentKind := OtherOp 1;
     hasAutomaticAllocationScope := false; getNumRegions := 2 |}.

(** A transfer inside an [affine.for] that stands in the body of such an
    operation, inside a function. *)
Definition transferInTaggedLoop (k : TransferKind) : XferOp :=
  {| kind := k; source := Arg 0;
     getShapedType := MemRefType_get [kDynamic] (ScalarType 0);
     vector := Arg 1;
     getVectorType := {| vectorShape := [4]; vectorElementType := 0 |};
     indices := [Arg 2];
     permutation_map := getMinorIdentityMap 1 1;
     getPadding := Arg 3; getMask := None; in_bounds := None;
     getParentOp := affineForOp 101; ancestors := [whileOp 103; funcOp] |}.

Definition initialIR (x : XferOp) : IR :=
  {| nextOp := 0; root := x; erased := false; block := [];
     scopeEntry := []; ifOpCell := None |}.

Definition withStrategy (st : VectorTransferSplit) : VectorTransformsOptions :=
  {| vectorTransferSplit := st |}.

(** A machine with one region [%0] of the given cells, the vector
    [%1 = [10; 20; 30; 40]], the index [%2 = idx] and the pad [%3 = 99]. *)
Definition machine1D (region : list Z) (idx : Z) : Machine :=
  {| args := fun n =>
       match n with
       | 0%nat => Some (RMemRef {| buffer := 0; viewOffsets := [0];
                                   viewSizes := [Z.of_nat (length region)] |})
       | 1%nat => Some (RVector [10; 20; 30; 40])
       | 2%nat => Some (RIndex idx)
       | 3%nat => Some (RScalar 99)
       | _ => None
       end;
     results := fun _ _ => None;
     memory := [{| bufShape := [Z.of_nat (length region)]; cells := region |}];
     yielded := [] |}.

Section Transform.

(** [memref::CastOp::areCastCompatible] and [getStridesAndOffset] are defined
    outside the sources; the transform is parametric in them. The second
    returns the strides and the offset of a strided layout, or fails. *)
Variable areCastCompatible : MemRefType -> MemRefType -> bool.
Variable getStridesAndOffset : MemRefType -> option (list Z * Z).

(** A strided layout has one stride per dimension. *)
Hypothesis getStridesAndOffset_rank : forall t strides offset,
  getStridesAndOffset t = Some (strides, offset) ->
  length strides = getRank t.

(** Source lines 141-167. The loop reads position [idx] of the four arrays
    for [idx] below the rank of [aT]. *)
Definition getCastCompatibleMemRefType (aT bT : MemRefType)
  : option MemRefType :=
  if areCastCompatible aT bT then Some aT
  else if negb (getRank aT =? getRank bT)%nat then None
  else
    match getStridesAndOffset aT, getStridesAndOffset bT with
    | Some (aStrides, aOffset), Some (bStrides, bOffset) =>
        if negb (length aStrides =? length bStrides)%nat then None
        else
          let aShape := getShape aT in
          let bShape := getShape bT in
          let resShape :=
            map (fun idx => if nth idx aShape 0 =? nth idx bShape 0
                            then nth idx aShape 0 else kDynamic)
                (seq 0 (getRank aT)) in
          let resStrides :=
            map (fun idx => if nth idx aStrides 0 =? nth idx bStrides 0
                            then nth idx aStrides 0 else kDynamic)
                (seq 0 (getRank aT)) in
          let resOffset := if aOffset =? bOffset then aOffset else kDynamic in
          Some (MemRefType_get_layout resShape (getElementType aT)
                  (StridedLayoutAttr resOffset resStrides))
    | _, _ => None
    end.

Definition allocaType (xferOp : XferOp) : MemRefType :=
  MemRefType_get (vectorShape (getVectorType xferOp))
    (ScalarType (vectorElementType (getVectorType xferOp))).

Fixpoint setOperands (vs : list (Value * Type_)) (i : nat) : Rewriter unit :=
  match vs with
  | [] => ret tt
  | (v, ty) :: vs' =>
      updateRootInPlace (setOperand i v ty) ;;; setOperands vs' (S i)
  end.

Definition numResultsOf (op : Op) : nat := length (getResults_ op).

(** Source lines 504-618. [ifOp] tells whether the out-parameter is
    non-null. The clone of a write is inserted with its in-bounds attribute
    already set; its source has the type of the conditional's first result. *)
Definition splitFullAndPartialTransfer (xferOp : XferOp)
  (options : VectorTransformsOptions) (ifOp : bool) : Rewriter LogicalResult :=
  if strategyIs (vectorTransferSplit options) None_ then ret failure
  else
  let bools := repeat true (getTransferRank xferOp) in
  let inBoundsAttr := bools in
  if strategyIs (vectorTransferSplit options) ForceInBounds then
    updateRootInPlace (setInBounds inBoundsAttr) ;;; ret success
  else
  assert_ (succeeded (splitFullAndPartialTransferPrecondition xferOp)) ;;;
  if negb (isaRead xferOp || isaWrite xferOp) then ret failure
  else if isaWrite xferOp && hasMask xferOp then ret failure
  else if isaRead xferOp && hasMask xferOp then ret failure
  else
  inBoundsCond <- createInBoundsCond xferOp ;;
  match inBoundsCond with
  | None => ret failure
  | Some inBoundsCond =>
  scope <- getAutomaticAllocationScope xferOp ;;
  assert_ (getNumRegions scope =? 1)%nat ;;;
  allocId <- createAtStartOf (parentId scope)
               (fun id => AllocaOp id (allocaType xferOp) 32) ;;
  let alloc := OpResult allocId 0 in
  match getCastCompatibleMemRefType (getShapedType xferOp)
          (allocaType xferOp) with
  | None => ret failure
  | Some compatibleMemRefType =>
  let returnTypes :=
    MemRef compatibleMemRefType :: repeat IndexType (getTransferRank xferOp) in
  if isaRead xferOp then
    fullPartialIfOp <-
      (if strategyIs (vectorTransferSplit options) VectorTransfer then
         createFullPartialVectorTransferRead xferOp returnTypes inBoundsCond
           compatibleMemRefType alloc
       else
         createFullPartialLinalgCopy xferOp returnTypes inBoundsCond
           compatibleMemRefType alloc (allocaType xferOp)) ;;
    storeIfOp ifOp fullPartialIfOp ;;;
    assert_ (length returnTypes <=? numResultsOf fullPartialIfOp)%nat ;;;
    setOperands
      (combine (map (getResult fullPartialIfOp) (seq 0 (length returnTypes)))
         returnTypes) 0 ;;;
    updateRootInPlace (setInBounds inBoundsAttr) ;;;
    ret success
  else
    memrefAndIndices <- getLocationToWriteFullVec xferOp returnTypes
                          inBoundsCond compatibleMemRefType alloc ;;
    let mapping :=
      mapValues (mapValue [] (source xferOp) (hd (Arg 0) memrefAndIndices))
        (indices xferOp) (tl memrefAndIndices) in
    id <- freshOp ;;
    insert (TransferOp id
              (setInBounds inBoundsAttr
                 (setShapedType compatibleMemRefType
                    (cloneXfer mapping None id xferOp)))) ;;;
    (if strategyIs (vectorTransferSplit options) VectorTransfer then
       createFullPartialVectorTransferWrite xferOp inBoundsCond alloc
     else
       createFullPartialLinalgCopyWrite xferOp inBoundsCond alloc
         (allocaType xferOp)) ;;;
    eraseOp ;;;
    ret success
  end
  end.

(** Source lines 647-654. [op] is [None] for an operation that does not
    implement the transfer interface. *)
Definition matchAndRewrite
  (filter : XferOp -> LogicalResult) (options : VectorTransformsOptions)
  (op : option XferOp) : Rewriter LogicalResult :=
  match op with
  | None => ret failure
  | Some xferOp =>
      if failed (splitFullAndPartialTransferPrecondition xferOp) then ret failure
      else if failed (filter xferOp) then ret failure
      else splitFullAndPartialTransfer xferOp options false
  end.

(** ** Frame properties of the builder *)

(** Everything but the insertion block and the identity counter. *)
Definition frame (s s' : IR) : Prop :=
  root s' = root s /\ erased s' = erased s /\
  scopeEntry s' = scopeEntry s /\ ifOpCell s' = ifOpCell s.

(** [s'] is [s] with operations appended at the insertion point. *)
Definition grows (s s' : IR) : Prop :=
  frame s s' /\ (nextOp s <= nextOp s')%nat /\
  exists ops, block s' = block s ++ ops.

Definition builds {A} (m : Rewriter A) : Prop :=
  forall s a s', m s = Done (a, s') -> grows s s'.

(** ** The allocation-scope walk, in the words of the spec *)

(** The ancestors the walk meets: up to and including the first one that is
    not a recognised looping construct. *)
Fixpoint visitedAncestors (chain : list ParentOp) : list ParentOp :=
  match chain with
  | [] => []
  | p :: rest => if isLoop p then p :: visitedAncestors rest else [p]
  end.

(** The most recently seen ancestor tagged as automatic-allocation scope. *)
Definition lastTagged (seen : list ParentOp) : option ParentOp :=
  fold_left (fun acc p => if hasAutomaticAllocationScope p then Some p else acc)
            seen None.

(** ** Vocabulary of the statements *)

(** A value defined outside the rewritten fragment. The operands of the
    transfer under rewrite are of this kind. *)
Definition isExternal (v : Value) : bool :=
  match v with
  | OpResult _ _ => false
  | _ => true
  end.

(** Modelled from the spec: the invariants of a transfer operation that the
    operation verifier maintains: "one index per region dimension", a vector
    type of the transfer rank, a dimension mapping from the region's
    dimensions, flags (when present) for every transfer dimension; the
    operands are defined outside the rewritten fragment. *)
Definition verified (x : XferOp) : bool :=
  (length (indices x) =? getRank (getShapedType x))%nat &&
  (length (vectorShape (getVectorType x)) =? getTransferRank x)%nat &&
  (getNumDims (permutation_map x) =? getRank (getShapedType x))%nat &&
  isExternal (source x) && forallb isExternal (indices x).

(** [s] with the operations [ops] created at the insertion point. *)
Definition emit (ops : list Op) (s : IR) : IR :=
  {| nextOp := length ops + nextOp s; root := root s; erased := erased s;
     block := block s ++ ops; scopeEntry := scopeEntry s;
     ifOpCell := ifOpCell s |}.

(** The constant the sum [index + vector extent] folds to, if any. *)
Definition constantSum (x : XferOp) (dim : nat * Z) : option Z :=
  match lookupZ (indices x) (snd dim),
        lookupZ (vectorShape (getVectorType x)) (Z.of_nat (fst dim)) with
  | Some (ConstantIndex c), Some v => Some (c + v)
  | _, _ => None
  end.

(** The statically known extent of the region at a dimension, if any. *)
Definition constantExtent (x : XferOp) (dim : nat * Z) : option Z :=
  match lookupZ (getShape (getShapedType x)) (snd dim) with
  | Some d => if d =? kDynamic then None else Some d
  | None => None
  end.

(** A dimension "contributes no runtime check": both sides are constant and
    the sum is at most the extent. *)
Definition foldsAway (x : XferOp) (dim : nat * Z) : bool :=
  staticallyInBounds (constantSum x dim) (constantExtent x dim).

(** The participating dimensions: those whose in-bounds flag is false. *)
Definition participatingDims (x : XferOp) : list (nat * Z) :=
  filter (fun dim => negb (isDimInBounds x (fst dim))) (zipResultAndIndexing x).

(** The dimensions that get a runtime check. *)
Definition checkedDims (x : XferOp) : list (nat * Z) :=
  filter (fun dim => negb (foldsAway x dim)) (participatingDims x).

Definition isSignedLessEqual (op : Op) : bool :=
  match op with
  | CmpIOp _ sle _ _ => true
  | _ => false
  end.

Definition isComparison (op : Op) : bool :=
  match op with
  | CmpIOp _ _ _ _ => true
  | _ => false
  end.

(** [index(dim) + vector_extent(dim) <= region_extent(dim)] at run time. *)
Definition dimInBounds (x : XferOp) (idxs sizes : list Z) (dim : nat * Z)
  : bool :=
  match lookupZ idxs (snd dim),
        lookupZ (vectorShape (getVectorType x)) (Z.of_nat (fst dim)),
        lookupZ sizes (snd dim) with
  | Some i, Some v, Some d => i + v <=? d
  | _, _, _ => false
  end.

(** A run-time view fits a descriptor type: same rank, and the extents the
    type fixes statically are the extents of the view. *)
Definition fitsType (w : View) (t : MemRefType) : Prop :=
  length (viewSizes w) = getRank t /\
  forall i d, lookupZ (getShape t) i = Some d -> d <> kDynamic ->
              lookupZ (viewSizes w) i = Some d.

(** Two machines agree on the arguments, the memory and the results of the
    operations created before [n]. *)
Definition agreeBelow (n : nat) (m m' : Machine) : Prop :=
  args m' = args m /\ memory m' = memory m /\
  forall id k, (id < n)%nat -> results m' id k = results m id k.

(** The run-time value of the bounds condition; an absent condition (no
    check at all) counts as true. *)
Definition condValue (m : Machine) (cond : option Value) : option bool :=
  match cond with
  | None => Some true
  | Some c => boolOf m c
  end.

(** A dimension takes part in the runtime check. *)
Definition isChecked (x : XferOp) (dim : nat * Z) : bool :=
  negb (isDimInBounds x (fst dim)) && negb (foldsAway x dim).

(** The chain of enclosing operations of a transfer, nearest first. *)
Definition chainOf (x : XferOp) : list ParentOp :=
  getParentOp x :: ancestors x.

(** [s] after the scratch buffer of [x] was allocated at the entry of
    [scope]. *)
Definition allocated (x : XferOp) (scope : ParentOp) (s : IR) : IR :=
  {| nextOp := S (nextOp s); root := root s; erased := erased s;
     block := block s;
     scopeEntry := (parentId scope, AllocaOp (nextOp s) (allocaType x) 32)
                   :: scopeEntry s;
     ifOpCell := ifOpCell s |}.

(** The tail of the read path (source lines 579-590), after the conditional
    [fullPartialIfOp] was created. *)
Definition finishRead (xferOp : XferOp) (ifOp : bool) (returnTypes : list Type_)
  (fullPartialIfOp : Op) : Rewriter LogicalResult :=
  storeIfOp ifOp fullPartialIfOp ;;;
  assert_ (length returnTypes <=? numResultsOf fullPartialIfOp)%nat ;;;
  setOperands
    (combine (map (getResult fullPartialIfOp) (seq 0 (length returnTypes)))
       returnTypes) 0 ;;;
  updateRootInPlace
    (setInBounds (repeat true (getTransferRank xferOp))) ;;;
  ret success.

(** The types the two-armed conditional returns. *)
Definition returnTypesOf (x : XferOp) (t : MemRefType) : list Type_ :=
  MemRef t :: repeat IndexType (getTransferRank x).

(** The in-bounds clone of a write against the results of the conditional
    (source lines 602-606). *)
Definition inBoundsClone (x : XferOp) (t : MemRefType)
  (memrefAndIndices : list Value) (id : nat) : XferOp :=
  setInBounds (repeat true (getTransferRank x))
    (setShapedType t
       (cloneXfer
          (mapValues (mapValue [] (source x) (hd (Arg 0) memrefAndIndices))
             (indices x) (tl memrefAndIndices))
          None id x)).

(** [s] with the transfer erased. *)
Definition withErased (s : IR) : IR :=
  {| nextOp := nextOp s; root := root s; erased := true; block := block s;
     scopeEntry := scopeEntry s; ifOpCell := ifOpCell s |}.

(** The strategies that split. *)
Definition splits (st : VectorTransferSplit) : bool :=
  match st with
  | VectorTransfer | LinalgCopy => true
  | _ => false
  end.

(** What a failed split may leave behind: nothing, or - when no compatible
    descriptor type exists - the operations of the bounds condition in front
    of the transfer and the scratch buffer at the entry of the allocation
    scope; the transfer itself is never touched. *)
Definition failureEffect (x : XferOp) (s s' : IR) : Prop :=
  s' = s \/
  (getCastCompatibleMemRefType (getShapedType x) (allocaType x) = None /\
   root s' = root s /\ erased s' = erased s /\ ifOpCell s' = ifOpCell s /\
   exists scope id ops,
     walkAllocationScope None (chainOf x) = Some scope /\
     ops <> [] /\ block s' = block s ++ ops /\
     scopeEntry s'
     = (parentId scope, AllocaOp id (allocaType x) 32) :: scopeEntry s).

(** ** The intersection views, as emitted *)

(** The operations that compute the overlap of each trailing dimension,
    created from identity [n] on: the extent of the region, the extent of
    the buffer, and their fused minimum [min (d0 - d1, d2)] at the index. *)
Fixpoint overlapSizeOps (x : XferOp) (alloc : Value) (n : nat)
  (dims : list (nat * Z)) : list Op :=
  match dims with
  | [] => []
  | (resultIdx, indicesIdx) :: rest =>
      [DimOp n (source x) indicesIdx;
       DimOp (S n) alloc (Z.of_nat resultIdx);
       AffineMinOp (S (S n))
         [SubExpr (DimExpr 0) (DimExpr 1); DimExpr 2]
         [OpResult n 0; nth (Z.to_nat indicesIdx) (indices x) (Arg 0);
          OpResult (S n) 0]]
      ++ overlapSizeOps x alloc (3 + n) rest
  end.

(** The results of those minima, one per trailing dimension. *)
Fixpoint overlapSizes (n : nat) (dims : list (nat * Z)) : list OpFoldResult :=
  match dims with
  | [] => []
  | _ :: rest => Val (OpResult (S (S n)) 0) :: overlapSizes (3 + n) rest
  end.

(** The sizes of both subviews. *)
Definition subViewSizes (x : XferOp) (n : nat) : list OpFoldResult :=
  map Val (firstn (Z.to_nat (getLeadingShapedRank x)) (indices x)) ++
  overlapSizes n (zipResultAndIndexing x).

(** Everything [createSubViewIntersection] creates, from identity [n] on:
    the overlap sizes, the source view and the destination view. *)
Definition intersectionOps (x : XferOp) (alloc : Value) (n : nat) : list Op :=
  let dims := zipResultAndIndexing x in
  let a := (3 * length dims + n)%nat in
  let rank := getRank (getShapedType x) in
  overlapSizeOps x alloc n dims ++
  [SubViewOp a (if isaWrite x then alloc else source x)
     (map Val (indices x)) (subViewSizes x n) (repeat (Attr 1) rank);
   SubViewOp (S a) (if isaWrite x then source x else alloc)
     (repeat (Attr 0) rank) (subViewSizes x n) (repeat (Attr 1) rank)].

(** Number of transfer operations among operations, regions included. *)
Fixpoint countTransferOps (op : Op) : nat :=
  match op with
  | TransferOp _ _ => 1
  | IfOp _ _ _ thenRegion elseRegion =>
      let count := fix count (ops : list Op) : nat :=
        match ops with
        | [] => 0
        | o :: ops' => countTransferOps o + count ops'
        end in
      count thenRegion +
      match elseRegion with Some r => count r | None => 0 end
  | _ => 0
  end%nat.

Fixpoint countTransfers (ops : list Op) : nat :=
  match ops with
  | [] => 0
  | o :: ops' => countTransferOps o + countTransfers ops'
  end%nat.

(** The type of the scratch buffer seen as one cell holding the vector. *)
Definition vectorCellType (x : XferOp) : MemRefType :=
  MemRefType_get []
    (VectorElement (vectorShape (getVectorType x))
       (vectorElementType (getVectorType x))).

(** The then-region of the two-armed conditional, created from identity [n]
    on: the region (cast to the common type unless it has it already) with
    the original indices. *)
Definition sourceViewRegion (x : XferOp) (t : MemRefType) (n : nat) : list Op :=
  if MemRefType_eq_dec t (getShapedType x)
  then [YieldOp n (source x :: indices x)]
  else [CastOp n t (source x); YieldOp (S n) (OpResult n 0 :: indices x)].

(** The else-region of the first conditional of a write: the buffer, cast to
    the common type, with all-zero indices. *)
Definition allocViewRegion (x : XferOp) (t : MemRefType) (alloc zero : Value)
  (n : nat) : list Op :=
  [CastOp n t alloc;
   YieldOp (S n) (OpResult n 0 :: repeat zero (getTransferRank x))].

(** The body of the second conditional of a write under the reissue
    strategy, created from identity [n] on inside the conditional [ifId]:
    the buffer as a one-vector cell, the load of the vector, the clone of the
    write with the loaded value for the vector operand. *)
Definition reissueRegion (x : XferOp) (alloc : Value) (ifId n : nat)
  : list Op :=
  [TypeCastOp n (vectorCellType x) alloc;
   LoadOp (1 + n) (OpResult n 0) [];
   TransferOp (2 + n)
     (cloneXfer (mapValue [] (vector x) (OpResult (1 + n) 0))
        (Some ifId) (2 + n) x);
   YieldOp (3 + n) []].

(** The body of the second conditional of a write under the bulk-copy
    strategy: operations that compute sizes, a source view over the buffer,
    a destination view over the region, and the copy of the first into the
    second. *)
Definition isBulkCopyRegion (x : XferOp) (alloc : Value) (region : list Op)
  : Prop :=
  exists sizeOps a srcOffsets dstOffsets sizes strides,
    countTransfers sizeOps = 0%nat /\
    region
    = sizeOps ++
      [SubViewOp a alloc srcOffsets sizes strides;
       SubViewOp (S a) (source x) dstOffsets sizes strides;
       CopyOp (2 + a) (OpResult a 0) (OpResult (S a) 0);
       YieldOp (3 + a) []].

(** The body of the second conditional of a write, as the code emits it. *)
Definition cleanupRegion (st : VectorTransferSplit) (x : XferOp)
  (alloc : Value) (ifId n : nat) : list Op :=
  if strategyIs st VectorTransfer then reissueRegion x alloc ifId n
  else
    let a := (3 * length (zipResultAndIndexing x) + n)%nat in
    intersectionOps x alloc n ++
    [CopyOp (2 + a) (OpResult a 0) (OpResult (S a) 0);
     YieldOp (3 + a) []].

(** Everything a successful split of the write [x] creates in front of it
    after the operations of the bounds condition [cond], from identity [z]
    on: the zero index, the conditional that picks the destination, the
    in-bounds clone of the write, and the conditional of the slow-path
    cleanup with body [cleanup]. *)
Definition writeSplitOps (x : XferOp) (cond alloc : Value) (t : MemRefType)
  (z : nat) (cleanup : list Op) : list Op :=
  let zero := OpResult z 0 in
  let th1 := sourceViewRegion x t (2 + z) in
  let el1 := allocViewRegion x t alloc zero (2 + z + length th1) in
  let ifop1 := IfOp (S z) cond (S (length (indices x))) th1 (Some el1) in
  let c1 := (4 + z + length th1)%nat in
  [ConstantIndexOp z 0;
   ifop1;
   TransferOp c1 (inBoundsClone x t (getResults_ ifop1) c1);
   ConstantIntOp (1 + c1) 1 1;
   XOrIOp (2 + c1) cond (OpResult (1 + c1) 0);
   IfOp (3 + c1) (OpResult (2 + c1) 0) 0 cleanup None].

(** Identity of the second conditional of a write and of the first
    operation of its body. *)
Definition cleanupIds (x : XferOp) (t : MemRefType) (z : nat) : nat * nat :=
  let c1 := (4 + z + length (sourceViewRegion x t (2 + z)))%nat in
  ((3 + c1)%nat, (4 + c1)%nat).

(** ** The read path, as emitted *)

(** The else-region of the conditional of a read under the bulk-copy
    strategy, created from identity [n] on: fill the buffer with the padding,
    copy the intersection into it, yield the buffer with all-zero indices. *)
Definition bulkReadRegion (x : XferOp) (t : MemRefType) (alloc zero : Value)
  (n : nat) : list Op :=
  let a := (3 * length (zipResultAndIndexing x) + S n)%nat in
  [FillOp n [getPadding x] [alloc]] ++
  intersectionOps x alloc (S n) ++
  [CopyOp (2 + a) (OpResult a 0) (OpResult (S a) 0);
   CastOp (3 + a) t alloc;
   YieldOp (4 + a) (OpResult (3 + a) 0 :: repeat zero (getTransferRank x))].

(** The else-region of the conditional of a read under the reissue
    strategy: the clone of the read, its vector stored into the buffer seen
    as one cell, the buffer yielded with all-zero indices. *)
Definition reissueReadRegion (x : XferOp) (t : MemRefType) (alloc zero : Value)
  (ifId n : nat) : list Op :=
  [TransferOp n (cloneXfer [] (Some ifId) n x);
   TypeCastOp (1 + n) (vectorCellType x) alloc;
   StoreOp (2 + n) (OpResult n 0) (OpResult (1 + n) 0) [];
   CastOp (3 + n) t alloc;
   YieldOp (4 + n) (OpResult (3 + n) 0 :: repeat zero (getTransferRank x))].

(** The conditional a split of the read [x] creates, with identity [S z]
    after the zero index [z]. *)
Definition readConditional (st : VectorTransferSplit) (x : XferOp)
  (cond alloc : Value) (t : MemRefType) (z : nat) : Op :=
  let th := sourceViewRegion x t (2 + z) in
  let n := (2 + z + length th)%nat in
  IfOp (S z) cond (S (length (indices x))) th
    (Some (if strategyIs st VectorTransfer
           then reissueReadRegion x t alloc (OpResult z 0) (S z) n
           else bulkReadRegion x t alloc (OpResult z 0) n)).

(** The operands of the root after [setOperand] was applied to each pair,
    from position [i] on. *)
Fixpoint applyOperands (vs : list (Value * Type_)) (i : nat) (x : XferOp)
  : XferOp :=
  match vs with
  | [] => x
  | (v, ty) :: vs' => applyOperands vs' (S i) (setOperand i v ty x)
  end.

(** [s] with another root. *)
Definition withRoot (x : XferOp) (s : IR) : IR :=
  {| nextOp := nextOp s; root := x; erased := erased s; block := block s;
     scopeEntry := scopeEntry s; ifOpCell := ifOpCell s |}.

(** All transfer operations among operations, regions included. *)
Fixpoint transfersOf (op : Op) : list XferOp :=
  match op with
  | TransferOp _ x => [x]
  | IfOp _ _ _ thenRegion elseRegion =>
      let collect := fix collect (ops : list Op) : list XferOp :=
        match ops with
        | [] => []
        | o :: ops' => transfersOf o ++ collect ops'
        end in
      collect thenRegion ++
      match elseRegion with Some r => collect r | None => [] end
  | _ => []
  end.

Fixpoint transfersIn (ops : list Op) : list XferOp :=
  match ops with
  | [] => []
  | o :: ops' => transfersOf o ++ transfersIn ops'
  end.

(** [x] with other index operands. *)
Definition setIndices (l : list Value) (x : XferOp) : XferOp :=
  {| kind := kind x; source := source x; getShapedType := getShapedType x;
     vector := vector x; getVectorType := getVectorType x;
     indices := l; permutation_map := permutation_map x;
     getPadding := getPadding x; getMask := getMask x;
     in_bounds := in_bounds x;
     getParentOp := getParentOp x; ancestors := ancestors x |}.

(** The read [x] after a successful split: its region operand is the first
    result of the conditional [ifId], of the common type [t]; its first
    transfer-rank index operands are the next results; all dimensions are
    marked in bounds. *)
Definition rewrittenRead (x : XferOp) (t : MemRefType) (ifId : nat) : XferOp :=
  let r := getTransferRank x in
  {| kind := kind x; source := OpResult ifId 0; getShapedType := t;
     vector := vector x; getVectorType := getVectorType x;
     indices := map (OpResult ifId) (seq 1 r) ++ skipn r (indices x);
     permutation_map := permutation_map x;
     getPadding := getPadding x; getMask := getMask x;
     in_bounds := Some (repeat true r);
     getParentOp := getParentOp x; ancestors := ancestors x |}.

(** Index arithmetic without side effects: affine applications, extents,
    index constants, comparisons and conjunctions. *)
Definition isIndexArithmetic (op : Op) : bool :=
  match op with
  | AffineApplyOp _ _ _ | DimOp _ _ _ | ConstantIndexOp _ _
  | CmpIOp _ _ _ _ | AndIOp _ _ _ => true
  | _ => false
  end.

Definition isConjunction (op : Op) : bool :=
  match op with
  | AndIOp _ _ _ => true
  | _ => false
  end.

(** The pattern turns [y] down whatever its filter, its options and the
    state are. *)
Definition neverRewritten (y : XferOp) : Prop :=
  splitFullAndPartialTransferPrecondition y = failure /\
  forall filter options s,
    matchAndRewrite filter options (Some y) s = Done (failure, s).

(** How a run ends. *)
Inductive Verdict := Succeeds | Fails | Aborts.

Definition verdictOf {A} (o : Outcome (LogicalResult * A)) : Verdict :=
  match o with
  | Done (success, _) => Succeeds
  | Done (failure, _) => Fails
  | AssertionFailure => Aborts
  end.

(** The end of a split under a splitting strategy, read off the transfer
    alone: the asserted precondition, the kind and the mask, the dimensions
    that need a runtime check, the allocation scope, the common type. *)
Definition splitVerdict (x : XferOp) : Verdict :=
  if failed (splitFullAndPartialTransferPrecondition x) then Aborts
  else if negb (isaRead x || isaWrite x) then Fails
  else if hasMask x then Fails
  else
    match checkedDims x with
    | [] => Fails
    | _ :: _ =>
        match walkAllocationScope None (chainOf x) with
        | None => Aborts
        | Some scope =>
            if negb (getNumRegions scope =? 1)%nat then Aborts
            else
              match getCastCompatibleMemRefType (getShapedType x)
                      (allocaType x) with
              | None => Fails
              | Some _ => Succeeds
              end
        end
    end.

(** A computation that returns from every state. *)
Definition total {A} (m : Rewriter A) : Prop :=
  forall s, exists a s', m s = Done (a, s').

(** Position of the last occurrence of a value in a list. *)
Fixpoint lastIndexOf (v : Value) (l : list Value) : option nat :=
  match l with
  | [] => None
  | a :: l' =>
      match lastIndexOf v l' with
      | Some j => Some (S j)
      | None => if Value_eq_dec a v then Some 0%nat else None
      end
  end.

(** A region that ends in a yield of [n] values. *)
Definition yields (region : list Op) (n : nat) : Prop :=
  exists pre id vs, region = pre ++ [YieldOp id vs] /\ length vs = n.

(** A conditional whose regions each end in a yield of as many values as
    the conditional has results; without else-region it has no result. *)
Definition wellFormedIf (op : Op) : Prop :=
  match op with
  | IfOp _ _ n thenRegion elseRegion =>
      yields thenRegion n /\
      match elseRegion with
      | Some r => yields r n
      | None => n = 0%nat
      end
  | _ => True
  end.

(** The scratch buffer of [x] in a machine: one cell per vector element. *)
Definition scratchBuffer (x : XferOp) : Buffer :=
  {| bufShape := vectorShape (getVectorType x);
     cells := repeat 0
                (Z.to_nat (fold_right Z.mul 1 (vectorShape (getVectorType x))))
  |}.

(** ** Uses and definitions *)

Definition getId (op : Op) : nat :=
  match op with
  | AffineApplyOp id _ _ | AffineMinOp id _ _ | DimOp id _ _
  | ConstantIndexOp id _ | ConstantIntOp id _ _ | CmpIOp id _ _ _
  | AndIOp id _ _ | XOrIOp id _ _ | AllocaOp id _ _ | CastOp id _ _
  | SubViewOp id _ _ _ _ | FillOp id _ _ | CopyOp id _ _ | TypeCastOp id _ _
  | StoreOp id _ _ _ | LoadOp id _ _ | YieldOp id _ | IfOp id _ _ _ _
  | TransferOp id _ => id
  end.








(** The view of the whole scratch buffer of [x], allocated after the buffers
    [mem]. *)
Definition scratchView (x : XferOp) (mem : list Buffer) : View :=
  {| buffer := length mem;
     viewOffsets := repeat 0 (length (vectorShape (getVectorType x)));
     viewSizes := vectorShape (getVectorType x) |}.

(** The extents of the intersection of the region at the indices with the
    scratch buffer: per dimension, the smaller of what is left of the region
    after the index and the extent of the vector (the fused minimum
    [min (d0 - d1, d2)] of source lines 186-193). *)
Fixpoint overlap (ds idxs vs : list Z) : list Z :=
  match ds, idxs, vs with
  | d :: ds', i :: idxs', v :: vs' => Z.min (d - i) v :: overlap ds' idxs' vs'
  | _, _, _ => []
  end.

(** The cell of the view [w] that the lane [lane] of a transfer at the
    indices [idxs] touches ([0] when there is none). *)
Definition cellAt (mem : list Buffer) (w : View) (idxs lane : list Z) : Z :=
  match addPos idxs lane with
  | Some p => match readCell mem w p with Some z => z | None => 0 end
  | None => 0
  end.

Lemma grows_refl : forall s, grows s s.
Proof.
  intros s; repeat split; auto. exists []; now rewrite app_nil_r.
Qed.

Lemma grows_trans : forall s1 s2 s3, grows s1 s2 -> grows s2 s3 -> grows s1 s3.
Proof.
  intros s1 s2 s3 [[R1 [E1 [S1 I1]]] [N1 [o1 B1]]] [[R2 [E2 [S2 I2]]] [N2 [o2 B2]]].
  repeat split; try congruence; try lia.
  exists (o1 ++ o2). rewrite B2, B1. now rewrite app_assoc.
Qed.

Lemma builds_ret : forall A (a : A), builds (ret a).
Proof. intros A a s a' s' H; inversion H; subst; apply grows_refl. Qed.

Lemma builds_bind : forall A B (m : Rewriter A) (k : A -> Rewriter B),
  builds m -> (forall a, builds (k a)) -> builds (bind m k).
Proof.
  intros A B m k Hm Hk s b s' H. unfold bind in H.
  destruct (m s) as [[a s1]|] eqn:E; [|discriminate].
  eapply grows_trans; [eapply Hm; eauto | eapply Hk; eauto].
Qed.

Lemma builds_abort : forall A, builds (@abort A).
Proof. intros A s a s' H; discriminate. Qed.

Lemma builds_assert : forall b, builds (assert_ b).
Proof.
  intros b s a s' H; unfold assert_ in H; destruct b; inversion H; subst.
  apply grows_refl.
Qed.

Lemma builds_create : forall mk, builds (create mk).
Proof.
  intros mk s a s' H; inversion H; subst; clear H.
  repeat split; simpl; auto. eexists; reflexivity.
Qed.

Lemma builds_freshOp : builds freshOp.
Proof.
  intros s a s' H; inversion H; subst; clear H.
  repeat split; simpl; auto. exists []; now rewrite app_nil_r.
Qed.

Lemma builds_insert : forall op, builds (insert op).
Proof.
  intros op s a s' H; inversion H; subst; clear H.
  repeat split; simpl; auto. eexists; reflexivity.
Qed.

Lemma builds_at : forall A (l : list A) i, builds (at_ l i).
Proof.
  intros A l i; unfold at_; destruct (lookupZ l i);
    [apply builds_ret | apply builds_abort].
Qed.

Lemma builds_foldM : forall A B (f : A -> B -> Rewriter A) l a,
  (forall a b, builds (f a b)) -> builds (foldM f l a).
Proof.
  intros A B f l; induction l as [|b l IH]; intros a Hf; simpl.
  - apply builds_ret.
  - apply builds_bind; auto.
Qed.

Lemma builds_buildRegion : forall body, builds body -> builds (buildRegion body).
Proof.
  intros body Hb s a s' H. unfold buildRegion in H.
  match type of H with
  | match body ?s0 with _ => _ end = _ =>
      destruct (body s0) as [[u s1]|] eqn:E; [|discriminate];
      apply Hb in E
  end.
  inversion H; subst; clear H.
  destruct E as [[R [Er [Sc I]]] [N _]]; simpl in *.
  repeat split; simpl; auto. exists []; now rewrite app_nil_r.
Qed.

Create HintDb builds.
#[local] Hint Resolve builds_ret builds_abort builds_assert builds_create
  builds_freshOp builds_insert builds_at builds_buildRegion : builds.

Ltac builds_step :=
  match goal with
  | |- builds (bind _ _) => apply builds_bind; [ | intros ]
  | |- builds (foldM _ _ _) => apply builds_foldM; intros
  | |- builds (if ?b then _ else _) => destruct b
  | |- builds (match ?x with _ => _ end) => destruct x
  | |- builds (let '(_, _) := ?p in _) => destruct p
  | |- builds _ => solve [auto with builds]
  end.

Ltac builds_tac := repeat builds_step.

Lemma builds_createIfOp : forall cond thenB elseB,
  (forall id, builds (thenB id)) ->
  (forall e id, elseB = Some e -> builds (e id)) ->
  builds (createIfOp cond thenB elseB).
Proof.
  intros cond thenB elseB Ht He. unfold createIfOp.
  apply builds_bind; [auto with builds | intros id].
  apply builds_bind; [auto with builds | intros thenOps].
  apply builds_bind.
  - destruct elseB as [e|]; [|auto with builds].
    apply builds_bind; [apply builds_buildRegion; eapply He; eauto | intros].
    auto with builds.
  - intros; builds_tac.
Qed.

Lemma builds_clone : forall m inside x, builds (clone m inside x).
Proof. intros; unfold clone; builds_tac. Qed.

Lemma builds_makeComposedFoldedAffineApply : forall e operands,
  builds (makeComposedFoldedAffineApply e operands).
Proof. intros; unfold makeComposedFoldedAffineApply; builds_tac. Qed.

Lemma builds_getMixedSize : forall v ty dim, builds (getMixedSize v ty dim).
Proof. intros; unfold getMixedSize; builds_tac. Qed.

Lemma builds_getValueOrCreateConstantIndexOp : forall o,
  builds (getValueOrCreateConstantIndexOp o).
Proof. intros; unfold getValueOrCreateConstantIndexOp; builds_tac. Qed.

#[local] Hint Resolve builds_clone builds_makeComposedFoldedAffineApply
  builds_getMixedSize builds_getValueOrCreateConstantIndexOp : builds.

Lemma builds_inBoundsCondStep : forall x acc dim,
  builds (inBoundsCondStep x acc dim).
Proof. intros; unfold inBoundsCondStep; builds_tac. Qed.

Lemma builds_createInBoundsCond : forall x, builds (createInBoundsCond x).
Proof.
  intros; unfold createInBoundsCond; builds_tac.
  apply builds_inBoundsCondStep.
Qed.

Lemma builds_subViewSizeStep : forall x alloc sizes dim,
  builds (subViewSizeStep x alloc sizes dim).
Proof. intros; unfold subViewSizeStep; builds_tac. Qed.

Lemma builds_createSubViewIntersection : forall x alloc allocTy,
  builds (createSubViewIntersection x alloc allocTy).
Proof.
  intros; unfold createSubViewIntersection; builds_tac.
  apply builds_subViewSizeStep.
Qed.

Lemma builds_yieldSourceView : forall x t, builds (yieldSourceView x t).
Proof. intros; unfold yieldSourceView; builds_tac. Qed.

Lemma builds_yieldAllocView : forall x t alloc zero,
  builds (yieldAllocView x t alloc zero).
Proof. intros; unfold yieldAllocView; builds_tac. Qed.

#[local] Hint Resolve builds_createInBoundsCond
  builds_createSubViewIntersection builds_yieldSourceView
  builds_yieldAllocView : builds.

Lemma builds_createFullPartialLinalgCopy : forall x tys c t alloc allocTy,
  builds (createFullPartialLinalgCopy x tys c t alloc allocTy).
Proof.
  intros; unfold createFullPartialLinalgCopy.
  apply builds_bind; [auto with builds | intros].
  apply builds_createIfOp; intros; [auto with builds|].
  inversion H; subst; builds_tac.
Qed.

Lemma builds_createFullPartialVectorTransferRead : forall x tys c t alloc,
  builds (createFullPartialVectorTransferRead x tys c t alloc).
Proof.
  intros; unfold createFullPartialVectorTransferRead.
  apply builds_bind; [auto with builds | intros].
  apply builds_createIfOp; intros; [auto with builds|].
  inversion H; subst; builds_tac.
Qed.

Lemma builds_getLocationToWriteFullVec : forall x tys c t alloc,
  builds (getLocationToWriteFullVec x tys c t alloc).
Proof.
  intros; unfold getLocationToWriteFullVec.
  apply builds_bind; [auto with builds | intros].
  apply builds_bind; [|intros; auto with builds].
  apply builds_createIfOp; intros; [auto with builds|].
  inversion H; subst; builds_tac.
Qed.

Lemma builds_createFullPartialLinalgCopyWrite : forall x c alloc allocTy,
  builds (createFullPartialLinalgCopyWrite x c alloc allocTy).
Proof.
  intros; unfold createFullPartialLinalgCopyWrite.
  apply builds_bind; [auto with builds | intros].
  apply builds_bind; [auto with builds | intros].
  apply builds_bind; [|intros; auto with builds].
  apply builds_createIfOp; intros; [builds_tac | discriminate].
Qed.

Lemma builds_createFullPartialVectorTransferWrite : forall x c alloc,
  builds (createFullPartialVectorTransferWrite x c alloc).
Proof.
  intros; unfold createFullPartialVectorTransferWrite.
  apply builds_bind; [auto with builds | intros].
  apply builds_bind; [auto with builds | intros].
  apply builds_bind; [|intros; auto with builds].
  apply builds_createIfOp; intros; [builds_tac | discriminate].
Qed.

(** ** Strategy [None] (C9) and [ForceInBounds] (C7) *)

(** C9: called with strategy [None], the split returns failure at once and
    the IR is exactly what it was, whatever the operation is: no
    precondition, mask or bounds analysis is consulted (the operation is
    arbitrary, also one on which the asserted precondition would fail). *)
Theorem split_none_fails_unchanged : forall xferOp ifOp s,
  splitFullAndPartialTransfer xferOp (withStrategy None_) ifOp s
  = Done (failure, s).
Proof. intros; reflexivity. Qed.

(** C7: with strategy [ForceInBounds] the split of any transfer returns
    success; the in-bounds flags of the operation become all-true (one per
    transfer dimension); no operation is created anywhere, nothing is erased,
    the out-parameter cell is untouched, and every other attribute and
    operand of the operation is what it was. *)
Theorem split_forceInBounds_only_sets_flags : forall ifOp s,
  exists s',
    splitFullAndPartialTransfer (root s) (withStrategy ForceInBounds) ifOp s
    = Done (success, s') /\
    in_bounds (root s') = Some (repeat true (getTransferRank (root s))) /\
    block s' = block s /\ scopeEntry s' = scopeEntry s /\
    nextOp s' = nextOp s /\ erased s' = erased s /\
    ifOpCell s' = ifOpCell s /\
    kind (root s') = kind (root s) /\
    source (root s') = source (root s) /\
    getShapedType (root s') = getShapedType (root s) /\
    vector (root s') = vector (root s) /\
    getVectorType (root s') = getVectorType (root s) /\
    indices (root s') = indices (root s) /\
    permutation_map (root s') = permutation_map (root s) /\
    getPadding (root s') = getPadding (root s) /\
    getMask (root s') = getMask (root s) /\
    getParentOp (root s') = getParentOp (root s) /\
    ancestors (root s') = ancestors (root s).
Proof.
  intros ifOp s. eexists. split.
  - cbv [splitFullAndPartialTransfer withStrategy vectorTransferSplit
         strategyIs bind updateRootInPlace ret]. reflexivity.
  - simpl. repeat split; reflexivity.
Qed.

(** ** The allocation scope (C8) *)

Lemma walkAllocationScope_visited : forall chain scope,
  walkAllocationScope scope chain
  = fold_left (fun acc p => if hasAutomaticAllocationScope p then Some p else acc)
              (visitedAncestors chain) scope.
Proof.
  induction chain as [|p rest IH]; intros scope; simpl; [reflexivity|].
  destruct (isLoop p); simpl; [apply IH | reflexivity].
Qed.

Lemma walk_two_loops : forall l1 l2 f rest,
  isLoop l1 = true -> isLoop l2 = true -> isLoop f = false ->
  hasAutomaticAllocationScope f = true ->
  walkAllocationScope None (l1 :: l2 :: f :: rest) = Some f.
Proof.
  intros l1 l2 f rest H1 H2 H3 H4. simpl. rewrite H1, H2, H3, H4. reflexivity.
Qed.

(** ** The compatible descriptor type (C4) *)

Lemma nth_map_seq : forall (f : nat -> Z) n idx,
  (idx < n)%nat -> nth idx (map f (seq 0 n)) 0 = f idx.
Proof.
  intros f n idx H.
  rewrite (nth_indep _ 0 (f 0%nat)) by (now rewrite length_map, length_seq).
  rewrite map_nth, seq_nth; auto.
Qed.

(** C4: [getCastCompatibleMemRefType aT bT] is [aT] itself when the two
    types are cast-compatible; otherwise it is null when the ranks differ or
    one of the two has no strided layout; otherwise it is a strided type with
    the element type of [aT] whose extent and stride at each dimension are
    the value both sides share when they agree and dynamic when they do not,
    and whose offset follows the same rule. *)
Theorem getCastCompatibleMemRefType_cases : forall aT bT,
  (areCastCompatible aT bT = true ->
   getCastCompatibleMemRefType aT bT = Some aT) /\
  (areCastCompatible aT bT = false ->
   getRank aT <> getRank bT \/ getStridesAndOffset aT = None \/
   getStridesAndOffset bT = None ->
   getCastCompatibleMemRefType aT bT = None) /\
  (areCastCompatible aT bT = false ->
   getRank aT = getRank bT ->
   forall aStrides aOffset bStrides bOffset,
   getStridesAndOffset aT = Some (aStrides, aOffset) ->
   getStridesAndOffset bT = Some (bStrides, bOffset) ->
   exists resShape resStrides resOffset,
     getCastCompatibleMemRefType aT bT
     = Some (MemRefType_get_layout resShape (getElementType aT)
               (StridedLayoutAttr resOffset resStrides)) /\
     length resShape = getRank aT /\
     length resStrides = getRank aT /\
     (forall idx, (idx < getRank aT)%nat ->
        nth idx resShape 0
        = if nth idx (getShape aT) 0 =? nth idx (getShape bT) 0
          then nth idx (getShape aT) 0 else kDynamic) /\
     (forall idx, (idx < getRank aT)%nat ->
        nth idx resStrides 0
        = if nth idx aStrides 0 =? nth idx bStrides 0
          then nth idx aStrides 0 else kDynamic) /\
     resOffset = if aOffset =? bOffset then aOffset else kDynamic).
Proof.
  intros aT bT. unfold getCastCompatibleMemRefType. split; [|split].
  - intros ->. reflexivity.
  - intros -> H.
    destruct (Nat.eqb_spec (getRank aT) (getRank bT)) as [E|E]; simpl;
      [|reflexivity].
    destruct H as [H|[H|H]]; [contradiction| |].
    + now rewrite H.
    + rewrite H. now destruct (getStridesAndOffset aT) as [[? ?]|].
  - intros -> E aStrides aOffset bStrides bOffset Ha Hb.
    rewrite E, Nat.eqb_refl, Ha, Hb; simpl.
    rewrite (getStridesAndOffset_rank _ _ _ Ha).
    rewrite (getStridesAndOffset_rank _ _ _ Hb).
    rewrite E, Nat.eqb_refl; simpl.
    do 3 eexists. split; [reflexivity|].
    rewrite !length_map, !length_seq.
    repeat split; auto; intros idx Hidx.
    + rewrite nth_map_seq by lia. reflexivity.
    + rewrite nth_map_seq by lia. reflexivity.
Qed.

(** ** Symbolic runs *)

Lemma emit_nil : forall s, emit [] s = s.
Proof. intros [n r e b sc c]; unfold emit; simpl. now rewrite app_nil_r. Qed.

Lemma emit_emit : forall a b s, emit b (emit a s) = emit (a ++ b) s.
Proof.
  intros a b s; unfold emit; simpl.
  rewrite length_app, app_assoc. f_equal. lia.
Qed.

Lemma create_emit : forall mk s,
  create mk s = Done (nextOp s, emit [mk (nextOp s)] s).
Proof. reflexivity. Qed.

Lemma bind_done : forall A B (m : Rewriter A) (k : A -> Rewriter B) s a s1,
  m s = Done (a, s1) -> bind m k s = k a s1.
Proof. intros A B m k s a s1 H; unfold bind; now rewrite H. Qed.

Ltac close_emit :=
  unfold emit; simpl; rewrite <- ?app_assoc; simpl;
  lazymatch goal with
  | |- Done (_, Build_IR _ _ _ (_ ++ ?ops) _ _)
       = Done (_, Build_IR (length ?e + _) _ _ _ _ _) => unify e ops
  end; reflexivity.

(** ** The bounds condition (C1) *)

Ltac eqb_nat :=
  repeat match goal with
  | |- context [(?a =? ?b)%nat] =>
      first [ replace (a =? b)%nat with true
                by (symmetry; apply Nat.eqb_eq; lia)
            | replace (a =? b)%nat with false
                by (symmetry; apply Nat.eqb_neq; lia) ]
  end.

Lemma lookupValue_external : forall m m' v,
  isExternal v = true -> args m' = args m ->
  lookupValue m' v = lookupValue m v.
Proof.
  intros m m' [n|c|? ?] H E; simpl in *; try discriminate; congruence.
Qed.

Lemma mapOpt_ext : forall A B (f g : A -> option B) l,
  (forall a, In a l -> f a = g a) -> mapOpt f l = mapOpt g l.
Proof.
  intros A B f g l; induction l as [|a l IH]; intros H; simpl; [reflexivity|].
  rewrite (H a) by (now left). rewrite IH; auto.
  intros; apply H; now right.
Qed.

Lemma mapOpt_indexOf_external : forall m m' vs,
  forallb isExternal vs = true -> args m' = args m ->
  mapOpt (indexOf m') vs = mapOpt (indexOf m) vs.
Proof.
  intros m m' vs H E. apply mapOpt_ext. intros v Hv.
  unfold indexOf. rewrite (lookupValue_external m m'); auto.
  rewrite forallb_forall in H; auto.
Qed.

Lemma mapOpt_nth_error : forall A B (f : A -> option B) l l' n a,
  mapOpt f l = Some l' -> nth_error l n = Some a ->
  exists b, nth_error l' n = Some b /\ f a = Some b.
Proof.
  intros A B f l; induction l as [|x l IH]; intros l' n a H Hn.
  - destruct n; discriminate.
  - simpl in H. destruct (f x) eqn:Fx; [|discriminate].
    destruct (mapOpt f l) eqn:Fl; [|discriminate].
    inversion H; subst; clear H.
    destruct n; simpl in *.
    + inversion Hn; subst. eauto.
    + eapply IH; eauto.
Qed.

Lemma mapOpt_lookupZ : forall A B (f : A -> option B) l l' i a,
  mapOpt f l = Some l' -> lookupZ l i = Some a ->
  exists b, lookupZ l' i = Some b /\ f a = Some b.
Proof.
  intros A B f l l' i a H Hi. unfold lookupZ in *.
  destruct (i <? 0); [discriminate|]. eapply mapOpt_nth_error; eauto.
Qed.

Lemma agreeBelow_refl : forall n m, agreeBelow n m m.
Proof. intros; repeat split; auto. Qed.

Lemma agreeBelow_trans : forall n n' m1 m2 m3,
  (n <= n')%nat -> agreeBelow n m1 m2 -> agreeBelow n' m2 m3 ->
  agreeBelow n m1 m3.
Proof.
  intros n n' m1 m2 m3 L [A1 [M1 R1]] [A2 [M2 R2]].
  repeat split; try congruence.
  intros id k H. rewrite R2 by lia. auto.
Qed.

Lemma execOps_app : forall a b m,
  execOps (a ++ b) m
  = match execOps a m with Some m' => execOps b m' | None => None end.
Proof.
  induction a as [|o a IH]; intros b m; simpl; [reflexivity|].
  destruct (execOp o m); auto.
Qed.

Ltac run_step :=
  cbv beta iota delta [bind ret create makeComposedFoldedAffineApply
    allConstants constantOf getValueOrCreateConstantIndexOp
    getConstantIntValue staticallyInBounds evalAffineExpr nth_error].

Lemma indexOf_inv : forall m v a,
  indexOf m v = Some a -> lookupValue m v = Some (RIndex a).
Proof.
  unfold indexOf; intros m v a H.
  destruct (lookupValue m v) as [[]|]; congruence.
Qed.

Lemma boolOf_inv : forall m v a,
  boolOf m v = Some a -> lookupValue m v = Some (RBool a).
Proof.
  unfold boolOf; intros m v a H.
  destruct (lookupValue m v) as [[]|]; congruence.
Qed.

Lemma viewOf_inv : forall m v a,
  viewOf m v = Some a -> lookupValue m v = Some (RMemRef a).
Proof.
  unfold viewOf; intros m v a H.
  destruct (lookupValue m v) as [[]|]; congruence.
Qed.

Ltac lookups :=
  unfold indexOf, boolOf, viewOf, scalarOf, vectorOf;
  cbn [lookupValue bindResult results args memory yielded setMemory
       setYielded];
  eqb_nat; cbn [andb].

Ltac agree_below :=
  repeat split; try reflexivity;
  let id := fresh "id" in let k := fresh "k" in let H := fresh "H" in
  intros id k H; lookups; reflexivity.

Lemma inBoundsCondStep_spec : forall x acc r i s v index d,
  lookupZ (vectorShape (getVectorType x)) (Z.of_nat r) = Some v ->
  lookupZ (indices x) i = Some index -> isExternal index = true ->
  lookupZ (getShape (getShapedType x)) i = Some d ->
  isExternal (source x) = true ->
  isDimInBounds x r = false ->
  (forall c, acc = Some c ->
     exists id, c = OpResult id 0%nat /\ (id < nextOp s)%nat) ->
  exists acc' ops,
    inBoundsCondStep x acc (r, i) s = Done (acc', emit ops s) /\
    (forall c, acc' = Some c ->
       exists id, c = OpResult id 0%nat /\ (id < length ops + nextOp s)%nat) /\
    (foldsAway x (r, i) = true -> acc' = acc /\ ops = []) /\
    (foldsAway x (r, i) = false ->
       acc' <> None /\ length (filter isComparison ops) = 1%nat) /\
    filter isComparison ops = filter isSignedLessEqual ops /\
    forall m w a sz b,
      viewOf m (source x) = Some w ->
      lookupZ (viewSizes w) i = Some sz -> (d <> kDynamic -> sz = d) ->
      indexOf m index = Some a ->
      condValue m acc = Some b ->
      exists m', execOps ops m = Some m' /\ agreeBelow (nextOp s) m m' /\
                 condValue m' acc' = Some (b && (a + v <=? sz)).
Proof.
  intros x acc r i s v index d Hv Hi He Hd Hs F Hacc.
  assert (Hacc' : acc = None \/ exists id, acc = Some (OpResult id 0%nat) /\ (id < nextOp s)%nat).
  { destruct acc as [c|]; [right|now left].
    destruct (Hacc c eq_refl) as [id [-> L]]; eauto. }
  clear Hacc.
  unfold foldsAway, constantSum, constantExtent; simpl fst; simpl snd.
  unfold inBoundsCondStep, getMixedSize, at_. rewrite F, Hv, Hi, Hd.
  destruct (source x) as [src|src|? ?] eqn:Sx; [| |discriminate].
  all: destruct index as [n|c|? ?]; [| |discriminate].
  all: destruct (d =? kDynamic) eqn:Dd.
  all: run_step; rewrite ?Dd; run_step.
  all: try destruct (c + v <=? d) eqn:Le.
  all: destruct Hacc' as [->|[id0 [-> L0]]].
  all: do 2 eexists; (split; [first [close_emit | rewrite emit_nil; reflexivity]|]).
  all: cbn [length Nat.add filter isComparison isSignedLessEqual].
  all: (split; [intros c' E; inversion E; subst; eexists; split; first [reflexivity|lia]|]).
  all: (split; [first [discriminate | intros _; split; reflexivity]|]).
  all: (split; [first [discriminate | intros _; split; [discriminate|reflexivity]]|]).
  all: (split; [reflexivity|]).
  all: intros m w a sz b Hw Hsz Hst Ha Hb.
  all: apply viewOf_inv in Hw; apply indexOf_inv in Ha; cbn [lookupValue] in Hw, Ha.
  all: cbn [condValue] in Hb; try apply boolOf_inv in Hb; cbn [lookupValue] in Hb.
  all: try discriminate Hw.
  all: assert (Hd' : (d =? kDynamic) = false -> sz = d)
         by (intros E; apply Hst; intros ->; rewrite Z.eqb_refl in E; discriminate).
  all: try (specialize (Hd' Dd); subst sz).
  all: try (injection Ha as <-).
  all: try (injection Hb as <-).
  all: eexists; split;
         [ repeat (cbn [execOps execOp mapOpt evalAffineExpr nth_error];
                   lookups; rewrite ?Ha, ?Hw, ?Hsz, ?Hb; cbn beta iota);
           reflexivity | ].
  all: (split; [agree_below|]).
  all: cbn [condValue]; lookups; rewrite ?Hb; cbn beta iota;
         rewrite ?Le, ?andb_true_r; try reflexivity.
Qed.

Lemma lookupZ_same_length : forall A B (l : list A) (l' : list B) i a,
  lookupZ l i = Some a -> length l = length l' ->
  exists b, lookupZ l' i = Some b.
Proof.
  intros A B l l' i a H E. unfold lookupZ in *.
  destruct (i <? 0); [discriminate|].
  assert (L : (Z.to_nat i < length l)%nat)
    by (apply nth_error_Some; congruence).
  destruct (nth_error l' (Z.to_nat i)) eqn:N; eauto.
  apply nth_error_None in N. lia.
Qed.

Lemma foldM_inBoundsCond : forall x dims acc s,
  isExternal (source x) = true -> forallb isExternal (indices x) = true ->
  (forall r i, In (r, i) dims ->
     exists v index d,
       lookupZ (vectorShape (getVectorType x)) (Z.of_nat r) = Some v /\
       lookupZ (indices x) i = Some index /\
       lookupZ (getShape (getShapedType x)) i = Some d) ->
  (forall c, acc = Some c ->
     exists id, c = OpResult id 0%nat /\ (id < nextOp s)%nat) ->
  exists acc' ops,
    foldM (inBoundsCondStep x) dims acc s = Done (acc', emit ops s) /\
    (forall c, acc' = Some c ->
       exists id, c = OpResult id 0%nat /\ (id < length ops + nextOp s)%nat) /\
    length (filter isComparison ops) = length (filter (isChecked x) dims) /\
    filter isComparison ops = filter isSignedLessEqual ops /\
    (acc' = None <-> acc = None /\ filter (isChecked x) dims = []) /\
    (acc' = None -> ops = []) /\
    forall m w idxs b,
      viewOf m (source x) = Some w -> fitsType w (getShapedType x) ->
      mapOpt (indexOf m) (indices x) = Some idxs ->
      condValue m acc = Some b ->
      exists m', execOps ops m = Some m' /\ agreeBelow (nextOp s) m m' /\
        condValue m' acc'
        = Some (b && forallb (fun dim => isDimInBounds x (fst dim) ||
                                          dimInBounds x idxs (viewSizes w) dim)
                             dims).
Proof.
  intros x dims; induction dims as [|[r i] dims IH];
    intros acc s Hs Hx Hdims Hacc.
  - exists acc, []. simpl. rewrite emit_nil.
    split; [reflexivity|]. split; [exact Hacc|].
    split; [reflexivity|]. split; [reflexivity|].
    split; [tauto|]. split; [reflexivity|].
    intros m w idxs b _ _ _ Hb. exists m.
    split; [reflexivity|]. split; [apply agreeBelow_refl|].
    now rewrite andb_true_r.
  - assert (Hdims' : forall r i, In (r, i) dims ->
       exists v index d,
         lookupZ (vectorShape (getVectorType x)) (Z.of_nat r) = Some v /\
         lookupZ (indices x) i = Some index /\
         lookupZ (getShape (getShapedType x)) i = Some d)
      by (intros; apply Hdims; now right).
    destruct (isDimInBounds x r) eqn:F.
    + destruct (IH acc s Hs Hx Hdims' Hacc)
        as [acc' [ops [Run [Id [Cnt [Sle [Non [Emp Sem]]]]]]]].
      exists acc', ops.
      split. { cbn [foldM]. unfold inBoundsCondStep at 1. rewrite F.
               unfold bind, ret. exact Run. }
      split; [exact Id|].
      assert (C : isChecked x (r, i) = false)
        by (unfold isChecked; simpl; now rewrite F).
      simpl filter. rewrite C.
      split; [exact Cnt|]. split; [exact Sle|].
      split; [exact Non|]. split; [exact Emp|].
      intros m w idxs b Hw Hfit Hi Hb.
      destruct (Sem m w idxs b Hw Hfit Hi Hb) as [m' [E [A V]]].
      exists m'. split; [exact E|]. split; [exact A|].
      simpl forallb. simpl fst. rewrite F. exact V.
    + destruct (Hdims r i (or_introl eq_refl)) as [v [index [d [Hv [Hi Hd]]]]].
      assert (He : isExternal index = true).
      { rewrite forallb_forall in Hx. apply Hx.
        unfold lookupZ in Hi. destruct (i <? 0); [discriminate|].
        eapply nth_error_In; eauto. }
      destruct (inBoundsCondStep_spec x acc r i s v index d Hv Hi He Hd Hs F Hacc)
        as [acc1 [ops1 [Run1 [Id1 [Fold1 [NFold1 [Sle1 Sem1]]]]]]].
      assert (N1 : nextOp (emit ops1 s) = (length ops1 + nextOp s)%nat)
        by reflexivity.
      destruct (IH acc1 (emit ops1 s) Hs Hx Hdims')
        as [acc' [ops2 [Run2 [Id2 [Cnt2 [Sle2 [Non2 [Emp2 Sem2]]]]]]]].
      { rewrite N1. exact Id1. }
      exists acc', (ops1 ++ ops2).
      split. { cbn [foldM]. rewrite (bind_done _ _ _ _ _ _ _ Run1).
               rewrite Run2. now rewrite emit_emit. }
      split. { intros c E. destruct (Id2 c E) as [id [-> L]].
               exists id. split; [reflexivity|].
               rewrite N1 in L. rewrite length_app. lia. }
      assert (C : isChecked x (r, i) = negb (foldsAway x (r, i)))
        by (unfold isChecked; simpl fst; now rewrite F).
      simpl filter. rewrite C. rewrite !filter_app, length_app.
      destruct (foldsAway x (r, i)) eqn:FA; simpl negb; cbv iota.
      * destruct (Fold1 eq_refl) as [-> ->]. simpl.
        split; [exact Cnt2|]. split; [exact Sle2|]. split; [exact Non2|].
        split; [exact Emp2|].
        intros m w idxs b Hw Hfit Hidx Hb.
        destruct (mapOpt_lookupZ _ _ _ _ _ _ _ Hidx Hi) as [a [Hia Ha]].
        destruct Hfit as [Hlen Hstat].
        destruct (lookupZ_same_length _ _ _ (viewSizes w) _ _ Hd)
          as [sz Hsz]; [unfold getRank in Hlen; congruence|].
        destruct (Sem1 m w a sz b Hw Hsz) as [m1 [E1 [A1 V1]]]; auto.
        { intros Hne. specialize (Hstat i d Hd Hne). congruence. }
        simpl in E1. inversion E1; subst m1; clear E1.
        destruct (Sem2 m w idxs (b && (a + v <=? sz)) Hw (conj Hlen Hstat) Hidx V1)
          as [m2 [E2 [A2 V2]]].
        exists m2. split; [exact E2|]. split; [exact A2|].
        assert (DB : dimInBounds x idxs (viewSizes w) (r, i) = (a + v <=? sz))
          by (unfold dimInBounds; simpl fst; simpl snd;
              now rewrite Hia, Hv, Hsz).
        rewrite V2. simpl forallb. simpl fst. rewrite F, DB. simpl orb.
        now rewrite andb_assoc.
      * destruct (NFold1 eq_refl) as [Hne1 Cnt1].
        split. { simpl length. rewrite Cnt1, Cnt2. reflexivity. }
        split. { now rewrite Sle1, Sle2. }
        split. { split; [|intros [_ Habs]; discriminate].
                 intros E. apply Non2 in E. destruct E as [E _].
                 contradiction. }
        split. { intros E. apply Non2 in E. destruct E as [E _].
                 contradiction. }
        intros m w idxs b Hw Hfit Hidx Hb.
        destruct (mapOpt_lookupZ _ _ _ _ _ _ _ Hidx Hi) as [a [Hia Ha]].
        destruct Hfit as [Hlen Hstat].
        destruct (lookupZ_same_length _ _ _ (viewSizes w) _ _ Hd)
          as [sz Hsz]; [unfold getRank in Hlen; congruence|].
        destruct (Sem1 m w a sz b Hw Hsz) as [m1 [E1 [A1 V1]]]; auto.
        { intros Hne. specialize (Hstat i d Hd Hne). congruence. }
        assert (Hw1 : viewOf m1 (source x) = Some w).
        { unfold viewOf. rewrite (lookupValue_external m m1); auto.
          apply A1. }
        assert (Hidx1 : mapOpt (indexOf m1) (indices x) = Some idxs).
        { rewrite (mapOpt_indexOf_external m m1); auto. apply A1. }
        destruct (Sem2 m1 w idxs (b && (a + v <=? sz)) Hw1 (conj Hlen Hstat)
                    Hidx1 V1) as [m2 [E2 [A2 V2]]].
        exists m2. split. { rewrite execOps_app, E1. exact E2. }
        split. { eapply agreeBelow_trans; [|exact A1|exact A2].
                 rewrite N1. lia. }
        assert (DB : dimInBounds x idxs (viewSizes w) (r, i) = (a + v <=? sz))
          by (unfold dimInBounds; simpl fst; simpl snd;
              now rewrite Hia, Hv, Hsz).
        rewrite V2. simpl forallb. simpl fst. rewrite F, DB. simpl orb.
        now rewrite andb_assoc.
Qed.

Lemma lookupZ_in_range : forall A (l : list A) i,
  0 <= i < Z.of_nat (length l) -> exists a, lookupZ l i = Some a.
Proof.
  intros A l i H. unfold lookupZ.
  destruct (Z.ltb_spec i 0); [lia|].
  destruct (nth_error l (Z.to_nat i)) eqn:N; eauto.
  apply nth_error_None in N. lia.
Qed.

Lemma isMinorIdentity_rank : forall m,
  isMinorIdentity m = true -> (length (getResults m) <= getNumDims m)%nat.
Proof.
  intros m H. unfold isMinorIdentity in H.
  apply andb_true_iff in H. destruct H as [H _]. now apply Nat.leb_le.
Qed.

Lemma zipResultAndIndexing_lookups : forall x,
  isMinorIdentity (permutation_map x) = true -> verified x = true ->
  forall r i, In (r, i) (zipResultAndIndexing x) ->
    exists v index d,
      lookupZ (vectorShape (getVectorType x)) (Z.of_nat r) = Some v /\
      lookupZ (indices x) i = Some index /\
      lookupZ (getShape (getShapedType x)) i = Some d.
Proof.
  intros x Hm Hv r i Hin.
  apply isMinorIdentity_rank in Hm.
  unfold verified in Hv. repeat rewrite andb_true_iff in Hv.
  destruct Hv as [[[[Hi Hvs] Hn] _] _].
  apply Nat.eqb_eq in Hi, Hvs, Hn.
  unfold zipResultAndIndexing in Hin. apply in_map_iff in Hin.
  destruct Hin as [r' [E Hr]]. inversion E; subst; clear E.
  apply in_seq in Hr. unfold getLeadingShapedRank, getTransferRank in *.
  unfold getRank in *.
  destruct (lookupZ_in_range _ (vectorShape (getVectorType x)) (Z.of_nat r))
    as [v Hv]; [lia|].
  destruct (lookupZ_in_range _ (indices x)
              (Z.of_nat (length (getShape (getShapedType x))) -
               Z.of_nat (length (getResults (permutation_map x))) + Z.of_nat r))
    as [index Hidx]; [lia|].
  destruct (lookupZ_in_range _ (getShape (getShapedType x))
              (Z.of_nat (length (getShape (getShapedType x))) -
               Z.of_nat (length (getResults (permutation_map x))) + Z.of_nat r))
    as [d Hd]; [lia|].
  eauto 6.
Qed.

Lemma filter_filter : forall A (f g : A -> bool) l,
  filter f (filter g l) = filter (fun a => g a && f a) l.
Proof.
  intros A f g l; induction l as [|a l IH]; simpl; [reflexivity|].
  destruct (g a); simpl; [destruct (f a)|]; now rewrite IH.
Qed.

Lemma forallb_or_filter : forall A (flag P : A -> bool) l,
  forallb (fun a => flag a || P a) l
  = forallb P (filter (fun a => negb (flag a)) l).
Proof.
  intros A flag P l; induction l as [|a l IH]; simpl; [reflexivity|].
  destruct (flag a); simpl; now rewrite IH.
Qed.

(** C1: for a transfer with a minor-identity map, [createInBoundsCond]
    creates exactly one comparison, a signed less-or-equal, per participating
    dimension (in-bounds flag false) whose sum [index + vector extent] and
    region extent do not both fold to constants with [sum <= extent]; the
    value of the condition at run time is the conjunction over all
    participating dimensions of [index + vector extent <= region extent]; the
    result is null exactly when every participating dimension folds away,
    and then nothing was created. Region extent 8, vector extent 4, constant
    index 2: no check, null result. *)
Theorem createInBoundsCond_conjunction : forall x s,
  isMinorIdentity (permutation_map x) = true -> verified x = true ->
  exists cond ops,
    createInBoundsCond x s = Done (cond, emit ops s) /\
    length (filter isComparison ops) = length (checkedDims x) /\
    filter isComparison ops = filter isSignedLessEqual ops /\
    (cond = None <-> checkedDims x = []) /\
    (cond = None -> ops = []) /\
    (forall m w idxs,
       viewOf m (source x) = Some w -> fitsType w (getShapedType x) ->
       mapOpt (indexOf m) (indices x) = Some idxs ->
       exists m', execOps ops m = Some m' /\ memory m' = memory m /\
         condValue m' cond
         = Some (forallb (dimInBounds x idxs (viewSizes w))
                         (participatingDims x))) /\
    (forall k s0,
       foldsAway (transferStatic k 8 2) (0%nat, 0) = true /\
       createInBoundsCond (transferStatic k 8 2) s0 = Done (None, s0)).
Proof.
  intros x s Hm Hv.
  assert (Hx := Hv). unfold verified in Hx.
  repeat rewrite andb_true_iff in Hx. destruct Hx as [[_ Hs] Hx].
  destruct (foldM_inBoundsCond x (zipResultAndIndexing x) None s Hs Hx
              (zipResultAndIndexing_lookups x Hm Hv))
    as [cond [ops [Run [_ [Cnt [Sle [Non [Emp Sem]]]]]]]]; [discriminate|].
  assert (CD : checkedDims x = filter (isChecked x) (zipResultAndIndexing x)).
  { unfold checkedDims, participatingDims. now rewrite filter_filter. }
  exists cond, ops.
  split. { unfold createInBoundsCond, assert_. rewrite Hm.
           unfold bind. exact Run. }
  rewrite CD. split; [exact Cnt|]. split; [exact Sle|].
  split; [rewrite Non; tauto|]. split; [exact Emp|].
  split.
  - intros m w idxs Hw Hfit Hidx.
    destruct (Sem m w idxs true Hw Hfit Hidx eq_refl) as [m' [E [A V]]].
    exists m'. split; [exact E|]. split; [apply A|].
    rewrite V. simpl andb. unfold participatingDims.
    now rewrite <- forallb_or_filter.
  - intros k s0. split; reflexivity.
Qed.

(** ** Effects of the bounds-condition builder without assumptions *)

Lemma bind_inv : forall A B (m : Rewriter A) (k : A -> Rewriter B) s b s',
  bind m k s = Done (b, s') ->
  exists a s1, m s = Done (a, s1) /\ k a s1 = Done (b, s').
Proof.
  intros A B m k s b s' H. unfold bind in H.
  destruct (m s) as [[a s1]|]; [eauto | discriminate].
Qed.

Lemma ret_inv : forall A (a a' : A) s s',
  ret a s = Done (a', s') -> a' = a /\ s' = s.
Proof. intros A a a' s s' H; inversion H; auto. Qed.

Lemma assert_inv : forall b u s s',
  assert_ b s = Done (u, s') -> b = true /\ s' = s.
Proof.
  intros b u s s' H; unfold assert_ in H; destruct b; inversion H; auto.
Qed.

Lemma inBoundsCondStep_effects : forall x acc dim s acc' s',
  inBoundsCondStep x acc dim s = Done (acc', s') ->
  (acc' = acc /\ s' = s) \/
  (acc' <> None /\ exists ops, ops <> [] /\ block s' = block s ++ ops).
Proof.
  intros x acc [r i] s acc' s' H.
  unfold inBoundsCondStep, getMixedSize, at_ in H.
  destruct (isDimInBounds x r); [left; now inversion H|].
  destruct (lookupZ (vectorShape (getVectorType x)) (Z.of_nat r)) as [v|];
    [|discriminate].
  destruct (lookupZ (indices x) i) as [index|]; [|discriminate].
  destruct (lookupZ (getShape (getShapedType x)) i) as [d|];
    [|destruct index; discriminate].
  revert H.
  destruct index as [n|c|? ?]; destruct (d =? kDynamic) eqn:Dd;
    run_step; rewrite ?Dd; run_step;
    try destruct (c + v <=? d); destruct acc; intros H; inversion H;
    subst; clear H; cbn [block];
    first [ left; split; reflexivity
          | right; split; [discriminate|];
            rewrite <- ?app_assoc; eexists; split; [|reflexivity];
            discriminate ].
Qed.

Lemma foldM_inBoundsCond_effects : forall x dims acc s acc' s',
  foldM (inBoundsCondStep x) dims acc s = Done (acc', s') ->
  (acc' = None -> acc = None /\ s' = s) /\
  (acc <> None -> acc' <> None) /\
  (acc = None -> acc' <> None ->
   exists ops, ops <> [] /\ block s' = block s ++ ops).
Proof.
  intros x dims; induction dims as [|dim dims IH]; intros acc s acc' s' H.
  - inversion H; subst. repeat split; auto. intros; contradiction.
  - cbn [foldM] in H. apply bind_inv in H.
    destruct H as [acc1 [s1 [H1 H2]]].
    destruct (IH _ _ _ _ H2) as [N [K E]].
    destruct (inBoundsCondStep_effects _ _ _ _ _ _ H1)
      as [[-> ->]|[Ne [ops1 [Nil B1]]]]; [auto|].
    split; [intros ->; destruct (N eq_refl); contradiction|].
    split; [auto|].
    intros _ _.
    assert (G : grows s1 s').
    { eapply (builds_foldM _ _ (inBoundsCondStep x) dims acc1); eauto.
      intros; apply builds_inBoundsCondStep. }
    destruct G as [_ [_ [ops2 B2]]].
    exists (ops1 ++ ops2). split.
    + destruct ops1; [contradiction | discriminate].
    + rewrite B2, B1. now rewrite app_assoc.
Qed.

Lemma createInBoundsCond_effects : forall x s cond s',
  createInBoundsCond x s = Done (cond, s') ->
  grows s s' /\
  (cond = None -> s' = s) /\
  (cond <> None -> exists ops, ops <> [] /\ block s' = block s ++ ops).
Proof.
  intros x s cond s' H.
  split; [eapply builds_createInBoundsCond; eauto|].
  unfold createInBoundsCond in H. apply bind_inv in H.
  destruct H as [u [s1 [H1 H2]]]. apply assert_inv in H1.
  destruct H1 as [_ ->].
  destruct (foldM_inBoundsCond_effects _ _ _ _ _ _ H2) as [N [_ E]].
  split; [intros E'; now apply N | auto].
Qed.

(** ** The orchestrator, case by case *)

Lemma split_inversion : forall st ifOp s r s',
  splits st = true ->
  splitFullAndPartialTransfer (root s) (withStrategy st) ifOp s
  = Done (r, s') ->
  let x := root s in
  succeeded (splitFullAndPartialTransferPrecondition x) = true /\
  ((r = failure /\ s' = s /\
    (isaRead x || isaWrite x = false \/ hasMask x = true \/
     createInBoundsCond x s = Done (None, s)))
   \/
   (hasMask x = false /\
    exists cond s1 scope,
      createInBoundsCond x s = Done (Some cond, s1) /\
      walkAllocationScope None (chainOf x) = Some scope /\
      getNumRegions scope = 1%nat /\
      let s2 := allocated x scope s1 in
      let alloc := OpResult (nextOp s1) 0 in
      ((r = failure /\
        getCastCompatibleMemRefType (getShapedType x) (allocaType x) = None /\
        s' = s2)
       \/
       exists t,
         getCastCompatibleMemRefType (getShapedType x) (allocaType x) = Some t /\
         ((isaRead x = true /\
           exists ifop s3,
             (if strategyIs st VectorTransfer
              then createFullPartialVectorTransferRead x (returnTypesOf x t)
                     cond t alloc
              else createFullPartialLinalgCopy x (returnTypesOf x t) cond t
                     alloc (allocaType x)) s2 = Done (ifop, s3) /\
             finishRead x ifOp (returnTypesOf x t) ifop s3 = Done (r, s'))
          \/
          (isaRead x = false /\ isaWrite x = true /\ r = success /\
           exists res s3 s4,
             getLocationToWriteFullVec x (returnTypesOf x t) cond t alloc s2
             = Done (res, s3) /\
             (if strategyIs st VectorTransfer
              then createFullPartialVectorTransferWrite x cond alloc
              else createFullPartialLinalgCopyWrite x cond alloc (allocaType x))
               (emit [TransferOp (nextOp s3)
                        (inBoundsClone x t res (nextOp s3))] s3)
             = Done (tt, s4) /\
             s' = withErased s4))))).
Proof.
  intros st ifOp s r s' Hst H. cbv zeta.
  unfold splitFullAndPartialTransfer in H.
  cbn [vectorTransferSplit withStrategy] in H.
  assert (E1 : strategyIs st None_ = false) by (destruct st; auto; discriminate).
  assert (E2 : strategyIs st ForceInBounds = false)
    by (destruct st; auto; discriminate).
  rewrite E1, E2 in H.
  apply bind_inv in H. destruct H as [u [s0 [A H]]].
  apply assert_inv in A. destruct A as [Pre ->].
  split; [exact Pre|].
  destruct (isaRead (root s) || isaWrite (root s)) eqn:RW; cbn [negb] in H.
  2:{ apply ret_inv in H. destruct H as [-> ->]. left; auto. }
  destruct (hasMask (root s)) eqn:M.
  { left. rewrite !andb_true_r in H.
    destruct (isaWrite (root s)) eqn:W.
    - apply ret_inv in H. destruct H as [-> ->]. auto.
    - rewrite orb_false_r in RW. rewrite RW in H.
      apply ret_inv in H. destruct H as [-> ->]. auto. }
  rewrite !andb_false_r in H.
  apply bind_inv in H. destruct H as [cond [s1 [C H]]].
  destruct cond as [cond|].
  2:{ apply ret_inv in H. destruct H as [-> ->].
      destruct (createInBoundsCond_effects _ _ _ _ C) as [_ [N _]].
      rewrite (N eq_refl) in *. left; auto. }
  right. split; [reflexivity|].
  apply bind_inv in H. destruct H as [scope [s1' [S H]]].
  unfold getAutomaticAllocationScope in S. fold (chainOf (root s)) in S.
  destruct (walkAllocationScope None (chainOf (root s))) as [sc|] eqn:W;
    [|discriminate].
  apply ret_inv in S. destruct S as [-> ->].
  apply bind_inv in H. destruct H as [u' [s1' [A H]]].
  apply assert_inv in A. destruct A as [NR ->]. apply Nat.eqb_eq in NR.
  apply bind_inv in H. destruct H as [allocId [s2 [Al H]]].
  unfold createAtStartOf in Al. inversion Al; subst allocId s2; clear Al.
  fold (allocated (root s) sc s1) in H.
  exists cond, s1, sc. split; [exact C|]. split; [reflexivity|].
  split; [exact NR|]. cbv zeta.
  destruct (getCastCompatibleMemRefType (getShapedType (root s))
              (allocaType (root s))) as [t|] eqn:CT.
  2:{ apply ret_inv in H. destruct H as [-> ->]. left; auto. }
  right. exists t. split; [reflexivity|].
  fold (returnTypesOf (root s) t) in H.
  destruct (isaRead (root s)) eqn:R.
  - left. split; [reflexivity|].
    apply bind_inv in H. destruct H as [ifop [s3 [B H]]].
    exists ifop, s3. split; [exact B|]. exact H.
  - right. simpl in RW. split; [reflexivity|]. split; [exact RW|].
    apply bind_inv in H. destruct H as [res [s3 [B H]]].
    apply bind_inv in H. destruct H as [id [s3' [F H]]].
    unfold freshOp in F. inversion F; subst id s3'; clear F.
    apply bind_inv in H. destruct H as [u1 [s3' [I H]]].
    unfold insert in I. inversion I; subst s3'; clear I.
    apply bind_inv in H. destruct H as [u2 [s4 [Wr H]]].
    apply bind_inv in H. destruct H as [u3 [s5 [Er H]]].
    unfold eraseOp in Er. inversion Er; subst s5; clear Er.
    apply ret_inv in H. destruct H as [-> ->].
    split; [reflexivity|].
    exists res, s3, s4. split; [exact B|]. destruct u2.
    split; [exact Wr | reflexivity].
Qed.

Lemma setOperands_frame : forall vs i s u s',
  setOperands vs i s = Done (u, s') ->
  nextOp s' = nextOp s /\ erased s' = erased s /\ block s' = block s /\
  scopeEntry s' = scopeEntry s /\ ifOpCell s' = ifOpCell s /\
  ((0 < i)%nat -> source (root s') = source (root s)).
Proof.
  induction vs as [|[v ty] vs IH]; intros i s u s' H.
  - inversion H; subst. repeat split; auto.
  - cbn [setOperands] in H. apply bind_inv in H.
    destruct H as [u1 [s1 [U H]]]. unfold updateRootInPlace in U.
    inversion U; subst s1; clear U.
    destruct (IH _ _ _ _ H) as [N [E [B [Sc [I Src]]]]]. simpl in *.
    repeat split; auto.
    intros L. rewrite Src by lia. simpl.
    destruct i; [lia | reflexivity].
Qed.

Lemma finishRead_inv : forall x ifOp tys ifop s r s',
  finishRead x ifOp tys ifop s = Done (r, s') ->
  r = success /\ nextOp s' = nextOp s /\ erased s' = erased s /\
  block s' = block s /\ scopeEntry s' = scopeEntry s /\
  ifOpCell s' = (if ifOp then Some ifop else ifOpCell s) /\
  in_bounds (root s') = Some (repeat true (getTransferRank x)) /\
  (tys <> [] -> source (root s') = getResult ifop 0).
Proof.
  intros x ifOp tys ifop s r s' H. unfold finishRead in H.
  apply bind_inv in H. destruct H as [u0 [s0 [St H]]].
  apply bind_inv in H. destruct H as [u1 [s1 [A H]]].
  apply assert_inv in A. destruct A as [_ ->].
  apply bind_inv in H. destruct H as [u2 [s2 [So H]]].
  apply bind_inv in H. destruct H as [u3 [s3 [Up H]]].
  apply ret_inv in H. destruct H as [-> ->].
  unfold updateRootInPlace in Up. inversion Up; subst s3; clear Up.
  unfold storeIfOp in St. inversion St; subst s0; clear St.
  simpl.
  assert (K : nextOp s2 = nextOp s /\ erased s2 = erased s /\
              block s2 = block s /\ scopeEntry s2 = scopeEntry s /\
              ifOpCell s2 = (if ifOp then Some ifop else ifOpCell s) /\
              (tys <> [] -> source (root s2) = getResult ifop 0)).
  { destruct tys as [|ty tys].
    - simpl in So. inversion So; subst s2.
      destruct ifOp; simpl; repeat split; auto; intros; contradiction.
    - cbn [length seq map combine setOperands] in So.
      apply bind_inv in So. destruct So as [u4 [s4 [Up So]]].
      unfold updateRootInPlace in Up. inversion Up; subst s4; clear Up.
      destruct (setOperands_frame _ _ _ _ _ So) as [N [E [B [Sc [I Src]]]]].
      rewrite N, E, B, Sc, I, Src by lia.
      destruct ifOp; simpl; repeat split; auto. }
  destruct K as [N [E [B [Sc [I Src]]]]].
  repeat split; auto.
Qed.

Lemma buildRegion_block : forall body s ops s',
  buildRegion body s = Done (ops, s') -> block s' = block s.
Proof.
  intros body s ops s' H. unfold buildRegion in H.
  match type of H with
  | match body ?s0 with _ => _ end = _ =>
      destruct (body s0) as [[u s1]|]; [|discriminate]
  end.
  now inversion H.
Qed.

Lemma createIfOp_inv : forall cond thenB elseB s op s',
  createIfOp cond thenB elseB s = Done (op, s') ->
  (exists n t e, op = IfOp (nextOp s) cond n t e) /\
  block s' = block s ++ [op].
Proof.
  intros cond thenB elseB s op s' H. unfold createIfOp in H.
  apply bind_inv in H. destruct H as [id [s0 [F H]]].
  unfold freshOp in F. inversion F; subst id s0; clear F.
  apply bind_inv in H. destruct H as [thenOps [s1 [T H]]].
  apply buildRegion_block in T. simpl in T.
  apply bind_inv in H. destruct H as [elseOps [s2 [E H]]].
  assert (B2 : block s2 = block s1).
  { destruct elseB as [e|].
    - apply bind_inv in E. destruct E as [r [s3 [E R]]].
      apply ret_inv in R. destruct R as [_ ->].
      now apply buildRegion_block in E.
    - apply ret_inv in E. now destruct E as [_ ->]. }
  apply bind_inv in H. destruct H as [u [s3 [I H]]].
  apply ret_inv in H. destruct H as [-> ->].
  unfold insert in I. inversion I; subst s3; clear I. simpl.
  split; [eauto|]. now rewrite B2, T.
Qed.

Lemma readBuilder_inv : forall st x tys cond t alloc s ifop s',
  (if strategyIs st VectorTransfer
   then createFullPartialVectorTransferRead x tys cond t alloc
   else createFullPartialLinalgCopy x tys cond t alloc (allocaType x)) s
  = Done (ifop, s') ->
  grows s s' /\
  (exists n th el, ifop = IfOp (S (nextOp s)) cond n th el) /\
  block s' = block s ++ [ConstantIndexOp (nextOp s) 0; ifop].
Proof.
  intros st x tys cond t alloc s ifop s' H.
  split.
  { destruct (strategyIs st VectorTransfer);
      [eapply builds_createFullPartialVectorTransferRead
      |eapply builds_createFullPartialLinalgCopy]; eauto. }
  assert (K : exists thenB elseB,
             createIfOp cond thenB elseB
               (emit [ConstantIndexOp (nextOp s) 0] s) = Done (ifop, s')).
  { destruct (strategyIs st VectorTransfer);
      [unfold createFullPartialVectorTransferRead in H
      |unfold createFullPartialLinalgCopy in H];
      apply bind_inv in H; destruct H as [z [s0 [C H]]];
      rewrite create_emit in C; inversion C; subst z s0; eauto. }
  destruct K as [thenB [elseB K]].
  apply createIfOp_inv in K. destruct K as [[n [th [el E]]] B].
  simpl in *. split; [eauto|].
  rewrite B, <- app_assoc. reflexivity.
Qed.

(** ** Failure and the IR (C3) *)

Lemma split_failure_effect : forall st ifOp s s',
  splitFullAndPartialTransfer (root s) (withStrategy st) ifOp s
  = Done (failure, s') ->
  failureEffect (root s) s s'.
Proof.
  intros st ifOp s s' H.
  destruct (splits st) eqn:Sp.
  - destruct (split_inversion _ _ _ _ _ Sp H)
      as [_ [[_ [-> _]]|[_ [cond [s1 [scope [C [W [_ K]]]]]]]]];
      [now left|].
    cbv zeta in K.
    destruct (createInBoundsCond_effects _ _ _ _ C)
      as [[[R [E [Sc I]]] _] [_ Ops]].
    destruct (Ops ltac:(discriminate)) as [ops [Nil B]].
    destruct K as [[_ [CT ->]]|[t [_ [[_ [ifop [s3 [_ F]]]]|[_ [_ [Abs _]]]]]]].
    + right. simpl. split; [exact CT|].
      repeat split; auto.
      exists scope, (nextOp s1), ops. rewrite Sc. auto.
    + apply finishRead_inv in F. destruct F as [Abs _]. discriminate.
    + discriminate.
  - destruct st; try discriminate. inversion H. now left.
Qed.

Lemma precondition_rejects : forall x,
  getTransferRank x = 0%nat \/ isMinorIdentity (permutation_map x) = false \/
  hasOutOfBoundsDim x = false \/ isScfIf (getParentOp x) = true ->
  splitFullAndPartialTransferPrecondition x = failure.
Proof.
  intros x H. unfold splitFullAndPartialTransferPrecondition.
  destruct (getTransferRank x =? 0)%nat eqn:R; [reflexivity|].
  destruct (isMinorIdentity (permutation_map x)); [|reflexivity].
  destruct (hasOutOfBoundsDim x); [|reflexivity].
  destruct (isScfIf (getParentOp x)); [reflexivity|].
  apply Nat.eqb_neq in R.
  destruct H as [H|[H|[H|H]]]; try discriminate; contradiction.
Qed.

(** C3, amended: whenever the split - called directly or through the
    pattern - returns failure, the transfer operation, the erased flag and
    the out-parameter are what they were, and the IR is completely unchanged
    except in one case: when no cast-compatible unified descriptor type
    exists, the operations of the bounds condition in front of the transfer
    and the scratch-buffer allocation at the entry of the allocation scope
    have been created and stay. An operation that is not a transfer, zero
    transfer rank, a map that is not a minor identity, no out-of-bounds
    dimension, a parent conditional and a failing filter are rejected by the
    pattern with the IR unchanged; an explicit mask and a bounds condition
    that folds away entirely make the split fail with the IR unchanged. *)
Theorem failure_changes_nothing_but_the_buffer : forall st ifOp filter s,
  (forall s',
     splitFullAndPartialTransfer (root s) (withStrategy st) ifOp s
     = Done (failure, s') -> failureEffect (root s) s s') /\
  (forall s',
     matchAndRewrite filter (withStrategy st) (Some (root s)) s
     = Done (failure, s') -> failureEffect (root s) s s') /\
  matchAndRewrite filter (withStrategy st) None s = Done (failure, s) /\
  (getTransferRank (root s) = 0%nat \/
   isMinorIdentity (permutation_map (root s)) = false \/
   hasOutOfBoundsDim (root s) = false \/
   isScfIf (getParentOp (root s)) = true \/
   failed (filter (root s)) = true ->
   matchAndRewrite filter (withStrategy st) (Some (root s)) s
   = Done (failure, s)) /\
  (splits st = true ->
   succeeded (splitFullAndPartialTransferPrecondition (root s)) = true ->
   hasMask (root s) = true \/ createInBoundsCond (root s) s = Done (None, s) ->
   splitFullAndPartialTransfer (root s) (withStrategy st) ifOp s
   = Done (failure, s)).
Proof.
  intros st ifOp filter s.
  split; [intros s' H; eapply split_failure_effect; eauto|].
  split.
  { intros s' H. unfold matchAndRewrite in H.
    destruct (failed (splitFullAndPartialTransferPrecondition (root s)));
      [inversion H; now left|].
    destruct (failed (filter (root s))); [inversion H; now left|].
    eapply split_failure_effect; eauto. }
  split; [reflexivity|].
  split.
  { intros H. unfold matchAndRewrite.
    destruct (failed (splitFullAndPartialTransferPrecondition (root s)))
      eqn:P; [reflexivity|].
    destruct (failed (filter (root s))) eqn:F; [reflexivity|].
    destruct H as [H|[H|[H|[H|H]]]]; try discriminate;
      rewrite precondition_rejects in P by auto; discriminate. }
  intros Sp Pre H.
  unfold splitFullAndPartialTransfer.
  cbn [vectorTransferSplit withStrategy].
  replace (strategyIs st None_) with false by (destruct st; auto; discriminate).
  replace (strategyIs st ForceInBounds) with false
    by (destruct st; auto; discriminate).
  unfold bind at 1. unfold assert_. rewrite Pre.
  destruct (isaRead (root s) || isaWrite (root s)) eqn:RW;
    [|reflexivity]. cbn [negb].
  destruct (hasMask (root s)) eqn:M.
  - rewrite !andb_true_r.
    destruct (isaWrite (root s)); [reflexivity|].
    rewrite orb_false_r in RW. now rewrite RW.
  - rewrite !andb_false_r. destruct H as [H|H]; [discriminate|].
    unfold bind. now rewrite H.
Qed.

(** ** The out-parameter (C10) *)

(** C10: with a non-null [ifOp] out-parameter, a successful split of a read
    (strategies that split) stores the conditional it created - a new
    operation in front of the transfer whose first result the read now
    consumes - into the cell; a successful split of a write leaves the cell
    as it was, and so does every failure, the strategy [ForceInBounds], and
    any call with a null pointer. *)
Theorem ifOp_out_parameter : forall st ifOp s r s',
  splitFullAndPartialTransfer (root s) (withStrategy st) ifOp s
  = Done (r, s') ->
  (r = failure -> ifOpCell s' = ifOpCell s) /\
  (r = success -> isaRead (root s) = false -> ifOpCell s' = ifOpCell s) /\
  (r = success -> splits st = false -> ifOpCell s' = ifOpCell s) /\
  (ifOp = false -> ifOpCell s' = ifOpCell s) /\
  (r = success -> splits st = true -> isaRead (root s) = true ->
   ifOp = true ->
   exists ops id cond n th el,
     block s' = block s ++ ops /\ In (IfOp id cond n th el) ops /\
     (nextOp s <= id)%nat /\
     ifOpCell s' = Some (IfOp id cond n th el) /\
     source (root s') = OpResult id 0).
Proof.
  intros st ifOp s r s' H.
  destruct (splits st) eqn:Sp.
  2:{ destruct st; try discriminate; inversion H; subst;
        repeat split; auto; intros; discriminate. }
  destruct (split_inversion _ _ _ _ _ Sp H)
    as [_ [[-> [-> _]]|[_ [cond [s1 [scope [C [W [_ K]]]]]]]]].
  { repeat split; auto; intros; discriminate. }
  cbv zeta in K.
  destruct (createInBoundsCond_effects _ _ _ _ C)
    as [[[R1 [E1 [Sc1 I1]]] [N1 [ops1 B1]]] _].
  destruct K as [[-> [CT ->]]|[t [_ [[Rd [ifop [s3 [Bd F]]]]
                                     |[Rd [Wr [-> [res [s3 [s4 [L [B ->]]]]]]]]]]]].
  - simpl. repeat split; auto; intros; discriminate.
  - apply readBuilder_inv in Bd.
    destruct Bd as [[[R3 [E3 [Sc3 I3]]] _] [[n [th [el ->]]] B3]].
    apply finishRead_inv in F.
    destruct F as [-> [N [E [B [Sc [I [_ Src]]]]]]].
    simpl in *.
    split; [discriminate|].
    split; [intros _ Abs; rewrite Rd in Abs; discriminate|].
    split; [discriminate|].
    split; [intros ->; congruence|].
    intros _ _ _ ->.
    exists (ops1 ++ [ConstantIndexOp (S (nextOp s1)) 0;
                     IfOp (S (S (nextOp s1))) cond n th el]).
    exists (S (S (nextOp s1))), cond, n, th, el.
    split; [rewrite B, B3, B1, <- app_assoc; reflexivity|].
    split; [apply in_or_app; right; right; now left|].
    split; [lia|].
    split; [exact I|].
    apply Src. unfold returnTypesOf. discriminate.
  - assert (G3 : grows (allocated (root s) scope s1) s3)
      by (eapply builds_getLocationToWriteFullVec; eauto).
    assert (G4 : grows
                   (emit [TransferOp (nextOp s3)
                            (inBoundsClone (root s) t res (nextOp s3))] s3) s4).
    { destruct (strategyIs st VectorTransfer);
        [eapply builds_createFullPartialVectorTransferWrite
        |eapply builds_createFullPartialLinalgCopyWrite]; eauto. }
    destruct G3 as [[_ [_ [_ I3]]] _]. destruct G4 as [[_ [_ [_ I4]]] _].
    simpl in *.
    assert (I : ifOpCell s4 = ifOpCell s) by congruence.
    split; [discriminate|]. split; [auto|]. split; [discriminate|].
    split; [auto|]. intros _ _ Abs. rewrite Rd in Abs. discriminate.
Qed.

(** ** The allocation scope (C8), continued *)

(** C8: the walk over the ancestors records the most recently seen ancestor
    tagged as automatic-allocation scope and stops at the first ancestor that
    is not [scf.for] or [affine.for], answering what it recorded; without any
    recorded scope the function trips its assertion, and so does the split
    once it gets there (no failure is returned). Under two loops inside a
    tagged non-loop scope the answer is that scope, and a successful split
    puts its scratch buffer at the entry of that scope. *)
Theorem getAutomaticAllocationScope_walk : forall s,
  let x := root s in
  walkAllocationScope None (chainOf x)
  = lastTagged (visitedAncestors (chainOf x)) /\
  (forall scope, lastTagged (visitedAncestors (chainOf x)) = Some scope ->
     getAutomaticAllocationScope x s = Done (scope, s)) /\
  (lastTagged (visitedAncestors (chainOf x)) = None ->
     getAutomaticAllocationScope x s = AssertionFailure /\
     forall st ifOp r s',
       splits st = true ->
       splitFullAndPartialTransfer x (withStrategy st) ifOp s = Done (r, s') ->
       r = failure /\ s' = s) /\
  (forall l1 l2 f rest,
     chainOf x = l1 :: l2 :: f :: rest ->
     isLoop l1 = true -> isLoop l2 = true -> isLoop f = false ->
     hasAutomaticAllocationScope f = true ->
     getAutomaticAllocationScope x s = Done (f, s) /\
     forall st ifOp s',
       splits st = true ->
       splitFullAndPartialTransfer x (withStrategy st) ifOp s
       = Done (success, s') ->
       exists id,
         scopeEntry s'
         = (parentId f, AllocaOp id (allocaType x) 32) :: scopeEntry s).
Proof.
  intros s x.
  assert (W : walkAllocationScope None (chainOf x)
              = lastTagged (visitedAncestors (chainOf x)))
    by apply walkAllocationScope_visited.
  split; [exact W|].
  split.
  { intros scope H. unfold getAutomaticAllocationScope.
    fold (chainOf x). now rewrite W, H. }
  split.
  { intros H. split.
    - unfold getAutomaticAllocationScope. fold (chainOf x).
      now rewrite W, H.
    - intros st ifOp r s' Sp Run.
      destruct (split_inversion _ _ _ _ _ Sp Run)
        as [_ [[-> [-> _]]|[_ [cond [s1 [scope [_ [W' _]]]]]]]]; [auto|].
      fold x in W'. rewrite W, H in W'. discriminate. }
  intros l1 l2 f rest Ch L1 L2 L3 Tag.
  assert (Wf : walkAllocationScope None (chainOf x) = Some f)
    by (rewrite Ch; now apply walk_two_loops).
  split.
  { unfold getAutomaticAllocationScope. fold (chainOf x). now rewrite Wf. }
  intros st ifOp s' Sp Run.
  destruct (split_inversion _ _ _ _ _ Sp Run)
    as [_ [[Abs _]|[_ [cond [s1 [scope [C [W' [_ K]]]]]]]]]; [discriminate|].
  fold x in W', C, K. rewrite Wf in W'. inversion W'; subst scope; clear W'.
  cbv zeta in K.
  destruct (createInBoundsCond_effects _ _ _ _ C)
    as [[[R1 [E1 [Sc1 I1]]] _] _].
  exists (nextOp s1).
  destruct K as [[Abs _]|[t [_ [[Rd [ifop [s3 [Bd F]]]]
                                |[Rd [Wr [_ [res [s3 [s4 [L [B ->]]]]]]]]]]]];
    [discriminate| |].
  - apply readBuilder_inv in Bd. destruct Bd as [[[_ [_ [Sc3 _]]] _] _].
    apply finishRead_inv in F. destruct F as [_ [_ [_ [_ [Sc _]]]]].
    simpl in *. congruence.
  - assert (G3 : grows (allocated x f s1) s3)
      by (eapply builds_getLocationToWriteFullVec; eauto).
    assert (G4 : grows
                   (emit [TransferOp (nextOp s3)
                            (inBoundsClone x t res (nextOp s3))] s3) s4).
    { destruct (strategyIs st VectorTransfer);
        [eapply builds_createFullPartialVectorTransferWrite
        |eapply builds_createFullPartialLinalgCopyWrite]; eauto. }
    destruct G3 as [[_ [_ [Sc3 _]]] _]. destruct G4 as [[_ [_ [Sc4 _]]] _].
    simpl in *. congruence.
Qed.

(** ** The intersection views (C5) *)

Lemma lookupZ_nth : forall A (l : list A) i a d,
  lookupZ l i = Some a -> nth (Z.to_nat i) l d = a.
Proof.
  intros A l i a d H. unfold lookupZ in H.
  destruct (i <? 0); [discriminate|]. now apply nth_error_nth.
Qed.

Lemma overlapSizeOps_length : forall x alloc dims n,
  length (overlapSizeOps x alloc n dims) = (3 * length dims)%nat.
Proof.
  intros x alloc dims; induction dims as [|[r i] dims IH]; intros n;
    [reflexivity|].
  cbn [overlapSizeOps length app]. rewrite IH. lia.
Qed.

Lemma foldM_subViewSizeStep_inv : forall x alloc dims sizes0 s sizes s',
  foldM (subViewSizeStep x alloc) dims sizes0 s = Done (sizes, s') ->
  sizes = sizes0 ++ overlapSizes (nextOp s) dims /\
  s' = emit (overlapSizeOps x alloc (nextOp s) dims) s.
Proof.
  intros x alloc dims; induction dims as [|[r i] dims IH];
    intros sizes0 s sizes s' H.
  - inversion H; subst. rewrite app_nil_r, emit_nil. auto.
  - cbn [foldM] in H. apply bind_inv in H.
    destruct H as [sizes1 [s1 [St H]]].
    unfold subViewSizeStep, at_ in St.
    destruct (lookupZ (indices x) i) as [index|] eqn:Hi.
    2:{ revert St. run_step. discriminate. }
    revert St. run_step. intros St. inversion St; subst sizes1 s1; clear St.
    apply IH in H. destruct H as [-> ->]. cbn [nextOp].
    split.
    + rewrite <- app_assoc. reflexivity.
    + cbn [overlapSizeOps overlapSizes].
      rewrite (lookupZ_nth _ _ _ _ (Arg 0) Hi).
      unfold emit; simpl.
      rewrite <- !app_assoc. simpl. f_equal. lia.
Qed.

Lemma foldM_subViewSizeStep_total : forall x alloc dims sizes0 s,
  (forall r i, In (r, i) dims -> exists index, lookupZ (indices x) i = Some index) ->
  exists sizes s',
    foldM (subViewSizeStep x alloc) dims sizes0 s = Done (sizes, s').
Proof.
  intros x alloc dims; induction dims as [|[r i] dims IH];
    intros sizes0 s Hd.
  - do 2 eexists. reflexivity.
  - destruct (Hd r i (or_introl eq_refl)) as [index Hi].
    cbn [foldM]. unfold subViewSizeStep at 1. unfold at_. rewrite Hi.
    run_step.
    apply IH. intros; eapply Hd; right; eauto.
Qed.

Lemma createSubViewIntersection_inv : forall x alloc allocTy s r s',
  createSubViewIntersection x alloc allocTy s = Done (r, s') ->
  let a := (3 * length (zipResultAndIndexing x) + nextOp s)%nat in
  getRank (getShapedType x) = getRank allocTy /\
  r = (OpResult a 0, OpResult (S a) 0) /\
  s' = emit (intersectionOps x alloc (nextOp s)) s.
Proof.
  intros x alloc allocTy s r s' H. cbv zeta.
  unfold createSubViewIntersection in H.
  apply bind_inv in H. destruct H as [u [s0 [A H]]].
  apply assert_inv in A. destruct A as [Rk ->]. apply Nat.eqb_eq in Rk.
  apply bind_inv in H. destruct H as [sizes [s1 [F H]]].
  apply foldM_subViewSizeStep_inv in F. destruct F as [-> ->].
  revert H. run_step. intros H. inversion H; subst r s'; clear H.
  cbn [nextOp emit]. rewrite overlapSizeOps_length.
  split; [exact Rk|]. split; [reflexivity|].
  unfold intersectionOps, subViewSizes, emit; simpl.
  rewrite <- !app_assoc. simpl.
  rewrite !length_app, overlapSizeOps_length. simpl. f_equal. lia.
Qed.

Lemma execOp_affineMin : forall id m vext vidx vbuf ext idx buf,
  indexOf m vext = Some ext -> indexOf m vidx = Some idx ->
  indexOf m vbuf = Some buf ->
  execOp (AffineMinOp id [SubExpr (DimExpr 0) (DimExpr 1); DimExpr 2]
            [vext; vidx; vbuf]) m
  = Some (bindResult id 0 (RIndex (Z.min (ext - idx) buf)) m).
Proof.
  intros id m vext vidx vbuf ext idx buf H1 H2 H3.
  cbn [execOp mapOpt]. rewrite H1, H2, H3. reflexivity.
Qed.

(** C5: what [createSubViewIntersection] emits. For each trailing dimension
    the size is one fused [affine.min] of [region extent - index] and the
    buffer extent (extent 10, buffer extent 4, index 8: [min (10 - 8) 4 = 2]);
    both subviews have these sizes and unit strides; the first has the
    transfer indices as offsets and the second all-zero offsets. For a read
    the first is over the region and the second over the buffer. For a write
    the memrefs are swapped but the offsets are not: the source view is the
    buffer at the transfer indices and the destination view is the region at
    offset zero. *)
Theorem createSubViewIntersection_views : forall x alloc allocTy s,
  isMinorIdentity (permutation_map x) = true -> verified x = true ->
  getRank (getShapedType x) = getRank allocTy ->
  let n := nextOp s in
  let a := (3 * length (zipResultAndIndexing x) + n)%nat in
  let rank := getRank (getShapedType x) in
  createSubViewIntersection x alloc allocTy s
  = Done ((OpResult a 0, OpResult (S a) 0),
          emit (overlapSizeOps x alloc n (zipResultAndIndexing x) ++
                [SubViewOp a (if isaWrite x then alloc else source x)
                   (map Val (indices x)) (subViewSizes x n)
                   (repeat (Attr 1) rank);
                 SubViewOp (S a) (if isaWrite x then source x else alloc)
                   (repeat (Attr 0) rank) (subViewSizes x n)
                   (repeat (Attr 1) rank)]) s) /\
  (forall id m vext vidx vbuf ext idx buf,
     indexOf m vext = Some ext -> indexOf m vidx = Some idx ->
     indexOf m vbuf = Some buf ->
     execOp (AffineMinOp id [SubExpr (DimExpr 0) (DimExpr 1); DimExpr 2]
               [vext; vidx; vbuf]) m
     = Some (bindResult id 0 (RIndex (Z.min (ext - idx) buf)) m)) /\
  Z.min (10 - 8) 4 = 2.
Proof.
  intros x alloc allocTy s Hm Hv Rk. cbv zeta.
  split; [|split; [apply execOp_affineMin | reflexivity]].
  destruct (foldM_subViewSizeStep_total x alloc (zipResultAndIndexing x)
              (map Val (firstn (Z.to_nat (getLeadingShapedRank x)) (indices x)))
              s) as [sizes [s1 F]].
  { intros r i Hin.
    destruct (zipResultAndIndexing_lookups x Hm Hv r i Hin)
      as [_ [index [_ [_ [Hi _]]]]]. eauto. }
  assert (Run : exists r s', createSubViewIntersection x alloc allocTy s
                             = Done (r, s')).
  { unfold createSubViewIntersection. unfold bind at 1. unfold assert_.
    rewrite Rk, Nat.eqb_refl. unfold bind at 1. rewrite F.
    run_step. eauto. }
  destruct Run as [r [s' Run]]. rewrite Run.
  apply createSubViewIntersection_inv in Run. cbv zeta in Run.
  destruct Run as [_ [-> ->]]. reflexivity.
Qed.

(** ** The write path (C6) *)

Lemma buildRegion_inv : forall body s ops s',
  buildRegion body s = Done (ops, s') ->
  exists u s1,
    body {| nextOp := nextOp s; root := root s; erased := erased s;
            block := []; scopeEntry := scopeEntry s;
            ifOpCell := ifOpCell s |} = Done (u, s1) /\
    ops = block s1 /\ block s' = block s /\ nextOp s' = nextOp s1.
Proof.
  intros body s ops s' H. unfold buildRegion in H.
  match type of H with
  | match body ?s0 with _ => _ end = _ =>
      destruct (body s0) as [[u s1]|] eqn:E; [|discriminate]
  end.
  inversion H; subst; clear H. exists u, s1. simpl. auto.
Qed.

Lemma createFullPartialVectorTransferWrite_inv : forall x cond alloc s u s',
  createFullPartialVectorTransferWrite x cond alloc s = Done (u, s') ->
  let n := nextOp s in
  block s'
  = block s ++
    [ConstantIntOp n 1 1;
     XOrIOp (S n) cond (OpResult n 0);
     IfOp (2 + n) (OpResult (S n) 0) 0
       [TypeCastOp (3 + n) (vectorCellType x) alloc;
        LoadOp (4 + n) (OpResult (3 + n) 0) [];
        TransferOp (5 + n)
          (cloneXfer (mapValue [] (vector x) (OpResult (4 + n) 0))
             (Some (2 + n)%nat) (5 + n) x);
        YieldOp (6 + n) []]
       None].
Proof.
  intros x cond alloc s u s' H. cbv zeta.
  destruct s as [n0 r0 e0 b0 sc0 c0].
  unfold createFullPartialVectorTransferWrite, createIfOp, buildRegion, clone
    in H.
  cbv beta iota delta [bind ret create freshOp insert nextOp root erased block
                       scopeEntry ifOpCell] in H.
  inversion H; subst; clear H. cbn [block nextOp].
  rewrite <- !app_assoc. reflexivity.
Qed.

Lemma last_two : forall A (l : list A) a b d, last (l ++ [a; b]) d = b.
Proof.
  intros A l a b d.
  replace (l ++ [a; b]) with ((l ++ [a]) ++ [b])
    by (now rewrite <- app_assoc).
  apply last_last.
Qed.

Lemma createFullPartialLinalgCopyWrite_inv : forall x cond alloc allocTy s u s',
  createFullPartialLinalgCopyWrite x cond alloc allocTy s = Done (u, s') ->
  let n := nextOp s in
  let a := (3 * length (zipResultAndIndexing x) + (3 + n))%nat in
  block s'
  = block s ++
    [ConstantIntOp n 1 1;
     XOrIOp (S n) cond (OpResult n 0);
     IfOp (2 + n) (OpResult (S n) 0) 0
       (intersectionOps x alloc (3 + n) ++
        [CopyOp (2 + a) (OpResult a 0) (OpResult (S a) 0);
         YieldOp (3 + a) []])
       None].
Proof.
  intros x cond alloc allocTy s u s' H. cbv zeta.
  unfold createFullPartialLinalgCopyWrite in H.
  apply bind_inv in H. destruct H as [c [s0 [C H]]].
  rewrite create_emit in C. inversion C; subst c s0; clear C.
  apply bind_inv in H. destruct H as [c [s0 [C H]]].
  rewrite create_emit in C. inversion C; subst c s0; clear C.
  apply bind_inv in H. destruct H as [op [s1 [I H]]].
  apply ret_inv in H. destruct H as [_ ->].
  unfold createIfOp in I.
  apply bind_inv in I. destruct I as [id [s0 [F I]]].
  unfold freshOp in F. inversion F; subst id s0; clear F.
  apply bind_inv in I. destruct I as [thenOps [s2 [R I]]].
  apply buildRegion_inv in R. destruct R as [u1 [s3 [Body [-> [B2 N2]]]]].
  apply bind_inv in Body. destruct Body as [copyArgs [s4 [SV Body]]].
  apply createSubViewIntersection_inv in SV. cbv zeta in SV.
  destruct SV as [_ [-> ->]].
  revert Body. run_step. intros Body.
  inversion Body; subst s3; clear Body.
  revert I. run_step. unfold insert. intros I.
  inversion I; subst; clear I.
  cbn [block emit nextOp app] in *. rewrite B2.
  cbn [block emit nextOp app length Nat.add].
  unfold yieldArity. rewrite <- !app_assoc. cbn [app].
  rewrite last_two. cbn [length].
  unfold intersectionOps at 1 2 3.
  rewrite !length_app, overlapSizeOps_length. cbn [length].
  repeat f_equal; lia.
Qed.

Lemma getLocationToWriteFullVec_run : forall x tys cond t alloc s res s',
  getLocationToWriteFullVec x tys cond t alloc s = Done (res, s') ->
  let z := nextOp s in
  let th1 := sourceViewRegion x t (2 + z) in
  let el1 := allocViewRegion x t alloc (OpResult z 0) (2 + z + length th1) in
  let ifop1 := IfOp (S z) cond (S (length (indices x))) th1 (Some el1) in
  res = getResults_ ifop1 /\
  block s' = block s ++ [ConstantIndexOp z 0; ifop1] /\
  nextOp s' = (4 + z + length th1)%nat.
Proof.
  intros x tys cond t alloc s res s' H. cbv zeta.
  destruct s as [n0 r0 e0 b0 sc0 c0].
  unfold getLocationToWriteFullVec, createIfOp, buildRegion, yieldSourceView,
    yieldAllocView, sourceViewRegion, allocViewRegion in *.
  destruct (MemRefType_eq_dec t (getShapedType x)) as [E|E];
    cbv beta iota delta [bind ret create freshOp insert nextOp root erased
                         block scopeEntry ifOpCell] in H;
    inversion H; subst; clear H; cbn [block nextOp length];
    rewrite <- ?app_assoc; unfold yieldArity; cbn [last length app];
    repeat split; try reflexivity; repeat f_equal; lia.
Qed.

Lemma countTransferOps_if : forall id c n th el,
  countTransferOps (IfOp id c n th el)
  = (countTransfers th +
     match el with Some r => countTransfers r | None => 0 end)%nat.
Proof.
  intros id c n th el. cbn [countTransferOps].
  assert (K : forall ops,
    (fix count (ops : list Op) : nat :=
       match ops with
       | [] => 0%nat
       | o :: ops' => (countTransferOps o + count ops')%nat
       end) ops = countTransfers ops).
  { induction ops as [|o ops IH]; [reflexivity|]. cbn [countTransfers].
    now rewrite <- IH. }
  destruct el as [r|]; rewrite !K; reflexivity.
Qed.

Lemma countTransfers_app : forall a b,
  countTransfers (a ++ b) = (countTransfers a + countTransfers b)%nat.
Proof.
  induction a as [|o a IH]; intros b; [reflexivity|].
  cbn [app countTransfers]. rewrite IH. lia.
Qed.

Lemma countTransfers_overlapSizeOps : forall x alloc dims n,
  countTransfers (overlapSizeOps x alloc n dims) = 0%nat.
Proof.
  intros x alloc dims; induction dims as [|[r i] dims IH]; intros n;
    [reflexivity|].
  cbn [overlapSizeOps app countTransfers countTransferOps]. now rewrite IH.
Qed.

Lemma countTransfers_intersectionOps : forall x alloc n,
  countTransfers (intersectionOps x alloc n) = 0%nat.
Proof.
  intros x alloc n. unfold intersectionOps.
  rewrite countTransfers_app, countTransfers_overlapSizeOps. reflexivity.
Qed.

Lemma countTransfers_cleanupRegion : forall st x alloc ifId n,
  countTransfers (cleanupRegion st x alloc ifId n)
  = if strategyIs st VectorTransfer then 1%nat else 0%nat.
Proof.
  intros st x alloc ifId n. unfold cleanupRegion.
  destruct (strategyIs st VectorTransfer); [reflexivity|].
  rewrite countTransfers_app, countTransfers_intersectionOps. reflexivity.
Qed.

Lemma countTransfers_writeSplitOps : forall x cond alloc t z cleanup,
  countTransfers (writeSplitOps x cond alloc t z cleanup)
  = S (countTransfers cleanup).
Proof.
  intros x cond alloc t z cleanup. unfold writeSplitOps.
  cbn [countTransfers]. rewrite !countTransferOps_if.
  assert (T : countTransfers (sourceViewRegion x t (2 + z)) = 0%nat)
    by (unfold sourceViewRegion; destruct (MemRefType_eq_dec t (getShapedType x));
        reflexivity).
  rewrite T. cbn [countTransferOps countTransfers allocViewRegion]. lia.
Qed.

Lemma cleanupRegion_bulk_copy : forall st x alloc ifId n,
  strategyIs st VectorTransfer = false -> isaWrite x = true ->
  isBulkCopyRegion x alloc (cleanupRegion st x alloc ifId n).
Proof.
  intros st x alloc ifId n E W. unfold cleanupRegion, isBulkCopyRegion.
  rewrite E. unfold intersectionOps. rewrite W.
  exists (overlapSizeOps x alloc n (zipResultAndIndexing x)).
  do 5 eexists. split; [apply countTransfers_overlapSizeOps|].
  rewrite <- app_assoc. reflexivity.
Qed.

Lemma inBoundsCondStep_noTransfers : forall x acc dim s acc' s',
  inBoundsCondStep x acc dim s = Done (acc', s') ->
  exists ops, block s' = block s ++ ops /\ countTransfers ops = 0%nat.
Proof.
  intros x acc [r i] s acc' s' H.
  unfold inBoundsCondStep, getMixedSize, at_ in H.
  destruct (isDimInBounds x r);
    [inversion H; exists []; now rewrite app_nil_r|].
  destruct (lookupZ (vectorShape (getVectorType x)) (Z.of_nat r)) as [v|];
    [|discriminate].
  destruct (lookupZ (indices x) i) as [index|]; [|discriminate].
  destruct (lookupZ (getShape (getShapedType x)) i) as [d|];
    [|destruct index; discriminate].
  revert H.
  destruct index as [n|c|? ?]; destruct (d =? kDynamic) eqn:Dd;
    run_step; rewrite ?Dd; run_step;
    try destruct (c + v <=? d); destruct acc; intros H; inversion H;
    subst; clear H; cbn [block];
    first [ exists []; now rewrite app_nil_r
          | rewrite <- ?app_assoc; eexists; split; reflexivity ].
Qed.

Lemma createInBoundsCond_noTransfers : forall x s cond s',
  createInBoundsCond x s = Done (cond, s') ->
  exists ops, block s' = block s ++ ops /\ countTransfers ops = 0%nat.
Proof.
  intros x s cond s' H. unfold createInBoundsCond in H.
  apply bind_inv in H. destruct H as [u [s0 [A H]]].
  apply assert_inv in A. destruct A as [_ ->].
  revert s H. generalize (@None Value) as acc.
  induction (zipResultAndIndexing x) as [|dim dims IH]; intros acc s H.
  - inversion H. exists []. now rewrite app_nil_r.
  - cbn [foldM] in H. apply bind_inv in H.
    destruct H as [acc1 [s1 [St H]]].
    apply inBoundsCondStep_noTransfers in St. destruct St as [o1 [B1 C1]].
    apply IH in H. destruct H as [o2 [B2 C2]].
    exists (o1 ++ o2). rewrite B2, B1, app_assoc, countTransfers_app.
    split; [reflexivity | lia].
Qed.

(** C6, amended: a successful split of a write creates, after the
    operations of the bounds condition, the zero index, the conditional that
    picks the destination, one clone of the write against the results of
    that conditional (marked in bounds, outside any conditional), the
    constant true, [notInBounds = inBoundsCond xor true], and a second
    conditional guarded by [notInBounds], without else-region and without
    results. Under the reissue strategy its body casts the buffer to a
    one-vector cell, loads the vector and clones the original write with the
    loaded value for the vector operand (so against the original region and
    indices); under the bulk-copy strategy it builds a view over the buffer
    and a view over the region and copies the first into the second. The
    original write is erased. It has been cloned twice under the reissue
    strategy and once under the bulk-copy strategy. *)
Theorem write_split_structure : forall st ifOp s s',
  splits st = true -> isaWrite (root s) = true ->
  splitFullAndPartialTransfer (root s) (withStrategy st) ifOp s
  = Done (success, s') ->
  let x := root s in
  exists cond s1 scope t cleanup,
    createInBoundsCond x s = Done (Some cond, s1) /\
    walkAllocationScope None (chainOf x) = Some scope /\
    getCastCompatibleMemRefType (getShapedType x) (allocaType x) = Some t /\
    let alloc := OpResult (nextOp s1) 0 in
    let created := writeSplitOps x cond alloc t (S (nextOp s1)) cleanup in
    erased s' = true /\ root s' = x /\ ifOpCell s' = ifOpCell s /\
    scopeEntry s' = (parentId scope, AllocaOp (nextOp s1) (allocaType x) 32)
                    :: scopeEntry s /\
    block s' = block s1 ++ created /\
    (exists condOps, block s1 = block s ++ condOps /\
                     countTransfers condOps = 0%nat) /\
    (st = VectorTransfer ->
     cleanup = reissueRegion x alloc (fst (cleanupIds x t (S (nextOp s1))))
                 (snd (cleanupIds x t (S (nextOp s1)))) /\
     countTransfers created = 2%nat) /\
    (st = LinalgCopy ->
     isBulkCopyRegion x alloc cleanup /\ countTransfers created = 1%nat) /\
    (forall load ifId id,
       vector x <> source x -> ~ In (vector x) (indices x) ->
       let c := cloneXfer (mapValue [] (vector x) load) (Some ifId) id x in
       source c = source x /\ indices c = indices x /\ vector c = load /\
       in_bounds c = in_bounds x).
Proof.
  intros st ifOp s s' Sp Wr H x.
  assert (Rd : isaRead x = false).
  { unfold isaRead, isaWrite in *. fold x in Wr. destruct (kind x);
      auto; discriminate. }
  destruct (split_inversion _ _ _ _ _ Sp H)
    as [_ [[Abs _]|[_ [cond [s1 [scope [C [W [_ K]]]]]]]]]; [discriminate|].
  fold x in C, W, K. cbv zeta in K.
  destruct K as [[Abs _]|[t [CT [[Rd' _]|[_ [_ [_ [res [s3 [s4 [L [B ->]]]]]]]]]]]];
    [discriminate | congruence |].
  exists cond, s1, scope, t.
  exists (cleanupRegion st x (OpResult (nextOp s1) 0)
            (fst (cleanupIds x t (S (nextOp s1))))
            (snd (cleanupIds x t (S (nextOp s1))))).
  split; [exact C|]. split; [exact W|]. split; [exact CT|]. cbv zeta.
  destruct (createInBoundsCond_effects _ _ _ _ C)
    as [[[R1 [E1 [Sc1 I1]]] _] _].
  assert (G3 : grows (allocated x scope s1) s3)
    by (eapply builds_getLocationToWriteFullVec; eauto).
  assert (G4 : grows
                 (emit [TransferOp (nextOp s3)
                          (inBoundsClone x t res (nextOp s3))] s3) s4).
  { destruct (strategyIs st VectorTransfer);
      [eapply builds_createFullPartialVectorTransferWrite
      |eapply builds_createFullPartialLinalgCopyWrite]; eauto. }
  destruct G3 as [[R3 [E3 [Sc3 I3]]] _]. destruct G4 as [[R4 [E4 [Sc4 I4]]] _].
  apply getLocationToWriteFullVec_run in L. cbv zeta in L.
  destruct L as [-> [B3 N3]]. cbn [allocated nextOp block] in B3, N3.
  simpl in R3, E3, Sc3, I3, R4, E4, Sc4, I4.
  split; [reflexivity|].
  split; [simpl; unfold x; congruence|].
  split; [simpl; congruence|].
  split; [simpl; congruence|].
  split.
  { cbn [withErased block].
    unfold writeSplitOps, cleanupRegion, reissueRegion, cleanupIds.
    cbn [fst snd].
    destruct (strategyIs st VectorTransfer).
    - apply createFullPartialVectorTransferWrite_inv in B. cbv zeta in B.
      rewrite B. cbn [emit block nextOp length Nat.add].
      rewrite B3, N3, <- !app_assoc. reflexivity.
    - apply createFullPartialLinalgCopyWrite_inv in B. cbv zeta in B.
      rewrite B. cbn [emit block nextOp length Nat.add].
      rewrite B3, N3, <- !app_assoc. reflexivity. }
  split; [eapply createInBoundsCond_noTransfers; eauto|].
  split.
  { intros ->. split; [reflexivity|].
    rewrite countTransfers_writeSplitOps, countTransfers_cleanupRegion.
    reflexivity. }
  split.
  { intros ->. split; [now apply cleanupRegion_bulk_copy|].
    rewrite countTransfers_writeSplitOps, countTransfers_cleanupRegion.
    reflexivity. }
  intros load ifId id Hs Hi. unfold cloneXfer, mapValue, isaWrite in *.
  fold x in Wr. destruct (kind x); try discriminate. cbn.
  destruct (Value_eq_dec (vector x) (source x)); [contradiction|].
  destruct (Value_eq_dec (vector x) (vector x)); [|contradiction].
  repeat split; auto.
  clear - Hi. induction (indices x) as [|v l IH]; [reflexivity|].
  cbn. destruct (Value_eq_dec (vector x) v) as [E|E].
  - exfalso. apply Hi. now left.
  - f_equal. apply IH. intros Hin. apply Hi. now right.
Qed.

(** ** The read path *)

Lemma createFullPartialVectorTransferRead_inv : forall x tys cond t alloc s ifop s',
  isaRead x = true ->
  createFullPartialVectorTransferRead x tys cond t alloc s = Done (ifop, s') ->
  ifop = readConditional VectorTransfer x cond alloc t (nextOp s) /\
  block s' = block s ++ [ConstantIndexOp (nextOp s) 0; ifop].
Proof.
  intros x tys cond t alloc s ifop s' Rd H.
  destruct s as [n0 r0 e0 b0 sc0 c0].
  unfold isaRead in Rd.
  destruct (kind x) eqn:K; try discriminate Rd.
  unfold createFullPartialVectorTransferRead, createIfOp, buildRegion,
    yieldSourceView, yieldAllocView, clone, readConditional, sourceViewRegion,
    reissueReadRegion, vectorCellType in *.
  cbn [strategyIs].
  destruct (MemRefType_eq_dec t (getShapedType x)) as [E|E];
    cbv beta iota delta [bind ret create freshOp insert nextOp root erased
                         block scopeEntry ifOpCell] in H;
    inversion H; subst; clear H; cbn [block nextOp length];
    rewrite <- ?app_assoc; unfold yieldArity; cbn [last length app];
    cbn [vector cloneXfer]; rewrite ?K;
    split; try reflexivity; repeat f_equal; lia.
Qed.

Lemma createFullPartialLinalgCopy_inv : forall x tys cond t alloc s ifop s',
  createFullPartialLinalgCopy x tys cond t alloc (allocaType x) s
  = Done (ifop, s') ->
  ifop = readConditional LinalgCopy x cond alloc t (nextOp s) /\
  block s' = block s ++ [ConstantIndexOp (nextOp s) 0; ifop].
Proof.
  intros x tys cond t alloc s ifop s' H.
  unfold createFullPartialLinalgCopy in H.
  apply bind_inv in H. destruct H as [c [s0 [C H]]].
  rewrite create_emit in C. inversion C; subst c s0; clear C.
  unfold createIfOp in H.
  apply bind_inv in H. destruct H as [id [s0 [F H]]].
  unfold freshOp in F. inversion F; subst id s0; clear F.
  apply bind_inv in H. destruct H as [thenOps [s2 [R H]]].
  apply buildRegion_inv in R. destruct R as [u1 [s3 [Body [-> [B2 N2]]]]].
  apply bind_inv in H. destruct H as [elseOps [s4 [E H]]].
  apply bind_inv in E. destruct E as [r [s5 [E Re]]].
  apply ret_inv in Re. destruct Re as [-> ->].
  apply buildRegion_inv in E. destruct E as [u2 [s6 [Body2 [-> [B5 N5]]]]].
  apply bind_inv in Body2. destruct Body2 as [f [s7 [Fi Body2]]].
  rewrite create_emit in Fi. inversion Fi; subst f s7; clear Fi.
  apply bind_inv in Body2. destruct Body2 as [copyArgs [s8 [SV Body2]]].
  apply createSubViewIntersection_inv in SV. cbv zeta in SV.
  destruct SV as [_ [-> ->]].
  assert (T : block s3 = sourceViewRegion x t (2 + nextOp s) /\
              nextOp s3 = (2 + nextOp s
                           + length (sourceViewRegion x t (2 + nextOp s)))%nat).
  { clear - Body. destruct s as [n0 r0 e0 b0 sc0 c0].
    unfold yieldSourceView, sourceViewRegion in *.
    destruct (MemRefType_eq_dec t (getShapedType x));
      cbv beta iota delta [bind ret create emit nextOp root erased block
                           scopeEntry ifOpCell length app Nat.add] in Body;
      inversion Body; subst; clear Body; cbn [block nextOp length];
      split; try reflexivity; lia. }
  destruct T as [T1 T2].
  revert Body2. unfold yieldAllocView. run_step. intros Body2.
  inversion Body2; subst s6; clear Body2.
  revert H. run_step. unfold insert. intros H.
  inversion H; subst; clear H.
  cbn [block emit nextOp app length Nat.add] in *.
  unfold readConditional, bulkReadRegion. cbn [strategyIs].
  rewrite B5, B2. cbn [block emit nextOp app length Nat.add].
  rewrite N2, T1, T2.
  assert (Y : yieldArity (sourceViewRegion x t (S (S (nextOp s))))
              = S (length (indices x))).
  { unfold sourceViewRegion, yieldArity.
    destruct (MemRefType_eq_dec t (getShapedType x)); reflexivity. }
  rewrite Y. rewrite <- !app_assoc. cbn [app].
  unfold intersectionOps at 1 2 3 4 5.
  rewrite !length_app, overlapSizeOps_length. cbn [length].
  split; [|f_equal]; repeat f_equal; lia.
Qed.

Lemma readBuilder_run : forall st x tys cond t alloc s ifop s',
  splits st = true -> isaRead x = true ->
  (if strategyIs st VectorTransfer
   then createFullPartialVectorTransferRead x tys cond t alloc
   else createFullPartialLinalgCopy x tys cond t alloc (allocaType x)) s
  = Done (ifop, s') ->
  ifop = readConditional st x cond alloc t (nextOp s) /\
  block s' = block s ++ [ConstantIndexOp (nextOp s) 0; ifop].
Proof.
  intros st x tys cond t alloc s ifop s' Sp Rd H.
  destruct st; try discriminate; cbn [strategyIs] in H.
  - now apply createFullPartialVectorTransferRead_inv in H.
  - now apply createFullPartialLinalgCopy_inv in H.
Qed.

Lemma replaceAt_split : forall A (l : list A) p a,
  (p < length l)%nat ->
  replaceAt l p a = firstn p l ++ a :: skipn (S p) l.
Proof.
  induction l as [|b l IH]; intros p a H; [simpl in H; lia|].
  destruct p as [|p]; [reflexivity|].
  cbn [replaceAt firstn skipn app]. f_equal. apply IH. simpl in H; lia.
Qed.

Lemma replaceAt_length : forall A (l : list A) p a,
  length (replaceAt l p a) = length l.
Proof.
  induction l as [|b l IH]; intros p a; [reflexivity|].
  destruct p; simpl; auto.
Qed.

Lemma setOperands_run : forall vs i s,
  setOperands vs i s = Done (tt, withRoot (applyOperands vs i (root s)) s).
Proof.
  induction vs as [|[v ty] vs IH]; intros i s.
  - destruct s; reflexivity.
  - cbn [setOperands applyOperands]. unfold bind, updateRootInPlace.
    rewrite IH. reflexivity.
Qed.

Lemma setOperand_index : forall p v x,
  (p < length (indices x))%nat ->
  setOperand (S p) v IndexType x = setIndices (replaceAt (indices x) p v) x.
Proof.
  intros p v x H. unfold setOperand, setIndices.
  cbn [Nat.eqb Nat.sub]. rewrite Nat.sub_0_r.
  replace (p =? length (indices x))%nat with false
    by (symmetry; apply Nat.eqb_neq; lia).
  replace (p =? S (length (indices x)))%nat with false
    by (symmetry; apply Nat.eqb_neq; lia).
  destruct (getMask x) as [m|]; reflexivity.
Qed.

Lemma applyOperands_indices : forall id k p x,
  (p + k <= length (indices x))%nat ->
  applyOperands (combine (map (OpResult id) (seq (S p) k)) (repeat IndexType k))
    (S p) x
  = setIndices (firstn p (indices x) ++ map (OpResult id) (seq (S p) k) ++
                skipn (p + k) (indices x)) x.
Proof.
  intros id k; induction k as [|k IH]; intros p x H.
  - cbn [seq map combine applyOperands app]. rewrite Nat.add_0_r.
    rewrite firstn_skipn. destruct x; reflexivity.
  - cbn [seq map repeat combine applyOperands].
    rewrite setOperand_index by lia.
    rewrite IH by (cbn [setIndices indices]; rewrite replaceAt_length; lia).
    unfold setIndices.
    cbn [kind source getShapedType vector getVectorType indices
         permutation_map getPadding getMask in_bounds getParentOp ancestors].
    rewrite replaceAt_split by lia.
    f_equal.
    rewrite firstn_app, firstn_length_le by lia.
    replace (S p - p)%nat with 1%nat by lia.
    rewrite firstn_all2 by (rewrite firstn_length_le; lia).
    cbn [firstn]. rewrite <- app_assoc. cbn [app]. do 3 f_equal.
    rewrite skipn_app, firstn_length_le by lia.
    rewrite skipn_all2 by (rewrite firstn_length_le; lia).
    replace (S p + k - p)%nat with (S k) by lia.
    cbn [app]. rewrite skipn_cons, skipn_skipn. f_equal. lia.
Qed.

Lemma finishRead_root : forall x t ifOp id cond n th el s r s',
  finishRead x ifOp (returnTypesOf x t) (IfOp id cond n th el) s = Done (r, s') ->
  root s = x ->
  (getTransferRank x <= length (indices x))%nat ->
  root s' = rewrittenRead x t id.
Proof.
  intros x t ifOp id cond n th el s r s' H Rt Le. unfold finishRead in H.
  apply bind_inv in H. destruct H as [u0 [s0 [St H]]].
  apply bind_inv in H. destruct H as [u1 [s1 [A H]]].
  apply assert_inv in A. destruct A as [_ ->].
  apply bind_inv in H. destruct H as [u2 [s2 [So H]]].
  apply bind_inv in H. destruct H as [u3 [s3 [Up H]]].
  apply ret_inv in H. destruct H as [-> ->].
  unfold updateRootInPlace in Up. inversion Up; subst s3; clear Up.
  rewrite setOperands_run in So. inversion So; subst s2; clear So.
  assert (R0 : root s0 = x).
  { unfold storeIfOp in St. inversion St. destruct ifOp; auto. }
  cbn [root withRoot]. rewrite R0.
  unfold returnTypesOf. cbn [length]. rewrite repeat_length.
  cbn [seq map combine applyOperands getResult].
  change (map (getResult (IfOp id cond n th el)))
    with (map (OpResult id)).
  rewrite (applyOperands_indices id (getTransferRank x) 0)
    by (cbn [setOperand indices Nat.eqb]; lia).
  unfold rewrittenRead, setInBounds, setIndices, setOperand.
  cbn. destruct (getMask x); reflexivity.
Qed.

Lemma read_split_state : forall st ifOp s s',
  splits st = true -> isaRead (root s) = true ->
  splitFullAndPartialTransfer (root s) (withStrategy st) ifOp s
  = Done (success, s') ->
  let x := root s in
  exists cond s1 scope t,
    createInBoundsCond x s = Done (Some cond, s1) /\
    walkAllocationScope None (chainOf x) = Some scope /\
    getCastCompatibleMemRefType (getShapedType x) (allocaType x) = Some t /\
    let alloc := OpResult (nextOp s1) 0 in
    let z := S (nextOp s1) in
    block s'
    = block s1 ++ [ConstantIndexOp z 0; readConditional st x cond alloc t z] /\
    scopeEntry s' = (parentId scope, AllocaOp (nextOp s1) (allocaType x) 32)
                    :: scopeEntry s /\
    erased s' = erased s /\
    (getTransferRank x <= length (indices x))%nat /\
    root s' = rewrittenRead x t (S z).
Proof.
  intros st ifOp s s' Sp Rd H x.
  destruct (split_inversion _ _ _ _ _ Sp H)
    as [_ [[Abs _]|[_ [cond [s1 [scope [C [W [_ K]]]]]]]]]; [discriminate|].
  fold x in C, W, K, Rd. cbv zeta in K.
  destruct K as [[Abs _]|[t [CT [[_ [ifop [s3 [B F]]]]|[Rd' _]]]]];
    [discriminate | | congruence].
  exists cond, s1, scope, t.
  split; [exact C|]. split; [exact W|]. split; [exact CT|]. cbv zeta.
  destruct (createInBoundsCond_effects _ _ _ _ C)
    as [[[R1 [E1 [Sc1 I1]]] _] _].
  destruct (readBuilder_inv _ _ _ _ _ _ _ _ _ B) as [[[R3 [E3 [Sc3 I3]]] _] _].
  destruct (readBuilder_run _ _ _ _ _ _ _ _ _ Sp Rd B) as [-> B3].
  cbn [allocated nextOp block root erased scopeEntry] in R3, E3, Sc3, B3.
  assert (Le : (getTransferRank x <= length (indices x))%nat).
  { unfold finishRead in F.
    apply bind_inv in F. destruct F as [u0 [s0 [_ F]]].
    apply bind_inv in F. destruct F as [u1 [s4 [A _]]].
    apply assert_inv in A. destruct A as [A _]. apply Nat.leb_le in A.
    unfold returnTypesOf, numResultsOf, readConditional, getResults_ in A.
    cbn [length] in A. rewrite repeat_length, length_map, length_seq in A.
    lia. }
  assert (Rt : root s' = rewrittenRead x t (S (S (nextOp s1)))).
  { unfold readConditional in F.
    eapply finishRead_root; [exact F | | exact Le].
    unfold x. congruence. }
  apply finishRead_inv in F.
  destruct F as [_ [_ [E4 [B4 [Sc4 _]]]]].
  cbn [allocated nextOp] in B4, Sc4, E4 |- *.
  split; [congruence|]. split; [congruence|]. split; [congruence|].
  split; [exact Le | exact Rt].
Qed.

(** X1: what a successful split of a read leaves. In front of the read,
    after the operations of the bounds condition, stand the zero index and
    one two-armed conditional guarded by the bounds condition: its
    then-region yields the region (cast to the common type if needed) with
    the original indices; its else-region fills the buffer with the padding
    and copies the intersection into it (bulk copy) or re-issues a clone of
    the read and stores its vector into the buffer (reissue), and yields the
    buffer with all-zero indices. One buffer of the vector's shape, aligned
    to 32, stands at the entry of the allocation scope. The read itself is
    kept: its region operand is the first result of the conditional, its
    first transfer-rank index operands are the following results, it is
    marked in bounds in every dimension, and its padding, (absent) mask,
    vector type and dimension mapping are what they were. The read has been
    cloned once under the reissue strategy and not at all under the bulk-copy
    strategy. *)
Theorem read_split_structure : forall st ifOp s s',
  splits st = true -> isaRead (root s) = true ->
  splitFullAndPartialTransfer (root s) (withStrategy st) ifOp s
  = Done (success, s') ->
  let x := root s in
  exists cond s1 scope t,
    createInBoundsCond x s = Done (Some cond, s1) /\
    walkAllocationScope None (chainOf x) = Some scope /\
    getCastCompatibleMemRefType (getShapedType x) (allocaType x) = Some t /\
    let alloc := OpResult (nextOp s1) 0 in
    let z := S (nextOp s1) in
    block s'
    = block s1 ++ [ConstantIndexOp z 0; readConditional st x cond alloc t z] /\
    scopeEntry s' = (parentId scope, AllocaOp (nextOp s1) (allocaType x) 32)
                    :: scopeEntry s /\
    erased s' = erased s /\
    (getTransferRank x <= length (indices x))%nat /\
    root s' = rewrittenRead x t (S z) /\
    getPadding (root s') = getPadding x /\ getMask (root s') = None /\
    countTransferOps (readConditional st x cond alloc t z)
    = (if strategyIs st VectorTransfer then 1 else 0)%nat.
Proof.
  intros st ifOp s s' Sp Rd H x.
  destruct (read_split_state _ _ _ _ Sp Rd H)
    as [cond [s1 [scope [t [C [W [CT [B [Sc [Er [Le Rt]]]]]]]]]]].
  fold x in C, W, CT, B, Sc, Le, Rt.
  destruct (split_inversion _ _ _ _ _ Sp H)
    as [_ [[Abs _]|[M _]]]; [discriminate|]. fold x in M.
  exists cond, s1, scope, t.
  split; [exact C|]. split; [exact W|]. split; [exact CT|]. cbv zeta.
  split; [exact B|]. split; [exact Sc|]. split; [exact Er|].
  split; [exact Le|]. split; [exact Rt|].
  rewrite Rt. cbn [rewrittenRead getPadding getMask].
  split; [reflexivity|].
  split; [unfold hasMask in M; destruct (getMask x); [discriminate M|reflexivity]|].
  unfold readConditional. rewrite countTransferOps_if.
  assert (T : countTransfers (sourceViewRegion x t (2 + S (nextOp s1))) = 0%nat)
    by (unfold sourceViewRegion;
        destruct (MemRefType_eq_dec t (getShapedType x)); reflexivity).
  rewrite T.
  destruct (strategyIs st VectorTransfer); [reflexivity|].
  unfold bulkReadRegion. cbn [app countTransfers countTransferOps].
  rewrite countTransfers_app, countTransfers_intersectionOps. reflexivity.
Qed.

(** ** Ranks *)

Lemma getCastCompatibleMemRefType_rank : forall aT bT t,
  (forall a b, areCastCompatible a b = true -> getRank a = getRank b) ->
  getCastCompatibleMemRefType aT bT = Some t ->
  getRank aT = getRank bT /\ getRank t = getRank aT.
Proof.
  intros aT bT t Hc H. unfold getCastCompatibleMemRefType in H.
  destruct (areCastCompatible aT bT) eqn:C.
  - inversion H; subst. split; [now apply Hc | reflexivity].
  - destruct (Nat.eqb_spec (getRank aT) (getRank bT)) as [E|E];
      [|discriminate].
    cbn [negb] in H.
    destruct (getStridesAndOffset aT) as [[aS aO]|]; [|discriminate].
    destruct (getStridesAndOffset bT) as [[bS bO]|]; [|discriminate].
    destruct (negb (length aS =? length bS)%nat); [discriminate|].
    inversion H; subst. split; [exact E|].
    unfold getRank, MemRefType_get_layout. cbn [getShape].
    now rewrite length_map, length_seq.
Qed.

(** X2: the split succeeds only when the region and the vector have the
    same rank, provided cast-compatible types have equal ranks: every
    successful split needs a common descriptor type of the region and the
    buffer, and one exists only for equal ranks. So on every successful
    split of a verified transfer the leading rank is zero and the transfer
    has one index per vector dimension; the common type has the rank of the
    region. *)
Theorem split_success_equal_ranks : forall st ifOp s s',
  (forall a b, areCastCompatible a b = true -> getRank a = getRank b) ->
  splits st = true ->
  splitFullAndPartialTransfer (root s) (withStrategy st) ifOp s
  = Done (success, s') ->
  let x := root s in
  getRank (getShapedType x) = length (vectorShape (getVectorType x)) /\
  (exists t,
     getCastCompatibleMemRefType (getShapedType x) (allocaType x) = Some t /\
     getRank t = getRank (getShapedType x)) /\
  (verified x = true ->
   getLeadingShapedRank x = 0 /\
   getTransferRank x = length (indices x)).
Proof.
  intros st ifOp s s' Hc Sp H x.
  destruct (split_inversion _ _ _ _ _ Sp H)
    as [_ [[Abs _]|[_ [cond [s1 [scope [_ [_ [_ K]]]]]]]]]; [discriminate|].
  fold x in K. cbv zeta in K.
  assert (T : exists t,
             getCastCompatibleMemRefType (getShapedType x) (allocaType x)
             = Some t).
  { destruct K as [[Abs _]|[t [CT _]]]; [discriminate | eauto]. }
  destruct T as [t CT].
  destruct (getCastCompatibleMemRefType_rank _ _ _ Hc CT) as [E Et].
  assert (Ra : getRank (allocaType x) = length (vectorShape (getVectorType x)))
    by reflexivity.
  split; [congruence|]. split; [eauto|].
  intros V. unfold verified in V. repeat rewrite andb_true_iff in V.
  destruct V as [[[[Hi Hvs] _] _] _]. apply Nat.eqb_eq in Hi, Hvs.
  unfold getLeadingShapedRank. split; lia.
Qed.

(** ** What the bounds condition is made of *)

Lemma inBoundsCondStep_arithmetic : forall x acc dim s acc' s',
  inBoundsCondStep x acc dim s = Done (acc', s') ->
  exists ops,
    block s' = block s ++ ops /\ forallb isIndexArithmetic ops = true /\
    ((acc' = acc /\ ops = []) \/
     (acc' <> None /\ length (filter isComparison ops) = 1%nat /\
      length (filter isConjunction ops)
      = match acc with Some _ => 1%nat | None => 0%nat end)).
Proof.
  intros x acc [r i] s acc' s' H.
  unfold inBoundsCondStep, getMixedSize, at_ in H.
  destruct (isDimInBounds x r);
    [inversion H; exists []; rewrite app_nil_r;
     split; [reflexivity|]; split; [reflexivity|]; left; split; reflexivity|].
  destruct (lookupZ (vectorShape (getVectorType x)) (Z.of_nat r)) as [v|];
    [|discriminate].
  destruct (lookupZ (indices x) i) as [index|]; [|discriminate].
  destruct (lookupZ (getShape (getShapedType x)) i) as [d|];
    [|destruct index; discriminate].
  revert H.
  destruct index as [n|c|? ?]; destruct (d =? kDynamic) eqn:Dd;
    run_step; rewrite ?Dd; run_step;
    try destruct (c + v <=? d); destruct acc; intros H; inversion H;
    subst; clear H; cbn [block];
    first [ exists []; rewrite app_nil_r;
            split; [reflexivity|]; split; [reflexivity|];
            left; split; reflexivity
          | rewrite <- ?app_assoc; eexists; split; [reflexivity|];
            split; [reflexivity|]; right;
            split; [discriminate|]; split; reflexivity ].
Qed.

Lemma foldM_inBoundsCond_arithmetic : forall x dims acc s acc' s',
  foldM (inBoundsCondStep x) dims acc s = Done (acc', s') ->
  exists ops,
    block s' = block s ++ ops /\ forallb isIndexArithmetic ops = true /\
    ((acc' = None /\ acc = None /\ ops = []) \/
     (acc' <> None /\
      (length (filter isComparison ops)
       + match acc with Some _ => 1 | None => 0 end
       = S (length (filter isConjunction ops)))%nat)).
Proof.
  intros x dims; induction dims as [|dim dims IH]; intros acc s acc' s' H.
  - inversion H; subst. exists []. rewrite app_nil_r.
    split; [reflexivity|]. split; [reflexivity|].
    destruct acc'; [right; split; [discriminate | reflexivity] | left; auto].
  - cbn [foldM] in H. apply bind_inv in H.
    destruct H as [acc1 [s1 [St H]]].
    apply inBoundsCondStep_arithmetic in St.
    destruct St as [o1 [B1 [A1 C1]]].
    apply IH in H. destruct H as [o2 [B2 [A2 C2]]].
    exists (o1 ++ o2).
    split; [rewrite B2, B1; now rewrite app_assoc|].
    split; [rewrite forallb_app, A1, A2; reflexivity|].
    destruct C1 as [[-> ->]|[Ne1 [Cm1 Cj1]]]; [exact C2|].
    right. destruct C2 as [[_ [Abs _]]|[Ne2 Cnt2]]; [contradiction|].
    split; [exact Ne2|].
    rewrite !filter_app, !length_app, Cm1, Cj1.
    destruct acc1; [|contradiction]. destruct acc; lia.
Qed.

(** X3: the bounds condition is built from index arithmetic alone: affine
    applications, extents of the region, index constants, comparisons and
    conjunctions. It never creates a memory access, a conditional or a
    transfer, and it touches nothing but the insertion block. A null
    condition comes with no operation at all; otherwise the comparisons are
    chained by one conjunction fewer than there are comparisons. *)
Theorem createInBoundsCond_index_arithmetic : forall x s cond s',
  createInBoundsCond x s = Done (cond, s') ->
  grows s s' /\
  exists ops,
    block s' = block s ++ ops /\ forallb isIndexArithmetic ops = true /\
    (cond = None -> ops = []) /\
    (cond <> None ->
     length (filter isComparison ops)
     = S (length (filter isConjunction ops))).
Proof.
  intros x s cond s' H.
  split; [eapply builds_createInBoundsCond; eauto|].
  unfold createInBoundsCond in H. apply bind_inv in H.
  destruct H as [u [s0 [A H]]]. apply assert_inv in A. destruct A as [_ ->].
  apply foldM_inBoundsCond_arithmetic in H.
  destruct H as [ops [B [Ar C]]]. exists ops.
  split; [exact B|]. split; [exact Ar|].
  destruct C as [[-> [_ ->]]|[Ne Cnt]].
  - split; [reflexivity | intros Abs; contradiction].
  - split; [intros Abs; contradiction | intros _; lia].
Qed.

(** ** The transfers a split leaves behind *)

Lemma transfersOf_if : forall id c n th el,
  transfersOf (IfOp id c n th el)
  = transfersIn th ++
    match el with Some r => transfersIn r | None => [] end.
Proof.
  intros id c n th el. cbn [transfersOf].
  assert (K : forall ops,
    (fix collect (ops : list Op) : list XferOp :=
       match ops with
       | [] => []
       | o :: ops' => transfersOf o ++ collect ops'
       end) ops = transfersIn ops).
  { induction ops as [|o ops IH]; [reflexivity|]. cbn [transfersIn].
    now rewrite <- IH. }
  destruct el as [r|]; rewrite !K; reflexivity.
Qed.

Lemma transfersIn_app : forall a b,
  transfersIn (a ++ b) = transfersIn a ++ transfersIn b.
Proof.
  induction a as [|o a IH]; intros b; [reflexivity|].
  cbn [app transfersIn]. now rewrite IH, app_assoc.
Qed.

Lemma transfersIn_arithmetic : forall ops,
  forallb isIndexArithmetic ops = true -> transfersIn ops = [].
Proof.
  induction ops as [|o ops IH]; intros H; [reflexivity|].
  cbn [forallb] in H. apply andb_true_iff in H. destruct H as [Ho H].
  cbn [transfersIn]. rewrite (IH H).
  destruct o; try discriminate Ho; reflexivity.
Qed.

Lemma transfersIn_overlapSizeOps : forall x alloc dims n,
  transfersIn (overlapSizeOps x alloc n dims) = [].
Proof.
  intros x alloc dims; induction dims as [|[r i] dims IH]; intros n;
    [reflexivity|].
  cbn [overlapSizeOps app transfersIn transfersOf]. apply IH.
Qed.

Lemma transfersIn_intersectionOps : forall x alloc n,
  transfersIn (intersectionOps x alloc n) = [].
Proof.
  intros x alloc n. unfold intersectionOps.
  rewrite transfersIn_app, transfersIn_overlapSizeOps. reflexivity.
Qed.

Lemma transfersIn_sourceViewRegion : forall x t n,
  transfersIn (sourceViewRegion x t n) = [].
Proof.
  intros x t n. unfold sourceViewRegion.
  destruct (MemRefType_eq_dec t (getShapedType x)); reflexivity.
Qed.

Lemma transfersOf_readConditional : forall st x cond alloc t z,
  transfersOf (readConditional st x cond alloc t z)
  = if strategyIs st VectorTransfer
    then [cloneXfer [] (Some (S z))
            (2 + z + length (sourceViewRegion x t (2 + z))) x]
    else [].
Proof.
  intros st x cond alloc t z. unfold readConditional.
  rewrite transfersOf_if, transfersIn_sourceViewRegion.
  destruct (strategyIs st VectorTransfer); [reflexivity|].
  unfold bulkReadRegion. cbn [app transfersIn transfersOf].
  rewrite transfersIn_app, transfersIn_intersectionOps. reflexivity.
Qed.

Lemma transfersIn_cleanupRegion : forall st x alloc ifId n,
  transfersIn (cleanupRegion st x alloc ifId n)
  = if strategyIs st VectorTransfer
    then [cloneXfer (mapValue [] (vector x) (OpResult (1 + n) 0))
            (Some ifId) (2 + n) x]
    else [].
Proof.
  intros st x alloc ifId n. unfold cleanupRegion.
  destruct (strategyIs st VectorTransfer); [reflexivity|].
  rewrite transfersIn_app, transfersIn_intersectionOps. reflexivity.
Qed.

Lemma transfersIn_writeSplitOps : forall x cond alloc t z cleanup,
  transfersIn (writeSplitOps x cond alloc t z cleanup)
  = inBoundsClone x t
      (getResults_
         (IfOp (S z) cond (S (length (indices x))) [] None))
      (4 + z + length (sourceViewRegion x t (2 + z)))
    :: transfersIn cleanup.
Proof.
  intros x cond alloc t z cleanup. unfold writeSplitOps.
  cbn [transfersIn]. rewrite !transfersOf_if, transfersIn_sourceViewRegion.
  cbn [transfersOf transfersIn allocViewRegion app].
  rewrite !app_nil_r. reflexivity.
Qed.

Lemma nth_repeat_true : forall r dim,
  (dim < r)%nat -> nth dim (repeat true r) false = true.
Proof.
  induction r as [|r IH]; intros dim H; [lia|].
  destruct dim; [reflexivity|]. cbn [repeat nth]. apply IH. lia.
Qed.

Lemma hasOutOfBoundsDim_allTrue : forall y,
  in_bounds y = Some (repeat true (getTransferRank y)) ->
  hasOutOfBoundsDim y = false.
Proof.
  intros y H. unfold hasOutOfBoundsDim.
  destruct (existsb (fun dim => negb (isDimInBounds y dim))
              (seq 0 (getTransferRank y))) eqn:E; [|reflexivity].
  apply existsb_exists in E. destruct E as [dim [Hin Hd]].
  apply in_seq in Hin. unfold isDimInBounds in Hd. rewrite H in Hd.
  rewrite nth_repeat_true, orb_true_r in Hd by lia. discriminate.
Qed.

Lemma neverRewritten_intro : forall y,
  splitFullAndPartialTransferPrecondition y = failure -> neverRewritten y.
Proof.
  intros y H. split; [exact H|].
  intros filter options s. unfold matchAndRewrite. now rewrite H.
Qed.

Lemma neverRewritten_inBounds : forall y,
  in_bounds y = Some (repeat true (getTransferRank y)) -> neverRewritten y.
Proof.
  intros y H. apply neverRewritten_intro, precondition_rejects.
  right; right; left. now apply hasOutOfBoundsDim_allTrue.
Qed.

Lemma neverRewritten_underIf : forall y,
  isScfIf (getParentOp y) = true -> neverRewritten y.
Proof.
  intros y H. apply neverRewritten_intro, precondition_rejects. auto.
Qed.

Lemma createInBoundsCond_ops : forall x s cond s',
  createInBoundsCond x s = Done (cond, s') ->
  exists ops, block s' = block s ++ ops /\ forallb isIndexArithmetic ops = true.
Proof.
  intros x s cond s' H.
  unfold createInBoundsCond in H. apply bind_inv in H.
  destruct H as [u [s0 [A H]]]. apply assert_inv in A. destruct A as [_ ->].
  apply foldM_inBoundsCond_arithmetic in H.
  destruct H as [ops [B [Ar _]]]. eauto.
Qed.

Lemma applyOperands_permutation_map : forall vs i x,
  permutation_map (applyOperands vs i x) = permutation_map x.
Proof.
  induction vs as [|[v ty] vs IH]; intros i x; [reflexivity|].
  cbn [applyOperands]. now rewrite IH.
Qed.

Lemma finishRead_permutation_map : forall x ifOp tys ifop s r s',
  finishRead x ifOp tys ifop s = Done (r, s') ->
  permutation_map (root s') = permutation_map (root s).
Proof.
  intros x ifOp tys ifop s r s' F. unfold finishRead in F.
  apply bind_inv in F. destruct F as [u0 [s0 [St F]]].
  apply bind_inv in F. destruct F as [u1 [s4 [A F]]].
  apply assert_inv in A. destruct A as [_ ->].
  apply bind_inv in F. destruct F as [u2 [s2 [So F]]].
  apply bind_inv in F. destruct F as [u3 [s5 [Up F]]].
  apply ret_inv in F. destruct F as [_ ->].
  assert (R0 : root s0 = root s).
  { unfold storeIfOp in St. injection St as _ E. rewrite <- E.
    destruct ifOp; reflexivity. }
  rewrite setOperands_run in So. injection So as _ E. rewrite <- E in Up.
  unfold updateRootInPlace in Up. injection Up as _ E'. rewrite <- E'.
  cbn [root withRoot setInBounds permutation_map].
  now rewrite applyOperands_permutation_map, R0.
Qed.

Lemma read_split_block : forall st ifOp s s',
  splits st = true -> isaRead (root s) = true ->
  splitFullAndPartialTransfer (root s) (withStrategy st) ifOp s
  = Done (success, s') ->
  let x := root s in
  exists cond s1 t,
    createInBoundsCond x s = Done (Some cond, s1) /\
    block s'
    = block s1 ++
      [ConstantIndexOp (S (nextOp s1)) 0;
       readConditional st x cond (OpResult (nextOp s1) 0) t (S (nextOp s1))] /\
    in_bounds (root s') = Some (repeat true (getTransferRank (root s'))).
Proof.
  intros st ifOp s s' Sp Rd H x.
  destruct (split_inversion _ _ _ _ _ Sp H)
    as [_ [[Abs _]|[_ [cond [s1 [scope [C [W [_ K]]]]]]]]]; [discriminate|].
  fold x in C, W, K, Rd. cbv zeta in K.
  destruct K as [[Abs _]|[t [CT [[_ [ifop [s3 [B F]]]]|[Rd' _]]]]];
    [discriminate | | congruence].
  exists cond, s1, t. split; [exact C|].
  destruct (createInBoundsCond_effects _ _ _ _ C) as [[[R1 _] _] _].
  destruct (readBuilder_inv _ _ _ _ _ _ _ _ _ B) as [[[R3 _] _] _].
  destruct (readBuilder_run _ _ _ _ _ _ _ _ _ Sp Rd B) as [-> B3].
  cbn [allocated nextOp block root] in R3, B3.
  assert (P : permutation_map (root s') = permutation_map x).
  { rewrite (finishRead_permutation_map _ _ _ _ _ _ _ F).
    unfold x. congruence. }
  apply finishRead_inv in F.
  destruct F as [_ [_ [_ [B4 [_ [_ [In _]]]]]]].
  split; [congruence|].
  rewrite In. unfold getTransferRank. now rewrite P.
Qed.

Lemma write_split_block : forall st ifOp s s',
  splits st = true -> isaRead (root s) = false ->
  splitFullAndPartialTransfer (root s) (withStrategy st) ifOp s
  = Done (success, s') ->
  let x := root s in
  exists cond s1 t,
    createInBoundsCond x s = Done (Some cond, s1) /\
    erased s' = true /\
    block s'
    = block s1 ++
      writeSplitOps x cond (OpResult (nextOp s1) 0) t (S (nextOp s1))
        (cleanupRegion st x (OpResult (nextOp s1) 0)
           (fst (cleanupIds x t (S (nextOp s1))))
           (snd (cleanupIds x t (S (nextOp s1))))).
Proof.
  intros st ifOp s s' Sp Rd H x.
  destruct (split_inversion _ _ _ _ _ Sp H)
    as [_ [[Abs _]|[_ [cond [s1 [scope [C [W [_ K]]]]]]]]]; [discriminate|].
  fold x in C, W, K, Rd. cbv zeta in K.
  destruct K as [[Abs _]|[t [CT [[Rd' _]|[_ [_ [_ [res [s3 [s4 [L [B ->]]]]]]]]]]]];
    [discriminate | congruence |].
  exists cond, s1, t. split; [exact C|]. split; [reflexivity|].
  apply getLocationToWriteFullVec_run in L. cbv zeta in L.
  destruct L as [-> [B3 N3]]. cbn [allocated nextOp block] in B3, N3.
  cbn [withErased block].
  unfold writeSplitOps, cleanupRegion, reissueRegion, cleanupIds.
  cbn [fst snd].
  destruct (strategyIs st VectorTransfer).
  - apply createFullPartialVectorTransferWrite_inv in B. cbv zeta in B.
    rewrite B. cbn [emit block nextOp length Nat.add].
    rewrite B3, N3, <- !app_assoc. reflexivity.
  - apply createFullPartialLinalgCopyWrite_inv in B. cbv zeta in B.
    rewrite B. cbn [emit block nextOp length Nat.add].
    rewrite B3, N3, <- !app_assoc. reflexivity.
Qed.

(** X4: the pattern is never applied to what it produced. After a
    successful rewrite (any strategy), every transfer among the operations
    created in front of the original one - the in-bounds clone of a write,
    the clones inside the conditionals - fails the precondition, so
    [matchAndRewrite] returns failure on it and changes nothing; and the
    original transfer either was erased (write) or now fails the
    precondition as well (read, and the force-in-bounds strategy): it is
    marked in bounds in every dimension. *)
Theorem split_products_not_candidates : forall st ifOp s s' ops,
  splitFullAndPartialTransfer (root s) (withStrategy st) ifOp s
  = Done (success, s') ->
  block s' = block s ++ ops ->
  (erased s' = true \/ neverRewritten (root s')) /\
  forall y, In y (transfersIn ops) -> neverRewritten y.
Proof.
  intros st ifOp s s' ops H B.
  destruct (splits st) eqn:Sp.
  2:{ destruct st; try discriminate Sp; [discriminate H|].
      cbv [splitFullAndPartialTransfer withStrategy vectorTransferSplit
           strategyIs bind updateRootInPlace ret] in H.
      inversion H; subst s'; clear H. cbn [block root] in *.
      split; [right; now apply neverRewritten_inBounds|].
      assert (E : ops = [])
        by (apply (app_inv_head (block s)); now rewrite app_nil_r).
      subst ops. intros y []. }
  destruct (isaRead (root s)) eqn:Rd.
  - destruct (read_split_block _ _ _ _ Sp Rd H)
      as [cond [s1 [t [C [B' Rt]]]]].
    split.
    { right. now apply neverRewritten_inBounds. }
    destruct (createInBoundsCond_ops _ _ _ _ C) as [cops [Bc Ar]].
    rewrite Bc, <- app_assoc in B'. rewrite B' in B.
    apply app_inv_head in B. subst ops.
    rewrite transfersIn_app, (transfersIn_arithmetic _ Ar). cbn [app transfersIn].
    rewrite transfersOf_readConditional, app_nil_r.
    destruct (strategyIs st VectorTransfer); [|intros y []].
    intros y [<-|[]]. now apply neverRewritten_underIf.
  - destruct (write_split_block _ _ _ _ Sp Rd H)
      as [cond [s1 [t [C [E B']]]]].
    split; [now left|].
    destruct (createInBoundsCond_ops _ _ _ _ C) as [cops [Bc Ar]].
    rewrite Bc, <- app_assoc in B'. rewrite B' in B.
    apply app_inv_head in B. subst ops.
    rewrite transfersIn_app, (transfersIn_arithmetic _ Ar). cbn [app].
    rewrite transfersIn_writeSplitOps, transfersIn_cleanupRegion.
    intros y [<-|Hy].
    + now apply neverRewritten_inBounds.
    + destruct (strategyIs st VectorTransfer); [|destruct Hy].
      destruct Hy as [<-|[]]. now apply neverRewritten_underIf.
Qed.

(** ** Runs that cannot trip an assertion *)

Lemma total_ret : forall A (a : A), total (ret a).
Proof. intros A a s. do 2 eexists. reflexivity. Qed.

Lemma total_bind : forall A B (m : Rewriter A) (k : A -> Rewriter B),
  total m -> (forall a, total (k a)) -> total (bind m k).
Proof.
  intros A B m k Hm Hk s. destruct (Hm s) as [a [s1 E]].
  destruct (Hk a s1) as [b [s2 E2]]. exists b, s2.
  unfold bind. now rewrite E.
Qed.

Lemma total_create : forall mk, total (create mk).
Proof. intros mk s. do 2 eexists. reflexivity. Qed.

Lemma total_freshOp : total freshOp.
Proof. intros s. do 2 eexists. reflexivity. Qed.

Lemma total_insert : forall op, total (insert op).
Proof. intros op s. do 2 eexists. reflexivity. Qed.

Lemma total_buildRegion : forall body, total body -> total (buildRegion body).
Proof.
  intros body H s. unfold buildRegion.
  match goal with
  | |- context [body ?s0] => destruct (H s0) as [u [s1 E]]; rewrite E
  end.
  do 2 eexists. reflexivity.
Qed.

Lemma total_createIfOp : forall cond thenB elseB,
  (forall id, total (thenB id)) ->
  (forall e, elseB = Some e -> forall id, total (e id)) ->
  total (createIfOp cond thenB elseB).
Proof.
  intros cond thenB elseB Ht He. unfold createIfOp.
  apply total_bind; [apply total_freshOp|]. intros id.
  apply total_bind; [apply total_buildRegion, Ht|]. intros thenOps.
  apply total_bind.
  - destruct elseB as [e|]; [|apply total_ret].
    apply total_bind; [apply total_buildRegion, (He e eq_refl)|].
    intros r. apply total_ret.
  - intros elseOps. apply total_bind; [apply total_insert|].
    intros _. apply total_ret.
Qed.

Lemma total_clone : forall m inside x, total (clone m inside x).
Proof.
  intros m inside x. unfold clone.
  apply total_bind; [apply total_freshOp|]. intros id.
  apply total_bind; [apply total_insert|]. intros _. apply total_ret.
Qed.

Lemma total_yieldSourceView : forall x t, total (yieldSourceView x t).
Proof.
  intros x t. unfold yieldSourceView.
  apply total_bind.
  - destruct (MemRefType_eq_dec t (getShapedType x)); [apply total_ret|].
    apply total_bind; [apply total_create|]. intros id. apply total_ret.
  - intros res. apply total_bind; [apply total_create|].
    intros _. apply total_ret.
Qed.

Lemma total_yieldAllocView : forall x t alloc zero,
  total (yieldAllocView x t alloc zero).
Proof.
  intros x t alloc zero. unfold yieldAllocView.
  apply total_bind; [apply total_create|]. intros casted.
  apply total_bind; [apply total_create|]. intros _. apply total_ret.
Qed.

Lemma total_createSubViewIntersection : forall x alloc allocTy,
  isMinorIdentity (permutation_map x) = true -> verified x = true ->
  getRank (getShapedType x) = getRank allocTy ->
  total (createSubViewIntersection x alloc allocTy).
Proof.
  intros x alloc allocTy Hm Hv Rk s.
  destruct (foldM_subViewSizeStep_total x alloc (zipResultAndIndexing x)
              (map Val (firstn (Z.to_nat (getLeadingShapedRank x)) (indices x)))
              s) as [sizes [s1 F]].
  { intros r i Hin.
    destruct (zipResultAndIndexing_lookups x Hm Hv r i Hin)
      as [_ [index [_ [_ [Hi _]]]]]. eauto. }
  unfold createSubViewIntersection. unfold bind at 1. unfold assert_.
  rewrite Rk, Nat.eqb_refl. unfold bind at 1. rewrite F.
  run_step. eauto.
Qed.

Lemma total_createFullPartialVectorTransferRead : forall x tys cond t alloc,
  total (createFullPartialVectorTransferRead x tys cond t alloc).
Proof.
  intros x tys cond t alloc. unfold createFullPartialVectorTransferRead.
  apply total_bind; [apply total_create|]. intros zeroId.
  apply total_createIfOp; [intros; apply total_yieldSourceView|].
  intros e E id. injection E as <-.
  apply total_bind; [apply total_clone|]. intros newXfer.
  apply total_bind; [apply total_create|]. intros cast.
  apply total_bind; [apply total_create|]. intros _.
  apply total_yieldAllocView.
Qed.

Lemma total_createFullPartialLinalgCopy : forall x tys cond t alloc allocTy,
  isMinorIdentity (permutation_map x) = true -> verified x = true ->
  getRank (getShapedType x) = getRank allocTy ->
  total (createFullPartialLinalgCopy x tys cond t alloc allocTy).
Proof.
  intros x tys cond t alloc allocTy Hm Hv Rk.
  unfold createFullPartialLinalgCopy.
  apply total_bind; [apply total_create|]. intros zeroId.
  apply total_createIfOp; [intros; apply total_yieldSourceView|].
  intros e E id. injection E as <-.
  apply total_bind; [apply total_create|]. intros _.
  apply total_bind; [now apply total_createSubViewIntersection|].
  intros copyArgs.
  apply total_bind; [apply total_create|]. intros _.
  apply total_yieldAllocView.
Qed.

Lemma total_getLocationToWriteFullVec : forall x tys cond t alloc,
  total (getLocationToWriteFullVec x tys cond t alloc).
Proof.
  intros x tys cond t alloc. unfold getLocationToWriteFullVec.
  apply total_bind; [apply total_create|]. intros zeroId.
  apply total_bind; [|intros; apply total_ret].
  apply total_createIfOp; [intros; apply total_yieldSourceView|].
  intros e E id. injection E as <-. apply total_yieldAllocView.
Qed.

Lemma total_createFullPartialVectorTransferWrite : forall x cond alloc,
  total (createFullPartialVectorTransferWrite x cond alloc).
Proof.
  intros x cond alloc. unfold createFullPartialVectorTransferWrite.
  apply total_bind; [apply total_create|]. intros true_.
  apply total_bind; [apply total_create|]. intros notInBounds.
  apply total_bind; [|intros; apply total_ret].
  apply total_createIfOp; [|discriminate]. intros id.
  apply total_bind; [apply total_create|]. intros cast.
  apply total_bind; [apply total_create|]. intros load.
  apply total_bind; [apply total_clone|]. intros _.
  apply total_bind; [apply total_create|]. intros _. apply total_ret.
Qed.

Lemma total_createFullPartialLinalgCopyWrite : forall x cond alloc allocTy,
  isMinorIdentity (permutation_map x) = true -> verified x = true ->
  getRank (getShapedType x) = getRank allocTy ->
  total (createFullPartialLinalgCopyWrite x cond alloc allocTy).
Proof.
  intros x cond alloc allocTy Hm Hv Rk.
  unfold createFullPartialLinalgCopyWrite.
  apply total_bind; [apply total_create|]. intros true_.
  apply total_bind; [apply total_create|]. intros notInBounds.
  apply total_bind; [|intros; apply total_ret].
  apply total_createIfOp; [|discriminate]. intros id.
  apply total_bind; [now apply total_createSubViewIntersection|].
  intros copyArgs.
  apply total_bind; [apply total_create|]. intros _.
  apply total_bind; [apply total_create|]. intros _. apply total_ret.
Qed.

Lemma createInBoundsCond_total : forall x s,
  isMinorIdentity (permutation_map x) = true -> verified x = true ->
  exists cond s',
    createInBoundsCond x s = Done (cond, s') /\
    (cond = None <-> checkedDims x = []).
Proof.
  intros x s Hm Hv.
  assert (Hx := Hv). unfold verified in Hx.
  repeat rewrite andb_true_iff in Hx. destruct Hx as [[_ Hs] Hx].
  destruct (foldM_inBoundsCond x (zipResultAndIndexing x) None s Hs Hx
              (zipResultAndIndexing_lookups x Hm Hv))
    as [cond [ops [Run [_ [_ [_ [Non _]]]]]]]; [discriminate|].
  assert (CD : checkedDims x = filter (isChecked x) (zipResultAndIndexing x)).
  { unfold checkedDims, participatingDims. now rewrite filter_filter. }
  exists cond, (emit ops s). split.
  - unfold createInBoundsCond, assert_. rewrite Hm. unfold bind. exact Run.
  - rewrite CD, Non. tauto.
Qed.

Lemma precondition_minor_identity : forall x,
  splitFullAndPartialTransferPrecondition x = success ->
  isMinorIdentity (permutation_map x) = true.
Proof.
  intros x H. unfold splitFullAndPartialTransferPrecondition in H.
  destruct (getTransferRank x =? 0)%nat; [discriminate|].
  destruct (isMinorIdentity (permutation_map x)); [reflexivity|discriminate].
Qed.

Lemma verified_rank : forall x,
  isMinorIdentity (permutation_map x) = true -> verified x = true ->
  (getTransferRank x <= length (indices x))%nat.
Proof.
  intros x Hm Hv. apply isMinorIdentity_rank in Hm.
  unfold verified in Hv. repeat rewrite andb_true_iff in Hv.
  destruct Hv as [[[[Hi _] Hn] _] _]. apply Nat.eqb_eq in Hi, Hn.
  unfold getTransferRank. lia.
Qed.

Lemma finishRead_total : forall st x ifOp t cond alloc z s,
  (getTransferRank x <= length (indices x))%nat ->
  exists s',
    finishRead x ifOp (returnTypesOf x t)
      (readConditional st x cond alloc t z) s = Done (success, s').
Proof.
  intros st x ifOp t cond alloc z s Le. unfold finishRead.
  unfold bind at 1, storeIfOp. unfold bind at 1.
  assert (A : (length (returnTypesOf x t)
               <=? numResultsOf (readConditional st x cond alloc t z))%nat
              = true).
  { apply Nat.leb_le.
    unfold returnTypesOf, numResultsOf, readConditional, getResults_.
    cbn [length]. rewrite repeat_length, length_map, length_seq. lia. }
  rewrite A. unfold assert_. unfold bind at 1.
  rewrite setOperands_run. eexists. reflexivity.
Qed.

Lemma split_outcome : forall st ifOp s,
  (forall a b, areCastCompatible a b = true -> getRank a = getRank b) ->
  splits st = true -> verified (root s) = true ->
  verdictOf (splitFullAndPartialTransfer (root s) (withStrategy st) ifOp s)
  = splitVerdict (root s).
Proof.
  intros st ifOp s Hc Sp Hv. set (x := root s) in *.
  unfold splitFullAndPartialTransfer, splitVerdict.
  cbn [vectorTransferSplit withStrategy].
  assert (E1 : strategyIs st None_ = false) by (destruct st; auto; discriminate).
  assert (E2 : strategyIs st ForceInBounds = false)
    by (destruct st; auto; discriminate).
  rewrite E1, E2.
  destruct (splitFullAndPartialTransferPrecondition x) eqn:Pre;
    cbn [succeeded failed negb]; [|reflexivity].
  assert (Hm := precondition_minor_identity _ Pre).
  unfold bind at 1, assert_.
  destruct (isaRead x || isaWrite x) eqn:RW; cbn [negb]; [|reflexivity].
  destruct (hasMask x) eqn:M.
  { rewrite !andb_true_r. destruct (isaWrite x) eqn:W; [reflexivity|].
    rewrite orb_false_r in RW. rewrite RW. reflexivity. }
  rewrite !andb_false_r.
  destruct (createInBoundsCond_total x s Hm Hv) as [cond [s1 [C N]]].
  rewrite (bind_done _ _ _ _ _ _ _ C).
  destruct cond as [cond|].
  2:{ rewrite (proj1 N eq_refl). reflexivity. }
  destruct (checkedDims x) as [|d ds] eqn:CD.
  { destruct N as [_ N]. discriminate (N eq_refl). }
  unfold getAutomaticAllocationScope. fold (chainOf x).
  destruct (walkAllocationScope None (chainOf x)) as [scope|] eqn:W;
    [|reflexivity].
  unfold bind at 1, ret at 1. unfold bind at 1, assert_.
  destruct (getNumRegions scope =? 1)%nat eqn:NR; cbn [negb]; [|reflexivity].
  unfold bind at 1, createAtStartOf.
  fold (allocated x scope s1).
  destruct (getCastCompatibleMemRefType (getShapedType x) (allocaType x))
    as [t|] eqn:CT; [|reflexivity].
  destruct (getCastCompatibleMemRefType_rank _ _ _ Hc CT) as [Rk _].
  fold (returnTypesOf x t).
  destruct (isaRead x) eqn:Rd.
  - assert (B : exists ifop s3,
               (if strategyIs st VectorTransfer
                then createFullPartialVectorTransferRead x (returnTypesOf x t)
                       cond t (OpResult (nextOp s1) 0)
                else createFullPartialLinalgCopy x (returnTypesOf x t) cond t
                       (OpResult (nextOp s1) 0) (allocaType x))
                 (allocated x scope s1) = Done (ifop, s3)).
    { destruct (strategyIs st VectorTransfer).
      - apply total_createFullPartialVectorTransferRead.
      - now apply total_createFullPartialLinalgCopy. }
    destruct B as [ifop [s3 B]].
    rewrite (bind_done _ _ _ _ _ _ _ B).
    destruct (readBuilder_run _ _ _ _ _ _ _ _ _ Sp Rd B) as [-> _].
    destruct (finishRead_total st x ifOp t cond (OpResult (nextOp s1) 0)
                (nextOp (allocated x scope s1)) s3
                (verified_rank _ Hm Hv)) as [s' F].
    unfold finishRead, assert_ in F. rewrite F. reflexivity.
  - destruct (total_getLocationToWriteFullVec x (returnTypesOf x t) cond t
                (OpResult (nextOp s1) 0) (allocated x scope s1))
      as [res [s3 L]].
    unfold returnTypesOf in L. rewrite (bind_done _ _ _ _ _ _ _ L).
    unfold bind at 1, freshOp. unfold bind at 1, insert.
    match goal with
    | |- verdictOf (bind ?m _ ?s0) = _ =>
        assert (B : exists u s4, m s0 = Done (u, s4))
    end.
    { destruct (strategyIs st VectorTransfer).
      - apply total_createFullPartialVectorTransferWrite.
      - now apply total_createFullPartialLinalgCopyWrite. }
    destruct B as [u [s4 B]].
    rewrite (bind_done _ _ _ _ _ _ _ B). reflexivity.
Qed.

(** X5: how a split under a splitting strategy ends is decided by the
    transfer alone, whatever the state of the rewriter and the out-parameter
    (for a verified transfer; cast-compatible types have equal ranks). It
    trips an assertion exactly when the precondition fails, or when a
    runtime check is needed and the allocation-scope walk finds no scope or
    a scope that has not exactly one region. Otherwise it returns failure
    when the operation is neither a read nor a write, when it has a mask,
    when every participating dimension folds away, or when no common
    descriptor type exists; and it returns success in every other case: no
    builder on the way can fail. *)
Theorem split_verdict : forall st ifOp s,
  (forall a b, areCastCompatible a b = true -> getRank a = getRank b) ->
  splits st = true -> verified (root s) = true ->
  let run := splitFullAndPartialTransfer (root s) (withStrategy st) ifOp s in
  (run = AssertionFailure <-> splitVerdict (root s) = Aborts) /\
  ((exists s', run = Done (failure, s')) <-> splitVerdict (root s) = Fails) /\
  ((exists s', run = Done (success, s')) <->
   splitVerdict (root s) = Succeeds).
Proof.
  intros st ifOp s Hc Sp Hv run.
  assert (O := split_outcome st ifOp s Hc Sp Hv). fold run in O.
  rewrite <- O.
  destruct run as [[[|] s']|]; cbn [verdictOf];
    repeat split; intros H; try discriminate H; eauto;
    destruct H as [s0 H]; discriminate H.
Qed.

(** X6: the pattern on a verified transfer. It returns failure, with the IR
    untouched, when the precondition or the filter turns the transfer down;
    otherwise it ends as the split does: failure under strategy [None],
    success under [ForceInBounds], and under a splitting strategy as the
    transfer alone decides. The assertion on the precondition is never
    tripped through the pattern: the only assertions left are those on the
    allocation scope, so inside a one-region allocation scope the pattern
    always returns. *)
Theorem pattern_verdict : forall filter st s,
  (forall a b, areCastCompatible a b = true -> getRank a = getRank b) ->
  verified (root s) = true ->
  let x := root s in
  let run := matchAndRewrite filter (withStrategy st) (Some x) s in
  verdictOf run
  = (if failed (splitFullAndPartialTransferPrecondition x) || failed (filter x)
     then Fails
     else match st with
          | None_ => Fails
          | ForceInBounds => Succeeds
          | _ => splitVerdict x
          end) /\
  (failed (splitFullAndPartialTransferPrecondition x) || failed (filter x)
   = true -> run = Done (failure, s)) /\
  ((exists scope, walkAllocationScope None (chainOf x) = Some scope /\
                  getNumRegions scope = 1%nat) ->
   exists r s', run = Done (r, s')).
Proof.
  intros filter st s Hc Hv x run.
  assert (V : verdictOf run
              = (if failed (splitFullAndPartialTransferPrecondition x)
                    || failed (filter x)
                 then Fails
                 else match st with
                      | None_ => Fails
                      | ForceInBounds => Succeeds
                      | _ => splitVerdict x
                      end)).
  { unfold run, matchAndRewrite.
    destruct (failed (splitFullAndPartialTransferPrecondition x));
      [reflexivity|].
    destruct (failed (filter x)); [reflexivity|]. cbn [orb].
    destruct st; try reflexivity.
    - apply (split_outcome VectorTransfer false s Hc eq_refl Hv).
    - apply (split_outcome LinalgCopy false s Hc eq_refl Hv). }
  split; [exact V|]. split.
  - intros F. unfold run, matchAndRewrite.
    destruct (failed (splitFullAndPartialTransferPrecondition x));
      [reflexivity|].
    cbn [orb] in F. now rewrite F.
  - intros [scope [W NR]].
    destruct run as [[r s']|] eqn:R; [eauto|]. exfalso.
    cbn [verdictOf] in V.
    destruct (failed (splitFullAndPartialTransferPrecondition x)) eqn:P;
      [discriminate V|].
    destruct (failed (filter x)); [discriminate V|]. cbn [orb] in V.
    destruct st; try discriminate V;
      unfold splitVerdict in V; fold x in V; rewrite P, W, NR in V;
      cbn [Nat.eqb negb] in V;
      destruct (negb (isaRead x || isaWrite x)); try discriminate V;
      destruct (hasMask x); try discriminate V;
      destruct (checkedDims x); try discriminate V;
      destruct (getCastCompatibleMemRefType (getShapedType x) (allocaType x));
      discriminate V.
Qed.

(** ** The in-bounds clone of a write *)

Lemma lookupOrDefault_mapValues : forall from to m v,
  length from = length to ->
  lookupOrDefault (mapValues m from to) v
  = match lastIndexOf v from with
    | Some j => nth j to v
    | None => lookupOrDefault m v
    end.
Proof.
  induction from as [|f from IH]; intros [|t to] m v L;
    try discriminate L; [reflexivity|].
  cbn [mapValues lastIndexOf]. rewrite IH by (simpl in L; lia).
  destruct (lastIndexOf v from) as [j|]; [reflexivity|].
  unfold mapValue. cbn [lookupOrDefault].
  destruct (Value_eq_dec f v); reflexivity.
Qed.

Lemma lastIndexOf_Some : forall v l j,
  lastIndexOf v l = Some j -> nth_error l j = Some v.
Proof.
  induction l as [|a l IH]; intros j H; [discriminate|].
  cbn [lastIndexOf] in H.
  destruct (lastIndexOf v l) as [j'|].
  - inversion H; subst. cbn [nth_error]. now apply IH.
  - destruct (Value_eq_dec a v); inversion H; subst. reflexivity.
Qed.

Lemma lastIndexOf_None : forall v l,
  lastIndexOf v l = None -> ~ In v l.
Proof.
  induction l as [|a l IH]; intros H; [intros []|].
  cbn [lastIndexOf] in H.
  destruct (lastIndexOf v l) as [j'|]; [discriminate|].
  destruct (Value_eq_dec a v); [discriminate|].
  intros [E|E]; [contradiction | now apply IH].
Qed.

Lemma lastIndexOf_NoDup : forall l k v,
  NoDup l -> nth_error l k = Some v -> lastIndexOf v l = Some k.
Proof.
  induction l as [|a l IH]; intros k v N H; [destruct k; discriminate|].
  inversion N as [|? ? Na Nl]; subst.
  destruct k as [|k]; cbn [nth_error] in H; cbn [lastIndexOf].
  - inversion H; subst.
    destruct (lastIndexOf v l) as [j|] eqn:E.
    + apply lastIndexOf_Some, nth_error_In in E. contradiction.
    + destruct (Value_eq_dec v v); [reflexivity | contradiction].
  - now rewrite (IH k v Nl H).
Qed.

Lemma nth_results : forall id n j d,
  (j < n)%nat -> nth j (map (OpResult id) (seq 1 n)) d = OpResult id (S j).
Proof.
  intros id n j d H.
  rewrite (nth_indep _ d (OpResult id 0))
    by (now rewrite length_map, length_seq).
  rewrite (map_nth (OpResult id) (seq 1 n) 0%nat), seq_nth by lia.
  reflexivity.
Qed.

Lemma inBoundsClone_operands : forall x t ifId cond th el id,
  kind x <> TransferRead ->
  let n := length (indices x) in
  let c := inBoundsClone x t (getResults_ (IfOp ifId cond (S n) th el)) id in
  (~ In (source x) (indices x) -> source c = OpResult ifId 0) /\
  (forall k v, nth_error (indices x) k = Some v ->
     exists j, nth_error (indices x) j = Some v /\
               nth_error (indices c) k = Some (OpResult ifId (S j))) /\
  (NoDup (indices x) -> indices c = map (OpResult ifId) (seq 1 n)) /\
  (vector x <> source x -> ~ In (vector x) (indices x) ->
   vector c = vector x).
Proof.
  intros x t ifId cond th el id K n c.
  assert (L : length (indices x) = length (map (OpResult ifId) (seq 1 n)))
    by (now rewrite length_map, length_seq).
  assert (Look : forall v,
            lookupOrDefault
              (mapValues (mapValue [] (source x) (OpResult ifId 0))
                 (indices x) (map (OpResult ifId) (seq 1 n))) v
            = match lastIndexOf v (indices x) with
              | Some j => OpResult ifId (S j)
              | None => if Value_eq_dec (source x) v then OpResult ifId 0
                        else v
              end).
  { intros v. rewrite lookupOrDefault_mapValues by exact L.
    destruct (lastIndexOf v (indices x)) as [j|] eqn:E; [|reflexivity].
    apply nth_results. apply lastIndexOf_Some in E.
    apply nth_error_Some. congruence. }
  assert (Idx : forall k v, nth_error (indices x) k = Some v ->
            exists j, lastIndexOf v (indices x) = Some j /\
                      nth_error (indices c) k = Some (OpResult ifId (S j))).
  { intros k v H. unfold c, inBoundsClone, getResults_.
    cbn [seq map hd tl setInBounds setShapedType cloneXfer indices].
    rewrite nth_error_map, H. cbn [option_map]. rewrite Look.
    destruct (lastIndexOf v (indices x)) as [j|] eqn:E; [eauto|].
    apply lastIndexOf_None in E. apply nth_error_In in H. contradiction. }
  split; [|split; [|split]].
  - intros Hs. unfold c, inBoundsClone, getResults_.
    cbn [seq map hd tl setInBounds setShapedType cloneXfer source].
    rewrite Look.
    destruct (lastIndexOf (source x) (indices x)) as [j|] eqn:E.
    + apply lastIndexOf_Some, nth_error_In in E. contradiction.
    + destruct (Value_eq_dec (source x) (source x)); [reflexivity|contradiction].
  - intros k v H. destruct (Idx k v H) as [j [E N]].
    exists j. split; [now apply lastIndexOf_Some | exact N].
  - intros N. apply nth_error_ext. intros k.
    destruct (nth_error (indices x) k) as [v|] eqn:H.
    + destruct (Idx k v H) as [j [E Nk]].
      rewrite (lastIndexOf_NoDup _ _ _ N H) in E. inversion E; subst j.
      rewrite Nk, nth_error_map.
      assert (Lk : (k < n)%nat) by (apply nth_error_Some; congruence).
      rewrite (nth_error_nth' _ 0%nat) by (now rewrite length_seq).
      rewrite seq_nth by lia. reflexivity.
    + assert (Lk : (n <= k)%nat) by (now apply nth_error_None).
      transitivity (@None Value); [|symmetry];
        apply nth_error_None.
      * unfold c, inBoundsClone.
        cbn [setInBounds setShapedType cloneXfer indices].
        rewrite length_map. exact Lk.
      * now rewrite length_map, length_seq.
  - intros Hs Hi. unfold c, inBoundsClone, getResults_.
    cbn [seq map hd tl setInBounds setShapedType cloneXfer vector].
    destruct (kind x); try contradiction; rewrite Look;
      (destruct (lastIndexOf (vector x) (indices x)) as [j|] eqn:E;
       [apply lastIndexOf_Some, nth_error_In in E; contradiction|]);
      (destruct (Value_eq_dec (source x) (vector x));
       [congruence | reflexivity]).
Qed.

(** X7: the in-bounds clone a successful split of a write creates (the one
    that stands after the first conditional). It is the write with its
    region and index operands remapped to the results of that conditional:
    the region is result 0 (of the common type), and the index at position
    [k] is the result that carries an index equal to the original one: result
    [k + 1] when the index operands are pairwise distinct, and in general
    result [j + 1] for the last position [j] that holds the same value. The
    written vector is the original one, the clone stands in the block of the
    original write, and all its dimensions are marked in bounds. *)
Theorem write_clone_operands : forall st ifOp s s',
  splits st = true -> isaRead (root s) = false ->
  splitFullAndPartialTransfer (root s) (withStrategy st) ifOp s
  = Done (success, s') ->
  let x := root s in
  exists cond s1 t cleanup id c,
    createInBoundsCond x s = Done (Some cond, s1) /\
    let ifId := (2 + nextOp s1)%nat in
    block s'
    = block s1 ++
      writeSplitOps x cond (OpResult (nextOp s1) 0) t (S (nextOp s1)) cleanup /\
    nth_error
      (writeSplitOps x cond (OpResult (nextOp s1) 0) t (S (nextOp s1)) cleanup)
      2 = Some (TransferOp id c) /\
    getShapedType c = t /\
    in_bounds c = Some (repeat true (getTransferRank x)) /\
    getParentOp c = getParentOp x /\
    (~ In (source x) (indices x) -> source c = OpResult ifId 0) /\
    (forall k v, nth_error (indices x) k = Some v ->
       exists j, nth_error (indices x) j = Some v /\
                 nth_error (indices c) k = Some (OpResult ifId (S j))) /\
    (NoDup (indices x) ->
     indices c = map (OpResult ifId) (seq 1 (length (indices x)))) /\
    (vector x <> source x -> ~ In (vector x) (indices x) ->
     vector c = vector x).
Proof.
  intros st ifOp s s' Sp Rd H x.
  destruct (write_split_block _ _ _ _ Sp Rd H) as [cond [s1 [t [C [_ B]]]]].
  fold x in C, B.
  do 4 eexists. do 2 eexists.
  split; [exact C|]. cbv zeta. split; [exact B|].
  split; [reflexivity|].
  split; [reflexivity|]. split; [reflexivity|]. split; [reflexivity|].
  apply inBoundsClone_operands.
  unfold isaRead in Rd. fold x in Rd. intros E. rewrite E in Rd. discriminate.
Qed.

(** ** Where the walk ends *)

Lemma visitedAncestors_loops : forall loops tail,
  forallb isLoop loops = true ->
  visitedAncestors (loops ++ tail) = loops ++ visitedAncestors tail.
Proof.
  induction loops as [|l loops IH]; intros tail H; [reflexivity|].
  cbn [forallb] in H. apply andb_true_iff in H. destruct H as [Hl H].
  cbn [app visitedAncestors]. rewrite Hl. now rewrite IH.
Qed.

Lemma lastTagged_In : forall l scope,
  lastTagged l = Some scope ->
  hasAutomaticAllocationScope scope = true /\ In scope l.
Proof.
  unfold lastTagged. intros l.
  induction l as [|p l IH] using rev_ind; intros scope H; [discriminate|].
  rewrite fold_left_app in H. cbn [fold_left] in H.
  destruct (hasAutomaticAllocationScope p) eqn:T.
  - inversion H; subst. split; [exact T|]. apply in_or_app. right. now left.
  - destruct (IH _ H) as [T' I]. split; [exact T'|].
    apply in_or_app. now left.
Qed.

Lemma walk_after_loops : forall loops p rest,
  forallb isLoop loops = true -> isLoop p = false ->
  walkAllocationScope None (loops ++ p :: rest)
  = if hasAutomaticAllocationScope p then Some p else lastTagged loops.
Proof.
  intros loops p rest Hl Hp.
  rewrite walkAllocationScope_visited, visitedAncestors_loops by exact Hl.
  cbn [visitedAncestors]. rewrite Hp.
  rewrite fold_left_app. cbn [fold_left].
  destruct (hasAutomaticAllocationScope p); reflexivity.
Qed.

(** X8: where the walk ends, for any number of loops. With the enclosing
    operations being [scf.for]/[affine.for] loops up to a first operation
    [p] that is not one, the answer is [p] when [p] is tagged as allocation
    scope, and otherwise the outermost tagged loop below [p]; what lies above
    [p] is never looked at. Every answer is tagged and is one of the
    enclosing operations. So when [p] is not tagged the buffer of a
    successful split is allocated at the entry of a loop body: the answer is
    a looping construct. *)
Theorem walk_ends_at_first_non_loop : forall st ifOp s loops p rest,
  chainOf (root s) = loops ++ p :: rest ->
  forallb isLoop loops = true -> isLoop p = false ->
  let x := root s in
  walkAllocationScope None (chainOf x)
  = (if hasAutomaticAllocationScope p then Some p else lastTagged loops) /\
  (forall scope,
     walkAllocationScope None (chainOf x) = Some scope ->
     hasAutomaticAllocationScope scope = true /\ In scope (loops ++ [p])) /\
  (hasAutomaticAllocationScope p = false ->
   forall s',
     splits st = true ->
     splitFullAndPartialTransfer x (withStrategy st) ifOp s
     = Done (success, s') ->
     exists scope id,
       In scope loops /\ isLoop scope = true /\
       scopeEntry s'
       = (parentId scope, AllocaOp id (allocaType x) 32) :: scopeEntry s).
Proof.
  intros st ifOp s loops p rest Ch Hl Hp x. fold x in Ch.
  assert (W := walk_after_loops loops p rest Hl Hp). rewrite <- Ch in W.
  split; [exact W|]. split.
  - intros scope E. rewrite W in E.
    destruct (hasAutomaticAllocationScope p) eqn:T.
    + inversion E; subst. split; [exact T|].
      apply in_or_app. right. now left.
    + destruct (lastTagged_In _ _ E) as [T' I]. split; [exact T'|].
      apply in_or_app. now left.
  - intros T s' Sp H. rewrite T in W.
    destruct (split_inversion _ _ _ _ _ Sp H)
      as [_ [[Abs _]|[_ [cond [s1 [scope [C [W' [_ K]]]]]]]]]; [discriminate|].
    fold x in C, W', K. cbv zeta in K.
    rewrite W in W'. destruct (lastTagged_In _ _ W') as [_ I].
    exists scope, (nextOp s1). split; [exact I|].
    split; [rewrite forallb_forall in Hl; now apply Hl|].
    destruct (createInBoundsCond_effects _ _ _ _ C)
      as [[[_ [_ [Sc1 _]]] _] _].
    destruct K as [[Abs _]|[t [_ [[Rd [ifop [s3 [B F]]]]|
                                  [_ [_ [_ [res [s3 [s4 [L [B ->]]]]]]]]]]]];
      [discriminate | |].
    + destruct (readBuilder_inv _ _ _ _ _ _ _ _ _ B)
        as [[[_ [_ [Sc3 _]]] _] _].
      apply finishRead_inv in F. destruct F as [_ [_ [_ [_ [Sc4 _]]]]].
      cbn [allocated scopeEntry] in Sc3. congruence.
    + assert (G3 : grows (allocated x scope s1) s3)
        by (eapply builds_getLocationToWriteFullVec; eauto).
      assert (G4 : grows
                     (emit [TransferOp (nextOp s3)
                              (inBoundsClone x t res (nextOp s3))] s3) s4).
      { destruct (strategyIs st VectorTransfer);
          [eapply builds_createFullPartialVectorTransferWrite
          |eapply builds_createFullPartialLinalgCopyWrite]; eauto. }
      destruct G3 as [[_ [_ [Sc3 _]]] _]. destruct G4 as [[_ [_ [Sc4 _]]] _].
      cbn [allocated emit withErased scopeEntry] in *. congruence.
Qed.

(** ** The common type generalises both types *)



(** ** The conditionals are well formed *)

Lemma yields_sourceViewRegion : forall x t n,
  yields (sourceViewRegion x t n) (S (length (indices x))).
Proof.
  intros x t n. unfold sourceViewRegion, yields.
  destruct (MemRefType_eq_dec t (getShapedType x)).
  - exists [], n, (source x :: indices x). split; reflexivity.
  - exists [CastOp n t (source x)], (S n), (OpResult n 0 :: indices x).
    split; reflexivity.
Qed.

Lemma yields_app : forall pre region n, yields region n -> yields (pre ++ region) n.
Proof.
  intros pre region n [p [id [vs [-> L]]]].
  exists (pre ++ p), id, vs. split; [now rewrite app_assoc | exact L].
Qed.

Lemma yields_readConditional : forall st x cond alloc t z,
  getTransferRank x = length (indices x) ->
  wellFormedIf (readConditional st x cond alloc t z).
Proof.
  intros st x cond alloc t z R. unfold readConditional, wellFormedIf.
  split; [apply yields_sourceViewRegion|].
  destruct (strategyIs st VectorTransfer).
  - unfold reissueReadRegion.
    eexists [_; _; _; _], _, _. split; [reflexivity|].
    cbn [length]. now rewrite repeat_length, R.
  - unfold bulkReadRegion.
    apply (yields_app [_]), yields_app.
    eexists [_; _], _, _. split; [reflexivity|].
    cbn [length]. now rewrite repeat_length, R.
Qed.

Lemma wellFormedIf_arithmetic : forall ops op,
  forallb isIndexArithmetic ops = true -> In op ops -> wellFormedIf op.
Proof.
  intros ops op H I. rewrite forallb_forall in H. specialize (H op I).
  destruct op; try discriminate H; exact Logic.I.
Qed.

Lemma success_transfer_rank : forall st ifOp s s',
  (forall a b, areCastCompatible a b = true -> getRank a = getRank b) ->
  splits st = true -> verified (root s) = true ->
  splitFullAndPartialTransfer (root s) (withStrategy st) ifOp s
  = Done (success, s') ->
  getTransferRank (root s) = length (indices (root s)).
Proof.
  intros st ifOp s s' Hc Sp Hv H.
  destruct (split_inversion _ _ _ _ _ Sp H)
    as [_ [[Abs _]|[_ [cond [s1 [scope [_ [_ [_ K]]]]]]]]]; [discriminate|].
  cbv zeta in K.
  assert (T : exists t,
             getCastCompatibleMemRefType (getShapedType (root s))
               (allocaType (root s)) = Some t).
  { destruct K as [[Abs _]|[t [CT _]]]; [discriminate | eauto]. }
  destruct T as [t CT].
  destruct (getCastCompatibleMemRefType_rank _ _ _ Hc CT) as [E _].
  assert (Ra : getRank (allocaType (root s))
               = length (vectorShape (getVectorType (root s))))
    by reflexivity.
  unfold verified in Hv. repeat rewrite andb_true_iff in Hv.
  destruct Hv as [[[[Hi Hvs] _] _] _]. apply Nat.eqb_eq in Hi, Hvs.
  lia.
Qed.

(** X10: every conditional a successful split creates is well formed (for
    a verified transfer; cast-compatible types have equal ranks). The
    two-armed conditional has one result for the region and one per index;
    its then-region ends in a yield of the region with the original indices
    and its else-region in a yield of the buffer with as many zeros, so both
    regions yield exactly as many values as the conditional has results,
    although the one counts the indices and the other the vector dimensions.
    The conditional of the slow-path cleanup of a write has no result, no
    else-region, and a region that ends in an empty yield. *)
Theorem conditionals_well_formed : forall st ifOp s s' ops,
  (forall a b, areCastCompatible a b = true -> getRank a = getRank b) ->
  splits st = true -> verified (root s) = true ->
  splitFullAndPartialTransfer (root s) (withStrategy st) ifOp s
  = Done (success, s') ->
  block s' = block s ++ ops ->
  forall op, In op ops -> wellFormedIf op.
Proof.
  intros st ifOp s s' ops Hc Sp Hv H B op I.
  assert (R := success_transfer_rank _ _ _ _ Hc Sp Hv H).
  destruct (isaRead (root s)) eqn:Rd.
  - destruct (read_split_block _ _ _ _ Sp Rd H)
      as [cond [s1 [t [C [B' _]]]]].
    destruct (createInBoundsCond_ops _ _ _ _ C) as [cops [Bc Ar]].
    rewrite Bc, <- app_assoc in B'. rewrite B' in B.
    apply app_inv_head in B. subst ops.
    apply in_app_or in I. destruct I as [I|[<-|[<-|[]]]].
    + eapply wellFormedIf_arithmetic; eauto.
    + exact Logic.I.
    + now apply yields_readConditional.
  - destruct (write_split_block _ _ _ _ Sp Rd H)
      as [cond [s1 [t [C [_ B']]]]].
    destruct (createInBoundsCond_ops _ _ _ _ C) as [cops [Bc Ar]].
    rewrite Bc, <- app_assoc in B'. rewrite B' in B.
    apply app_inv_head in B. subst ops.
    apply in_app_or in I. destruct I as [I|I];
      [eapply wellFormedIf_arithmetic; eauto|].
    unfold writeSplitOps in I.
    destruct I as [<-|[<-|[<-|[<-|[<-|[<-|[]]]]]]]; try exact Logic.I.
    + split; [apply yields_sourceViewRegion|].
      unfold allocViewRegion. eexists [_], _, _. split; [reflexivity|].
      cbn [length]. now rewrite repeat_length, R.
    + split; [|reflexivity]. unfold cleanupRegion.
      destruct (strategyIs st VectorTransfer).
      * unfold reissueRegion. eexists [_; _; _], _, _. split; reflexivity.
      * apply yields_app. eexists [_], _, _. split; reflexivity.
Qed.

(** ** Running the fast path *)

Lemma execOp_if : forall id cond n th el m,
  execOp (IfOp id cond n th el) m
  = match boolOf m cond with
    | Some b =>
        match (if b then execOps th (setYielded [] m)
               else match el with
                    | Some r => execOps r (setYielded [] m)
                    | None => Some (setYielded [] m)
                    end) with
        | Some m' =>
            if (length (yielded m') =? n)%nat
            then Some (bindResults id 0 (yielded m') m')
            else None
        | None => None
        end
    | None => None
    end.
Proof.
  intros id cond n th el m. cbn [execOp].
  assert (K : forall ops m0,
    (fix run (ops : list Op) (m : Machine) : option Machine :=
       match ops with
       | [] => Some m
       | o :: ops' =>
           match execOp o m with
           | Some m' => run ops' m'
           | None => None
           end
       end) ops m0 = execOps ops m0).
  { induction ops as [|o ops IH]; intros m0; [reflexivity|].
    cbn [execOps]. destruct (execOp o m0); [apply IH | reflexivity]. }
  destruct (boolOf m cond) as [[|]|]; [| |reflexivity].
  - now rewrite K.
  - destruct el as [r|]; [now rewrite K | reflexivity].
Qed.

Lemma bindResults_frame : forall rs id k m,
  args (bindResults id k rs m) = args m /\
  memory (bindResults id k rs m) = memory m /\
  (forall id' k', id' <> id ->
     results (bindResults id k rs m) id' k' = results m id' k').
Proof.
  induction rs as [|r rs IH]; intros id k m; [repeat split; reflexivity|].
  cbn [bindResults]. destruct (IH id (S k) (bindResult id k r m)) as [A [M R]].
  rewrite A, M. repeat split; try reflexivity.
  intros id' k' Ne. rewrite R by exact Ne. cbn [bindResult results].
  replace (id' =? id)%nat with false by (symmetry; now apply Nat.eqb_neq).
  reflexivity.
Qed.

Lemma bindResults_below : forall rs id k k' m,
  (k < k')%nat ->
  results (bindResults id k' rs m) id k = results m id k.
Proof.
  induction rs as [|r rs IH]; intros id k k' m L; [reflexivity|].
  cbn [bindResults]. rewrite IH by lia. cbn [bindResult results].
  replace (k =? k')%nat with false by (symmetry; apply Nat.eqb_neq; lia).
  now rewrite andb_false_r.
Qed.

Lemma bindResults_result : forall rs id k m j,
  (j < length rs)%nat ->
  results (bindResults id k rs m) id (k + j) = nth_error rs j.
Proof.
  induction rs as [|r rs IH]; intros id k m j H; [simpl in H; lia|].
  cbn [bindResults]. destruct j as [|j].
  - rewrite Nat.add_0_r. cbn [nth_error].
    rewrite bindResults_below by lia.
    cbn [bindResult results]. now rewrite !Nat.eqb_refl.
  - replace (k + S j)%nat with (S k + j)%nat by lia.
    cbn [nth_error]. apply IH. simpl in H. lia.
Qed.

Lemma mapOpt_lookupValue_indices : forall m vs idxs,
  mapOpt (indexOf m) vs = Some idxs ->
  mapOpt (lookupValue m) vs = Some (map RIndex idxs).
Proof.
  intros m vs; induction vs as [|v vs IH]; intros idxs H.
  - inversion H. reflexivity.
  - cbn [mapOpt] in *.
    destruct (indexOf m v) as [a|] eqn:Ea; [|discriminate].
    destruct (mapOpt (indexOf m) vs) as [l|]; [|discriminate].
    inversion H; subst. rewrite (indexOf_inv _ _ _ Ea), (IH l eq_refl).
    reflexivity.
Qed.

Lemma mapOpt_length : forall A B (f : A -> option B) l l',
  mapOpt f l = Some l' -> length l' = length l.
Proof.
  intros A B f l; induction l as [|a l IH]; intros l' H.
  - inversion H. reflexivity.
  - cbn [mapOpt] in H. destruct (f a); [|discriminate].
    destruct (mapOpt f l) as [r|]; [|discriminate].
    inversion H; subst. cbn [length]. now rewrite (IH r eq_refl).
Qed.

(** The then-region hands the region and the indices over unchanged. *)
Lemma exec_sourceViewRegion : forall x t n m w idxs,
  viewOf m (source x) = Some w ->
  mapOpt (indexOf m) (indices x) = Some idxs ->
  isExternal (source x) = true -> forallb isExternal (indices x) = true ->
  exists m',
    execOps (sourceViewRegion x t n) m = Some m' /\
    yielded m' = RMemRef w :: map RIndex idxs /\
    args m' = args m /\ memory m' = memory m /\
    (forall id k, (id < n)%nat -> results m' id k = results m id k).
Proof.
  intros x t n m w idxs Hw Hi Es Ei. unfold sourceViewRegion.
  assert (Lw := viewOf_inv _ _ _ Hw).
  destruct (MemRefType_eq_dec t (getShapedType x)).
  - cbn [execOps execOp mapOpt]. rewrite Lw.
    rewrite (mapOpt_lookupValue_indices _ _ _ Hi).
    eexists. split; [reflexivity|]. repeat split; reflexivity.
  - cbn [execOps execOp]. rewrite Hw. cbn [mapOpt].
    cbn [lookupValue bindResult results]. rewrite !Nat.eqb_refl. cbn [andb].
    assert (Hi' : mapOpt (indexOf (bindResult n 0 (RMemRef w) m)) (indices x)
                  = Some idxs)
      by (rewrite (mapOpt_indexOf_external m); auto).
    rewrite (mapOpt_lookupValue_indices _ _ _ Hi').
    eexists. split; [reflexivity|].
    repeat split; try reflexivity.
    intros id k L. cbn [setYielded results bindResult].
    replace (id =? n)%nat with false by (symmetry; apply Nat.eqb_neq; lia).
    reflexivity.
Qed.

Lemma positions_In : forall vs lane,
  In lane (positions vs) -> Forall2 (fun l v => 0 <= l < v) lane vs.
Proof.
  induction vs as [|d vs IH]; intros lane H.
  - destruct H as [<-|[]]. constructor.
  - cbn [positions] in H. apply in_flat_map in H.
    destruct H as [i [Hi H]]. apply in_map_iff in H.
    destruct H as [lane' [<- H]]. apply in_seq in Hi.
    constructor; [lia | now apply IH].
Qed.

Lemma lanePosition_inBounds : forall lane vs,
  Forall2 (fun l v => 0 <= l < v) lane vs ->
  forall flags sizes idxs,
  length flags = length vs ->
  (forall k, (k < length flags)%nat -> nth k flags true = false ->
             nth k idxs 0 + nth k vs 0 <= nth k sizes 0) ->
  lanePosition flags sizes idxs lane
  = lanePosition (repeat true (length flags)) sizes idxs lane.
Proof.
  induction 1 as [|l v lane vs Hl F IH]; intros flags sizes idxs L H.
  - destruct flags; [reflexivity | discriminate L].
  - destruct flags as [|f flags]; [discriminate L|].
    destruct sizes as [|d sizes]; [reflexivity|].
    destruct idxs as [|i idxs]; [reflexivity|].
    cbn [length repeat lanePosition].
    rewrite (IH flags sizes idxs);
      [| simpl in L; lia
       | intros k Lk Hk; apply (H (S k)); [simpl; lia | exact Hk]].
    destruct (i + l <? 0); [reflexivity|].
    destruct (Z.ltb_spec (i + l) d) as [Lt|Ge]; [reflexivity|].
    destruct f; [reflexivity|].
    specialize (H 0%nat ltac:(simpl; lia) eq_refl). cbn [nth] in H. lia.
Qed.

Lemma nth_error_app_left : forall A (l : list A) b k,
  (k < length l)%nat -> nth_error (l ++ [b]) k = nth_error l k.
Proof. intros A l b k H. now apply nth_error_app1. Qed.

Lemma address_app : forall mem b w pos,
  (buffer w < length mem)%nat ->
  address (mem ++ [b]) w pos = address mem w pos.
Proof.
  intros mem b w pos H. unfold address.
  now rewrite nth_error_app_left.
Qed.

Lemma readCell_app : forall mem b w pos,
  (buffer w < length mem)%nat ->
  readCell (mem ++ [b]) w pos = readCell mem w pos.
Proof.
  intros mem b w pos H. unfold readCell. now rewrite address_app.
Qed.

Lemma replaceAt_app : forall A (l : list A) b k a,
  (k < length l)%nat -> replaceAt (l ++ [b]) k a = replaceAt l k a ++ [b].
Proof.
  induction l as [|c l IH]; intros b k a H; [simpl in H; lia|].
  destruct k as [|k]; [reflexivity|].
  cbn [app replaceAt]. f_equal. apply IH. simpl in H. lia.
Qed.

Lemma writeCell_app : forall mem b w pos z,
  (buffer w < length mem)%nat ->
  writeCell (mem ++ [b]) w pos z
  = option_map (fun mem' => mem' ++ [b]) (writeCell mem w pos z).
Proof.
  intros mem b w pos z H. unfold writeCell. rewrite address_app by exact H.
  destruct (address mem w pos) as [[c k]|]; [|reflexivity].
  destruct (k <? length (cells c))%nat; [|reflexivity].
  cbn [option_map]. now rewrite replaceAt_app.
Qed.

Lemma writeCell_length : forall mem w pos z mem',
  writeCell mem w pos z = Some mem' -> length mem' = length mem.
Proof.
  intros mem w pos z mem' H. unfold writeCell in H.
  destruct (address mem w pos) as [[c k]|]; [|discriminate].
  destruct (k <? length (cells c))%nat; [|discriminate].
  inversion H. apply replaceAt_length.
Qed.

Lemma writeLanes_app : forall ls vec mem b w,
  (buffer w < length mem)%nat ->
  writeLanes (mem ++ [b]) w ls vec
  = option_map (fun mem' => mem' ++ [b]) (writeLanes mem w ls vec).
Proof.
  induction ls as [|[pos|] ls IH]; intros [|z vec] mem b w H;
    try reflexivity; cbn [writeLanes].
  - rewrite writeCell_app by exact H.
    destruct (writeCell mem w pos z) as [mem'|] eqn:E; [|reflexivity].
    cbn [option_map]. apply IH.
    now rewrite (writeCell_length _ _ _ _ _ E).
  - now apply IH.
Qed.

Lemma writeLanes_length : forall ls vec mem w mem',
  writeLanes mem w ls vec = Some mem' -> length mem' = length mem.
Proof.
  induction ls as [|[pos|] ls IH]; intros [|z vec] mem w mem' H;
    try discriminate H; cbn [writeLanes] in H.
  - now inversion H.
  - destruct (writeCell mem w pos z) as [mem1|] eqn:E; [|discriminate].
    rewrite (IH _ _ _ _ H). now apply writeCell_length in E.
  - now apply IH in H.
Qed.

Lemma laneFlags_allTrue : forall y,
  in_bounds y = Some (repeat true (getTransferRank y)) ->
  laneFlags y = repeat true (getTransferRank y).
Proof.
  intros y H. unfold laneFlags.
  assert (K : forall n, (n <= getTransferRank y)%nat ->
            map (isDimInBounds y) (seq (getTransferRank y - n) n)
            = repeat true n).
  { induction n as [|n IH]; intros L; [reflexivity|].
    cbn [seq map repeat]. f_equal.
    - unfold isDimInBounds. rewrite H, nth_repeat_true by lia.
      apply orb_true_r.
    - replace (S (getTransferRank y - S n)) with (getTransferRank y - n)%nat
        by lia.
      apply IH. lia. }
  specialize (K (getTransferRank y) (Nat.le_refl _)).
  now rewrite Nat.sub_diag in K.
Qed.

(** On the fast path the lanes of the transfer marked in bounds are the
    lanes of the original transfer. *)
Lemma lanes_inBounds : forall x y w idxs,
  getVectorType y = getVectorType x ->
  permutation_map y = permutation_map x ->
  in_bounds y = Some (repeat true (getTransferRank y)) ->
  length (vectorShape (getVectorType x)) = getTransferRank x ->
  length (viewSizes w) = getTransferRank x ->
  getLeadingShapedRank x = 0 ->
  forallb (dimInBounds x idxs (viewSizes w)) (participatingDims x) = true ->
  lanes y w idxs = lanes x w idxs.
Proof.
  intros x y w idxs Hv Hp Hb Lv Lw Lead Fast.
  assert (Rk : getTransferRank y = getTransferRank x)
    by (unfold getTransferRank; now rewrite Hp).
  unfold lanes. rewrite Hv, Rk, Lw, Nat.sub_diag. cbn [repeat app].
  rewrite (laneFlags_allTrue y Hb), Rk.
  apply mapOpt_ext. intros lane Hin. apply positions_In in Hin.
  assert (Lf : length (laneFlags x) = getTransferRank x)
    by (unfold laneFlags; now rewrite length_map, length_seq).
  rewrite <- Lf. symmetry.
  apply (lanePosition_inBounds lane _ Hin); [congruence|].
  intros k Lk Hk. rewrite Lf in Lk.
  assert (Fk : isDimInBounds x k = false).
  { unfold laneFlags in Hk.
    rewrite (nth_indep _ true (isDimInBounds x 0)) in Hk
      by (now rewrite length_map, length_seq).
    rewrite (map_nth (isDimInBounds x) (seq 0 (getTransferRank x)) 0%nat) in Hk.
    now rewrite seq_nth in Hk by lia. }
  rewrite forallb_forall in Fast.
  assert (In_ : In (k, getLeadingShapedRank x + Z.of_nat k) (participatingDims x)).
  { unfold participatingDims. apply filter_In. split.
    - unfold zipResultAndIndexing. apply in_map_iff. exists k.
      split; [reflexivity | apply in_seq; lia].
    - cbn [fst]. now rewrite Fk. }
  specialize (Fast _ In_). unfold dimInBounds in Fast. cbn [fst snd] in Fast.
  rewrite Lead, Z.add_0_l in Fast.
  destruct (lookupZ idxs (Z.of_nat k)) as [i|] eqn:Ei;
    [|discriminate].
  destruct (lookupZ (vectorShape (getVectorType x)) (Z.of_nat k)) as [v|] eqn:Ev;
    [|discriminate].
  destruct (lookupZ (viewSizes w) (Z.of_nat k)) as [d|] eqn:Ed;
    [|discriminate].
  apply Z.leb_le in Fast.
  apply (lookupZ_nth _ _ _ _ 0) in Ei, Ev, Ed.
  rewrite Nat2Z.id in Ei, Ev, Ed. lia.
Qed.

Lemma fast_path_prefix : forall x s cond s1 t el m w idxs,
  isMinorIdentity (permutation_map x) = true -> verified x = true ->
  createInBoundsCond x s = Done (Some cond, s1) ->
  staticShape (vectorShape (getVectorType x)) = true ->
  viewOf m (source x) = Some w -> fitsType w (getShapedType x) ->
  mapOpt (indexOf m) (indices x) = Some idxs ->
  forallb (dimInBounds x idxs (viewSizes w)) (participatingDims x) = true ->
  let a := nextOp s1 in
  exists condOps m4,
    block s1 = block s ++ condOps /\
    execOps (AllocaOp a (allocaType x) 32 :: condOps ++
             [ConstantIndexOp (S a) 0;
              IfOp (2 + a) cond (S (length (indices x)))
                (sourceViewRegion x t (3 + a)) el]) m = Some m4 /\
    args m4 = args m /\ memory m4 = memory m ++ [scratchBuffer x] /\
    viewOf m4 (OpResult (2 + a) 0) = Some w /\
    (forall k i, nth_error idxs k = Some i ->
       indexOf m4 (OpResult (2 + a) (S k)) = Some i) /\
    boolOf m4 cond = Some true.
Proof.
  intros x s cond s1 t el m w idxs Hm Hv C St Hw Hfit Hi Fast a.
  assert (Hx := Hv). unfold verified in Hx.
  repeat rewrite andb_true_iff in Hx. destruct Hx as [[_ Es] Ei].
  destruct (foldM_inBoundsCond x (zipResultAndIndexing x) None s Es Ei
              (zipResultAndIndexing_lookups x Hm Hv))
    as [cond' [ops [Run [Id [_ [_ [_ [_ Sem]]]]]]]]; [discriminate|].
  assert (E : Done (Some cond, s1) = Done (cond', emit ops s)).
  { rewrite <- C. unfold createInBoundsCond, assert_. rewrite Hm.
    unfold bind. exact Run. }
  inversion E; subst cond' s1; clear E.
  destruct (Id cond eq_refl) as [cid [-> Lc]].
  exists ops. unfold a in *. clear a. cbn [emit block nextOp] in *.
  set (n0 := (length ops + nextOp s)%nat) in *.
  set (m1 := bindResult n0 0
               (RMemRef {| buffer := length (memory m);
                           viewOffsets :=
                             repeat 0 (length (getShape (allocaType x)));
                           viewSizes := getShape (allocaType x) |})
               (setMemory (memory m ++ [scratchBuffer x]) m)).
  assert (A1 : args m1 = args m) by reflexivity.
  assert (Hw1 : viewOf m1 (source x) = Some w).
  { unfold viewOf. rewrite (lookupValue_external m m1); auto. }
  assert (Hi1 : mapOpt (indexOf m1) (indices x) = Some idxs)
    by (rewrite (mapOpt_indexOf_external m m1); auto).
  destruct (Sem m1 w idxs true Hw1 Hfit Hi1 eq_refl) as [m2 [E2 [[A2 [M2 R2]] V2]]].
  rewrite forallb_or_filter in V2. fold (participatingDims x) in V2.
  rewrite Fast in V2. cbn [andb condValue] in V2.
  set (m3 := bindResult (S n0) 0 (RIndex 0) m2).
  assert (V3 : boolOf (setYielded [] m3) (OpResult cid 0) = Some true).
  { unfold boolOf in *. cbn [lookupValue setYielded results m3 bindResult] in *.
    replace (cid =? S n0)%nat with false by (symmetry; apply Nat.eqb_neq; lia).
    exact V2. }
  assert (Hw3 : viewOf (setYielded [] m3) (source x) = Some w).
  { unfold viewOf.
    rewrite (lookupValue_external m1 (setYielded [] m3));
      [exact Hw1 | exact Es | cbn [setYielded args m3 bindResult]; congruence]. }
  assert (Hi3 : mapOpt (indexOf (setYielded [] m3)) (indices x) = Some idxs).
  { rewrite (mapOpt_indexOf_external m1 (setYielded [] m3));
      [exact Hi1 | exact Ei | cbn [setYielded args m3 bindResult]; congruence]. }
  destruct (exec_sourceViewRegion x t (3 + n0) _ w idxs Hw3 Hi3 Es Ei)
    as [m' [Et [Y [A' [M' R']]]]].
  exists (bindResults (2 + n0) 0 (yielded m') m').
  split; [reflexivity|].
  destruct (bindResults_frame (yielded m') (2 + n0) 0 m') as [Ab [Mb Rb]].
  split.
  { assert (Ea : execOp (AllocaOp n0 (allocaType x) 32) m = Some m1).
    { cbn [execOp]. unfold allocaType. cbn [MemRefType_get getShape].
      rewrite St. reflexivity. }
    assert (Ec : execOp (ConstantIndexOp (S n0) 0) m2 = Some m3)
      by reflexivity.
    cbn [execOps]. rewrite Ea, execOps_app, E2.
    cbn [execOps]. rewrite Ec, execOp_if.
    assert (V3' : boolOf m3 (OpResult cid 0) = Some true) by exact V3.
    rewrite V3', Et, Y. cbn [length].
    rewrite length_map, (mapOpt_length _ _ _ _ _ Hi), Nat.eqb_refl.
    reflexivity. }
  split; [rewrite Ab, A'; cbn [setYielded args m3 bindResult]; congruence|].
  split; [rewrite Mb, M'; cbn [setYielded memory m3 bindResult];
          rewrite M2; reflexivity|].
  split.
  { unfold viewOf. cbn [lookupValue].
    assert (K : results (bindResults (2 + n0) 0 (yielded m') m') (2 + n0) 0
                = nth_error (yielded m') 0)
      by (apply (bindResults_result _ _ 0 _ 0); rewrite Y; simpl; lia).
    rewrite K, Y. reflexivity. }
  split.
  { intros k i Hk. unfold indexOf. cbn [lookupValue].
    assert (K : results (bindResults (2 + n0) 0 (yielded m') m') (2 + n0) (S k)
                = nth_error (yielded m') (S k)).
    { apply (bindResults_result _ _ 0 _ (S k)).
      rewrite Y. cbn [length]. rewrite length_map.
      assert (k < length idxs)%nat by (apply nth_error_Some; congruence).
      lia. }
    rewrite K, Y. cbn [nth_error]. rewrite nth_error_map, Hk. reflexivity. }
  unfold boolOf in *. cbn [lookupValue] in *.
  rewrite Rb by lia. rewrite R' by lia. exact V3.
Qed.

Lemma mapOpt_results : forall m id idxs start,
  (forall k i, nth_error idxs k = Some i ->
     indexOf m (OpResult id (start + k)) = Some i) ->
  mapOpt (indexOf m) (map (OpResult id) (seq start (length idxs))) = Some idxs.
Proof.
  intros m id idxs; induction idxs as [|i idxs IH]; intros start H;
    [reflexivity|].
  cbn [length seq map mapOpt].
  assert (H0 := H 0%nat i eq_refl). rewrite Nat.add_0_r in H0. rewrite H0.
  rewrite IH; [reflexivity|].
  intros k j Hk. replace (S start + k)%nat with (start + S k)%nat by lia.
  now apply H.
Qed.

Lemma firstn_app_exact : forall A (l : list A) b,
  firstn (length l) (l ++ b) = l.
Proof.
  intros A l b. rewrite firstn_app, Nat.sub_diag, firstn_all. cbn [firstn].
  apply app_nil_r.
Qed.

Lemma split_scopeEntry : forall st ifOp s s' cond s1,
  splits st = true ->
  splitFullAndPartialTransfer (root s) (withStrategy st) ifOp s
  = Done (success, s') ->
  createInBoundsCond (root s) s = Done (Some cond, s1) ->
  succeeded (splitFullAndPartialTransferPrecondition (root s)) = true /\
  hasMask (root s) = false /\
  exists scope,
    scopeEntry s'
    = (parentId scope, AllocaOp (nextOp s1) (allocaType (root s)) 32)
      :: scopeEntry s.
Proof.
  intros st ifOp s s' cond s1 Sp H C.
  destruct (split_inversion _ _ _ _ _ Sp H)
    as [Pre [[Abs _]|[M [cond' [s1' [scope [C' [W [_ K]]]]]]]]];
    [discriminate|].
  rewrite C in C'. inversion C'; subst cond' s1'; clear C'.
  split; [exact Pre|]. split; [exact M|]. exists scope. cbv zeta in K.
  destruct (createInBoundsCond_effects _ _ _ _ C)
    as [[[_ [_ [Sc1 _]]] _] _].
  destruct K as [[Abs _]|[t [_ [[Rd [ifop [s3 [B F]]]]|
                                [_ [_ [_ [res [s3 [s4 [L [B ->]]]]]]]]]]]];
    [discriminate | |].
  - destruct (readBuilder_inv _ _ _ _ _ _ _ _ _ B)
      as [[[_ [_ [Sc3 _]]] _] _].
    apply finishRead_inv in F. destruct F as [_ [_ [_ [_ [Sc4 _]]]]].
    cbn [allocated scopeEntry] in Sc3. congruence.
  - assert (G3 : grows (allocated (root s) scope s1) s3)
      by (eapply builds_getLocationToWriteFullVec; eauto).
    assert (G4 : grows
                   (emit [TransferOp (nextOp s3)
                            (inBoundsClone (root s) t res (nextOp s3))] s3) s4).
    { destruct (strategyIs st VectorTransfer);
        [eapply builds_createFullPartialVectorTransferWrite
        |eapply builds_createFullPartialLinalgCopyWrite]; eauto. }
    destruct G3 as [[_ [_ [Sc3 _]]] _]. destruct G4 as [[_ [_ [Sc4 _]]] _].
    cbn [allocated emit withErased scopeEntry] in *. congruence.
Qed.

(** X11: the fast path of a split read. When at run time every
    participating dimension is in bounds ([index + vector extent <= region
    extent]), the rewritten program - allocation, bounds condition,
    conditional, and the read against the results of the conditional, marked
    in bounds - observes exactly the vector the original read observes and
    leaves the memory as it was; it is undefined exactly when the original
    read is. *)
Theorem read_fast_path_preserved : forall st ifOp s s' m w idxs,
  (forall a b, areCastCompatible a b = true -> getRank a = getRank b) ->
  splits st = true -> isaRead (root s) = true -> verified (root s) = true ->
  isExternal (getPadding (root s)) = true ->
  block s = [] -> scopeEntry s = [] -> erased s = false ->
  splitFullAndPartialTransfer (root s) (withStrategy st) ifOp s
  = Done (success, s') ->
  let x := root s in
  staticShape (vectorShape (getVectorType x)) = true ->
  viewOf m (source x) = Some w -> fitsType w (getShapedType x) ->
  (buffer w < length (memory m))%nat ->
  mapOpt (indexOf m) (indices x) = Some idxs ->
  forallb (dimInBounds x idxs (viewSizes w)) (participatingDims x) = true ->
  execRewritten s' m = execOriginal x m.
Proof.
  intros st ifOp s s' m w idxs Hc Sp Rd Hv Ep Bs Ss Es H x St Hw Hfit Hb Hi Fast.
  destruct (read_split_state _ _ _ _ Sp Rd H)
    as [cond [s1 [scope [t [C [_ [_ [B [Sc [Er [_ Rt]]]]]]]]]]].
  fold x in C, B, Sc, Rt.
  destruct (split_scopeEntry _ _ _ _ _ _ Sp H C) as [Pre [M _]].
  fold x in Pre, M.
  assert (Hm : isMinorIdentity (permutation_map x) = true).
  { apply precondition_minor_identity.
    destruct (splitFullAndPartialTransferPrecondition x);
      [reflexivity | discriminate]. }
  assert (R := success_transfer_rank _ _ _ _ Hc Sp Hv H). fold x in R.
  assert (Hx := Hv). unfold verified in Hx. fold x in Hx.
  repeat rewrite andb_true_iff in Hx.
  destruct Hx as [[[[Li Lv] _] _] _]. apply Nat.eqb_eq in Li, Lv.
  destruct (fast_path_prefix x s cond s1 t
              (Some (if strategyIs st VectorTransfer
                     then reissueReadRegion x t (OpResult (nextOp s1) 0)
                            (OpResult (S (nextOp s1)) 0) (S (S (nextOp s1)))
                            (2 + S (nextOp s1)
                             + length (sourceViewRegion x t (2 + S (nextOp s1))))
                     else bulkReadRegion x t (OpResult (nextOp s1) 0)
                            (OpResult (S (nextOp s1)) 0)
                            (2 + S (nextOp s1)
                             + length (sourceViewRegion x t (2 + S (nextOp s1))))))
              m w idxs Hm Hv C St Hw Hfit Hi Fast)
    as [condOps [m4 [Bc [E4 [A4 [M4 [V4 [I4 B4]]]]]]]].
  rewrite Bs in Bc. cbn [app] in Bc.
  assert (E4' : execOps (map snd (scopeEntry s') ++ block s') m = Some m4).
  { rewrite Sc, Ss, B, Bc. exact E4. }
  cbn [Nat.add] in V4, I4.
  unfold execRewritten, execOriginal.
  rewrite E4', Er, Es, Rt.
  unfold execTransfer.
  assert (Mk : hasMask (rewrittenRead x t (S (S (nextOp s1)))) = hasMask x)
    by reflexivity.
  rewrite Mk, M. cbn [rewrittenRead permutation_map source indices kind
                       getPadding].
  rewrite Hm. cbn [negb orb].
  rewrite V4, Hw, Hi.
  assert (Ix : mapOpt (indexOf m4)
                 (map (OpResult (S (S (nextOp s1))))
                    (seq 1 (getTransferRank x))
                  ++ skipn (getTransferRank x) (indices x)) = Some idxs).
  { rewrite R, skipn_all, app_nil_r.
    rewrite <- (mapOpt_length _ _ _ _ _ Hi).
    apply mapOpt_results. intros k i Hk. now apply I4. }
  rewrite Ix.
  unfold isaRead in Rd. fold x in Rd.
  destruct (kind x); try discriminate Rd.
  assert (Sp4 : scalarOf m4 (getPadding x) = scalarOf m (getPadding x)).
  { unfold scalarOf. now rewrite (lookupValue_external m m4). }
  rewrite Sp4. destruct (scalarOf m (getPadding x)) as [pad|]; [|reflexivity].
  assert (T : transferRead (memory m4) (rewrittenRead x t (S (S (nextOp s1))))
                w idxs pad
              = transferRead (memory m) x w idxs pad).
  { unfold transferRead.
    rewrite (lanes_inBounds x (rewrittenRead x t (S (S (nextOp s1)))) w idxs);
      try reflexivity; try assumption.
    - destruct (lanes x w idxs) as [ls|]; [|reflexivity].
      apply mapOpt_ext. intros [pos|] _; [|reflexivity].
      rewrite M4. now apply readCell_app.
    - destruct Hfit as [Lw _]. unfold getRank in *. lia.
    - unfold getLeadingShapedRank, getRank in *. lia. }
  rewrite T.
  destruct (transferRead (memory m) x w idxs pad) as [vec|]; [|reflexivity].
  rewrite M4, firstn_app_exact. reflexivity.
Qed.

Lemma mapOpt_pointwise : forall A B (f : A -> option B) l idxs,
  length l = length idxs ->
  (forall k u, nth_error l k = Some u ->
     exists i, nth_error idxs k = Some i /\ f u = Some i) ->
  mapOpt f l = Some idxs.
Proof.
  intros A B f l; induction l as [|u l IH]; intros [|i idxs] L H;
    try discriminate L; [reflexivity|].
  cbn [mapOpt]. destruct (H 0%nat u eq_refl) as [i' [E F]].
  cbn [nth_error] in E. inversion E; subst i'. rewrite F.
  rewrite (IH idxs); [reflexivity | simpl in L; lia |].
  intros k v Hk. apply (H (S k) v Hk).
Qed.

Lemma write_split_kind : forall st ifOp s s',
  splits st = true -> isaRead (root s) = false ->
  splitFullAndPartialTransfer (root s) (withStrategy st) ifOp s
  = Done (success, s') ->
  kind (root s) = TransferWrite.
Proof.
  intros st ifOp s s' Sp Rd H.
  destruct (split_inversion _ _ _ _ _ Sp H)
    as [_ [[Abs _]|[_ [cond [s1 [scope [_ [_ [_ K]]]]]]]]]; [discriminate|].
  cbv zeta in K.
  destruct K as [[Abs _]|[t [_ [[Rd' _]|[_ [W _]]]]]];
    [discriminate | congruence |].
  unfold isaWrite in W. destruct (kind (root s)); try discriminate W.
  reflexivity.
Qed.

(** X12: the fast path of a split write. When at run time every
    participating dimension is in bounds, the rewritten program - allocation,
    bounds condition, the conditional that picks the destination, the
    in-bounds clone of the write, and the cleanup conditional, whose guard is
    then false - leaves the memory exactly as the original write does; it
    is undefined exactly when the original write is. *)
Theorem write_fast_path_preserved : forall st ifOp s s' m w idxs vec,
  (forall a b, areCastCompatible a b = true -> getRank a = getRank b) ->
  splits st = true -> isaRead (root s) = false -> verified (root s) = true ->
  isExternal (vector (root s)) = true ->
  block s = [] -> scopeEntry s = [] ->
  splitFullAndPartialTransfer (root s) (withStrategy st) ifOp s
  = Done (success, s') ->
  let x := root s in
  staticShape (vectorShape (getVectorType x)) = true ->
  viewOf m (source x) = Some w -> fitsType w (getShapedType x) ->
  (buffer w < length (memory m))%nat ->
  mapOpt (indexOf m) (indices x) = Some idxs ->
  vectorOf m (vector x) = Some vec ->
  forallb (dimInBounds x idxs (viewSizes w)) (participatingDims x) = true ->
  execRewritten s' m = execOriginal x m.
Proof.
  intros st ifOp s s' m w idxs vec Hc Sp Rd Hv Ev Bs Ss H x St Hw Hfit Hb Hi
    Hvec Fast.
  destruct (write_split_block _ _ _ _ Sp Rd H) as [cond [s1 [t [C [Er B]]]]].
  fold x in C, B.
  destruct (split_scopeEntry _ _ _ _ _ _ Sp H C) as [Pre [M [scope Sc]]].
  fold x in Pre, M, Sc.
  assert (K := write_split_kind _ _ _ _ Sp Rd H). fold x in K.
  assert (Hm : isMinorIdentity (permutation_map x) = true).
  { apply precondition_minor_identity.
    destruct (splitFullAndPartialTransferPrecondition x);
      [reflexivity | discriminate]. }
  assert (R := success_transfer_rank _ _ _ _ Hc Sp Hv H). fold x in R.
  assert (Hx := Hv). unfold verified in Hx. fold x in Hx.
  repeat rewrite andb_true_iff in Hx.
  destruct Hx as [[[[Li Lv] _] _] _]. apply Nat.eqb_eq in Li, Lv.
  set (a := nextOp s1) in *.
  set (th1 := sourceViewRegion x t (3 + a)).
  set (el1 := allocViewRegion x t (OpResult a 0) (OpResult (S a) 0)
                (3 + a + length th1)).
  set (ifop1 := IfOp (2 + a) cond (S (length (indices x))) th1 (Some el1)).
  set (c1 := (5 + a + length th1)%nat).
  set (clone := inBoundsClone x t (getResults_ ifop1) c1).
  destruct (fast_path_prefix x s cond s1 t (Some el1) m w idxs
              Hm Hv C St Hw Hfit Hi Fast)
    as [condOps [m4 [Bc [E4 [A4 [M4 [V4 [I4 B4]]]]]]]].
  fold a in E4, V4, I4. fold th1 in E4. fold ifop1 in E4.
  rewrite Bs in Bc. cbn [app] in Bc.
  (* the operands of the clone *)
  assert (Ns : ~ In (source x) (indices x)).
  { intros I. apply In_nth_error in I. destruct I as [k I].
    destruct (mapOpt_nth_error _ _ _ _ _ _ _ Hi I) as [i [_ F]].
    apply indexOf_inv in F. apply viewOf_inv in Hw. congruence. }
  assert (Nv : vector x <> source x).
  { intros E. unfold vectorOf, viewOf in *. rewrite E in Hvec.
    destruct (lookupValue m (source x)) as [[]|]; discriminate. }
  assert (Ni : ~ In (vector x) (indices x)).
  { intros I. apply In_nth_error in I. destruct I as [k I].
    destruct (mapOpt_nth_error _ _ _ _ _ _ _ Hi I) as [i [_ F]].
    apply indexOf_inv in F. unfold vectorOf in Hvec. rewrite F in Hvec.
    discriminate. }
  assert (Kr : kind x <> TransferRead) by (rewrite K; discriminate).
  destruct (inBoundsClone_operands x t (2 + a) cond th1 (Some el1) c1 Kr)
    as [Cs [Ci [_ Cv]]].
  fold ifop1 in Cs, Ci, Cv. fold clone in Cs, Ci, Cv.
  specialize (Cs Ns). specialize (Cv Nv Ni).
  assert (Ix : mapOpt (indexOf m4) (indices clone) = Some idxs).
  { apply mapOpt_pointwise.
    - unfold clone, inBoundsClone.
      cbn [setInBounds setShapedType cloneXfer indices].
      rewrite length_map. symmetry. exact (mapOpt_length _ _ _ _ _ Hi).
    - intros k u Hk.
      assert (Lk : (k < length (indices x))%nat).
      { assert (L : (k < length (indices clone))%nat)
          by (apply nth_error_Some; congruence).
        unfold clone, inBoundsClone in L.
        cbn [setInBounds setShapedType cloneXfer indices] in L.
        now rewrite length_map in L. }
      destruct (nth_error (indices x) k) as [v|] eqn:Ek;
        [|apply nth_error_None in Ek; lia].
      destruct (Ci k v Ek) as [j [Ej Ec]].
      rewrite Ec in Hk. inversion Hk; subst u.
      destruct (mapOpt_nth_error _ _ _ _ _ _ _ Hi Ek) as [i [Ei Fi]].
      destruct (mapOpt_nth_error _ _ _ _ _ _ _ Hi Ej) as [i' [Ei' Fi']].
      exists i. split; [exact Ei|].
      assert (i' = i) by congruence. subst i'. now apply I4. }
  assert (Vc : vectorOf m4 (vector clone) = Some vec).
  { rewrite Cv. unfold vectorOf in *.
    now rewrite (lookupValue_external m m4). }
  assert (Lanes : lanes clone w idxs = lanes x w idxs).
  { apply lanes_inBounds; try reflexivity; try assumption.
    - destruct Hfit as [Lw _]. unfold getRank in *. lia.
    - unfold getLeadingShapedRank, getRank in *. lia. }
  assert (Mk : hasMask clone = false).
  { unfold hasMask in *. unfold clone, inBoundsClone.
    cbn [setInBounds setShapedType cloneXfer getMask].
    destruct (getMask x); [discriminate M | reflexivity]. }
  assert (E4' : execOps (map snd (scopeEntry s') ++ block s') m
                = execOps [TransferOp c1 clone;
                           ConstantIntOp (1 + c1) 1 1;
                           XOrIOp (2 + c1) cond (OpResult (1 + c1) 0);
                           IfOp (3 + c1) (OpResult (2 + c1) 0) 0
                             (cleanupRegion st x (OpResult a 0)
                                (fst (cleanupIds x t (S a)))
                                (snd (cleanupIds x t (S a)))) None] m4).
  { rewrite Sc, Ss, B, Bc. cbn [map snd app].
    change (writeSplitOps x cond (OpResult a 0) t (S a) ?cl)
      with ([ConstantIndexOp (S a) 0; ifop1] ++
            [TransferOp c1 clone;
             ConstantIntOp (1 + c1) 1 1;
             XOrIOp (2 + c1) cond (OpResult (1 + c1) 0);
             IfOp (3 + c1) (OpResult (2 + c1) 0) 0 cl None]).
    rewrite app_assoc.
    change (AllocaOp a (allocaType x) 32 :: (condOps ++ ?l) ++ ?r)
      with ((AllocaOp a (allocaType x) 32 :: condOps ++ l) ++ r).
    rewrite execOps_app, E4. reflexivity. }
  unfold execRewritten, execOriginal. rewrite E4', Er.
  (* the original write *)
  unfold execTransfer. rewrite M, Hm. cbn [negb orb].
  rewrite Hw, Hi, K, Hvec.
  (* the clone *)
  assert (Et : execTransfer clone m4
               = match transferWrite (memory m) x w idxs vec with
                 | Some mem0 =>
                     Some (setMemory (mem0 ++ [scratchBuffer x]) m4, None)
                 | None => None
                 end).
  { unfold execTransfer. rewrite Mk.
    assert (Pm : permutation_map clone = permutation_map x) by reflexivity.
    assert (Kc : kind clone = kind x) by reflexivity.
    rewrite Pm, Hm. cbn [negb orb].
    rewrite Cs, V4, Ix, Kc, K, Vc.
    unfold transferWrite. rewrite Lanes.
    destruct (lanes x w idxs) as [ls|]; [|reflexivity].
    rewrite M4, writeLanes_app by exact Hb.
    destruct (writeLanes (memory m) w ls vec); reflexivity. }
  cbn [execOps]. cbn [execOp]. rewrite Et.
  unfold transferWrite.
  destruct (lanes x w idxs) as [ls|]; [|reflexivity].
  destruct (writeLanes (memory m) w ls vec) as [mem0|] eqn:Wl; [|reflexivity].
  cbn [Nat.eqb].
  set (m5 := setMemory (mem0 ++ [scratchBuffer x]) m4).
  set (m6 := bindResult (1 + c1) 0 (RBool (negb (1 =? 0))) m5).
  assert (B6 : boolOf m6 cond = Some true).
  { unfold boolOf in *. destruct cond as [n|c|id k];
      cbn [lookupValue m6 m5 bindResult setMemory results args] in *;
      try exact B4.
    destruct ((id =? 1 + c1) && (k =? 0))%nat; [reflexivity | exact B4]. }
  assert (T6 : boolOf m6 (OpResult (1 + c1) 0) = Some true).
  { unfold boolOf. cbn [lookupValue m6 bindResult results].
    now rewrite !Nat.eqb_refl. }
  rewrite B6, T6. cbn [xorb].
  set (m7 := bindResult (2 + c1) 0 (RBool false) m6).
  assert (F7 : boolOf m7 (OpResult (2 + c1) 0) = Some false).
  { unfold boolOf. cbn [lookupValue m7 bindResult results].
    now rewrite !Nat.eqb_refl. }
  rewrite F7. cbn [setYielded yielded length Nat.eqb bindResults memory
                   m7 m6 m5 bindResult setMemory].
  rewrite <- (writeLanes_length _ _ _ _ _ Wl), firstn_app_exact.
  reflexivity.
Qed.

(** ** The strategies differ on the slow path only *)

Lemma write_split_state : forall st ifOp s s',
  splits st = true -> isaRead (root s) = false ->
  splitFullAndPartialTransfer (root s) (withStrategy st) ifOp s
  = Done (success, s') ->
  let x := root s in
  exists cond s1 scope t,
    createInBoundsCond x s = Done (Some cond, s1) /\
    walkAllocationScope None (chainOf x) = Some scope /\
    getCastCompatibleMemRefType (getShapedType x) (allocaType x) = Some t /\
    block s'
    = block s1 ++
      writeSplitOps x cond (OpResult (nextOp s1) 0) t (S (nextOp s1))
        (cleanupRegion st x (OpResult (nextOp s1) 0)
           (fst (cleanupIds x t (S (nextOp s1))))
           (snd (cleanupIds x t (S (nextOp s1))))) /\
    scopeEntry s' = (parentId scope, AllocaOp (nextOp s1) (allocaType x) 32)
                    :: scopeEntry s /\
    erased s' = true /\ root s' = x.
Proof.
  intros st ifOp s s' Sp Rd H x.
  destruct (split_inversion _ _ _ _ _ Sp H)
    as [_ [[Abs _]|[_ [cond [s1 [scope [C [W [_ K]]]]]]]]]; [discriminate|].
  fold x in C, W, K, Rd. cbv zeta in K.
  destruct K as [[Abs _]|[t [CT [[Rd' _]|[_ [_ [_ [res [s3 [s4 [L [B ->]]]]]]]]]]]];
    [discriminate | congruence |].
  exists cond, s1, scope, t.
  split; [exact C|]. split; [exact W|]. split; [exact CT|].
  destruct (createInBoundsCond_effects _ _ _ _ C)
    as [[[R1 [_ [Sc1 _]]] _] _].
  assert (G3 : grows (allocated x scope s1) s3)
    by (eapply builds_getLocationToWriteFullVec; eauto).
  assert (G4 : grows
                 (emit [TransferOp (nextOp s3)
                          (inBoundsClone x t res (nextOp s3))] s3) s4).
  { destruct (strategyIs st VectorTransfer);
      [eapply builds_createFullPartialVectorTransferWrite
      |eapply builds_createFullPartialLinalgCopyWrite]; eauto. }
  destruct G3 as [[R3 [_ [Sc3 _]]] _]. destruct G4 as [[R4 [_ [Sc4 _]]] _].
  apply getLocationToWriteFullVec_run in L. cbv zeta in L.
  destruct L as [-> [B3 N3]]. cbn [allocated nextOp block] in B3, N3.
  cbn [allocated emit root scopeEntry] in R3, Sc3, R4, Sc4.
  split.
  { cbn [withErased block].
    unfold writeSplitOps, cleanupRegion, reissueRegion, cleanupIds.
    cbn [fst snd].
    destruct (strategyIs st VectorTransfer).
    - apply createFullPartialVectorTransferWrite_inv in B. cbv zeta in B.
      rewrite B. cbn [emit block nextOp length Nat.add].
      rewrite B3, N3, <- !app_assoc. reflexivity.
    - apply createFullPartialLinalgCopyWrite_inv in B. cbv zeta in B.
      rewrite B. cbn [emit block nextOp length Nat.add].
      rewrite B3, N3, <- !app_assoc. reflexivity. }
  cbn [withErased scopeEntry erased root].
  split; [congruence|]. split; [reflexivity|]. unfold x. congruence.
Qed.

Lemma removelast_app2 : forall A (l : list A) a,
  removelast (l ++ [a]) = l.
Proof.
  intros A l a. rewrite removelast_app by discriminate.
  cbn [removelast]. apply app_nil_r.
Qed.

(** X13: the two splitting strategies differ on the slow path only. When
    both succeed on the same transfer from the same state, they leave the
    same transfer (kept and rewritten for a read, erased for a write), the
    same allocation at the scope entry, and the same operations in front of
    the transfer up to the last one; in both that last operation is a
    conditional with the same identity, guard and results, and for a read
    the same then-region: only the else-region of a read's conditional and
    the body of a write's cleanup conditional depend on the strategy. *)
Theorem strategies_differ_on_slow_path_only : forall ifOp s s1' s2',
  splitFullAndPartialTransfer (root s) (withStrategy VectorTransfer) ifOp s
  = Done (success, s1') ->
  splitFullAndPartialTransfer (root s) (withStrategy LinalgCopy) ifOp s
  = Done (success, s2') ->
  root s1' = root s2' /\ erased s1' = erased s2' /\
  scopeEntry s1' = scopeEntry s2' /\
  removelast (block s1') = removelast (block s2') /\
  exists id cond n th1 th2 el1 el2 d,
    last (block s1') d = IfOp id cond n th1 el1 /\
    last (block s2') d = IfOp id cond n th2 el2 /\
    (isaRead (root s) = true -> th1 = th2) /\
    (isaRead (root s) = false -> el1 = None /\ el2 = None).
Proof.
  intros ifOp s s1' s2' H1 H2.
  destruct (isaRead (root s)) eqn:Rd.
  - destruct (read_split_state _ _ _ _ (eq_refl : splits VectorTransfer = true)
                Rd H1)
      as [c1 [t1 [sc1 [ty1 [C1 [W1 [CT1 [B1 [S1 [E1 [_ R1]]]]]]]]]]].
    destruct (read_split_state _ _ _ _ (eq_refl : splits LinalgCopy = true)
                Rd H2)
      as [c2 [t2 [sc2 [ty2 [C2 [W2 [CT2 [B2 [S2 [E2 [_ R2]]]]]]]]]]].
    rewrite C1 in C2. inversion C2; subst c2 t2; clear C2.
    rewrite W1 in W2. inversion W2; subst sc2; clear W2.
    rewrite CT1 in CT2. inversion CT2; subst ty2; clear CT2.
    split; [congruence|]. split; [congruence|]. split; [congruence|].
    rewrite B1, B2.
    change (block t1 ++ [?a; ?b]) with (block t1 ++ [a] ++ [b]).
    rewrite !app_assoc, !removelast_app2.
    split; [reflexivity|]. unfold readConditional.
    do 7 eexists. exists (ConstantIndexOp 0 0).
    rewrite !last_last.
    split; [reflexivity|]. split; [reflexivity|].
    split; [reflexivity | discriminate].
  - destruct (write_split_state _ _ _ _ (eq_refl : splits VectorTransfer = true)
                Rd H1)
      as [c1 [t1 [sc1 [ty1 [C1 [W1 [CT1 [B1 [S1 [E1 R1]]]]]]]]]].
    destruct (write_split_state _ _ _ _ (eq_refl : splits LinalgCopy = true)
                Rd H2)
      as [c2 [t2 [sc2 [ty2 [C2 [W2 [CT2 [B2 [S2 [E2 R2]]]]]]]]]].
    rewrite C1 in C2. inversion C2; subst c2 t2; clear C2.
    rewrite W1 in W2. inversion W2; subst sc2; clear W2.
    rewrite CT1 in CT2. inversion CT2; subst ty2; clear CT2.
    split; [congruence|]. split; [congruence|]. split; [congruence|].
    rewrite B1, B2. unfold writeSplitOps.
    change (block t1 ++ [?a; ?b; ?c; ?d; ?e; ?f])
      with (block t1 ++ [a; b; c; d; e] ++ [f]).
    rewrite !app_assoc, !removelast_app2.
    split; [reflexivity|].
    do 7 eexists. exists (ConstantIndexOp 0 0).
    rewrite !last_last.
    split; [reflexivity|]. split; [reflexivity|].
    split; [discriminate | intros _; split; reflexivity].
Qed.

(** ** Every use is defined before it *)
































(** ** The scratch buffer holds one vector *)

Lemma seq_offset : forall a n,
  seq a n = map (Nat.add a) (seq 0 n).
Proof.
  intros a n. revert a. induction n as [|n IH]; intros a; [reflexivity|].
  cbn [seq map]. rewrite Nat.add_0_r. f_equal.
  rewrite (IH (S a)), <- seq_shift, map_map.
  apply map_ext. intros j. lia.
Qed.

Lemma linearize_block : forall d vs i ps,
  0 <= Z.of_nat i < d ->
  map (linearize (d :: vs)) (map (cons (Z.of_nat i)) ps)
  = map (fun o => match o with
                  | Some r => Some (Z.of_nat i * fold_right Z.mul 1 vs + r)
                  | None => None
                  end) (map (linearize vs) ps).
Proof.
  intros d vs i ps H. rewrite !map_map. apply map_ext. intros p.
  cbn [linearize].
  replace (0 <=? Z.of_nat i) with true by (symmetry; apply Z.leb_le; lia).
  replace (Z.of_nat i <? d) with true by (symmetry; apply Z.ltb_lt; lia).
  reflexivity.
Qed.

Lemma linearize_positions : forall vs,
  staticShape vs = true ->
  map (linearize vs) (positions vs)
  = map (fun j => Some (Z.of_nat j)) (seq 0 (length (positions vs))) /\
  Z.of_nat (length (positions vs)) = fold_right Z.mul 1 vs.
Proof.
  induction vs as [|d vs IH]; intros St; [split; reflexivity|].
  unfold staticShape in St. cbn [forallb] in St.
  apply andb_true_iff in St. destruct St as [Hd St].
  apply Z.leb_le in Hd. destruct (IH St) as [IH1 IH2]. clear IH.
  set (N := length (positions vs)) in *.
  set (P := fold_right Z.mul 1 vs) in *.
  assert (K : forall D, (D <= Z.to_nat d)%nat ->
    map (linearize (d :: vs))
      (flat_map (fun i => map (cons (Z.of_nat i)) (positions vs)) (seq 0 D))
    = map (fun j => Some (Z.of_nat j)) (seq 0 (D * N)) /\
    length (flat_map (fun i => map (cons (Z.of_nat i)) (positions vs))
              (seq 0 D)) = (D * N)%nat).
  { induction D as [|D IHD]; intros L; [split; reflexivity|].
    destruct (IHD ltac:(lia)) as [M1 M2].
    rewrite seq_S, flat_map_app, map_app, length_app. cbn [flat_map Nat.add].
    rewrite app_nil_r, M1, M2, length_map. fold N.
    split; [|lia].
    replace (S D * N)%nat with (D * N + N)%nat by lia.
    rewrite seq_app, map_app. f_equal. cbn [Nat.add].
    rewrite linearize_block by lia. rewrite IH1, map_map.
    rewrite (seq_offset (D * N) N), map_map.
    apply map_ext. intros j. f_equal. fold P. lia. }
  destruct (K (Z.to_nat d) (Nat.le_refl _)) as [K1 K2].
  cbn [positions]. rewrite K2. split; [exact K1|].
  cbn [fold_right]. fold P. lia.
Qed.

Lemma inWindow_positions : forall vs pos,
  Forall2 (fun l v => 0 <= l < v) pos vs -> inWindow vs pos = true.
Proof.
  intros vs pos H. induction H as [|l v pos vs Hl H IH]; [reflexivity|].
  cbn [inWindow]. rewrite IH, andb_true_r.
  apply andb_true_iff. split; [apply Z.leb_le | apply Z.ltb_lt]; lia.
Qed.

Lemma addPos_zero : forall (pos : list Z),
  addPos (repeat 0 (length pos)) pos = Some pos.
Proof.
  induction pos as [|l pos IH]; [reflexivity|].
  cbn [length repeat addPos]. now rewrite IH.
Qed.

Lemma nth_error_last : forall A (l : list A) b,
  nth_error (l ++ [b]) (length l) = Some b.
Proof.
  intros A l b. rewrite nth_error_app2 by lia. now rewrite Nat.sub_diag.
Qed.

Lemma replaceAt_last : forall A (l : list A) b b',
  replaceAt (l ++ [b]) (length l) b' = l ++ [b'].
Proof.
  induction l as [|a l IH]; intros b b'; [reflexivity|].
  cbn [app length replaceAt]. now rewrite IH.
Qed.

Lemma address_scratch : forall mem vs c pos j,
  Forall2 (fun l v => 0 <= l < v) pos vs ->
  linearize vs pos = Some (Z.of_nat j) ->
  address (mem ++ [{| bufShape := vs; cells := c |}])
    {| buffer := length mem; viewOffsets := repeat 0 (length vs);
       viewSizes := vs |} pos
  = Some ({| bufShape := vs; cells := c |}, j).
Proof.
  intros mem vs c pos j F L. unfold address.
  cbn [viewSizes buffer viewOffsets].
  rewrite (inWindow_positions _ _ F), nth_error_last.
  rewrite <- (Forall2_length F), addPos_zero. cbn [bufShape].
  now rewrite L, Nat2Z.id.
Qed.

Lemma nth_error_skipn_cons : forall A (l : list A) n a,
  nth_error l n = Some a -> skipn n l = a :: skipn (S n) l.
Proof.
  induction l as [|b l IH]; intros [|n] a H; try discriminate.
  - inversion H. reflexivity.
  - cbn [nth_error] in H. rewrite skipn_cons. now apply IH.
Qed.

Lemma writeCells_scratch : forall mem vs ps vec start c,
  Forall (fun pos => Forall2 (fun l v => 0 <= l < v) pos vs) ps ->
  map (linearize vs) ps
  = map (fun j => Some (Z.of_nat j)) (seq start (length ps)) ->
  length vec = length ps -> (start + length ps <= length c)%nat ->
  writeCells (mem ++ [{| bufShape := vs; cells := c |}])
    {| buffer := length mem; viewOffsets := repeat 0 (length vs);
       viewSizes := vs |} (combine ps vec)
  = Some (mem ++ [{| bufShape := vs;
                     cells := firstn start c ++ vec ++
                              skipn (start + length ps) c |}]).
Proof.
  intros mem vs ps; induction ps as [|pos ps IH];
    intros [|z vec] start c F M Lv Lc; try discriminate Lv.
  - cbn [combine writeCells length app]. rewrite Nat.add_0_r, firstn_skipn.
    reflexivity.
  - inversion F as [|? ? Fp F']; subst.
    cbn [length seq map] in M. injection M as Mp M.
    cbn [combine writeCells]. unfold writeCell.
    rewrite (address_scratch mem vs c pos start Fp Mp).
    cbn [cells bufShape buffer].
    replace (start <? length c)%nat with true
      by (symmetry; apply Nat.ltb_lt; simpl in Lc; lia).
    rewrite replaceAt_last.
    rewrite (IH vec (S start) (replaceAt c start z) F' M)
      by (rewrite ?replaceAt_length; simpl in *; lia).
    do 3 f_equal. cbn [length] in *.
    rewrite replaceAt_split by lia.
    rewrite firstn_app, firstn_length_le by lia.
    replace (S start - start)%nat with 1%nat by lia.
    rewrite firstn_all2 by (rewrite firstn_length_le; lia).
    cbn [firstn]. rewrite <- app_assoc. cbn [app]. do 3 f_equal.
    rewrite skipn_app, firstn_length_le by lia.
    rewrite skipn_all2 by (rewrite firstn_length_le; lia).
    replace (S start + length ps - start)%nat with (S (length ps)) by lia.
    cbn [app]. rewrite skipn_cons, skipn_skipn. do 2 f_equal. lia.
Qed.

Lemma readCells_scratch : forall mem vs ps start c,
  Forall (fun pos => Forall2 (fun l v => 0 <= l < v) pos vs) ps ->
  map (linearize vs) ps
  = map (fun j => Some (Z.of_nat j)) (seq start (length ps)) ->
  (start + length ps <= length c)%nat ->
  mapOpt (readCell (mem ++ [{| bufShape := vs; cells := c |}])
            {| buffer := length mem; viewOffsets := repeat 0 (length vs);
               viewSizes := vs |}) ps
  = Some (firstn (length ps) (skipn start c)).
Proof.
  intros mem vs ps; induction ps as [|pos ps IH]; intros start c F M Lc;
    [reflexivity|].
  inversion F as [|? ? Fp F']; subst.
  cbn [length seq map] in M. injection M as Mp M.
  cbn [mapOpt]. unfold readCell at 1.
  rewrite (address_scratch mem vs c pos start Fp Mp). cbn [cells].
  destruct (nth_error c start) as [z|] eqn:E;
    [|apply nth_error_None in E; simpl in Lc; lia].
  rewrite (IH (S start) c F' M) by (simpl in Lc; lia).
  rewrite (nth_error_skipn_cons _ _ _ _ E). reflexivity.
Qed.

Lemma positions_Forall : forall vs,
  Forall (fun pos => Forall2 (fun l v => 0 <= l < v) pos vs) (positions vs).
Proof. intros vs. apply Forall_forall. intros pos. apply positions_In. Qed.

(** Storing a vector into the fresh scratch buffer puts it there cell by
    cell, and reading the buffer back returns it. *)
Lemma scratch_store : forall mem vs vec,
  staticShape vs = true -> length vec = length (positions vs) ->
  writeCells
    (mem ++ [{| bufShape := vs;
                cells := repeat 0 (Z.to_nat (fold_right Z.mul 1 vs)) |}])
    {| buffer := length mem; viewOffsets := repeat 0 (length vs);
       viewSizes := vs |} (combine (positions vs) vec)
  = Some (mem ++ [{| bufShape := vs; cells := vec |}]).
Proof.
  intros mem vs vec St L. destruct (linearize_positions vs St) as [M N].
  rewrite (writeCells_scratch mem vs (positions vs) vec 0
             _ (positions_Forall vs) M L)
    by (rewrite repeat_length; lia).
  cbn [firstn app Nat.add].
  rewrite skipn_all2 by (rewrite repeat_length; lia).
  now rewrite app_nil_r.
Qed.

Lemma scratch_load : forall mem vs vec,
  staticShape vs = true -> length vec = length (positions vs) ->
  mapOpt (readCell (mem ++ [{| bufShape := vs; cells := vec |}])
            {| buffer := length mem; viewOffsets := repeat 0 (length vs);
               viewSizes := vs |}) (positions vs)
  = Some vec.
Proof.
  intros mem vs vec St L. destruct (linearize_positions vs St) as [M N].
  rewrite (readCells_scratch mem vs (positions vs) 0 vec
             (positions_Forall vs) M) by lia.
  cbn [skipn]. rewrite <- L. now rewrite firstn_all.
Qed.

(** ** Running the slow path *)

Lemma inBoundsCondStep_ids : forall x acc dim s acc' s',
  inBoundsCondStep x acc dim s = Done (acc', s') ->
  (nextOp s <= nextOp s')%nat /\
  exists ops,
    block s' = block s ++ ops /\
    Forall (fun op => (getId op < nextOp s')%nat) ops.
Proof.
  intros x acc [r i] s acc' s' H.
  unfold inBoundsCondStep, getMixedSize, at_ in H.
  destruct (isDimInBounds x r);
    [inversion H; split; [lia|]; exists []; rewrite app_nil_r;
     split; [reflexivity | constructor]|].
  destruct (lookupZ (vectorShape (getVectorType x)) (Z.of_nat r)) as [v|];
    [|discriminate].
  destruct (lookupZ (indices x) i) as [index|]; [|discriminate].
  destruct (lookupZ (getShape (getShapedType x)) i) as [d|];
    [|destruct index; discriminate].
  revert H.
  destruct index as [n|c|? ?]; destruct (d =? kDynamic) eqn:Dd;
    run_step; rewrite ?Dd; run_step;
    try destruct (c + v <=? d); destruct acc; intros H; inversion H;
    subst; clear H; cbn [block nextOp];
    (split; [lia|]);
    first [ exists []; rewrite app_nil_r; split; [reflexivity | constructor]
          | rewrite <- ?app_assoc; eexists; split; [reflexivity|];
            repeat constructor; cbn [getId]; lia ].
Qed.

Lemma foldM_inBoundsCond_ids : forall x dims acc s acc' s',
  foldM (inBoundsCondStep x) dims acc s = Done (acc', s') ->
  (nextOp s <= nextOp s')%nat /\
  exists ops,
    block s' = block s ++ ops /\
    Forall (fun op => (getId op < nextOp s')%nat) ops.
Proof.
  intros x dims; induction dims as [|dim dims IH]; intros acc s acc' s' H.
  - inversion H; subst. split; [lia|]. exists []. rewrite app_nil_r.
    split; [reflexivity | constructor].
  - cbn [foldM] in H. apply bind_inv in H.
    destruct H as [acc1 [s1 [St H]]].
    apply inBoundsCondStep_ids in St. destruct St as [L1 [o1 [B1 F1]]].
    apply IH in H. destruct H as [L2 [o2 [B2 F2]]].
    split; [lia|]. exists (o1 ++ o2).
    split; [rewrite B2, B1; now rewrite app_assoc|].
    apply Forall_app. split; [|exact F2].
    eapply Forall_impl; [|exact F1]. cbv beta. intros op Lo. lia.
Qed.

Lemma execOp_arithmetic_frame : forall op m m',
  isIndexArithmetic op = true -> execOp op m = Some m' ->
  forall id k, id <> getId op -> results m' id k = results m id k.
Proof.
  intros op m m' A E id k Ne.
  destruct op; try discriminate A; cbn [execOp getId] in *;
    repeat match type of E with
           | match ?c with _ => _ end = _ => destruct c; try discriminate E
           end;
    inversion E; subst; cbn [bindResult results];
    replace (id =? _)%nat with false by (symmetry; now apply Nat.eqb_neq);
    reflexivity.
Qed.

Lemma execOps_arithmetic_frame : forall n ops m m',
  forallb isIndexArithmetic ops = true ->
  Forall (fun op => (getId op < n)%nat) ops ->
  execOps ops m = Some m' ->
  forall id k, (n <= id)%nat -> results m' id k = results m id k.
Proof.
  intros n ops; induction ops as [|op ops IH]; intros m m' A F E id k L.
  - inversion E. reflexivity.
  - cbn [forallb] in A. apply andb_true_iff in A. destruct A as [Ao A].
    inversion F as [|? ? Fo F']; subst.
    cbn [execOps] in E. destruct (execOp op m) as [m1|] eqn:E1;
      [|discriminate].
    rewrite (IH m1 m' A F' E id k L).
    apply (execOp_arithmetic_frame op m m1 Ao E1). lia.
Qed.

(** The operations of the bounds condition leave the results of later
    operations alone. *)
Lemma createInBoundsCond_frame : forall x s cond s' ops m m',
  createInBoundsCond x s = Done (cond, s') ->
  block s' = block s ++ ops -> execOps ops m = Some m' ->
  forall id k, (nextOp s' <= id)%nat -> results m' id k = results m id k.
Proof.
  intros x s cond s' ops m m' H B E.
  destruct (createInBoundsCond_ops _ _ _ _ H) as [o1 [B1 A1]].
  unfold createInBoundsCond in H. apply bind_inv in H.
  destruct H as [u [s0 [As H]]]. apply assert_inv in As. destruct As as [_ ->].
  apply foldM_inBoundsCond_ids in H. destruct H as [_ [o2 [B2 F2]]].
  assert (o1 = ops) by (apply (app_inv_head (block s)); congruence).
  assert (o2 = ops) by (apply (app_inv_head (block s)); congruence).
  subst o1 o2. now apply (execOps_arithmetic_frame (nextOp s') ops m m').
Qed.

Lemma slow_path_prefix : forall x s cond s1 m w idxs,
  isMinorIdentity (permutation_map x) = true -> verified x = true ->
  createInBoundsCond x s = Done (Some cond, s1) ->
  staticShape (vectorShape (getVectorType x)) = true ->
  viewOf m (source x) = Some w -> fitsType w (getShapedType x) ->
  mapOpt (indexOf m) (indices x) = Some idxs ->
  forallb (dimInBounds x idxs (viewSizes w)) (participatingDims x) = false ->
  let a := nextOp s1 in
  exists condOps m3,
    block s1 = block s ++ condOps /\
    execOps (AllocaOp a (allocaType x) 32 :: condOps ++
             [ConstantIndexOp (S a) 0]) m = Some m3 /\
    args m3 = args m /\ memory m3 = memory m ++ [scratchBuffer x] /\
    results m3 a 0 = Some (RMemRef (scratchView x (memory m))) /\
    results m3 (S a) 0 = Some (RIndex 0) /\
    boolOf m3 cond = Some false /\
    exists cid, cond = OpResult cid 0 /\ (cid < a)%nat.
Proof.
  intros x s cond s1 m w idxs Hm Hv C St Hw Hfit Hi Slow a.
  assert (Hx := Hv). unfold verified in Hx.
  repeat rewrite andb_true_iff in Hx. destruct Hx as [[_ Es] Ei].
  destruct (foldM_inBoundsCond x (zipResultAndIndexing x) None s Es Ei
              (zipResultAndIndexing_lookups x Hm Hv))
    as [cond' [ops [Run [Id [_ [_ [_ [_ Sem]]]]]]]]; [discriminate|].
  assert (E : Done (Some cond, s1) = Done (cond', emit ops s)).
  { rewrite <- C. unfold createInBoundsCond, assert_. rewrite Hm.
    unfold bind. exact Run. }
  inversion E; subst cond'. clear E.
  assert (Bs : block s1 = block s ++ ops) by (subst s1; reflexivity).
  assert (Na : a = (length ops + nextOp s)%nat) by (unfold a; now subst s1).
  destruct (Id cond eq_refl) as [cid [-> Lc]].
  exists ops.
  set (m1 := bindResult a 0 (RMemRef (scratchView x (memory m)))
               (setMemory (memory m ++ [scratchBuffer x]) m)).
  assert (Hw1 : viewOf m1 (source x) = Some w).
  { unfold viewOf. rewrite (lookupValue_external m m1); auto. }
  assert (Hi1 : mapOpt (indexOf m1) (indices x) = Some idxs)
    by (rewrite (mapOpt_indexOf_external m m1); auto).
  destruct (Sem m1 w idxs true Hw1 Hfit Hi1 eq_refl)
    as [m2 [E2 [[A2 [M2 R2]] V2]]].
  rewrite forallb_or_filter in V2. fold (participatingDims x) in V2.
  rewrite Slow in V2. cbn [andb condValue] in V2.
  assert (Fr := createInBoundsCond_frame _ _ _ _ _ _ _ C Bs E2).
  fold a in Fr.
  exists (bindResult (S a) 0 (RIndex 0) m2).
  split; [reflexivity|].
  split.
  { assert (Ea : execOp (AllocaOp a (allocaType x) 32) m = Some m1).
    { cbn [execOp]. unfold allocaType. cbn [MemRefType_get getShape].
      rewrite St. reflexivity. }
    cbn [execOps]. rewrite Ea, execOps_app, E2. reflexivity. }
  split; [cbn [bindResult args]; rewrite A2; reflexivity|].
  split; [cbn [bindResult memory]; rewrite M2; reflexivity|].
  split.
  { cbn [bindResult results].
    replace (a =? S a)%nat with false by (symmetry; apply Nat.eqb_neq; lia).
    cbn [andb]. rewrite Fr by lia. unfold m1. cbn [bindResult results].
    now rewrite !Nat.eqb_refl. }
  split; [cbn [bindResult results]; now rewrite !Nat.eqb_refl|].
  split.
  { unfold boolOf in *. cbn [lookupValue bindResult results] in *.
    replace (cid =? S a)%nat with false by (symmetry; apply Nat.eqb_neq; lia).
    exact V2. }
  exists cid. split; [reflexivity | lia].
Qed.

Lemma mapOpt_repeat : forall A B (f : A -> option B) a b n,
  f a = Some b -> mapOpt f (repeat a n) = Some (repeat b n).
Proof.
  intros A B f a b n H. induction n as [|n IH]; [reflexivity|].
  cbn [repeat mapOpt]. now rewrite H, IH.
Qed.

Lemma mapOpt_all : forall A B (f : A -> option B) (g : A -> B) l,
  (forall a, In a l -> f a = Some (g a)) -> mapOpt f l = Some (map g l).
Proof.
  intros A B f g l; induction l as [|a l IH]; intros H; [reflexivity|].
  cbn [mapOpt map]. rewrite (H a) by (now left).
  rewrite IH; [reflexivity|]. intros b Hb. apply H. now right.
Qed.

Lemma mapOpt_map_Some : forall A B (g : A -> option B) pad l,
  mapOpt (fun o => match o with Some pos => g pos | None => Some pad end)
    (map Some l)
  = mapOpt g l.
Proof.
  intros A B g pad l; induction l as [|a l IH]; [reflexivity|].
  cbn [map mapOpt]. now rewrite IH.
Qed.

Lemma lanePosition_zero : forall lane vs,
  Forall2 (fun l v => 0 <= l < v) lane vs ->
  lanePosition (repeat true (length vs)) vs (repeat 0 (length vs)) lane
  = Some (Some lane).
Proof.
  induction 1 as [|l v lane vs Hl F IH]; [reflexivity|].
  cbn [length repeat lanePosition]. rewrite IH.
  replace (0 + l <? 0) with false by (symmetry; apply Z.ltb_ge; lia).
  replace (0 + l <? v) with true by (symmetry; apply Z.ltb_lt; lia).
  reflexivity.
Qed.

(** Over the scratch buffer, from all-zero indices, every lane of a transfer
    marked in bounds is active and touches the cell of its own position. *)
Lemma lanes_scratch : forall x y mem,
  getVectorType y = getVectorType x ->
  in_bounds y = Some (repeat true (getTransferRank y)) ->
  getTransferRank y = length (vectorShape (getVectorType x)) ->
  lanes y (scratchView x mem) (repeat 0 (getTransferRank y))
  = Some (map Some (positions (vectorShape (getVectorType x)))).
Proof.
  intros x y mem Hv Hb Rk. unfold lanes. cbn [scratchView viewSizes].
  rewrite (laneFlags_allTrue y Hb), Hv, Rk, Nat.sub_diag. cbn [repeat app].
  apply mapOpt_all. intros lane Hin. apply positions_In in Hin.
  now apply lanePosition_zero.
Qed.

Lemma transferRead_length : forall mem x w idxs pad vec,
  transferRead mem x w idxs pad = Some vec ->
  length vec = length (positions (vectorShape (getVectorType x))).
Proof.
  intros mem x w idxs pad vec H. unfold transferRead in H.
  destruct (lanes x w idxs) as [ls|] eqn:L; [|discriminate].
  apply mapOpt_length in H. unfold lanes in L. apply mapOpt_length in L.
  congruence.
Qed.

Lemma lookupOrDefault_nil_map : forall l, map (lookupOrDefault []) l = l.
Proof.
  induction l as [|v l IH]; [reflexivity|]. cbn [map]. now rewrite IH.
Qed.

(** The else-region of a read under the reissue strategy: the original read
    is run as it was, its vector lands in the scratch buffer, and the buffer
    is handed over with all-zero indices. *)
Lemma exec_reissueReadRegion : forall x t a ifId n m mem w idxs,
  (S a < n)%nat -> kind x = TransferRead -> hasMask x = false ->
  isMinorIdentity (permutation_map x) = true ->
  staticShape (vectorShape (getVectorType x)) = true ->
  viewOf m (source x) = Some w ->
  mapOpt (indexOf m) (indices x) = Some idxs ->
  memory m = mem ++ [scratchBuffer x] -> (buffer w < length mem)%nat ->
  results m a 0 = Some (RMemRef (scratchView x mem)) ->
  results m (S a) 0 = Some (RIndex 0) ->
  match match scalarOf m (getPadding x) with
        | Some pad => transferRead mem x w idxs pad
        | None => None
        end with
  | Some vec =>
      exists m',
        execOps (reissueReadRegion x t (OpResult a 0) (OpResult (S a) 0)
                   ifId n) m = Some m' /\
        yielded m' = RMemRef (scratchView x mem)
                     :: repeat (RIndex 0) (getTransferRank x) /\
        args m' = args m /\
        memory m' = mem ++ [{| bufShape := vectorShape (getVectorType x);
                               cells := vec |}] /\
        (forall id k, (id < n)%nat -> results m' id k = results m id k)
  | None =>
      execOps (reissueReadRegion x t (OpResult a 0) (OpResult (S a) 0)
                 ifId n) m = None
  end.
Proof.
  intros x t a ifId n m mem w idxs La K M Hm St Hw Hi Hmem Hb Ha Hz.
  assert (Et : execTransfer (cloneXfer [] (Some ifId) n x) m
               = match match scalarOf m (getPadding x) with
                       | Some pad => transferRead mem x w idxs pad
                       | None => None
                       end with
                 | Some vec => Some (m, Some vec)
                 | None => None
                 end).
  { unfold execTransfer.
    assert (Mk : hasMask (cloneXfer [] (Some ifId) n x) = false).
    { unfold hasMask in *. cbn [cloneXfer getMask].
      destruct (getMask x); [discriminate M | reflexivity]. }
    rewrite Mk.
    cbn [cloneXfer permutation_map source indices kind getPadding].
    rewrite lookupOrDefault_nil_map. cbn [lookupOrDefault].
    rewrite Hm, Hw, Hi, K. cbn [negb orb].
    destruct (scalarOf m (getPadding x)) as [pad|]; [|reflexivity].
    assert (T : transferRead (memory m) (cloneXfer [] (Some ifId) n x)
                  w idxs pad
                = transferRead mem x w idxs pad).
    { unfold transferRead.
      change (lanes (cloneXfer [] (Some ifId) n x) w idxs)
        with (lanes x w idxs).
      destruct (lanes x w idxs) as [ls|]; [|reflexivity].
      apply mapOpt_ext. intros [pos|] _; [|reflexivity].
      rewrite Hmem. now apply readCell_app. }
    rewrite T. reflexivity. }
  unfold reissueReadRegion.
  destruct (match scalarOf m (getPadding x) with
            | Some pad => transferRead mem x w idxs pad
            | None => None
            end) as [vec|] eqn:T;
    [|cbn [execOps execOp]; now rewrite Et].
  assert (Lv : length vec
               = length (positions (vectorShape (getVectorType x)))).
  { destruct (scalarOf m (getPadding x)) as [pad|]; [|discriminate T].
    exact (transferRead_length _ _ _ _ _ _ T). }
  set (m1 := bindResult n 0 (RVector vec) m).
  set (m2 := bindResult (1 + n) 0 (RMemRef (scratchView x mem)) m1).
  set (m3 := setMemory
               (mem ++ [{| bufShape := vectorShape (getVectorType x);
                           cells := vec |}]) m2).
  set (m4 := bindResult (3 + n) 0 (RMemRef (scratchView x mem)) m3).
  assert (E1 : execOp (TransferOp n (cloneXfer [] (Some ifId) n x)) m
               = Some m1) by (cbn [execOp]; now rewrite Et).
  assert (E2 : execOp (TypeCastOp (1 + n) (vectorCellType x) (OpResult a 0)) m1
               = Some m2).
  { cbn [execOp]. unfold m1. lookups. now rewrite Ha. }
  assert (E3 : execOp (StoreOp (2 + n) (OpResult n 0) (OpResult (1 + n) 0) [])
                 m2 = Some m3).
  { cbn [execOp]. unfold m2, m1. lookups.
    cbn [scratchView viewSizes]. rewrite Lv, Nat.eqb_refl, Hmem.
    unfold scratchBuffer.
    rewrite (scratch_store mem _ vec St Lv
             : writeCells _ (scratchView x mem) _ = _).
    reflexivity. }
  assert (E4 : execOp (CastOp (3 + n) t (OpResult a 0)) m3 = Some m4).
  { cbn [execOp]. unfold m3, m2, m1. lookups. now rewrite Ha. }
  exists (setYielded (RMemRef (scratchView x mem)
                      :: repeat (RIndex 0) (getTransferRank x)) m4).
  split.
  { cbn [execOps]. rewrite E1, E2, E3, E4. cbn [execOp mapOpt].
    rewrite (mapOpt_repeat _ _ _ _ (RIndex 0));
      [|unfold m4, m3, m2, m1; lookups; exact Hz].
    unfold m4. lookups. reflexivity. }
  split; [reflexivity|]. split; [reflexivity|]. split; [reflexivity|].
  intros id k L. unfold m4, m3, m2, m1.
  cbn [setYielded bindResult setMemory results]. eqb_nat. reflexivity.
Qed.

(** X15: the slow path of a read split under the reissue strategy. When at
    run time some participating dimension is out of bounds, the rewritten
    program - allocation, bounds condition, the conditional whose else-region
    runs the original read, stores its vector into the scratch buffer and
    yields the buffer with all-zero indices, and the read against the results
    of the conditional - observes exactly the vector the original read
    observes and leaves the memory as it was; it is undefined exactly when
    the original read is. *)
Theorem read_slow_path_reissue : forall ifOp s s' m w idxs,
  (forall a b, areCastCompatible a b = true -> getRank a = getRank b) ->
  isaRead (root s) = true -> verified (root s) = true ->
  isExternal (getPadding (root s)) = true ->
  block s = [] -> scopeEntry s = [] -> erased s = false ->
  splitFullAndPartialTransfer (root s) (withStrategy VectorTransfer) ifOp s
  = Done (success, s') ->
  let x := root s in
  staticShape (vectorShape (getVectorType x)) = true ->
  viewOf m (source x) = Some w -> fitsType w (getShapedType x) ->
  (buffer w < length (memory m))%nat ->
  mapOpt (indexOf m) (indices x) = Some idxs ->
  forallb (dimInBounds x idxs (viewSizes w)) (participatingDims x) = false ->
  execRewritten s' m = execOriginal x m.
Proof.
  intros ifOp s s' m w idxs Hc Rd Hv Ep Bs Ss Es H x St Hw Hfit Hb Hi Slow.
  assert (Sp : splits VectorTransfer = true) by reflexivity.
  destruct (read_split_state _ _ _ _ Sp Rd H)
    as [cond [s1 [scope [t [C [_ [_ [B [Sc [Er [_ Rt]]]]]]]]]]].
  fold x in C, B, Sc, Rt.
  destruct (split_scopeEntry _ _ _ _ _ _ Sp H C) as [Pre [M _]].
  fold x in Pre, M.
  assert (Hm : isMinorIdentity (permutation_map x) = true).
  { apply precondition_minor_identity.
    destruct (splitFullAndPartialTransferPrecondition x);
      [reflexivity | discriminate]. }
  assert (R := success_transfer_rank _ _ _ _ Hc Sp Hv H). fold x in R.
  assert (Hx := Hv). unfold verified in Hx. fold x in Hx.
  repeat rewrite andb_true_iff in Hx.
  destruct Hx as [[[[Li Lv] _] Xs] Xi]. apply Nat.eqb_eq in Li, Lv.
  assert (K : kind x = TransferRead).
  { unfold isaRead in Rd. fold x in Rd. destruct (kind x); try discriminate Rd.
    reflexivity. }
  destruct (slow_path_prefix x s cond s1 m w idxs Hm Hv C St Hw Hfit Hi Slow)
    as [condOps [m3 [Bc [E3 [A3 [M3 [Ra [Rz [B3 [cid [-> Lc]]]]]]]]]]].
  rewrite Bs in Bc. cbn [app] in Bc.
  set (a := nextOp s1) in *.
  set (th := sourceViewRegion x t (2 + S a)).
  set (n := (2 + S a + length th)%nat).
  set (el := reissueReadRegion x t (OpResult a 0) (OpResult (S a) 0)
               (S (S a)) n).
  assert (E3' : execOps (map snd (scopeEntry s') ++ block s') m
                = execOps [IfOp (S (S a)) (OpResult cid 0)
                             (S (length (indices x))) th (Some el)] m3).
  { rewrite Sc, Ss, B, Bc. cbn [map snd app].
    change (readConditional VectorTransfer x (OpResult cid 0) (OpResult a 0)
              t (S a))
      with (IfOp (S (S a)) (OpResult cid 0) (S (length (indices x))) th
              (Some el)).
    change (condOps ++ [?c; ?i]) with (condOps ++ [c] ++ [i]).
    rewrite app_assoc.
    change (AllocaOp a (allocaType x) 32 :: (condOps ++ ?l) ++ ?r)
      with ((AllocaOp a (allocaType x) 32 :: condOps ++ l) ++ r).
    rewrite execOps_app, E3. reflexivity. }
  (* the machine at the entry of the else-region *)
  assert (Hw3 : viewOf (setYielded [] m3) (source x) = Some w).
  { unfold viewOf. rewrite (lookupValue_external m (setYielded [] m3));
      [exact Hw | exact Xs | exact A3]. }
  assert (Hi3 : mapOpt (indexOf (setYielded [] m3)) (indices x) = Some idxs).
  { rewrite (mapOpt_indexOf_external m (setYielded [] m3));
      [exact Hi | exact Xi | exact A3]. }
  assert (Hp3 : scalarOf (setYielded [] m3) (getPadding x)
                = scalarOf m (getPadding x)).
  { unfold scalarOf. now rewrite (lookupValue_external m (setYielded [] m3)). }
  assert (Reg := exec_reissueReadRegion x t a (S (S a)) n (setYielded [] m3)
                   (memory m) w idxs ltac:(unfold n; lia) K M Hm St Hw3 Hi3
                   M3 Hb Ra Rz).
  fold el in Reg. rewrite Hp3 in Reg.
  unfold execRewritten, execOriginal. rewrite E3', Er, Es.
  (* the original read *)
  unfold execTransfer at 2. rewrite M, Hm. cbn [negb orb]. rewrite Hw, Hi, K.
  cbn [execOps]. rewrite execOp_if, B3.
  destruct (match scalarOf m (getPadding x) with
            | Some pad => transferRead (memory m) x w idxs pad
            | None => None
            end) as [vec|] eqn:T.
  2:{ rewrite Reg.
      destruct (scalarOf m (getPadding x)) as [pad|]; [|reflexivity].
      now rewrite T. }
  destruct (scalarOf m (getPadding x)) as [pad|] eqn:Pd; [|discriminate T].
  rewrite T.
  destruct Reg as [m' [Et [Y [A' [M' R']]]]].
  rewrite Et, Y. cbn [length]. rewrite repeat_length, R, Nat.eqb_refl.
  set (ys := RMemRef (scratchView x (memory m))
             :: repeat (RIndex 0) (length (indices x))).
  set (m4 := bindResults (S (S a)) 0 ys m').
  destruct (bindResults_frame ys (S (S a)) 0 m') as [Ab [Mb Rb]].
  fold m4 in Ab, Mb, Rb.
  assert (Ly : length ys = S (length (indices x)))
    by (unfold ys; cbn [length]; now rewrite repeat_length).
  assert (V4 : viewOf m4 (OpResult (S (S a)) 0)
               = Some (scratchView x (memory m))).
  { unfold viewOf. cbn [lookupValue].
    assert (Kr : results m4 (S (S a)) 0 = nth_error ys 0)
      by (apply (bindResults_result ys (S (S a)) 0 m' 0); lia).
    rewrite Kr. reflexivity. }
  assert (I4 : mapOpt (indexOf m4)
                 (map (OpResult (S (S a))) (seq 1 (getTransferRank x))
                  ++ skipn (getTransferRank x) (indices x))
               = Some (repeat 0 (getTransferRank x))).
  { rewrite R, skipn_all, app_nil_r.
    rewrite <- (repeat_length 0 (length (indices x))) at 1.
    apply mapOpt_results. intros k i Hk.
    assert (Lk : (k < length (indices x))%nat).
    { rewrite <- (repeat_length 0 (length (indices x))).
      apply nth_error_Some. congruence. }
    rewrite nth_error_repeat in Hk by exact Lk. inversion Hk; subst i.
    unfold indexOf. cbn [lookupValue].
    assert (Kr : results m4 (S (S a)) (S k) = nth_error ys (S k))
      by (apply (bindResults_result ys (S (S a)) 0 m' (S k)); lia).
    cbn [Nat.add]. rewrite Kr. unfold ys. cbn [nth_error].
    now rewrite nth_error_repeat by exact Lk. }
  rewrite Rt. unfold execTransfer.
  assert (Mk : hasMask (rewrittenRead x t (S (S a))) = hasMask x)
    by reflexivity.
  rewrite Mk, M.
  cbn [rewrittenRead permutation_map source indices kind getPadding].
  rewrite Hm. cbn [negb orb]. rewrite V4, I4, K.
  assert (P4 : scalarOf m4 (getPadding x) = Some pad).
  { rewrite <- Pd. unfold scalarOf. rewrite (lookupValue_external m m4);
      [reflexivity | exact Ep |]. rewrite Ab, A'. exact A3. }
  rewrite P4.
  assert (T4 : transferRead (memory m4) (rewrittenRead x t (S (S a)))
                 (scratchView x (memory m)) (repeat 0 (getTransferRank x)) pad
               = Some vec).
  { unfold transferRead.
    rewrite (lanes_scratch x (rewrittenRead x t (S (S a))) (memory m)
               eq_refl eq_refl (eq_sym Lv)
             : lanes _ _ (repeat 0 (getTransferRank x)) = _).
    rewrite mapOpt_map_Some, Mb, M'.
    apply (scratch_load (memory m) _ vec St).
    exact (transferRead_length _ _ _ _ _ _ T). }
  rewrite T4, Mb, M', firstn_app_exact. reflexivity.
Qed.

Lemma writeLanes_mismatch : forall ls vec mem w,
  length ls <> length vec -> writeLanes mem w ls vec = None.
Proof.
  induction ls as [|[pos|] ls IH]; intros [|z vec] mem w H;
    try reflexivity; cbn [writeLanes].
  - now contradiction H.
  - destruct (writeCell mem w pos z); [|reflexivity].
    apply IH. simpl in H. lia.
  - apply IH. simpl in H. lia.
Qed.

Lemma writeLanes_all : forall ps vec mem w,
  length ps = length vec ->
  writeLanes mem w (map Some ps) vec = writeCells mem w (combine ps vec).
Proof.
  induction ps as [|pos ps IH]; intros [|z vec] mem w H;
    try discriminate H; [reflexivity|].
  cbn [map writeLanes combine writeCells].
  destruct (writeCell mem w pos z); [|reflexivity].
  apply IH. simpl in H. lia.
Qed.

Lemma map_lookupOrDefault_notin : forall k v l,
  ~ In k l -> map (lookupOrDefault [(k, v)]) l = l.
Proof.
  intros k v l; induction l as [|u l IH]; intros H; [reflexivity|].
  cbn [map]. rewrite IH by (intros I; apply H; now right).
  f_equal. cbn [lookupOrDefault].
  destruct (Value_eq_dec k u) as [E|_]; [|reflexivity].
  exfalso. apply H. now left.
Qed.

(** The else-region of the first conditional of a write hands the scratch
    buffer over with all-zero indices. *)
Lemma exec_allocViewRegion : forall x t a n m wa,
  (S a < n)%nat ->
  results m a 0 = Some (RMemRef wa) ->
  results m (S a) 0 = Some (RIndex 0) ->
  exists m',
    execOps (allocViewRegion x t (OpResult a 0) (OpResult (S a) 0) n) m
    = Some m' /\
    yielded m' = RMemRef wa :: repeat (RIndex 0) (getTransferRank x) /\
    args m' = args m /\ memory m' = memory m /\
    (forall id k, (id < n)%nat -> results m' id k = results m id k).
Proof.
  intros x t a n m wa La Ha Hz. unfold allocViewRegion.
  set (m1 := bindResult n 0 (RMemRef wa) m).
  assert (E1 : execOp (CastOp n t (OpResult a 0)) m = Some m1)
    by (cbn [execOp]; lookups; now rewrite Ha).
  exists (setYielded (RMemRef wa :: repeat (RIndex 0) (getTransferRank x)) m1).
  split.
  { cbn [execOps]. rewrite E1. cbn [execOp mapOpt].
    rewrite (mapOpt_repeat _ _ _ _ (RIndex 0));
      [|unfold m1; lookups; exact Hz].
    unfold m1. lookups. reflexivity. }
  split; [reflexivity|]. split; [reflexivity|]. split; [reflexivity|].
  intros id k L. unfold m1. cbn [setYielded bindResult results]. eqb_nat.
  reflexivity.
Qed.

(** The body of the cleanup conditional of a write under the reissue
    strategy: the vector is loaded back from the scratch buffer and the
    original write is run with it. *)
Lemma exec_reissueRegion : forall x a ifId n m mem w idxs vec,
  (a < n)%nat -> kind x = TransferWrite -> hasMask x = false ->
  isMinorIdentity (permutation_map x) = true ->
  staticShape (vectorShape (getVectorType x)) = true ->
  isExternal (source x) = true -> forallb isExternal (indices x) = true ->
  viewOf m (source x) = Some w ->
  mapOpt (indexOf m) (indices x) = Some idxs ->
  vector x <> source x -> ~ In (vector x) (indices x) ->
  memory m = mem ++ [{| bufShape := vectorShape (getVectorType x);
                        cells := vec |}] ->
  (buffer w < length mem)%nat ->
  length vec = length (positions (vectorShape (getVectorType x))) ->
  results m a 0 = Some (RMemRef (scratchView x mem)) ->
  exists m0,
    args m0 = args m /\
    execOps (reissueRegion x (OpResult a 0) ifId n) m
    = match transferWrite mem x w idxs vec with
      | Some mem' =>
          Some (setYielded []
                  (setMemory
                     (mem' ++ [{| bufShape := vectorShape (getVectorType x);
                                  cells := vec |}]) m0))
      | None => None
      end.
Proof.
  intros x a ifId n m mem w idxs vec La K M Hm St Xs Xi Hw Hi Nv Ni Hmem Hb Lv
    Ha.
  unfold reissueRegion.
  set (m1 := bindResult n 0 (RMemRef (scratchView x mem)) m).
  set (m2 := bindResult (1 + n) 0 (RVector vec) m1).
  set (y := cloneXfer (mapValue [] (vector x) (OpResult (1 + n) 0))
              (Some ifId) (2 + n) x).
  assert (E1 : execOp (TypeCastOp n (vectorCellType x) (OpResult a 0)) m
               = Some m1)
    by (cbn [execOp]; lookups; now rewrite Ha).
  assert (E2 : execOp (LoadOp (1 + n) (OpResult n 0) []) m1 = Some m2).
  { cbn [execOp]. unfold m1. lookups. rewrite Hmem.
    cbn [scratchView viewSizes].
    rewrite (scratch_load mem _ vec St Lv
             : mapOpt (readCell _ (scratchView x mem)) _ = _).
    reflexivity. }
  assert (Et : execTransfer y m2
               = match transferWrite mem x w idxs vec with
                 | Some mem' =>
                     Some (setMemory
                             (mem' ++
                              [{| bufShape := vectorShape (getVectorType x);
                                  cells := vec |}]) m2, None)
                 | None => None
                 end).
  { unfold execTransfer.
    assert (Mk : hasMask y = false).
    { unfold hasMask in *. unfold y. cbn [cloneXfer getMask].
      destruct (getMask x); [discriminate M | reflexivity]. }
    rewrite Mk. unfold y.
    cbn [cloneXfer permutation_map source indices kind vector].
    unfold mapValue.
    rewrite (map_lookupOrDefault_notin _ _ _ Ni), Hm, K.
    cbn [negb orb lookupOrDefault].
    destruct (Value_eq_dec (vector x) (source x)) as [Abs|_];
      [contradiction|].
    destruct (Value_eq_dec (vector x) (vector x)) as [_|Abs];
      [|contradiction].
    assert (Hw2 : viewOf m2 (source x) = Some w).
    { unfold viewOf. rewrite (lookupValue_external m m2); auto. }
    assert (Hi2 : mapOpt (indexOf m2) (indices x) = Some idxs)
      by (rewrite (mapOpt_indexOf_external m m2); auto).
    rewrite Hw2, Hi2.
    assert (V2 : vectorOf m2 (OpResult (1 + n) 0) = Some vec)
      by (unfold m2; lookups; reflexivity).
    rewrite V2. unfold transferWrite.
    change (lanes (cloneXfer _ _ _ x) w idxs) with (lanes x w idxs).
    destruct (lanes x w idxs) as [ls|]; [|reflexivity].
    change (memory m2) with (memory m). rewrite Hmem.
    rewrite writeLanes_app by exact Hb.
    destruct (writeLanes mem w ls vec); reflexivity. }
  exists m2. split; [reflexivity|].
  cbn [execOps]. rewrite E1, E2. cbn [execOp]. fold y. rewrite Et.
  destruct (transferWrite mem x w idxs vec); reflexivity.
Qed.

(** X16: the slow path of a write split under the reissue strategy. When
    at run time some participating dimension is out of bounds, the rewritten
    program - allocation, bounds condition, the conditional that picks the
    scratch buffer with all-zero indices, the in-bounds clone of the write
    into that buffer, and the cleanup conditional, whose guard is then true
    and whose body loads the vector back and runs the original write with
    it - leaves the memory exactly as the original write does; it is
    undefined exactly when the original write is. *)
Theorem write_slow_path_reissue : forall ifOp s s' m w idxs vec,
  (forall a b, areCastCompatible a b = true -> getRank a = getRank b) ->
  isaRead (root s) = false -> verified (root s) = true ->
  isExternal (vector (root s)) = true ->
  block s = [] -> scopeEntry s = [] ->
  splitFullAndPartialTransfer (root s) (withStrategy VectorTransfer) ifOp s
  = Done (success, s') ->
  let x := root s in
  staticShape (vectorShape (getVectorType x)) = true ->
  viewOf m (source x) = Some w -> fitsType w (getShapedType x) ->
  (buffer w < length (memory m))%nat ->
  mapOpt (indexOf m) (indices x) = Some idxs ->
  vectorOf m (vector x) = Some vec ->
  forallb (dimInBounds x idxs (viewSizes w)) (participatingDims x) = false ->
  execRewritten s' m = execOriginal x m.
Proof.
  intros ifOp s s' m w idxs vec Hc Rd Hv Ev Bs Ss H x St Hw Hfit Hb Hi Hvec
    Slow.
  assert (Sp : splits VectorTransfer = true) by reflexivity.
  destruct (write_split_block _ _ _ _ Sp Rd H) as [cond [s1 [t [C [Er B]]]]].
  fold x in C, B.
  destruct (split_scopeEntry _ _ _ _ _ _ Sp H C) as [Pre [M [scope Sc]]].
  fold x in Pre, M, Sc.
  assert (K := write_split_kind _ _ _ _ Sp Rd H). fold x in K.
  assert (Hm : isMinorIdentity (permutation_map x) = true).
  { apply precondition_minor_identity.
    destruct (splitFullAndPartialTransferPrecondition x);
      [reflexivity | discriminate]. }
  assert (R := success_transfer_rank _ _ _ _ Hc Sp Hv H). fold x in R.
  assert (Hx := Hv). unfold verified in Hx. fold x in Hx.
  repeat rewrite andb_true_iff in Hx.
  destruct Hx as [[[[Li Lv] _] Xs] Xi]. apply Nat.eqb_eq in Li, Lv.
  destruct (slow_path_prefix x s cond s1 m w idxs Hm Hv C St Hw Hfit Hi Slow)
    as [condOps [m3 [Bc [E3 [A3 [M3 [Ra [Rz [B3 [cid [-> Lc]]]]]]]]]]].
  rewrite Bs in Bc. cbn [app] in Bc.
  set (a := nextOp s1) in *.
  set (th1 := sourceViewRegion x t (3 + a)).
  set (el1 := allocViewRegion x t (OpResult a 0) (OpResult (S a) 0)
                (3 + a + length th1)).
  set (ifop1 := IfOp (2 + a) (OpResult cid 0) (S (length (indices x))) th1
                  (Some el1)).
  set (c1 := (5 + a + length th1)%nat).
  set (clone := inBoundsClone x t (getResults_ ifop1) c1).
  set (wa := scratchView x (memory m)).
  set (vs := vectorShape (getVectorType x)) in *.
  (* the first conditional takes its else-region *)
  destruct (exec_allocViewRegion x t a (3 + a + length th1) (setYielded [] m3)
              wa ltac:(lia) Ra Rz) as [m' [Et1 [Y [A' [M' R']]]]].
  fold el1 in Et1. rewrite R in Y.
  set (ys := RMemRef wa :: repeat (RIndex 0) (length (indices x))) in *.
  set (m4 := bindResults (2 + a) 0 ys m').
  destruct (bindResults_frame ys (2 + a) 0 m') as [Ab [Mb Rb]].
  fold m4 in Ab, Mb, Rb.
  assert (Ly : length ys = S (length (indices x)))
    by (unfold ys; cbn [length]; now rewrite repeat_length).
  assert (E4 : execOp ifop1 m3 = Some m4).
  { unfold ifop1. rewrite execOp_if, B3, Et1, Y, Ly, Nat.eqb_refl.
    reflexivity. }
  assert (A4 : args m4 = args m) by (rewrite Ab, A'; exact A3).
  assert (M4 : memory m4 = memory m ++ [scratchBuffer x])
    by (rewrite Mb, M'; exact M3).
  assert (V4 : viewOf m4 (OpResult (2 + a) 0) = Some wa).
  { unfold viewOf. cbn [lookupValue].
    assert (Kr : results m4 (2 + a) 0 = nth_error ys 0)
      by (apply (bindResults_result ys (2 + a) 0 m' 0); lia).
    rewrite Kr. reflexivity. }
  assert (I4 : forall k, (k < length (indices x))%nat ->
                 indexOf m4 (OpResult (2 + a) (S k)) = Some 0).
  { intros k Lk. unfold indexOf. cbn [lookupValue].
    assert (Kr : results m4 (2 + a) (S k) = nth_error ys (S k))
      by (apply (bindResults_result ys (2 + a) 0 m' (S k)); lia).
    rewrite Kr. unfold ys. cbn [nth_error].
    now rewrite nth_error_repeat by exact Lk. }
  assert (Ra4 : results m4 a 0 = Some (RMemRef wa)).
  { rewrite Rb by lia. rewrite R' by lia. exact Ra. }
  assert (B4 : boolOf m4 (OpResult cid 0) = Some false).
  { unfold boolOf in *. cbn [lookupValue] in *.
    rewrite Rb by lia. rewrite R' by lia. exact B3. }
  (* the operands of the clone *)
  assert (Ns : ~ In (source x) (indices x)).
  { intros I. apply In_nth_error in I. destruct I as [k I].
    destruct (mapOpt_nth_error _ _ _ _ _ _ _ Hi I) as [i [_ F]].
    apply indexOf_inv in F. apply viewOf_inv in Hw. congruence. }
  assert (Nv : vector x <> source x).
  { intros E. unfold vectorOf, viewOf in *. rewrite E in Hvec.
    destruct (lookupValue m (source x)) as [[]|]; discriminate. }
  assert (Ni : ~ In (vector x) (indices x)).
  { intros I. apply In_nth_error in I. destruct I as [k I].
    destruct (mapOpt_nth_error _ _ _ _ _ _ _ Hi I) as [i [_ F]].
    apply indexOf_inv in F. unfold vectorOf in Hvec. rewrite F in Hvec.
    discriminate. }
  assert (Kr : kind x <> TransferRead) by (rewrite K; discriminate).
  destruct (inBoundsClone_operands x t (2 + a) (OpResult cid 0) th1
              (Some el1) c1 Kr) as [Cs [Ci [_ Cv]]].
  fold ifop1 in Cs, Ci, Cv. fold clone in Cs, Ci, Cv.
  specialize (Cs Ns). specialize (Cv Nv Ni).
  assert (Ix : mapOpt (indexOf m4) (indices clone)
               = Some (repeat 0 (getTransferRank clone))).
  { apply mapOpt_pointwise.
    - unfold clone, inBoundsClone.
      cbn [setInBounds setShapedType cloneXfer indices].
      rewrite length_map, repeat_length. symmetry. exact R.
    - intros k u Hk.
      assert (Lk : (k < length (indices x))%nat).
      { assert (L : (k < length (indices clone))%nat)
          by (apply nth_error_Some; congruence).
        unfold clone, inBoundsClone in L.
        cbn [setInBounds setShapedType cloneXfer indices] in L.
        now rewrite length_map in L. }
      destruct (nth_error (indices x) k) as [v|] eqn:Ek;
        [|apply nth_error_None in Ek; lia].
      destruct (Ci k v Ek) as [j [Ej Ec]].
      rewrite Ec in Hk. inversion Hk; subst u.
      exists 0. split.
      + apply nth_error_repeat.
        change (getTransferRank clone) with (getTransferRank x). lia.
      + apply I4. apply nth_error_Some. congruence. }
  assert (Vc : vectorOf m4 (vector clone) = Some vec).
  { rewrite Cv. unfold vectorOf in *.
    now rewrite (lookupValue_external m m4). }
  assert (Lanes : lanes clone wa (repeat 0 (getTransferRank clone))
                  = Some (map Some (positions vs))).
  { apply (lanes_scratch x clone (memory m)); try reflexivity.
    change (getTransferRank clone) with (getTransferRank x).
    symmetry. exact Lv. }
  assert (Mk : hasMask clone = false).
  { unfold hasMask in *. unfold clone, inBoundsClone.
    cbn [setInBounds setShapedType cloneXfer getMask].
    destruct (getMask x); [discriminate M | reflexivity]. }
  assert (E4' : execOps (map snd (scopeEntry s') ++ block s') m
                = execOps [ifop1;
                           TransferOp c1 clone;
                           ConstantIntOp (1 + c1) 1 1;
                           XOrIOp (2 + c1) (OpResult cid 0)
                             (OpResult (1 + c1) 0);
                           IfOp (3 + c1) (OpResult (2 + c1) 0) 0
                             (reissueRegion x (OpResult a 0) (3 + c1)
                                (4 + c1)) None] m3).
  { rewrite Sc, Ss, B, Bc. cbn [map snd app].
    change (writeSplitOps x (OpResult cid 0) (OpResult a 0) t (S a) ?cl)
      with ([ConstantIndexOp (S a) 0] ++
            [ifop1;
             TransferOp c1 clone;
             ConstantIntOp (1 + c1) 1 1;
             XOrIOp (2 + c1) (OpResult cid 0) (OpResult (1 + c1) 0);
             IfOp (3 + c1) (OpResult (2 + c1) 0) 0 cl None]).
    rewrite app_assoc.
    change (AllocaOp a (allocaType x) 32 :: (condOps ++ ?l) ++ ?r)
      with ((AllocaOp a (allocaType x) 32 :: condOps ++ l) ++ r).
    rewrite execOps_app, E3. reflexivity. }
  unfold execRewritten, execOriginal. rewrite E4', Er.
  (* the original write *)
  unfold execTransfer. rewrite M, Hm. cbn [negb orb].
  rewrite Hw, Hi, K, Hvec.
  (* the clone writes the vector into the scratch buffer *)
  assert (Et : execTransfer clone m4
               = if (length vec =? length (positions vs))%nat
                 then Some (setMemory
                              (memory m ++ [{| bufShape := vs; cells := vec |}])
                              m4, None)
                 else None).
  { unfold execTransfer. rewrite Mk.
    assert (Pm : permutation_map clone = permutation_map x) by reflexivity.
    assert (Kc : kind clone = kind x) by reflexivity.
    rewrite Pm, Hm. cbn [negb orb].
    rewrite Cs, V4, Ix, Kc, K, Vc.
    unfold transferWrite. rewrite Lanes, M4.
    destruct (Nat.eqb_spec (length vec) (length (positions vs))) as [Le|Ne].
    - rewrite writeLanes_all by (symmetry; exact Le).
      unfold scratchBuffer. fold vs.
      rewrite (scratch_store (memory m) vs vec St Le
               : writeCells _ wa _ = _).
      reflexivity.
    - rewrite writeLanes_mismatch; [reflexivity|].
      rewrite length_map. congruence. }
  cbn [execOps]. rewrite E4.
  destruct (Nat.eqb_spec (length vec) (length (positions vs))) as [Le|Ne].
  2:{ cbn [execOp]. rewrite Et. unfold transferWrite.
      destruct (lanes x w idxs) as [ls|] eqn:Ls; [|reflexivity].
      rewrite writeLanes_mismatch; [reflexivity|].
      unfold lanes in Ls. apply mapOpt_length in Ls. fold vs in Ls.
      congruence. }
  set (m5 := setMemory (memory m ++ [{| bufShape := vs; cells := vec |}]) m4).
  set (m6 := bindResult (1 + c1) 0 (RBool (negb (1 =? 0))) m5).
  set (m7 := bindResult (2 + c1) 0 (RBool true) m6).
  assert (E5 : execOp (TransferOp c1 clone) m4 = Some m5)
    by (cbn [execOp]; now rewrite Et).
  assert (E6 : execOp (ConstantIntOp (1 + c1) 1 1) m5 = Some m6)
    by reflexivity.
  assert (B6 : boolOf m6 (OpResult cid 0) = Some false).
  { unfold boolOf in *.
    cbn [lookupValue m6 m5 bindResult setMemory results] in *.
    replace (cid =? 1 + c1)%nat with false
      by (symmetry; apply Nat.eqb_neq; unfold c1; lia).
    exact B4. }
  assert (T6 : boolOf m6 (OpResult (1 + c1) 0) = Some true).
  { unfold boolOf. cbn [lookupValue m6 bindResult results].
    now rewrite !Nat.eqb_refl. }
  assert (E7 : execOp (XOrIOp (2 + c1) (OpResult cid 0) (OpResult (1 + c1) 0))
                 m6 = Some m7)
    by (cbn [execOp]; now rewrite B6, T6).
  assert (F7 : boolOf m7 (OpResult (2 + c1) 0) = Some true).
  { unfold boolOf. cbn [lookupValue m7 bindResult results].
    now rewrite !Nat.eqb_refl. }
  rewrite E5, E6, E7, execOp_if, F7.
  (* the cleanup runs the original write *)
  assert (Hw7 : viewOf (setYielded [] m7) (source x) = Some w).
  { unfold viewOf. rewrite (lookupValue_external m (setYielded [] m7));
      [exact Hw | exact Xs | exact A4]. }
  assert (Hi7 : mapOpt (indexOf (setYielded [] m7)) (indices x) = Some idxs).
  { rewrite (mapOpt_indexOf_external m (setYielded [] m7));
      [exact Hi | exact Xi | exact A4]. }
  assert (Ra7 : results (setYielded [] m7) a 0 = Some (RMemRef wa)).
  { cbn [setYielded m7 m6 m5 bindResult setMemory results].
    replace (a =? 2 + c1)%nat with false
      by (symmetry; apply Nat.eqb_neq; unfold c1; lia).
    replace (a =? 1 + c1)%nat with false
      by (symmetry; apply Nat.eqb_neq; unfold c1; lia).
    exact Ra4. }
  destruct (exec_reissueRegion x a (3 + c1) (4 + c1) (setYielded [] m7)
              (memory m) w idxs vec ltac:(unfold c1; lia) K M Hm St Xs Xi
              Hw7 Hi7 Nv Ni eq_refl Hb Le Ra7) as [m0 [_ Ec]].
  rewrite Ec.
  destruct (transferWrite (memory m) x w idxs vec) as [mem0|] eqn:Wl;
    [|reflexivity].
  cbn [setYielded yielded length Nat.eqb bindResults memory setMemory].
  assert (L0 : length mem0 = length (memory m)).
  { unfold transferWrite in Wl.
    destruct (lanes x w idxs) as [ls|]; [|discriminate Wl].
    exact (writeLanes_length _ _ _ _ _ Wl). }
  rewrite <- L0, firstn_app_exact. reflexivity.
Qed.

(** ** Windows of the scratch buffer *)

Lemma In_positions : forall vs pos,
  Forall2 (fun l v => 0 <= l < v) pos vs -> In pos (positions vs).
Proof.
  intros vs pos H. induction H as [|l v pos vs Hl H IH]; [now left|].
  cbn [positions]. apply in_flat_map. exists (Z.to_nat l). split.
  - apply in_seq. lia.
  - rewrite Z2Nat.id by lia. now apply in_map.
Qed.

Lemma NoDup_map_injective : forall A B (f : A -> B) l,
  (forall a b, f a = f b -> a = b) -> NoDup l -> NoDup (map f l).
Proof.
  intros A B f l Inj H. induction H as [|a l Na H IH]; [constructor|].
  cbn [map]. constructor; [|exact IH].
  intros I. apply in_map_iff in I. destruct I as [b [E I]].
  apply Inj in E. now subst b.
Qed.

Lemma positions_NoDup : forall vs,
  staticShape vs = true -> NoDup (positions vs).
Proof.
  intros vs St. destruct (linearize_positions vs St) as [M _].
  apply (NoDup_map_inv (linearize vs)). rewrite M.
  apply NoDup_map_injective; [|apply seq_NoDup].
  intros a b E. inversion E. lia.
Qed.

Lemma nth_error_map_seq : forall A (g : nat -> A) n s j,
  (j < n)%nat -> nth_error (map g (seq s n)) j = Some (g (s + j)%nat).
Proof.
  intros A g n; induction n as [|n IH]; intros s [|j] L; try lia;
    cbn [seq map nth_error].
  - now rewrite Nat.add_0_r.
  - rewrite IH by lia. do 2 f_equal. lia.
Qed.

Lemma positions_index : forall vs pos,
  staticShape vs = true -> Forall2 (fun l v => 0 <= l < v) pos vs ->
  exists j,
    nth_error (positions vs) j = Some pos /\
    linearize vs pos = Some (Z.of_nat j) /\
    (j < length (positions vs))%nat.
Proof.
  intros vs pos St F. apply In_positions in F.
  apply In_nth_error in F. destruct F as [j F]. exists j.
  assert (L : (j < length (positions vs))%nat)
    by (apply nth_error_Some; congruence).
  split; [exact F|]. split; [|exact L].
  destruct (linearize_positions vs St) as [M _].
  assert (E := map_nth_error (linearize vs) j (positions vs) F).
  rewrite M in E.
  rewrite nth_error_map_seq in E by exact L.
  cbn [Nat.add] in E. now inversion E.
Qed.

Lemma replaceAt_map_upd : forall (f : list Z -> Z) ps j pos z,
  NoDup ps -> nth_error ps j = Some pos ->
  replaceAt (map f ps) j z
  = map (fun lane => if list_eq_dec Z.eq_dec lane pos then z else f lane) ps.
Proof.
  intros f ps; induction ps as [|a ps IH]; intros j pos z N H;
    [destruct j; discriminate|].
  inversion N as [|? ? Na N']; subst. destruct j as [|j].
  - inversion H; subst a. cbn [map replaceAt].
    destruct (list_eq_dec Z.eq_dec pos pos) as [_|Abs]; [|contradiction].
    f_equal. apply map_ext_in. intros lane I.
    destruct (list_eq_dec Z.eq_dec lane pos) as [E|_]; [|reflexivity].
    subst lane. contradiction.
  - cbn [nth_error] in H. cbn [map replaceAt].
    destruct (list_eq_dec Z.eq_dec a pos) as [E|_].
    + subst a. exfalso. apply Na. eapply nth_error_In; eauto.
    + f_equal. now apply IH.
Qed.

Lemma address_scratch_window : forall mem vs sz c pos j,
  inWindow sz pos = true -> length pos = length vs ->
  linearize vs pos = Some (Z.of_nat j) ->
  address (mem ++ [{| bufShape := vs; cells := c |}])
    {| buffer := length mem; viewOffsets := repeat 0 (length vs);
       viewSizes := sz |} pos
  = Some ({| bufShape := vs; cells := c |}, j).
Proof.
  intros mem vs sz c pos j W L E. unfold address.
  cbn [viewSizes buffer viewOffsets].
  rewrite W, nth_error_last, <- L, addPos_zero. cbn [bufShape].
  now rewrite E, Nat2Z.id.
Qed.

(** Writing a value per position of a window into the scratch buffer
    overwrites the cells of these positions and keeps the others. *)
Lemma writeCells_window : forall mem vs sz (v : list Z -> Z) qs f,
  staticShape vs = true ->
  (forall pos, In pos qs ->
     Forall2 (fun l d => 0 <= l < d) pos vs /\ inWindow sz pos = true) ->
  writeCells (mem ++ [{| bufShape := vs; cells := map f (positions vs) |}])
    {| buffer := length mem; viewOffsets := repeat 0 (length vs);
       viewSizes := sz |} (map (fun pos => (pos, v pos)) qs)
  = Some (mem ++
          [{| bufShape := vs;
              cells := map (fun lane =>
                              if in_dec (list_eq_dec Z.eq_dec) lane qs
                              then v lane else f lane) (positions vs) |}]).
Proof.
  intros mem vs sz v qs; induction qs as [|pos qs IH]; intros f St H.
  - cbn [map writeCells]. do 4 f_equal.
  - destruct (H pos (or_introl eq_refl)) as [F W].
    destruct (positions_index vs pos St F) as [j [Ej [Lj Bj]]].
    cbn [map writeCells]. unfold writeCell.
    rewrite (address_scratch_window mem vs sz _ pos j W
               (Forall2_length F) Lj).
    cbn [cells bufShape buffer]. rewrite length_map.
    replace (j <? length (positions vs))%nat with true
      by (symmetry; now apply Nat.ltb_lt).
    rewrite replaceAt_last,
      (replaceAt_map_upd f _ j pos (v pos) (positions_NoDup vs St) Ej).
    rewrite IH; [|exact St | intros q I; apply H; now right].
    do 4 f_equal. apply map_ext. intros lane.
    destruct (in_dec (list_eq_dec Z.eq_dec) lane qs) as [I|NI];
      destruct (in_dec (list_eq_dec Z.eq_dec) lane (pos :: qs)) as [I'|NI'];
      try reflexivity.
    + exfalso. apply NI'. now right.
    + destruct (list_eq_dec Z.eq_dec lane pos) as [E|NE];
        [now subst lane|].
      destruct I' as [E|I']; [now contradiction NE | contradiction].
    + destruct (list_eq_dec Z.eq_dec lane pos) as [E|NE]; [|reflexivity].
      exfalso. apply NI'. now left.
Qed.

Lemma inWindow_iff : forall sz pos,
  inWindow sz pos = true <-> Forall2 (fun l d => 0 <= l < d) pos sz.
Proof.
  intros sz pos. split; [|apply inWindow_positions].
  revert pos. induction sz as [|d sz IH]; intros [|l pos] H;
    try discriminate H; [constructor|].
  cbn [inWindow] in H. apply andb_true_iff in H. destruct H as [H W].
  apply andb_true_iff in H. destruct H as [H1 H2].
  apply Z.leb_le in H1. apply Z.ltb_lt in H2.
  constructor; [lia | now apply IH].
Qed.

(** Filling the fresh scratch buffer puts the value in every cell. *)
Lemma scratch_fill : forall mem vs z,
  staticShape vs = true ->
  fillView
    (mem ++ [{| bufShape := vs;
                cells := repeat 0 (Z.to_nat (fold_right Z.mul 1 vs)) |}])
    {| buffer := length mem; viewOffsets := repeat 0 (length vs);
       viewSizes := vs |} z
  = Some (mem ++ [{| bufShape := vs;
                     cells := map (fun _ => z) (positions vs) |}]).
Proof.
  intros mem vs z St. unfold fillView. cbn [viewSizes].
  destruct (linearize_positions vs St) as [_ N].
  replace (repeat 0 (Z.to_nat (fold_right Z.mul 1 vs)))
    with (map (fun _ : list Z => 0) (positions vs))
    by (rewrite map_const; f_equal; lia).
  rewrite (writeCells_window mem vs vs (fun _ => z) (positions vs)
             (fun _ => 0) St).
  - do 4 f_equal. apply map_ext_in. intros lane I.
    destruct (in_dec (list_eq_dec Z.eq_dec) lane (positions vs));
      [reflexivity | contradiction].
  - intros pos I. apply positions_In in I.
    split; [exact I | now apply inWindow_positions].
Qed.

(** ** The intersection at run time *)

Lemma overlap_length : forall ds idxs vs,
  length ds = length vs -> length idxs = length vs ->
  length (overlap ds idxs vs) = length vs.
Proof.
  induction ds as [|d ds IH]; intros [|i idxs] [|v vs] L1 L2;
    try discriminate; [reflexivity|].
  cbn [overlap length]. f_equal. apply IH; simpl in *; lia.
Qed.

Lemma overlap_nth : forall ds idxs vs,
  length ds = length vs -> length idxs = length vs ->
  map (fun k => Z.min (nth k ds 0 - nth k idxs 0) (nth k vs 0))
    (seq 0 (length vs))
  = overlap ds idxs vs.
Proof.
  induction ds as [|d ds IH]; intros [|i idxs] [|v vs] L1 L2;
    try discriminate; [reflexivity|].
  cbn [length seq map overlap nth]. f_equal.
  rewrite <- seq_shift, map_map. cbn [nth].
  apply IH; simpl in *; lia.
Qed.

(** A lane of a defined transfer is active exactly when it lies in the
    intersection, and then it touches the position [index + lane] of the
    region. *)
Lemma lanePosition_window : forall lane vs,
  Forall2 (fun l v => 0 <= l < v) lane vs ->
  forall flags ds idxs o,
  lanePosition flags ds idxs lane = Some o ->
  match o with
  | Some p =>
      addPos idxs lane = Some p /\ inWindow ds p = true /\
      Forall2 (fun l s => 0 <= l < s) lane (overlap ds idxs vs)
  | None => ~ Forall2 (fun l s => 0 <= l < s) lane (overlap ds idxs vs)
  end.
Proof.
  induction 1 as [|l v lane vs Hl F IH]; intros flags ds idxs o H.
  - destruct ds, idxs, flags; try discriminate H. inversion H.
    repeat split; constructor.
  - destruct flags as [|f flags], ds as [|d ds], idxs as [|i idxs];
      try discriminate H.
    cbn [lanePosition] in H. cbv zeta in H.
    destruct (Z.ltb_spec (i + l) 0) as [Neg|Pos]; [discriminate H|].
    destruct (Z.ltb_spec (i + l) d) as [Lt|Ge].
    + destruct (lanePosition flags ds idxs lane) as [[r|]|] eqn:E;
        [| |discriminate H]; inversion H; subst o;
        specialize (IH _ _ _ _ E); cbn beta iota in IH.
      * destruct IH as [A [W O]]. cbn [addPos inWindow overlap].
        rewrite A, W.
        replace (0 <=? i + l) with true by (symmetry; apply Z.leb_le; lia).
        replace (i + l <? d) with true by (symmetry; apply Z.ltb_lt; lia).
        repeat split. constructor; [lia | exact O].
      * cbn [overlap]. intros Abs. inversion Abs; subst. contradiction.
    + destruct f; [discriminate H|].
      destruct (lanePosition flags ds idxs lane); [|discriminate H].
      inversion H; subst o. cbn [overlap]. intros Abs.
      inversion Abs; subst. lia.
Qed.

Lemma Forall2_overlap : forall ds idxs vs pos,
  length ds = length vs -> length idxs = length vs ->
  Forall2 (fun l s => 0 <= l < s) pos (overlap ds idxs vs) ->
  Forall2 (fun l v => 0 <= l < v) pos vs.
Proof.
  induction ds as [|d ds IH]; intros [|i idxs] [|v vs] pos L1 L2 H;
    try discriminate; [exact H|].
  cbn [overlap] in H. inversion H; subst.
  constructor; [lia|]. apply (IH idxs); simpl in *; try lia. assumption.
Qed.

Lemma addPos_Some : forall a b,
  length a = length b ->
  exists c, addPos a b = Some c /\ length c = length a.
Proof.
  induction a as [|x a IH]; intros [|y b] L; try discriminate.
  - exists []. split; reflexivity.
  - destruct (IH b) as [c [E Lc]]; [simpl in L; lia|].
    exists (x + y :: c). cbn [addPos length]. rewrite E. now rewrite Lc.
Qed.

Lemma addPos_assoc : forall a b c ab bc,
  addPos a b = Some ab -> addPos b c = Some bc ->
  addPos ab c = addPos a bc.
Proof.
  induction a as [|x a IH]; intros [|y b] [|z c] ab bc H1 H2;
    cbn [addPos] in *; try discriminate.
  - inversion H1; inversion H2. reflexivity.
  - destruct (addPos a b) as [r1|] eqn:E1; [|discriminate].
    destruct (addPos b c) as [r2|] eqn:E2; [|discriminate].
    inversion H1; inversion H2; subst. cbn [addPos].
    rewrite (IH b c r1 r2 E1 E2).
    destruct (addPos a r2); [|reflexivity]. now rewrite Z.add_assoc.
Qed.

Lemma addPos_zeros : forall n,
  addPos (repeat 0 n) (repeat 0 n) = Some (repeat 0 n).
Proof.
  induction n as [|n IH]; [reflexivity|]. cbn [repeat addPos].
  now rewrite IH.
Qed.

(** Reading through the subview of the region at the indices is reading
    the region at [index + position]. *)
Lemma readCell_subview : forall mem b woff ds abs szs idxs pos p,
  addPos woff idxs = Some abs -> addPos idxs pos = Some p ->
  inWindow szs pos = true -> inWindow ds p = true ->
  readCell mem {| buffer := b; viewOffsets := abs; viewSizes := szs |} pos
  = readCell mem {| buffer := b; viewOffsets := woff; viewSizes := ds |} p.
Proof.
  intros mem b woff ds abs szs idxs pos p A P W1 W2.
  unfold readCell, address. cbn [viewSizes buffer viewOffsets].
  now rewrite W1, W2, (addPos_assoc _ _ _ _ _ A P).
Qed.

Lemma mapOpt_map : forall A B C (f : B -> option C) (g : A -> B) l,
  mapOpt f (map g l) = mapOpt (fun a => f (g a)) l.
Proof.
  intros A B C f g l; induction l as [|a l IH]; [reflexivity|].
  cbn [map mapOpt]. now rewrite IH.
Qed.

Lemma exec_overlapSizeOps : forall x a w wa idxs dims n m,
  (a < n)%nat ->
  isExternal (source x) = true -> forallb isExternal (indices x) = true ->
  viewOf m (source x) = Some w -> results m a 0 = Some (RMemRef wa) ->
  mapOpt (indexOf m) (indices x) = Some idxs ->
  (forall k i, In (k, i) dims ->
     0 <= i /\ (Z.to_nat i < length (indices x))%nat /\
     (Z.to_nat i < length (viewSizes w))%nat /\
     (k < length (viewSizes wa))%nat) ->
  exists m',
    execOps (overlapSizeOps x (OpResult a 0) n dims) m = Some m' /\
    args m' = args m /\ memory m' = memory m /\
    (forall id k, (id < n)%nat -> results m' id k = results m id k) /\
    mapOpt (foldResultOf m') (overlapSizes n dims)
    = Some (map (fun dim =>
                   Z.min (nth (Z.to_nat (snd dim)) (viewSizes w) 0
                          - nth (Z.to_nat (snd dim)) idxs 0)
                         (nth (fst dim) (viewSizes wa) 0)) dims).
Proof.
  intros x a w wa idxs dims; induction dims as [|[k i] dims IH];
    intros n m La Xs Xi Hw Ha Hi Hd.
  - exists m. repeat split; reflexivity.
  - destruct (Hd k i (or_introl eq_refl)) as [I0 [I1 [I2 I3]]].
    set (d := nth (Z.to_nat i) (viewSizes w) 0).
    set (iv := nth (Z.to_nat i) idxs 0).
    set (vk := nth k (viewSizes wa) 0).
    set (m1 := bindResult n 0 (RIndex d) m).
    set (m2 := bindResult (S n) 0 (RIndex vk) m1).
    set (m3 := bindResult (S (S n)) 0 (RIndex (Z.min (d - iv) vk)) m2).
    assert (E1 : execOp (DimOp n (source x) i) m = Some m1).
    { cbn [execOp]. rewrite Hw. unfold lookupZ.
      replace (i <? 0) with false by (symmetry; apply Z.ltb_ge; lia).
      rewrite (nth_error_nth' _ 0) by exact I2. reflexivity. }
    assert (E2 : execOp (DimOp (S n) (OpResult a 0) (Z.of_nat k)) m1
                 = Some m2).
    { cbn [execOp]. unfold m1. lookups. rewrite Ha. unfold lookupZ.
      replace (Z.of_nat k <? 0) with false by (symmetry; apply Z.ltb_ge; lia).
      rewrite Nat2Z.id, (nth_error_nth' _ 0) by exact I3. reflexivity. }
    assert (Li : length idxs = length (indices x))
      by exact (mapOpt_length _ _ _ _ _ Hi).
    assert (Ix : indexOf m2 (nth (Z.to_nat i) (indices x) (Arg 0)) = Some iv).
    { assert (Ev : nth_error (indices x) (Z.to_nat i)
                   = Some (nth (Z.to_nat i) (indices x) (Arg 0)))
        by (apply nth_error_nth'; exact I1).
      destruct (mapOpt_nth_error _ _ _ _ _ _ _ Hi Ev) as [b [Eb Fb]].
      rewrite (nth_error_nth' _ 0) in Eb by lia. inversion Eb; subst b.
      unfold indexOf in *. rewrite (lookupValue_external m m2);
        [exact Fb | | reflexivity].
      rewrite forallb_forall in Xi. apply Xi. eapply nth_error_In; eauto. }
    assert (E3 : execOp (AffineMinOp (S (S n))
                           [SubExpr (DimExpr 0) (DimExpr 1); DimExpr 2]
                           [OpResult n 0;
                            nth (Z.to_nat i) (indices x) (Arg 0);
                            OpResult (S n) 0]) m2 = Some m3).
    { cbn [execOp mapOpt]. rewrite Ix. unfold m2, m1. lookups.
      cbn [evalAffineExpr nth_error minimum fold_left]. reflexivity. }
    assert (Hw3 : viewOf m3 (source x) = Some w).
    { unfold viewOf. rewrite (lookupValue_external m m3); auto. }
    assert (Hi3 : mapOpt (indexOf m3) (indices x) = Some idxs)
      by (rewrite (mapOpt_indexOf_external m m3); auto).
    assert (Ha3 : results m3 a 0 = Some (RMemRef wa)).
    { unfold m3, m2, m1. cbn [bindResult results]. eqb_nat. exact Ha. }
    destruct (IH (3 + n)%nat m3 ltac:(lia) Xs Xi Hw3 Ha3 Hi3
                (fun k' i' I => Hd k' i' (or_intror I)))
      as [m' [E [A' [M' [R' S']]]]].
    exists m'. split.
    { cbn [overlapSizeOps app execOps]. rewrite E1, E2, E3. exact E. }
    split; [rewrite A'; reflexivity|]. split; [rewrite M'; reflexivity|].
    split.
    { intros id k0 L. rewrite R' by lia. unfold m3, m2, m1.
      cbn [bindResult results]. eqb_nat. reflexivity. }
    cbn [overlapSizes mapOpt map fst snd foldResultOf]. rewrite S'.
    unfold indexOf. cbn [lookupValue]. rewrite R' by lia.
    unfold m3. cbn [bindResult results]. rewrite !Nat.eqb_refl.
    reflexivity.
Qed.

Lemma overlapSizes_ids : forall dims n o,
  In o (overlapSizes n dims) ->
  exists id, o = Val (OpResult id 0) /\ (id < 3 * length dims + n)%nat.
Proof.
  induction dims as [|dim dims IH]; intros n o H; [contradiction|].
  cbn [overlapSizes] in H. destruct H as [<-|H].
  - exists (S (S n)). split; [reflexivity | simpl; lia].
  - destruct (IH _ _ H) as [id [E L]]. exists id.
    split; [exact E | simpl; lia].
Qed.

Lemma forallb_repeat : forall A (P : A -> bool) a n,
  P a = true -> forallb P (repeat a n) = true.
Proof.
  intros A P a n H. induction n as [|n IH]; [reflexivity|].
  cbn [repeat forallb]. now rewrite H, IH.
Qed.

Lemma mapOpt_In : forall A B (f : A -> option B) l l' a,
  mapOpt f l = Some l' -> In a l -> exists b, f a = Some b /\ In b l'.
Proof.
  intros A B f l l' a H I. apply In_nth_error in I. destruct I as [k I].
  destruct (mapOpt_nth_error _ _ _ _ _ _ _ H I) as [b [E F]].
  exists b. split; [exact F | eapply nth_error_In; eauto].
Qed.

Lemma mapOpt_compose_pointwise :
  forall A B C (f1 : A -> option B) (f2 : B -> option C) (F : A -> C) l l1 l2,
  mapOpt f1 l = Some l1 -> mapOpt f2 l1 = Some l2 ->
  (forall a o z, In a l -> f1 a = Some o -> f2 o = Some z -> z = F a) ->
  l2 = map F l.
Proof.
  intros A B C f1 f2 F l; induction l as [|a l IH]; intros l1 l2 H1 H2 P.
  - inversion H1; subst. inversion H2. reflexivity.
  - cbn [mapOpt] in H1. destruct (f1 a) as [o|] eqn:E1; [|discriminate].
    destruct (mapOpt f1 l) as [r1|] eqn:R1; [|discriminate].
    inversion H1; subst l1. cbn [mapOpt] in H2.
    destruct (f2 o) as [z|] eqn:E2; [|discriminate].
    destruct (mapOpt f2 r1) as [r2|] eqn:R2; [|discriminate].
    inversion H2; subst l2. cbn [map]. f_equal.
    + exact (P a o z (or_introl eq_refl) E1 E2).
    + apply (IH r1 r2 eq_refl R2). intros b o' z' I. apply P. now right.
Qed.

(** The two views of the intersection, for a read: the region at the
    transfer indices and the scratch buffer at zero, both of the overlap
    extents. *)
Lemma exec_intersectionOps_read : forall x a w idxs n m mem,
  (a < n)%nat -> kind x = TransferRead ->
  isExternal (source x) = true -> forallb isExternal (indices x) = true ->
  viewOf m (source x) = Some w ->
  results m a 0 = Some (RMemRef (scratchView x mem)) ->
  mapOpt (indexOf m) (indices x) = Some idxs ->
  getRank (getShapedType x) = getTransferRank x ->
  length (indices x) = getTransferRank x ->
  length (vectorShape (getVectorType x)) = getTransferRank x ->
  length (viewSizes w) = getTransferRank x ->
  length (viewOffsets w) = getTransferRank x ->
  let a' := (3 * length (zipResultAndIndexing x) + n)%nat in
  let szs := overlap (viewSizes w) idxs (vectorShape (getVectorType x)) in
  exists m' abs,
    execOps (intersectionOps x (OpResult a 0) n) m = Some m' /\
    args m' = args m /\ memory m' = memory m /\
    (forall id k, (id < n)%nat -> results m' id k = results m id k) /\
    addPos (viewOffsets w) idxs = Some abs /\
    results m' a' 0
    = Some (RMemRef {| buffer := buffer w; viewOffsets := abs;
                       viewSizes := szs |}) /\
    results m' (S a') 0
    = Some (RMemRef {| buffer := length mem;
                       viewOffsets :=
                         repeat 0 (length (vectorShape (getVectorType x)));
                       viewSizes := szs |}).
Proof.
  intros x a w idxs n m mem La K Xs Xi Hw Ha Hi Rk Li Lv Lw Lo a' szs.
  set (vs := vectorShape (getVectorType x)) in *.
  set (r := getTransferRank x) in *.
  assert (Lead : getLeadingShapedRank x = 0)
    by (unfold getLeadingShapedRank; fold r; lia).
  assert (Lx : length idxs = r)
    by (rewrite (mapOpt_length _ _ _ _ _ Hi); exact Li).
  assert (Dims : zipResultAndIndexing x
                 = map (fun k => (k, Z.of_nat k)) (seq 0 r)).
  { unfold zipResultAndIndexing. fold r. rewrite Lead.
    apply map_ext. intros k. now rewrite Z.add_0_l. }
  destruct (exec_overlapSizeOps x a w (scratchView x mem) idxs
              (zipResultAndIndexing x) n m La Xs Xi Hw Ha Hi)
    as [m1 [E1 [A1 [M1 [R1 S1]]]]].
  { intros k i I. rewrite Dims in I. apply in_map_iff in I.
    destruct I as [k0 [E I]]. inversion E; subst k i. apply in_seq in I.
    rewrite Nat2Z.id. cbn [scratchView viewSizes]. fold vs. lia. }
  assert (Sz : map (fun dim : nat * Z =>
                      Z.min (nth (Z.to_nat (snd dim)) (viewSizes w) 0
                             - nth (Z.to_nat (snd dim)) idxs 0)
                            (nth (fst dim) (viewSizes (scratchView x mem)) 0))
                 (zipResultAndIndexing x) = szs).
  { rewrite Dims, map_map. cbn [fst snd scratchView viewSizes]. fold vs.
    unfold szs. rewrite <- (overlap_nth (viewSizes w) idxs vs) by lia.
    rewrite Lv. apply map_ext. intros k. now rewrite Nat2Z.id. }
  rewrite Sz in S1.
  assert (Ss : subViewSizes x n = overlapSizes n (zipResultAndIndexing x)).
  { unfold subViewSizes. rewrite Lead. reflexivity. }
  destruct (addPos_Some (viewOffsets w) idxs ltac:(lia)) as [abs [Ab Lab]].
  assert (Lz : length szs = r)
    by (unfold szs; rewrite overlap_length; lia).
  set (srcView := {| buffer := buffer w; viewOffsets := abs;
                     viewSizes := szs |}).
  set (dstView := {| buffer := length mem; viewOffsets := repeat 0 (length vs);
                     viewSizes := szs |}).
  set (m2 := bindResult a' 0 (RMemRef srcView) m1).
  set (m3 := bindResult (S a') 0 (RMemRef dstView) m2).
  assert (Hw1 : viewOf m1 (source x) = Some w).
  { unfold viewOf. rewrite (lookupValue_external m m1); auto. }
  assert (Hi1 : mapOpt (indexOf m1) (indices x) = Some idxs)
    by (rewrite (mapOpt_indexOf_external m m1); auto).
  assert (St1 : forall m0, mapOpt (foldResultOf m0)
                             (repeat (Attr 1) (getRank (getShapedType x)))
                           = Some (repeat 1 (getRank (getShapedType x))))
    by (intros m0; now apply mapOpt_repeat).
  assert (E2 : execOp (SubViewOp a' (source x) (map Val (indices x))
                         (subViewSizes x n)
                         (repeat (Attr 1) (getRank (getShapedType x)))) m1
               = Some m2).
  { cbn [execOp]. rewrite Hw1, mapOpt_map.
    change (mapOpt (fun v => foldResultOf m1 (Val v)) (indices x))
      with (mapOpt (indexOf m1) (indices x)).
    rewrite Hi1, Ss, S1, St1, forallb_repeat by reflexivity.
    rewrite Ab, Lz, Lab, Lo, Nat.eqb_refl. reflexivity. }
  assert (S2 : mapOpt (foldResultOf m2) (subViewSizes x n) = Some szs).
  { rewrite Ss, <- S1. apply mapOpt_ext. intros o I.
    destruct (overlapSizes_ids _ _ _ I) as [id [-> L]].
    unfold foldResultOf, indexOf. unfold m2. cbn [lookupValue bindResult results].
    replace (id =? a')%nat with false
      by (symmetry; apply Nat.eqb_neq; unfold a'; lia).
    reflexivity. }
  assert (E3 : execOp (SubViewOp (S a') (OpResult a 0)
                         (repeat (Attr 0) (getRank (getShapedType x)))
                         (subViewSizes x n)
                         (repeat (Attr 1) (getRank (getShapedType x)))) m2
               = Some m3).
  { cbn [execOp].
    assert (Va : viewOf m2 (OpResult a 0) = Some (scratchView x mem)).
    { unfold viewOf, m2. cbn [lookupValue bindResult results].
      replace (a =? a')%nat with false
        by (symmetry; apply Nat.eqb_neq; unfold a'; lia).
      cbn [andb]. rewrite R1 by exact La. now rewrite Ha. }
    rewrite Va, S2, St1, forallb_repeat by reflexivity.
    rewrite (mapOpt_repeat _ _ (foldResultOf m2) (Attr 0) 0) by reflexivity.
    cbn [scratchView viewOffsets buffer]. fold vs.
    rewrite Rk, Lv, addPos_zeros, Lz, repeat_length, Nat.eqb_refl.
    unfold m3, dstView. now rewrite Lv. }
  exists m3, abs. split.
  { unfold intersectionOps. unfold isaWrite. rewrite K. cbv zeta.
    fold a'. rewrite execOps_app, E1. cbn [execOps]. now rewrite E2, E3. }
  split; [exact A1|]. split; [exact M1|]. split.
  { intros id k L. unfold m3, m2. cbn [bindResult results].
    replace (id =? S a')%nat with false
      by (symmetry; apply Nat.eqb_neq; unfold a'; lia).
    replace (id =? a')%nat with false
      by (symmetry; apply Nat.eqb_neq; unfold a'; lia).
    cbn [andb]. now apply R1. }
  split; [exact Ab|]. split.
  - unfold m3, m2. cbn [bindResult results].
    replace (a' =? S a')%nat with false
      by (symmetry; apply Nat.eqb_neq; lia).
    now rewrite !Nat.eqb_refl.
  - unfold m3. cbn [bindResult results]. now rewrite !Nat.eqb_refl.
Qed.

(** Copying the intersection into the scratch buffer filled with the
    padding leaves there the vector a defined read observes. *)
Lemma copy_overlap_into_scratch : forall mem vs flags w idxs abs pad ls vec,
  staticShape vs = true -> (buffer w < length mem)%nat ->
  length (viewSizes w) = length vs -> length idxs = length vs ->
  addPos (viewOffsets w) idxs = Some abs ->
  mapOpt (fun lane => lanePosition flags (viewSizes w) idxs lane)
    (positions vs) = Some ls ->
  mapOpt (fun l => match l with
                   | Some pos => readCell mem w pos
                   | None => Some pad
                   end) ls = Some vec ->
  copyView
    (mem ++ [{| bufShape := vs;
                cells := map (fun _ => pad) (positions vs) |}])
    {| buffer := buffer w; viewOffsets := abs;
       viewSizes := overlap (viewSizes w) idxs vs |}
    {| buffer := length mem; viewOffsets := repeat 0 (length vs);
       viewSizes := overlap (viewSizes w) idxs vs |}
  = Some (mem ++ [{| bufShape := vs; cells := vec |}]).
Proof.
  intros mem vs flags [b woff ds] idxs abs pad ls vec St Hb Lw Lx Ab Ls Rd.
  cbn [buffer viewOffsets viewSizes] in *.
  set (w := {| buffer := b; viewOffsets := woff; viewSizes := ds |}) in *.
  set (szs := overlap ds idxs vs).
  set (fill := {| bufShape := vs;
                  cells := map (fun _ : list Z => pad) (positions vs) |}).
  assert (Key : forall pos, In pos (positions szs) ->
            Forall2 (fun l d => 0 <= l < d) pos vs /\
            inWindow szs pos = true /\
            readCell (mem ++ [fill])
              {| buffer := b; viewOffsets := abs; viewSizes := szs |} pos
            = Some (cellAt mem w idxs pos)).
  { intros pos I. apply positions_In in I.
    assert (F : Forall2 (fun l d => 0 <= l < d) pos vs)
      by (apply (Forall2_overlap ds idxs); assumption).
    split; [exact F|]. split; [now apply inWindow_positions|].
    destruct (mapOpt_In _ _ _ _ _ pos Ls (In_positions _ _ F))
      as [o [Eo Io]].
    assert (Wn := lanePosition_window pos vs F flags ds idxs o Eo).
    destruct o as [p|]; [|contradiction].
    destruct Wn as [A [W _]].
    destruct (mapOpt_In _ _ _ _ _ (Some p) Rd Io) as [z [Ez _]].
    rewrite readCell_app by exact Hb.
    rewrite (readCell_subview mem b woff ds abs szs idxs pos p Ab A
               (inWindow_positions _ _ I) W).
    fold w. unfold cellAt. now rewrite A, Ez. }
  unfold copyView. cbn [viewSizes].
  destruct (list_eq_dec Z.eq_dec szs szs) as [_|Abs]; [|contradiction].
  rewrite (mapOpt_all _ _ _ (fun pos => (pos, cellAt mem w idxs pos)));
    [|intros pos I; destruct (Key pos I) as [_ [_ ->]]; reflexivity].
  unfold fill.
  rewrite (writeCells_window mem vs szs (cellAt mem w idxs) (positions szs)
             (fun _ => pad) St);
    [|intros pos I; destruct (Key pos I) as [F [W _]]; now split].
  do 4 f_equal. symmetry.
  apply (mapOpt_compose_pointwise _ _ _ _ _ _ _ _ _ Ls Rd).
  intros lane o z I Eo Ez. apply positions_In in I.
  assert (Wn := lanePosition_window lane vs I flags ds idxs o Eo).
  destruct o as [p|].
  - destruct Wn as [A [_ O]].
    destruct (in_dec (list_eq_dec Z.eq_dec) lane (positions szs)) as [_|N];
      [|exfalso; apply N; now apply In_positions].
    unfold cellAt. fold w in Ez. now rewrite A, Ez.
  - destruct (in_dec (list_eq_dec Z.eq_dec) lane (positions szs)) as [I'|_];
      [|now inversion Ez].
    exfalso. apply Wn. now apply positions_In.
Qed.

(** The else-region of a read under the bulk-copy strategy: the scratch
    buffer is filled with the padding, the intersection with the region is
    copied into it, and the buffer is handed over with all-zero indices. When
    the original read is defined, the buffer then holds its vector. *)
Lemma exec_bulkReadRegion : forall x t a n m mem w idxs pad vec,
  (S a < n)%nat -> kind x = TransferRead ->
  staticShape (vectorShape (getVectorType x)) = true ->
  isExternal (source x) = true -> forallb isExternal (indices x) = true ->
  viewOf m (source x) = Some w ->
  mapOpt (indexOf m) (indices x) = Some idxs ->
  scalarOf m (getPadding x) = Some pad ->
  memory m = mem ++ [scratchBuffer x] -> (buffer w < length mem)%nat ->
  results m a 0 = Some (RMemRef (scratchView x mem)) ->
  results m (S a) 0 = Some (RIndex 0) ->
  getRank (getShapedType x) = getTransferRank x ->
  length (indices x) = getTransferRank x ->
  length (vectorShape (getVectorType x)) = getTransferRank x ->
  length (viewSizes w) = getTransferRank x ->
  length (viewOffsets w) = getTransferRank x ->
  transferRead mem x w idxs pad = Some vec ->
  exists m',
    execOps (bulkReadRegion x t (OpResult a 0) (OpResult (S a) 0) n) m
    = Some m' /\
    yielded m' = RMemRef (scratchView x mem)
                 :: repeat (RIndex 0) (getTransferRank x) /\
    args m' = args m /\
    memory m' = mem ++ [{| bufShape := vectorShape (getVectorType x);
                           cells := vec |}] /\
    (forall id k, (id < n)%nat -> results m' id k = results m id k).
Proof.
  intros x t a n m mem w idxs pad vec La K St Xs Xi Hw Hi Hp Hmem Hb Ha Hz
    Rk Li Lv Lw Lo T.
  set (vs := vectorShape (getVectorType x)) in *.
  set (a' := (3 * length (zipResultAndIndexing x) + S n)%nat).
  set (m1 := setMemory
               (mem ++ [{| bufShape := vs;
                           cells := map (fun _ => pad) (positions vs) |}]) m).
  assert (E1 : execOp (FillOp n [getPadding x] [OpResult a 0]) m = Some m1).
  { cbn [execOp]. rewrite Hp. unfold viewOf. cbn [lookupValue].
    rewrite Ha, Hmem. unfold scratchBuffer. fold vs.
    rewrite (scratch_fill mem vs pad St
             : fillView _ (scratchView x mem) _ = _).
    reflexivity. }
  assert (Hw1 : viewOf m1 (source x) = Some w) by exact Hw.
  assert (Hi1 : mapOpt (indexOf m1) (indices x) = Some idxs) by exact Hi.
  assert (Ha1 : results m1 a 0 = Some (RMemRef (scratchView x mem)))
    by exact Ha.
  destruct (exec_intersectionOps_read x a w idxs (S n) m1 mem
              ltac:(lia) K Xs Xi Hw1 Ha1 Hi1 Rk Li Lv Lw Lo)
    as [m2 [abs [E2 [A2 [M2 [R2 [Ab [Vs Vd]]]]]]]].
  fold a' in Vs, Vd. fold vs in Vs, Vd.
  assert (Lx : length idxs = length vs)
    by (rewrite (mapOpt_length _ _ _ _ _ Hi); lia).
  unfold transferRead in T.
  destruct (lanes x w idxs) as [ls|] eqn:Ls; [|discriminate T].
  unfold lanes in Ls. rewrite Lw, Nat.sub_diag in Ls. cbn [repeat app] in Ls.
  fold vs in Ls.
  set (m3 := setMemory (mem ++ [{| bufShape := vs; cells := vec |}]) m2).
  assert (E3 : execOp (CopyOp (2 + a') (OpResult a' 0) (OpResult (S a') 0)) m2
               = Some m3).
  { cbn [execOp]. unfold viewOf. cbn [lookupValue]. rewrite Vs, Vd, M2.
    unfold m1. cbn [setMemory memory].
    rewrite (copy_overlap_into_scratch mem vs (laneFlags x) w idxs abs pad
               ls vec St Hb ltac:(lia) Lx Ab Ls T).
    reflexivity. }
  set (m4 := bindResult (3 + a') 0 (RMemRef (scratchView x mem)) m3).
  assert (E4 : execOp (CastOp (3 + a') t (OpResult a 0)) m3 = Some m4).
  { cbn [execOp]. unfold viewOf, m3. cbn [lookupValue setMemory results].
    rewrite R2 by lia. now rewrite Ha1. }
  exists (setYielded (RMemRef (scratchView x mem)
                      :: repeat (RIndex 0) (getTransferRank x)) m4).
  split.
  { unfold bulkReadRegion. cbv zeta. fold a'.
    cbn [app execOps]. rewrite E1, execOps_app, E2.
    cbn [execOps]. rewrite E3, E4. cbn [execOp mapOpt].
    rewrite (mapOpt_repeat _ _ _ _ (RIndex 0)).
    - unfold m4. lookups. reflexivity.
    - unfold m4, m3. cbn [lookupValue bindResult setMemory results].
      replace (S a =? 3 + a')%nat with false
        by (symmetry; apply Nat.eqb_neq; unfold a'; lia).
      cbn [andb]. rewrite R2 by lia. exact Hz. }
  split; [reflexivity|].
  split; [cbn [setYielded args m4 m3 bindResult setMemory]; exact A2|].
  split; [reflexivity|].
  intros id k L. unfold m4, m3.
  cbn [setYielded bindResult setMemory results].
  replace (id =? 3 + a')%nat with false
    by (symmetry; apply Nat.eqb_neq; unfold a'; lia).
  cbn [andb]. rewrite R2 by lia. reflexivity.
Qed.

(** X17: the slow path of a read split under the bulk-copy strategy. When
    at run time some participating dimension is out of bounds and the
    original read is defined, the rewritten program - allocation, bounds
    condition, the conditional whose else-region fills the scratch buffer
    with the padding, copies the intersection of the region at the indices
    with the buffer into it and yields the buffer with all-zero indices, and
    the read against the results of the conditional - observes exactly the
    vector the original read observes and leaves the memory as it was. *)
Theorem read_slow_path_bulk_copy : forall ifOp s s' m w idxs r,
  (forall a b, areCastCompatible a b = true -> getRank a = getRank b) ->
  isaRead (root s) = true -> verified (root s) = true ->
  isExternal (getPadding (root s)) = true ->
  block s = [] -> scopeEntry s = [] -> erased s = false ->
  splitFullAndPartialTransfer (root s) (withStrategy LinalgCopy) ifOp s
  = Done (success, s') ->
  let x := root s in
  staticShape (vectorShape (getVectorType x)) = true ->
  viewOf m (source x) = Some w -> fitsType w (getShapedType x) ->
  length (viewOffsets w) = length (viewSizes w) ->
  (buffer w < length (memory m))%nat ->
  mapOpt (indexOf m) (indices x) = Some idxs ->
  forallb (dimInBounds x idxs (viewSizes w)) (participatingDims x) = false ->
  execOriginal x m = Some r ->
  execRewritten s' m = Some r.
Proof.
  intros ifOp s s' m w idxs r Hc Rd Hv Ep Bs Ss Es H x St Hw Hfit Lo Hb Hi
    Slow Orig.
  assert (Sp : splits LinalgCopy = true) by reflexivity.
  destruct (read_split_state _ _ _ _ Sp Rd H)
    as [cond [s1 [scope [t [C [_ [_ [B [Sc [Er [_ Rt]]]]]]]]]]].
  fold x in C, B, Sc, Rt.
  destruct (split_scopeEntry _ _ _ _ _ _ Sp H C) as [Pre [M _]].
  fold x in Pre, M.
  assert (Hm : isMinorIdentity (permutation_map x) = true).
  { apply precondition_minor_identity.
    destruct (splitFullAndPartialTransferPrecondition x);
      [reflexivity | discriminate]. }
  assert (R := success_transfer_rank _ _ _ _ Hc Sp Hv H). fold x in R.
  assert (Hx := Hv). unfold verified in Hx. fold x in Hx.
  repeat rewrite andb_true_iff in Hx.
  destruct Hx as [[[[Li Lv] _] Xs] Xi]. apply Nat.eqb_eq in Li, Lv.
  assert (K : kind x = TransferRead).
  { unfold isaRead in Rd. fold x in Rd. destruct (kind x); try discriminate Rd.
    reflexivity. }
  (* the original read *)
  unfold execOriginal, execTransfer in Orig.
  rewrite M, Hm, Hw, Hi, K in Orig. cbn [negb orb] in Orig.
  destruct (scalarOf m (getPadding x)) as [pad|] eqn:Pd; [|discriminate Orig].
  destruct (transferRead (memory m) x w idxs pad) as [vec|] eqn:T;
    [|discriminate Orig].
  inversion Orig; subst r. clear Orig.
  destruct (slow_path_prefix x s cond s1 m w idxs Hm Hv C St Hw Hfit Hi Slow)
    as [condOps [m3 [Bc [E3 [A3 [M3 [Ra [Rz [B3 [cid [-> Lc]]]]]]]]]]].
  rewrite Bs in Bc. cbn [app] in Bc.
  set (a := nextOp s1) in *.
  set (th := sourceViewRegion x t (2 + S a)).
  set (n := (2 + S a + length th)%nat).
  set (el := bulkReadRegion x t (OpResult a 0) (OpResult (S a) 0) n).
  assert (E3' : execOps (map snd (scopeEntry s') ++ block s') m
                = execOps [IfOp (S (S a)) (OpResult cid 0)
                             (S (length (indices x))) th (Some el)] m3).
  { rewrite Sc, Ss, B, Bc. cbn [map snd app].
    change (readConditional LinalgCopy x (OpResult cid 0) (OpResult a 0)
              t (S a))
      with (IfOp (S (S a)) (OpResult cid 0) (S (length (indices x))) th
              (Some el)).
    change (condOps ++ [?c; ?i]) with (condOps ++ [c] ++ [i]).
    rewrite app_assoc.
    change (AllocaOp a (allocaType x) 32 :: (condOps ++ ?l) ++ ?r)
      with ((AllocaOp a (allocaType x) 32 :: condOps ++ l) ++ r).
    rewrite execOps_app, E3. reflexivity. }
  (* the machine at the entry of the else-region *)
  assert (Hw3 : viewOf (setYielded [] m3) (source x) = Some w).
  { unfold viewOf. rewrite (lookupValue_external m (setYielded [] m3));
      [exact Hw | exact Xs | exact A3]. }
  assert (Hi3 : mapOpt (indexOf (setYielded [] m3)) (indices x) = Some idxs).
  { rewrite (mapOpt_indexOf_external m (setYielded [] m3));
      [exact Hi | exact Xi | exact A3]. }
  assert (Hp3 : scalarOf (setYielded [] m3) (getPadding x) = Some pad).
  { rewrite <- Pd. unfold scalarOf.
    now rewrite (lookupValue_external m (setYielded [] m3)). }
  assert (Lw : length (viewSizes w) = getTransferRank x)
    by (destruct Hfit as [Lw _]; lia).
  destruct (exec_bulkReadRegion x t a n (setYielded [] m3) (memory m) w idxs
              pad vec ltac:(unfold n; lia) K St Xs Xi Hw3 Hi3 Hp3 M3 Hb Ra Rz
              ltac:(lia) ltac:(lia) Lv Lw ltac:(lia) T)
    as [m' [Et [Y [A' [M' R']]]]].
  fold el in Et.
  unfold execRewritten. rewrite E3', Er, Es.
  cbn [execOps]. rewrite execOp_if, B3, Et, Y. cbn [length].
  rewrite repeat_length, R, Nat.eqb_refl.
  set (ys := RMemRef (scratchView x (memory m))
             :: repeat (RIndex 0) (length (indices x))).
  set (m4 := bindResults (S (S a)) 0 ys m').
  destruct (bindResults_frame ys (S (S a)) 0 m') as [Ab [Mb Rb]].
  fold m4 in Ab, Mb, Rb.
  assert (Ly : length ys = S (length (indices x)))
    by (unfold ys; cbn [length]; now rewrite repeat_length).
  assert (V4 : viewOf m4 (OpResult (S (S a)) 0)
               = Some (scratchView x (memory m))).
  { unfold viewOf. cbn [lookupValue].
    assert (Kr : results m4 (S (S a)) 0 = nth_error ys 0)
      by (apply (bindResults_result ys (S (S a)) 0 m' 0); lia).
    rewrite Kr. reflexivity. }
  assert (I4 : mapOpt (indexOf m4)
                 (map (OpResult (S (S a))) (seq 1 (getTransferRank x))
                  ++ skipn (getTransferRank x) (indices x))
               = Some (repeat 0 (getTransferRank x))).
  { rewrite R, skipn_all, app_nil_r.
    rewrite <- (repeat_length 0 (length (indices x))) at 1.
    apply mapOpt_results. intros k i Hk.
    assert (Lk : (k < length (indices x))%nat).
    { rewrite <- (repeat_length 0 (length (indices x))).
      apply nth_error_Some. congruence. }
    rewrite nth_error_repeat in Hk by exact Lk. inversion Hk; subst i.
    unfold indexOf. cbn [lookupValue].
    assert (Kr : results m4 (S (S a)) (S k) = nth_error ys (S k))
      by (apply (bindResults_result ys (S (S a)) 0 m' (S k)); lia).
    cbn [Nat.add]. rewrite Kr. unfold ys. cbn [nth_error].
    now rewrite nth_error_repeat by exact Lk. }
  rewrite Rt. unfold execTransfer.
  assert (Mk : hasMask (rewrittenRead x t (S (S a))) = hasMask x)
    by reflexivity.
  rewrite Mk, M.
  cbn [rewrittenRead permutation_map source indices kind getPadding].
  rewrite Hm. cbn [negb orb]. rewrite V4, I4, K.
  assert (P4 : scalarOf m4 (getPadding x) = Some pad).
  { rewrite <- Pd. unfold scalarOf. rewrite (lookupValue_external m m4);
      [reflexivity | exact Ep |]. rewrite Ab, A'. exact A3. }
  rewrite P4.
  assert (T4 : transferRead (memory m4) (rewrittenRead x t (S (S a)))
                 (scratchView x (memory m)) (repeat 0 (getTransferRank x)) pad
               = Some vec).
  { unfold transferRead.
    rewrite (lanes_scratch x (rewrittenRead x t (S (S a))) (memory m)
               eq_refl eq_refl (eq_sym Lv)
             : lanes _ _ (repeat 0 (getTransferRank x)) = _).
    rewrite mapOpt_map_Some, Mb, M'.
    apply (scratch_load (memory m) _ vec St).
    exact (transferRead_length _ _ _ _ _ _ T). }
  rewrite T4, Mb, M', firstn_app_exact. reflexivity.
Qed.

End Transform.

(** ** Concrete runs *)

Lemma rowMajorStrides_length : forall shape,
  length (rowMajorStrides shape) = length shape.
Proof.
  induction shape as [|d shape IH]; [reflexivity|].
  cbn [rowMajorStrides length]. now rewrite IH.
Qed.

Lemma getStridesAndOffsetModel_rank : forall t strides offset,
  getStridesAndOffsetModel t = Some (strides, offset) ->
  length strides = getRank t.
Proof.
  intros t strides offset H. unfold getStridesAndOffsetModel in H.
  destruct (getLayout t) as [|off strs|c].
  - inversion H; subst. apply rowMajorStrides_length.
  - destruct (Nat.eqb_spec (length strs) (getRank t)); [|discriminate].
    inversion H; subst. assumption.
  - discriminate.
Qed.

(** C1 at a dynamic one-dimensional read: one signed comparison, no null
    result. *)
Lemma createInBoundsCond_conjunction_witness :
  isMinorIdentity (permutation_map (transfer1D TransferRead)) = true /\
  verified (transfer1D TransferRead) = true /\
  exists cond ops,
    createInBoundsCond (transfer1D TransferRead)
      (initialIR (transfer1D TransferRead))
    = Done (cond, emit ops (initialIR (transfer1D TransferRead))) /\
    length (filter isComparison ops) = 1%nat /\
    filter isComparison ops = filter isSignedLessEqual ops.
Proof.
  split; [reflexivity|]. split; [reflexivity|].
  destruct (createInBoundsCond_conjunction (transfer1D TransferRead)
              (initialIR (transfer1D TransferRead)) eq_refl eq_refl)
    as [cond [ops [Run [Cnt [Sle _]]]]].
  exists cond, ops. split; [exact Run|]. split; [|exact Sle].
  rewrite Cnt. reflexivity.
Defined.

(** C2 at a failing input: the write of [[10; 20; 30; 40]] at index 1 of a
    region of extent 3 holding [[1; 2; 3]]. The original masked write leaves
    [[1; 10; 20]]. The split under the bulk-copy strategy leaves
    [[20; 30; 3]]: the slow path copies the buffer from offset 1 to the
    region at offset 0. The split under the reissue strategy leaves
    [[1; 10; 20]]. *)
Theorem bulk_copy_write_diverges :
  let x := transfer1D TransferWrite in
  let m := machine1D [1; 2; 3] 1 in
  execOriginal x m = Some ([{| bufShape := [3]; cells := [1; 10; 20] |}], None) /\
  (exists s',
     splitFullAndPartialTransfer areCastCompatibleModel
       getStridesAndOffsetModel x (withStrategy LinalgCopy) false (initialIR x)
     = Done (success, s') /\
     execRewritten s' m
     = Some ([{| bufShape := [3]; cells := [20; 30; 3] |}], None)) /\
  (exists s',
     splitFullAndPartialTransfer areCastCompatibleModel
       getStridesAndOffsetModel x (withStrategy VectorTransfer) false
       (initialIR x)
     = Done (success, s') /\
     execRewritten s' m
     = Some ([{| bufShape := [3]; cells := [1; 10; 20] |}], None)).
Proof.
  cbv zeta. split; [vm_compute; reflexivity|].
  split; eexists; split; vm_compute; reflexivity.
Qed.

(** C3 as stated fails: over a region whose layout is not strided the split
    returns failure after it created the operations of the bounds condition
    and the scratch buffer. *)
Lemma failure_after_allocation :
  let x := transferNotStrided TransferRead in
  exists s',
    splitFullAndPartialTransfer areCastCompatibleModel
      getStridesAndOffsetModel x (withStrategy LinalgCopy) false (initialIR x)
    = Done (failure, s') /\
    matchAndRewrite areCastCompatibleModel getStridesAndOffsetModel
      (fun _ => success) (withStrategy LinalgCopy) (Some x) (initialIR x)
    = Done (failure, s') /\
    s' <> initialIR x /\
    length (block s') = 3%nat /\
    scopeEntry s'
    = [(100%nat, AllocaOp 3 (MemRefType_get [4] (ScalarType 0)) 32)].
Proof.
  cbv zeta. eexists. split; [vm_compute; reflexivity|].
  split; [vm_compute; reflexivity|].
  split; [discriminate|]. split; reflexivity.
Qed.

Lemma failure_changes_nothing_but_the_buffer_witness :
  let x := transferNotStrided TransferRead in
  exists s',
    splitFullAndPartialTransfer areCastCompatibleModel
      getStridesAndOffsetModel x (withStrategy LinalgCopy) false (initialIR x)
    = Done (failure, s') /\
    failureEffect areCastCompatibleModel getStridesAndOffsetModel x
      (initialIR x) s'.
Proof.
  cbv zeta. eexists. split; [vm_compute; reflexivity|].
  apply (failure_changes_nothing_but_the_buffer areCastCompatibleModel
           getStridesAndOffsetModel LinalgCopy false (fun _ => success)
           (initialIR (transferNotStrided TransferRead))).
  vm_compute; reflexivity.
Defined.

(** C4 at [memref<8xf32>] against [memref<4xf32>]: not cast-compatible, same
    rank, both strided; the extent becomes dynamic, stride and offset are
    shared. *)
Lemma getCastCompatibleMemRefType_cases_witness :
  let aT := MemRefType_get [8] (ScalarType 0) in
  let bT := MemRefType_get [4] (ScalarType 0) in
  areCastCompatibleModel aT bT = false /\ getRank aT = getRank bT /\
  getStridesAndOffsetModel aT = Some ([1], 0) /\
  getStridesAndOffsetModel bT = Some ([1], 0) /\
  exists resShape resStrides resOffset,
    getCastCompatibleMemRefType areCastCompatibleModel
      getStridesAndOffsetModel aT bT
    = Some (MemRefType_get_layout resShape (ScalarType 0)
              (StridedLayoutAttr resOffset resStrides)) /\
    length resShape = 1%nat /\ length resStrides = 1%nat /\
    nth 0 resShape 0 = kDynamic /\ nth 0 resStrides 0 = 1 /\
    resOffset = 0.
Proof.
  cbv zeta. repeat (split; [reflexivity|]).
  destruct (getCastCompatibleMemRefType_cases areCastCompatibleModel
              getStridesAndOffsetModel getStridesAndOffsetModel_rank
              (MemRefType_get [8] (ScalarType 0))
              (MemRefType_get [4] (ScalarType 0)))
    as [_ [_ H]].
  destruct (H eq_refl eq_refl [1] 0 [1] 0 eq_refl eq_refl)
    as [resShape [resStrides [resOffset [E [L1 [L2 [Hs [Hst Ho]]]]]]]].
  exists resShape, resStrides, resOffset.
  split; [exact E|]. split; [exact L1|]. split; [exact L2|].
  split; [apply (Hs 0%nat); repeat constructor|].
  split; [apply (Hst 0%nat); repeat constructor | exact Ho].
Defined.

(** C5 at a one-dimensional write: the view over the buffer carries the
    transfer index and the view over the region starts at zero. *)
Lemma createSubViewIntersection_views_witness :
  let x := transfer1D TransferWrite in
  isMinorIdentity (permutation_map x) = true /\ verified x = true /\
  getRank (getShapedType x) = getRank (allocaType x) /\
  createSubViewIntersection x (OpResult 3 0) (allocaType x)
    {| nextOp := 14; root := x; erased := false; block := [];
       scopeEntry := []; ifOpCell := None |}
  = Done ((OpResult 17 0, OpResult 18 0),
          {| nextOp := 19; root := x; erased := false;
             block :=
               [DimOp 14 (Arg 0) 0; DimOp 15 (OpResult 3 0) 0;
                AffineMinOp 16 [SubExpr (DimExpr 0) (DimExpr 1); DimExpr 2]
                  [OpResult 14 0; Arg 2; OpResult 15 0];
                SubViewOp 17 (OpResult 3 0) [Val (Arg 2)]
                  [Val (OpResult 16 0)] [Attr 1];
                SubViewOp 18 (Arg 0) [Attr 0] [Val (OpResult 16 0)]
                  [Attr 1]];
             scopeEntry := []; ifOpCell := None |}).
Proof.
  cbv zeta. repeat (split; [reflexivity|]).
  destruct (createSubViewIntersection_views (transfer1D TransferWrite)
              (OpResult 3 0) (allocaType (transfer1D TransferWrite))
              {| nextOp := 14; root := transfer1D TransferWrite;
                 erased := false; block := []; scopeEntry := [];
                 ifOpCell := None |} eq_refl eq_refl eq_refl) as [E _].
  rewrite E. vm_compute. reflexivity.
Defined.

(** C6 as stated fails: under the bulk-copy strategy the write is cloned
    once, not twice. *)
Lemma bulk_copy_write_cloned_once :
  let x := transfer1D TransferWrite in
  exists s',
    splitFullAndPartialTransfer areCastCompatibleModel
      getStridesAndOffsetModel x (withStrategy LinalgCopy) false (initialIR x)
    = Done (success, s') /\
    erased s' = true /\
    countTransfers (block s') = 1%nat /\
    countTransfers (block s') <> 2%nat.
Proof.
  cbv zeta. eexists. split; [vm_compute; reflexivity|].
  split; [reflexivity|]. split; [reflexivity | discriminate].
Qed.

Lemma write_split_structure_witness :
  let x := transfer1D TransferWrite in
  let s := initialIR x in
  exists s',
    splits VectorTransfer = true /\ isaWrite (root s) = true /\
    splitFullAndPartialTransfer areCastCompatibleModel
      getStridesAndOffsetModel (root s) (withStrategy VectorTransfer) false s
    = Done (success, s') /\
    erased s' = true /\
    exists cond s1 t cleanup,
      createInBoundsCond x s = Done (Some cond, s1) /\
      block s'
      = block s1 ++
        writeSplitOps x cond (OpResult (nextOp s1) 0) t (S (nextOp s1))
          cleanup /\
      countTransfers
        (writeSplitOps x cond (OpResult (nextOp s1) 0) t (S (nextOp s1))
           cleanup) = 2%nat.
Proof.
  cbv zeta.
  assert (Run : exists s',
            splitFullAndPartialTransfer areCastCompatibleModel
              getStridesAndOffsetModel
              (root (initialIR (transfer1D TransferWrite)))
              (withStrategy VectorTransfer) false
              (initialIR (transfer1D TransferWrite)) = Done (success, s'))
    by (eexists; vm_compute; reflexivity).
  destruct Run as [s' Run]. exists s'.
  split; [reflexivity|]. split; [reflexivity|]. split; [exact Run|].
  destruct (write_split_structure areCastCompatibleModel
              getStridesAndOffsetModel VectorTransfer false
              (initialIR (transfer1D TransferWrite)) s' eq_refl eq_refl Run)
    as [cond [s1 [scope [t [cleanup
         [C [_ [_ [E [_ [_ [_ [B [_ [V _]]]]]]]]]]]]]]].
  split; [exact E|]. exists cond, s1, t, cleanup.
  split; [exact C|]. split; [exact B|]. exact (proj2 (V eq_refl)).
Defined.

(** C8 at a transfer under [scf.for] and [affine.for] inside a function:
    the buffer lands at the entry of the function. *)
Lemma getAutomaticAllocationScope_walk_witness :
  let x := transferInLoops TransferRead in
  let s := initialIR x in
  chainOf x = [forOp 102; affineForOp 101; funcOp] /\
  getAutomaticAllocationScope x s = Done (funcOp, s) /\
  exists s' id,
    splitFullAndPartialTransfer areCastCompatibleModel
      getStridesAndOffsetModel x (withStrategy LinalgCopy) false s
    = Done (success, s') /\
    scopeEntry s' = [(parentId funcOp, AllocaOp id (allocaType x) 32)].
Proof.
  cbv zeta. split; [reflexivity|].
  destruct (getAutomaticAllocationScope_walk areCastCompatibleModel
              getStridesAndOffsetModel
              (initialIR (transferInLoops TransferRead)))
    as [_ [_ [_ H]]].
  destruct (H (forOp 102) (affineForOp 101) funcOp [] eq_refl eq_refl eq_refl
              eq_refl eq_refl) as [G A].
  split; [exact G|].
  assert (Run : exists s',
            splitFullAndPartialTransfer areCastCompatibleModel
              getStridesAndOffsetModel
              (root (initialIR (transferInLoops TransferRead)))
              (withStrategy LinalgCopy) false
              (initialIR (transferInLoops TransferRead)) = Done (success, s'))
    by (eexists; vm_compute; reflexivity).
  destruct Run as [s' Run]. exists s'.
  destruct (A LinalgCopy false s' eq_refl Run) as [id E].
  exists id. split; [exact Run | exact E].
Defined.

(** C10 at a read with a non-null out-parameter: the cell holds the new
    conditional, whose first result the read consumes. *)
Lemma ifOp_out_parameter_witness :
  let x := transfer1D TransferRead in
  let s := initialIR x in
  exists s',
    splitFullAndPartialTransfer areCastCompatibleModel
      getStridesAndOffsetModel (root s) (withStrategy LinalgCopy) true s
    = Done (success, s') /\
    exists id cond n th el,
      ifOpCell s' = Some (IfOp id cond n th el) /\
      source (root s') = OpResult id 0.
Proof.
  cbv zeta.
  assert (Run : exists s',
            splitFullAndPartialTransfer areCastCompatibleModel
              getStridesAndOffsetModel
              (root (initialIR (transfer1D TransferRead)))
              (withStrategy LinalgCopy) true
              (initialIR (transfer1D TransferRead)) = Done (success, s'))
    by (eexists; vm_compute; reflexivity).
  destruct Run as [s' Run]. exists s'. split; [exact Run|].
  destruct (ifOp_out_parameter areCastCompatibleModel getStridesAndOffsetModel
              LinalgCopy true (initialIR (transfer1D TransferRead))
              success s' Run) as [_ [_ [_ [_ H]]]].
  destruct (H eq_refl eq_refl eq_refl eq_refl)
    as [ops [id [cond [n [th [el [_ [_ [_ [I S]]]]]]]]]].
  exists id, cond, n, th, el. split; [exact I | exact S].
Defined.

Lemma read_split_structure_witness :
  let x := transfer2D TransferRead in
  let s := initialIR x in
  exists s' cond s1 t,
    splitFullAndPartialTransfer areCastCompatibleModel
      getStridesAndOffsetModel (root s) (withStrategy LinalgCopy) false s
    = Done (success, s') /\
    createInBoundsCond x s = Done (Some cond, s1) /\
    block s'
    = block s1 ++
      [ConstantIndexOp (S (nextOp s1)) 0;
       readConditional LinalgCopy x cond (OpResult (nextOp s1) 0) t
         (S (nextOp s1))] /\
    root s' = rewrittenRead x t (S (S (nextOp s1))).
Proof.
  cbv zeta.
  assert (Run : exists s',
            splitFullAndPartialTransfer areCastCompatibleModel
              getStridesAndOffsetModel
              (root (initialIR (transfer2D TransferRead)))
              (withStrategy LinalgCopy) false
              (initialIR (transfer2D TransferRead)) = Done (success, s'))
    by (eexists; vm_compute; reflexivity).
  destruct Run as [s' Run].
  destruct (read_split_structure areCastCompatibleModel
              getStridesAndOffsetModel LinalgCopy false
              (initialIR (transfer2D TransferRead)) s' eq_refl eq_refl Run)
    as [cond [s1 [scope [t [C [_ [_ [B [_ [_ [_ [R _]]]]]]]]]]]].
  exists s', cond, s1, t.
  split; [exact Run|]. split; [exact C|]. split; [exact B | exact R].
Defined.

Lemma compatibleFields_length : forall a b,
  compatibleFields a b = true -> length a = length b.
Proof.
  induction a as [|x a IH]; intros [|y b] H; try discriminate; [reflexivity|].
  cbn [compatibleFields] in H. apply andb_true_iff in H.
  cbn [length]. f_equal. apply IH. apply H.
Qed.

Lemma areCastCompatibleModel_rank : forall a b,
  areCastCompatibleModel a b = true -> getRank a = getRank b.
Proof.
  intros a b H. unfold areCastCompatibleModel in H.
  repeat rewrite andb_true_iff in H. destruct H as [[[_ _] H] _].
  now apply compatibleFields_length.
Qed.

Lemma split_success_equal_ranks_witness :
  let x := transfer2D TransferWrite in
  let s := initialIR x in
  exists s',
    splitFullAndPartialTransfer areCastCompatibleModel
      getStridesAndOffsetModel (root s) (withStrategy VectorTransfer) false s
    = Done (success, s') /\
    getRank (getShapedType x) = length (vectorShape (getVectorType x)) /\
    getLeadingShapedRank x = 0.
Proof.
  cbv zeta.
  assert (Run : exists s',
            splitFullAndPartialTransfer areCastCompatibleModel
              getStridesAndOffsetModel
              (root (initialIR (transfer2D TransferWrite)))
              (withStrategy VectorTransfer) false
              (initialIR (transfer2D TransferWrite)) = Done (success, s'))
    by (eexists; vm_compute; reflexivity).
  destruct Run as [s' Run]. exists s'. split; [exact Run|].
  destruct (split_success_equal_ranks areCastCompatibleModel
              getStridesAndOffsetModel VectorTransfer false
              (initialIR (transfer2D TransferWrite)) s'
              areCastCompatibleModel_rank eq_refl Run) as [E [_ L]].
  split; [exact E | exact (proj1 (L eq_refl))].
Defined.

Lemma createInBoundsCond_index_arithmetic_witness :
  let x := transfer2D TransferRead in
  exists cond s' ops,
    createInBoundsCond x (initialIR x) = Done (Some cond, s') /\
    block s' = ops /\ forallb isIndexArithmetic ops = true /\
    length (filter isComparison ops) = 2%nat /\
    length (filter isConjunction ops) = 1%nat.
Proof.
  cbv zeta.
  assert (Run : exists cond s',
            createInBoundsCond (transfer2D TransferRead)
              (initialIR (transfer2D TransferRead)) = Done (Some cond, s') /\
            length (filter isComparison (block s')) = 2%nat)
    by (do 2 eexists; vm_compute; split; reflexivity).
  destruct Run as [cond [s' [Run Two]]].
  destruct (createInBoundsCond_index_arithmetic (transfer2D TransferRead)
              (initialIR (transfer2D TransferRead)) (Some cond) s' Run)
    as [_ [ops [B [A [_ C]]]]].
  cbn [initialIR block app] in B.
  exists cond, s', ops.
  split; [exact Run|]. split; [exact B|]. split; [exact A|].
  rewrite B in Two. split; [exact Two|].
  specialize (C ltac:(discriminate)). rewrite Two in C. now inversion C.
Defined.

Lemma split_products_not_candidates_witness :
  let x := transfer2D TransferWrite in
  let s := initialIR x in
  exists s',
    splitFullAndPartialTransfer areCastCompatibleModel
      getStridesAndOffsetModel (root s) (withStrategy VectorTransfer) false s
    = Done (success, s') /\
    length (transfersIn (block s')) = 2%nat /\
    forall y, In y (transfersIn (block s')) ->
      neverRewritten areCastCompatibleModel getStridesAndOffsetModel y.
Proof.
  cbv zeta.
  assert (Run : exists s',
            splitFullAndPartialTransfer areCastCompatibleModel
              getStridesAndOffsetModel
              (root (initialIR (transfer2D TransferWrite)))
              (withStrategy VectorTransfer) false
              (initialIR (transfer2D TransferWrite)) = Done (success, s') /\
            length (transfersIn (block s')) = 2%nat)
    by (eexists; vm_compute; split; reflexivity).
  destruct Run as [s' [Run Two]]. exists s'.
  split; [exact Run|]. split; [exact Two|].
  exact (proj2 (split_products_not_candidates areCastCompatibleModel
                  getStridesAndOffsetModel VectorTransfer false
                  (initialIR (transfer2D TransferWrite)) s' (block s')
                  Run eq_refl)).
Defined.

Lemma split_verdict_witness :
  let x := transfer2D TransferRead in
  splitVerdict areCastCompatibleModel getStridesAndOffsetModel x = Succeeds /\
  exists s',
    splitFullAndPartialTransfer areCastCompatibleModel
      getStridesAndOffsetModel x (withStrategy LinalgCopy) true (initialIR x)
    = Done (success, s').
Proof.
  cbv zeta.
  assert (V : splitVerdict areCastCompatibleModel getStridesAndOffsetModel
                (transfer2D TransferRead) = Succeeds)
    by (vm_compute; reflexivity).
  split; [exact V|].
  exact (proj2 (proj2 (proj2
           (split_verdict areCastCompatibleModel getStridesAndOffsetModel
              LinalgCopy true (initialIR (transfer2D TransferRead))
              areCastCompatibleModel_rank eq_refl eq_refl))) V).
Defined.

Lemma pattern_verdict_witness :
  let x := transfer2D TransferWrite in
  exists r s',
    matchAndRewrite areCastCompatibleModel getStridesAndOffsetModel
      (fun _ => success) (withStrategy VectorTransfer) (Some x) (initialIR x)
    = Done (r, s').
Proof.
  cbv zeta.
  apply (proj2 (proj2
           (pattern_verdict areCastCompatibleModel getStridesAndOffsetModel
              (fun _ => success) VectorTransfer
              (initialIR (transfer2D TransferWrite))
              areCastCompatibleModel_rank eq_refl))).
  exists funcOp. split; reflexivity.
Defined.

Lemma write_clone_operands_witness :
  let x := transfer2D TransferWrite in
  let s := initialIR x in
  exists s' cond s1 c,
    splitFullAndPartialTransfer areCastCompatibleModel
      getStridesAndOffsetModel (root s) (withStrategy LinalgCopy) false s
    = Done (success, s') /\
    createInBoundsCond x s = Done (Some cond, s1) /\
    source c = OpResult (2 + nextOp s1) 0 /\
    indices c = map (OpResult (2 + nextOp s1)) (seq 1 2) /\
    vector c = vector x.
Proof.
  cbv zeta.
  assert (Run : exists s',
            splitFullAndPartialTransfer areCastCompatibleModel
              getStridesAndOffsetModel
              (root (initialIR (transfer2D TransferWrite)))
              (withStrategy LinalgCopy) false
              (initialIR (transfer2D TransferWrite)) = Done (success, s'))
    by (eexists; vm_compute; reflexivity).
  destruct Run as [s' Run].
  destruct (write_clone_operands areCastCompatibleModel
              getStridesAndOffsetModel LinalgCopy false
              (initialIR (transfer2D TransferWrite)) s' eq_refl eq_refl Run)
    as [cond [s1 [t [cleanup [id [c [C [_ [_ [_ [_ [_ [S [_ [I V]]]]]]]]]]]]]]].
  exists s', cond, s1, c.
  split; [exact Run|]. split; [exact C|].
  split; [apply S; simpl; intuition discriminate|].
  split.
  - apply I. repeat constructor; simpl; intuition discriminate.
  - apply V; [discriminate | simpl; intuition discriminate].
Defined.

Lemma walk_ends_at_first_non_loop_witness :
  let x := transferInTaggedLoop TransferRead in
  let s := initialIR x in
  chainOf x = [affineForOp 101] ++ whileOp 103 :: [funcOp] /\
  walkAllocationScope None (chainOf x) = Some (affineForOp 101) /\
  exists s' scope id,
    splitFullAndPartialTransfer areCastCompatibleModel
      getStridesAndOffsetModel x (withStrategy VectorTransfer) false s
    = Done (success, s') /\
    isLoop scope = true /\
    scopeEntry s' = [(parentId scope, AllocaOp id (allocaType x) 32)].
Proof.
  cbv zeta.
  assert (Run : exists s',
            splitFullAndPartialTransfer areCastCompatibleModel
              getStridesAndOffsetModel
              (root (initialIR (transferInTaggedLoop TransferRead)))
              (withStrategy VectorTransfer) false
              (initialIR (transferInTaggedLoop TransferRead))
            = Done (success, s'))
    by (eexists; vm_compute; reflexivity).
  destruct Run as [s' Run].
  destruct (walk_ends_at_first_non_loop areCastCompatibleModel
              getStridesAndOffsetModel VectorTransfer false
              (initialIR (transferInTaggedLoop TransferRead))
              [affineForOp 101] (whileOp 103) [funcOp]
              eq_refl eq_refl eq_refl) as [W [_ A]].
  split; [reflexivity|]. split; [exact W|].
  destruct (A eq_refl s' eq_refl Run) as [scope [id [_ [L E]]]].
  exists s', scope, id. split; [exact Run|]. split; [exact L | exact E].
Defined.


Lemma conditionals_well_formed_witness :
  let x := transfer2D TransferWrite in
  let s := initialIR x in
  exists s',
    splitFullAndPartialTransfer areCastCompatibleModel
      getStridesAndOffsetModel (root s) (withStrategy LinalgCopy) false s
    = Done (success, s') /\
    forall op, In op (block s') -> wellFormedIf op.
Proof.
  cbv zeta.
  assert (Run : exists s',
            splitFullAndPartialTransfer areCastCompatibleModel
              getStridesAndOffsetModel
              (root (initialIR (transfer2D TransferWrite)))
              (withStrategy LinalgCopy) false
              (initialIR (transfer2D TransferWrite)) = Done (success, s'))
    by (eexists; vm_compute; reflexivity).
  destruct Run as [s' Run]. exists s'. split; [exact Run|].
  exact (conditionals_well_formed areCastCompatibleModel
           getStridesAndOffsetModel LinalgCopy false
           (initialIR (transfer2D TransferWrite)) s' (block s')
           areCastCompatibleModel_rank eq_refl eq_refl Run eq_refl).
Defined.

Lemma fitsType_dynamic_1D : forall b off n e,
  fitsType {| buffer := b; viewOffsets := [off]; viewSizes := [n] |}
    (MemRefType_get [kDynamic] e).
Proof.
  intros b off n e. split; [reflexivity|].
  intros i d H N. unfold lookupZ in H. cbn [MemRefType_get getShape] in H.
  destruct (i <? 0); [discriminate|].
  destruct (Z.to_nat i) as [|k]; cbn [nth_error] in H.
  - inversion H; subst. contradiction.
  - destruct k; discriminate.
Qed.

Lemma read_fast_path_preserved_witness :
  let x := transfer1D TransferRead in
  let m := machine1D [1; 2; 3; 4; 5; 6; 7; 8] 2 in
  exists s',
    splitFullAndPartialTransfer areCastCompatibleModel
      getStridesAndOffsetModel x (withStrategy LinalgCopy) false (initialIR x)
    = Done (success, s') /\
    execRewritten s' m = execOriginal x m /\
    execOriginal x m = Some (memory m, Some [3; 4; 5; 6]).
Proof.
  cbv zeta.
  assert (Run : exists s',
            splitFullAndPartialTransfer areCastCompatibleModel
              getStridesAndOffsetModel
              (root (initialIR (transfer1D TransferRead)))
              (withStrategy LinalgCopy) false
              (initialIR (transfer1D TransferRead)) = Done (success, s'))
    by (eexists; vm_compute; reflexivity).
  destruct Run as [s' Run]. exists s'. split; [exact Run|].
  split; [|vm_compute; reflexivity].
  apply (read_fast_path_preserved areCastCompatibleModel
           getStridesAndOffsetModel LinalgCopy false
           (initialIR (transfer1D TransferRead)) s'
           (machine1D [1; 2; 3; 4; 5; 6; 7; 8] 2)
           {| buffer := 0; viewOffsets := [0]; viewSizes := [8] |} [2]
           areCastCompatibleModel_rank eq_refl eq_refl eq_refl eq_refl
           eq_refl eq_refl eq_refl Run eq_refl eq_refl
           (fitsType_dynamic_1D _ _ _ _)).
  - simpl. lia.
  - reflexivity.
  - vm_compute. reflexivity.
Defined.

Lemma write_fast_path_preserved_witness :
  let x := transfer1D TransferWrite in
  let m := machine1D [1; 2; 3; 4; 5; 6; 7; 8] 2 in
  exists s',
    splitFullAndPartialTransfer areCastCompatibleModel
      getStridesAndOffsetModel x (withStrategy LinalgCopy) false (initialIR x)
    = Done (success, s') /\
    execRewritten s' m = execOriginal x m /\
    execOriginal x m
    = Some ([{| bufShape := [8]; cells := [1; 2; 10; 20; 30; 40; 7; 8] |}],
            None).
Proof.
  cbv zeta.
  assert (Run : exists s',
            splitFullAndPartialTransfer areCastCompatibleModel
              getStridesAndOffsetModel
              (root (initialIR (transfer1D TransferWrite)))
              (withStrategy LinalgCopy) false
              (initialIR (transfer1D TransferWrite)) = Done (success, s'))
    by (eexists; vm_compute; reflexivity).
  destruct Run as [s' Run]. exists s'. split; [exact Run|].
  split; [|vm_compute; reflexivity].
  apply (write_fast_path_preserved areCastCompatibleModel
           getStridesAndOffsetModel LinalgCopy false
           (initialIR (transfer1D TransferWrite)) s'
           (machine1D [1; 2; 3; 4; 5; 6; 7; 8] 2)
           {| buffer := 0; viewOffsets := [0]; viewSizes := [8] |} [2]
           [10; 20; 30; 40]
           areCastCompatibleModel_rank eq_refl eq_refl eq_refl eq_refl
           eq_refl eq_refl Run eq_refl eq_refl
           (fitsType_dynamic_1D _ _ _ _)).
  - simpl. lia.
  - reflexivity.
  - reflexivity.
  - vm_compute. reflexivity.
Defined.

Lemma strategies_differ_on_slow_path_only_witness :
  let x := transfer2D TransferWrite in
  let s := initialIR x in
  exists s1' s2',
    splitFullAndPartialTransfer areCastCompatibleModel
      getStridesAndOffsetModel (root s) (withStrategy VectorTransfer) false s
    = Done (success, s1') /\
    splitFullAndPartialTransfer areCastCompatibleModel
      getStridesAndOffsetModel (root s) (withStrategy LinalgCopy) false s
    = Done (success, s2') /\
    scopeEntry s1' = scopeEntry s2' /\
    removelast (block s1') = removelast (block s2').
Proof.
  cbv zeta.
  assert (Run1 : exists s',
            splitFullAndPartialTransfer areCastCompatibleModel
              getStridesAndOffsetModel
              (root (initialIR (transfer2D TransferWrite)))
              (withStrategy VectorTransfer) false
              (initialIR (transfer2D TransferWrite)) = Done (success, s'))
    by (eexists; vm_compute; reflexivity).
  assert (Run2 : exists s',
            splitFullAndPartialTransfer areCastCompatibleModel
              getStridesAndOffsetModel
              (root (initialIR (transfer2D TransferWrite)))
              (withStrategy LinalgCopy) false
              (initialIR (transfer2D TransferWrite)) = Done (success, s'))
    by (eexists; vm_compute; reflexivity).
  destruct Run1 as [s1' Run1]. destruct Run2 as [s2' Run2].
  exists s1', s2'. split; [exact Run1|]. split; [exact Run2|].
  destruct (strategies_differ_on_slow_path_only areCastCompatibleModel
              getStridesAndOffsetModel false
              (initialIR (transfer2D TransferWrite)) s1' s2' Run1 Run2)
    as [_ [_ [S [B _]]]].
  split; [exact S | exact B].
Defined.



Lemma read_slow_path_reissue_witness :
  let x := transfer1D TransferRead in
  let m := machine1D [1; 2; 3; 4; 5; 6; 7; 8] 6 in
  exists s',
    splitFullAndPartialTransfer areCastCompatibleModel
      getStridesAndOffsetModel x (withStrategy VectorTransfer) false
      (initialIR x)
    = Done (success, s') /\
    execRewritten s' m = execOriginal x m /\
    execOriginal x m = Some (memory m, Some [7; 8; 99; 99]).
Proof.
  cbv zeta.
  assert (Run : exists s',
            splitFullAndPartialTransfer areCastCompatibleModel
              getStridesAndOffsetModel
              (root (initialIR (transfer1D TransferRead)))
              (withStrategy VectorTransfer) false
              (initialIR (transfer1D TransferRead)) = Done (success, s'))
    by (eexists; vm_compute; reflexivity).
  destruct Run as [s' Run]. exists s'. split; [exact Run|].
  split; [|vm_compute; reflexivity].
  apply (read_slow_path_reissue areCastCompatibleModel
           getStridesAndOffsetModel false
           (initialIR (transfer1D TransferRead)) s'
           (machine1D [1; 2; 3; 4; 5; 6; 7; 8] 6)
           {| buffer := 0; viewOffsets := [0]; viewSizes := [8] |} [6]
           areCastCompatibleModel_rank eq_refl eq_refl eq_refl
           eq_refl eq_refl eq_refl Run eq_refl eq_refl
           (fitsType_dynamic_1D _ _ _ _)).
  - simpl. lia.
  - reflexivity.
  - vm_compute. reflexivity.
Defined.


Lemma write_slow_path_reissue_witness :
  let x := transfer1D TransferWrite in
  let m := machine1D [1; 2; 3; 4; 5; 6; 7; 8] 6 in
  exists s',
    splitFullAndPartialTransfer areCastCompatibleModel
      getStridesAndOffsetModel x (withStrategy VectorTransfer) false
      (initialIR x)
    = Done (success, s') /\
    execRewritten s' m = execOriginal x m /\
    execOriginal x m
    = Some ([{| bufShape := [8]; cells := [1; 2; 3; 4; 5; 6; 10; 20] |}],
            None).
Proof.
  cbv zeta.
  assert (Run : exists s',
            splitFullAndPartialTransfer areCastCompatibleModel
              getStridesAndOffsetModel
              (root (initialIR (transfer1D TransferWrite)))
              (withStrategy VectorTransfer) false
              (initialIR (transfer1D TransferWrite)) = Done (success, s'))
    by (eexists; vm_compute; reflexivity).
  destruct Run as [s' Run]. exists s'. split; [exact Run|].
  split; [|vm_compute; reflexivity].
  apply (write_slow_path_reissue areCastCompatibleModel
           getStridesAndOffsetModel false
           (initialIR (transfer1D TransferWrite)) s'
           (machine1D [1; 2; 3; 4; 5; 6; 7; 8] 6)
           {| buffer := 0; viewOffsets := [0]; viewSizes := [8] |} [6]
           [10; 20; 30; 40]
           areCastCompatibleModel_rank eq_refl eq_refl eq_refl
           eq_refl eq_refl Run eq_refl eq_refl
           (fitsType_dynamic_1D _ _ _ _)).
  - simpl. lia.
  - reflexivity.
  - reflexivity.
  - vm_compute. reflexivity.
Defined.


Lemma read_slow_path_bulk_copy_witness :
  let x := transfer1D TransferRead in
  let m := machine1D [1; 2; 3] 1 in
  exists s',
    splitFullAndPartialTransfer areCastCompatibleModel
      getStridesAndOffsetModel x (withStrategy LinalgCopy) false
      (initialIR x)
    = Done (success, s') /\
    execOriginal x m = Some (memory m, Some [2; 3; 99; 99]) /\
    execRewritten s' m = Some (memory m, Some [2; 3; 99; 99]).
Proof.
  cbv zeta.
  assert (Run : exists s',
            splitFullAndPartialTransfer areCastCompatibleModel
              getStridesAndOffsetModel
              (root (initialIR (transfer1D TransferRead)))
              (withStrategy LinalgCopy) false
              (initialIR (transfer1D TransferRead)) = Done (success, s'))
    by (eexists; vm_compute; reflexivity).
  destruct Run as [s' Run]. exists s'. split; [exact Run|].
  assert (Orig : execOriginal (transfer1D TransferRead) (machine1D [1; 2; 3] 1)
                 = Some (memory (machine1D [1; 2; 3] 1), Some [2; 3; 99; 99]))
    by (vm_compute; reflexivity).
  split; [exact Orig|].
  apply (read_slow_path_bulk_copy areCastCompatibleModel
           getStridesAndOffsetModel false
           (initialIR (transfer1D TransferRead)) s'
           (machine1D [1; 2; 3] 1)
           {| buffer := 0; viewOffsets := [0]; viewSizes := [3] |} [1]
           _
           areCastCompatibleModel_rank eq_refl eq_refl eq_refl
           eq_refl eq_refl eq_refl Run eq_refl eq_refl
           (fitsType_dynamic_1D _ _ _ _) eq_refl).
  - simpl. lia.
  - reflexivity.
  - vm_compute. reflexivity.
  - exact Orig.
Defined.
